(** * Sokoban client: puzzle state engine and solver orchestration

    A shallow embedding of the TypeScript client of the Sokoban ASP solver
    ([app/components/SokobanGame.tsx] and [app/data/levels.ts]) together with
    the properties its specification states about it.

    Conventions of the embedding.
    - JavaScript numbers that hold grid coordinates, counters and horizons are
      integers in every run of the program; they are modelled by [Z] (by [nat]
      where the program only ever counts up from zero).
    - A grid cell is a one-character string in the source ([string[][]]); it is
      an [ascii] here.  ['#'] is Wall, ['x'] is Void, ['.'] is Goal and [' ']
      is Floor.
    - The component keeps its state in React [useState] cells and [useRef]
      cells.  An event handler is a function from the state of the render it
      was created in to the state after its updates were applied; handlers run
      to completion one after the other (the client is single threaded).
    - [setTimeout] callbacks and pending [await]s are data in the state: a
      counter or an optional record per timer, a list of suspended requests.
    - Level texts are ASCII; a row is a [string] and [rowStr[x]] is its
      [x]-th character.
    - The markup of the rendering, board scaling and [formatMs] (pixel sizes
      and number formatting in binary floating point) are left out.  Where
      the component rounds floating-point values ([recordTiming],
      [estimateMsForSteps]), the rounding is a parameter of the embedding.

    The first part of the file is the embedding of the source; the second
    part states and proves the properties, component by component. *)

From Stdlib Require Import ZArith Lia Bool List Ascii String.
From stdpp Require Import base option list gmap.
Import ListNotations.

Local Open Scope Z_scope.

(** ** Points, directions and grids *)

(** [interface Point { x: number; y: number }] *)
Record Point := mkPoint { px : Z; py : Z }.

(** [type MoveDirection = 'up' | 'down' | 'left' | 'right'] *)
Inductive MoveDirection := Up | Down | Left | Right.

Definition dirName (d : MoveDirection) : string :=
  match d with
  | Up => "up" | Down => "down" | Left => "left" | Right => "right"
  end%string.

(** The [delta] table of [move]. *)
Definition delta (d : MoveDirection) : Point :=
  match d with
  | Up => mkPoint 0 (-1)
  | Down => mkPoint 0 1
  | Left => mkPoint (-1) 0
  | Right => mkPoint 1 0
  end.

Abbreviation Grid := (list (list ascii)).

Definition WALL : ascii := "#"%char.
Definition VOID : ascii := "x"%char.
Definition GOAL : ascii := "."%char.
Definition FLOOR : ascii := " "%char.

(** [b.x === x && b.y === y] *)
Definition samePos (b : Point) (x y : Z) : bool := (px b =? x) && (py b =? y).

(** [Array.prototype.findIndex]; [None] stands for [-1]. *)
Fixpoint findIndex {A} (f : A -> bool) (l : list A) : option nat :=
  match l with
  | [] => None
  | a :: l' => if f a then Some O else option_map S (findIndex f l')
  end.

(** [grid[y][x]] for indices the caller has not checked: [None] is
    JavaScript's [undefined]. *)
Definition cellAt {A} (g : list (list A)) (x y : Z) : option A :=
  if (x <? 0) || (y <? 0) then None
  else match g !! Z.to_nat y with
       | Some row => row !! Z.to_nat x
       | None => None
       end.

(** The [isWall] closure of [move] (ragged grids are supported). *)
Definition isWall (grid : Grid) (x y : Z) : bool :=
  if (y <? 0) || (y >=? Z.of_nat (length grid)) then true
  else match grid !! Z.to_nat y with
       | None => true
       | Some row =>
           if (x <? 0) || (x >=? Z.of_nat (length row)) then true
           else match row !! Z.to_nat x with
                | Some c => Ascii.eqb c WALL || Ascii.eqb c VOID
                | None => false
                end
       end.

(** ** Levels: [app/data/levels.ts] *)

(** [interface ParsedLevel extends LevelConfig]: the level as written
    ([id], [name], [difficulty], the rows of [grid]) and what [parseLevel]
    derives from it. *)
Record ParsedLevel := mkParsedLevel {
  level_id : Z;
  level_name : string;
  level_difficulty : string;
  level_rows : list string;
  parsedGrid : Grid;
  initialPlayer : Point;
  initialBoxes : list Point;
  level_goals : list Point
}.

(** [interface LevelConfig] *)
Record LevelConfig := mkLevelConfig {
  config_id : Z;
  config_name : string;
  config_difficulty : string;
  config_rows : list string
}.

(** [rowStr[x] ?? ' '] *)
Definition charAt (rowStr : string) (x : nat) : ascii :=
  default FLOOR (String.get x rowStr).

(** [Math.max(...level.grid.map(r => r.length))].  For a level without rows
    the source gets [-Infinity]; no loop of [parseLevel] runs then, and [0]
    stands for it. *)
Definition levelWidth (rows : list string) : nat :=
  fold_right Nat.max O (map String.length rows).

(** The rectangular grid of raw characters, short rows padded with blanks. *)
Definition rawGridOf (rows : list string) : Grid :=
  map (fun rowStr => map (charAt rowStr) (seq 0 (levelWidth rows))) rows.

(** [grid[y][x] = v] for indices inside the grid. *)
Definition setCell {A} (g : list (list A)) (x y : Z) (v : A) : list (list A) :=
  alter (fun row => <[Z.to_nat x := v]> row) (Z.to_nat y) g.

(** The working state of the flood fill: the [isVoid] matrix and the queue. *)
Record Flood := mkFlood {
  isVoid : list (list bool);
  queue : list (Z * Z)
}.

Section FloodFill.

Variable rawGrid : Grid.
Variables width height : Z.

(** [rawGrid[y][x] === ' '] *)
Definition isBlank (x y : Z) : bool :=
  match cellAt rawGrid x y with
  | Some c => Ascii.eqb c " "
  | None => false
  end.

(** The [enqueueIfVoidSpace] closure. *)
Definition enqueueIfVoidSpace (st : Flood) (x y : Z) : Flood :=
  if (x <? 0) || (x >=? width) || (y <? 0) || (y >=? height) then st
  else if default false (cellAt (isVoid st) x y) then st
  else if negb (isBlank x y) then st
  else mkFlood (setCell (isVoid st) x y true) (queue st ++ [(x, y)]).

(** The two seeding loops over the outer ring. *)
Definition seedTopBottom (st : Flood) : Flood :=
  fold_left (fun st x =>
               enqueueIfVoidSpace (enqueueIfVoidSpace st (Z.of_nat x) 0)
                                  (Z.of_nat x) (height - 1))
            (seq 0 (Z.to_nat width)) st.

Definition seedLeftRight (st : Flood) : Flood :=
  fold_left (fun st y =>
               enqueueIfVoidSpace (enqueueIfVoidSpace st 0 (Z.of_nat y))
                                  (width - 1) (Z.of_nat y))
            (seq 0 (Z.to_nat height)) st.

(** One turn of [while (queue.length > 0)]: the head of the queue is taken
    off and its four neighbours are offered. *)
Definition floodStep (st : Flood) : option Flood :=
  match queue st with
  | [] => None
  | (x, y) :: rest =>
      let st0 := mkFlood (isVoid st) rest in
      let st1 := enqueueIfVoidSpace st0 (x - 1) y in
      let st2 := enqueueIfVoidSpace st1 (x + 1) y in
      let st3 := enqueueIfVoidSpace st2 x (y - 1) in
      Some (enqueueIfVoidSpace st3 x (y + 1))
  end.

(** The loop, with a bound on its number of turns. *)
Fixpoint floodLoop (fuel : nat) (st : Flood) : Flood :=
  match fuel with
  | O => st
  | S fuel' =>
      match floodStep st with
      | None => st
      | Some st' => floodLoop fuel' st'
      end
  end.

End FloodFill.

(** The flood fill of [parseLevel].  A cell enters the queue only when it is
    marked, and it is marked once, so [height * width] turns empty the queue
    (lemma [floodFill_spec] below). *)
Definition floodFill (rawGrid : Grid) (width height : nat) : Flood :=
  let w := Z.of_nat width in
  let h := Z.of_nat height in
  let start := mkFlood (replicate height (replicate width false)) [] in
  floodLoop rawGrid w h (height * width)
    (seedLeftRight rawGrid w h (seedTopBottom rawGrid w h start)).

(** What the translation loop has collected so far. *)
Record Parsed := mkParsed {
  out_grid : Grid;
  out_player : Point;
  out_boxes : list Point;
  out_goals : list Point
}.

(** The body of the inner translation loop: the cell pushed onto the current
    row, and the entities recorded. *)
Definition translateCell (rawGrid : Grid) (void : list (list bool))
    (y x : nat) (st : list ascii * Parsed) : list ascii * Parsed :=
  let (gridRow, acc) := st in
  let pt := mkPoint (Z.of_nat x) (Z.of_nat y) in
  let char := default FLOOR (cellAt rawGrid (Z.of_nat x) (Z.of_nat y)) in
  if Ascii.eqb char " " && default false (cellAt void (Z.of_nat x) (Z.of_nat y))
  then (gridRow ++ [VOID], acc)
  else
    (if Ascii.eqb char "#" then (gridRow ++ [WALL], acc)
     else if Ascii.eqb char " " then (gridRow ++ [FLOOR], acc)
     else if Ascii.eqb char "." then
       (gridRow ++ [GOAL],
        mkParsed (out_grid acc) (out_player acc) (out_boxes acc) (out_goals acc ++ [pt]))
     else if Ascii.eqb char "@" then
       (gridRow ++ [FLOOR],
        mkParsed (out_grid acc) pt (out_boxes acc) (out_goals acc))
     else if Ascii.eqb char "$" then
       (gridRow ++ [FLOOR],
        mkParsed (out_grid acc) (out_player acc) (out_boxes acc ++ [pt]) (out_goals acc))
     else if Ascii.eqb char "*" then
       (gridRow ++ [GOAL],
        mkParsed (out_grid acc) (out_player acc) (out_boxes acc ++ [pt])
                 (out_goals acc ++ [pt]))
     else if Ascii.eqb char "+" then
       (gridRow ++ [GOAL],
        mkParsed (out_grid acc) pt (out_boxes acc) (out_goals acc ++ [pt]))
     else (gridRow ++ [FLOOR], acc))%char.

(** The body of the outer translation loop: one row. *)
Definition translateRow (rawGrid : Grid) (void : list (list bool)) (width : nat)
    (acc : Parsed) (y : nat) : Parsed :=
  let (gridRow, acc') :=
    fold_left (fun st x => translateCell rawGrid void y x st) (seq 0 width) ([], acc) in
  mkParsed (out_grid acc' ++ [gridRow]) (out_player acc') (out_boxes acc') (out_goals acc').

(** [parseLevel(level)] *)
Definition parseLevel (level : LevelConfig) : ParsedLevel :=
  let height := length (config_rows level) in
  let width := levelWidth (config_rows level) in
  let rawGrid := rawGridOf (config_rows level) in
  let void := isVoid (floodFill rawGrid width height) in
  let r := fold_left (translateRow rawGrid void width) (seq 0 height)
                     (mkParsed [] (mkPoint 0 0) [] []) in
  mkParsedLevel (config_id level) (config_name level) (config_difficulty level)
                (config_rows level) (out_grid r) (out_player r) (out_boxes r)
                (out_goals r).

(** ** Random levels: [generateRandomLevel] *)

(** The difficulty tiers [1 | 2 | 3]. *)
Inductive Difficulty := Easy | Medium | Hard.

Record GenConfig := mkGenConfig {
  cfg_width : Z;
  cfg_height : Z;
  cfg_boxes : nat;
  cfg_moves : nat
}.

(** The [configs] table. *)
Definition configs (d : Difficulty) : GenConfig :=
  match d with
  | Easy => mkGenConfig 8 7 1 30
  | Medium => mkGenConfig 10 8 2 40
  | Hard => mkGenConfig 12 10 3 50
  end.

Definition difficultyName (d : Difficulty) : string :=
  match d with Easy => "Easy" | Medium => "Medium" | Hard => "Hard" end%string.

(** [0, 1, ..., n - 1], the values of a counting [for] loop. *)
Definition upto (n : Z) : list Z := map Z.of_nat (seq 0 (Z.to_nat n)).

(** [grid[y][x] === c] *)
Definition cellIs (g : Grid) (x y : Z) (c : ascii) : bool :=
  match cellAt g x y with
  | Some c' => Ascii.eqb c' c
  | None => false
  end.

(** [[...].filter(Boolean).length] *)
Definition countTrue (l : list bool) : Z := Z.of_nat (length (filter (fun b => b = true) l)).

(** [boxes.some(b => b !== boxes[i] && b.x === x && b.y === y)]: the boxes are
    distinct objects, so [b !== box] compares indices. *)
Definition otherBoxAt (bs : list Point) (i : nat) (x y : Z) : bool :=
  existsb (fun jb => negb (Nat.eqb (fst jb) i) && samePos (snd jb) x y)
          (combine (seq 0 (length bs)) bs).

(** [goals.some(g => g.x === x && g.y === y)] and the like. *)
Definition anyAt (ps : list Point) (x y : Z) : bool :=
  existsb (fun p => samePos p x y) ps.

(** The eight neighbours, in the order of the two nested loops of
    [countWallNeighbors] ([dy] outside, [dx] inside). *)
Definition neighbours8 : list (Z * Z) :=
  [(-1, -1); (0, -1); (1, -1); (-1, 0); (1, 0); (-1, 1); (0, 1); (1, 1)].

(** [countWallNeighbors(x, y)]; the same count is [surroundingWalls] in the
    pull loop, where every index is inside the grid. *)
Definition countWallNeighbors (g : Grid) (x y : Z) : Z :=
  countTrue (map (fun d => cellIs g (x + fst d) (y + snd d) WALL) neighbours8).

(** The cells strictly inside the outer ring, row by row: the order of
    [for y = 1 .. height - 2] around [for x = 1 .. width - 2]. *)
Definition innerCells (c : GenConfig) : list (Z * Z) :=
  flat_map (fun y => map (fun x => (x, y)) (map (Z.add 1) (upto (cfg_width c - 2))))
           (map (Z.add 1) (upto (cfg_height c - 2))).

(** The bordered empty rectangle. *)
Definition borderedGrid (c : GenConfig) : Grid :=
  map (fun y =>
         map (fun x =>
                if (x =? 0) || (x =? cfg_width c - 1) || (y =? 0) || (y =? cfg_height c - 1)
                then WALL else FLOOR)
             (upto (cfg_width c)))
      (upto (cfg_height c)).

(** [Math.floor(config.width * config.height * 0.1)]: 5, 8 and 12 for the
    three tiers. *)
Definition numWalls (c : GenConfig) : nat := Z.to_nat (cfg_width c * cfg_height c / 10).

(** The [dirs] table of the pull loop. *)
Definition dirs : list Point :=
  [mkPoint 1 0; mkPoint (-1) 0; mkPoint 0 1; mkPoint 0 (-1)].

Section Generator.

(** The outcomes of [Math.random()]: [Math.floor(Math.random() * n)] at the
    [i]-th call is [rnd i mod n], so that every sequence of outcomes is some
    [rnd].  The functions below thread the number of calls made so far. *)
Variable rnd : nat -> nat.

Definition randomInt (i : nat) (n : Z) : Z := Z.of_nat (rnd i) mod n.

Variable c : GenConfig.

(** One turn of the wall loop. *)
Definition scatterWall (st : Grid * nat) : Grid * nat :=
  let (g, i) := st in
  let x := 2 + randomInt i (cfg_width c - 4) in
  let y := 2 + randomInt (S i) (cfg_height c - 4) in
  (if cellIs g x y FLOOR then setCell g x y WALL else g, S (S i)).

(** [while (goals.length < config.boxes && attempts < 100)] *)
Fixpoint placeGoals (attemptsLeft : nat) (g : Grid) (gls : list Point) (i : nat)
    : Grid * list Point * nat :=
  match attemptsLeft with
  | O => (g, gls, i)
  | S n =>
      if (length gls <? cfg_boxes c)%nat then
        let x := 2 + randomInt i (cfg_width c - 4) in
        let y := 2 + randomInt (S i) (cfg_height c - 4) in
        if cellIs g x y FLOOR && negb (anyAt gls x y) then
          let freeSpaces :=
            countTrue [cellIs g x (y - 1) FLOOR; cellIs g x (y + 1) FLOOR;
                       cellIs g (x - 1) y FLOOR; cellIs g (x + 1) y FLOOR] in
          if 2 <=? freeSpaces
          then placeGoals n (setCell g x y GOAL) (gls ++ [mkPoint x y]) (S (S i))
          else placeGoals n g gls (S (S i))
        else placeGoals n g gls (S (S i))
      else (g, gls, i)
  end.

(** The search for the player's first cell; the outer loop stops as soon
    as [player.x > 0]. *)
Fixpoint initialPlayerFrom (g : Grid) (bs : list Point) (ys : list Z) (pl : Point)
    : Point :=
  match ys with
  | [] => pl
  | y :: ys' =>
      let pl' :=
        match List.find (fun x => negb (cellIs g x y WALL) && negb (anyAt bs x y))
                        (map (Z.add 1) (upto (cfg_width c - 2))) with
        | Some x => mkPoint x y
        | None => pl
        end in
      if px pl' >? 0 then pl' else initialPlayerFrom g bs ys' pl'
  end.

(** [while (successfulMoves < config.moves && totalAttempts < config.moves * 5)] *)
Fixpoint reversePulls (g : Grid) (attemptsLeft successfulMoves : nat)
    (bs : list Point) (pl : Point) (i : nat) : list Point * Point * nat :=
  match attemptsLeft with
  | O => (bs, pl, i)
  | S n =>
      if (successfulMoves <? cfg_moves c)%nat then
        let bi := Z.to_nat (randomInt i (Z.of_nat (length bs))) in
        let di := Z.to_nat (randomInt (S i) (Z.of_nat (length dirs))) in
        match bs !! bi, dirs !! di with
        | Some box, Some dir =>
            let playerX := px box + px dir in
            let playerY := py box + py dir in
            let newBoxX := px box - px dir in
            let newBoxY := py box - py dir in
            if (newBoxX <=? 0) || (newBoxX >=? cfg_width c - 1)
               || (newBoxY <=? 0) || (newBoxY >=? cfg_height c - 1)
               || cellIs g newBoxX newBoxY WALL
               || otherBoxAt bs bi newBoxX newBoxY
               || (playerX <=? 0) || (playerX >=? cfg_width c - 1)
               || (playerY <=? 0) || (playerY >=? cfg_height c - 1)
               || cellIs g playerX playerY WALL
               || anyAt bs playerX playerY
               || (1 <? countWallNeighbors g newBoxX newBoxY)
            then reversePulls g n successfulMoves bs pl (S (S i))
            else reversePulls g n (S successfulMoves)
                   (<[bi := mkPoint newBoxX newBoxY]> bs)
                   (mkPoint playerX playerY) (S (S i))
        | _, _ => (bs, pl, S (S i))
        end
      else (bs, pl, i)
  end.

(** The condition a cell must meet to receive the box of index [bi]. *)
Definition validSpot (g : Grid) (gls bs : list Point) (bi : nat) (pl : Point)
    (x y : Z) : bool :=
  negb (cellIs g x y WALL) && negb (anyAt gls x y) && negb (otherBoxAt bs bi x y)
  && (countWallNeighbors g x y <=? 1) && negb (samePos pl x y).

(** [for (let i = 0; i < 50; i++)]: the bounded random search. *)
Fixpoint randomSpot (tries : nat) (g : Grid) (gls bs : list Point) (bi : nat)
    (pl : Point) (i : nat) : option (Z * Z) * nat :=
  match tries with
  | O => (None, i)
  | S n =>
      let rx := 1 + randomInt i (cfg_width c - 2) in
      let ry := 1 + randomInt (S i) (cfg_height c - 2) in
      if validSpot g gls bs bi pl rx ry then (Some (rx, ry), S (S i))
      else randomSpot n g gls bs bi pl (S (S i))
  end.

(** The body of [for (const box of boxes)] for the box of index [bi]. *)
Definition repairBox (g : Grid) (gls : list Point) (pl : Point)
    (st : list Point * bool * nat) (bi : nat) : list Point * bool * nat :=
  let '(bs, allBoxesValid, i) := st in
  match bs !! bi with
  | None => st
  | Some box =>
      let onGoal := anyAt gls (px box) (py box) in
      let wallNeighbors := countWallNeighbors g (px box) (py box) in
      if onGoal || (1 <? wallNeighbors) then
        match randomSpot 50 g gls bs bi pl i with
        | (Some (rx, ry), i') => (<[bi := mkPoint rx ry]> bs, false, i')
        | (None, i') =>
            match List.find (fun xy => validSpot g gls bs bi pl (fst xy) (snd xy))
                            (innerCells c) with
            | Some (x, y) => (<[bi := mkPoint x y]> bs, false, i')
            | None => (bs, false, i')
            end
        end
      else st
  end.

(** [while (!allBoxesValid && boxAttempts < 500)] *)
Fixpoint repairLoop (attemptsLeft : nat) (g : Grid) (gls : list Point) (pl : Point)
    (bs : list Point) (allBoxesValid : bool) (i : nat) : list Point * bool * nat :=
  match attemptsLeft with
  | O => (bs, allBoxesValid, i)
  | S n =>
      if allBoxesValid then (bs, allBoxesValid, i)
      else
        let '(bs', valid, i') :=
          fold_left (repairBox g gls pl) (seq 0 (length bs)) (bs, true, i) in
        repairLoop n g gls pl bs' valid i'
  end.

(** The last block: a player standing on a goal moves to the first inner
    cell that is neither wall, goal nor box. *)
Definition relocatePlayer (g : Grid) (gls bs : list Point) (pl : Point) : Point :=
  if anyAt gls (px pl) (py pl) then
    match List.find (fun xy => negb (cellIs g (fst xy) (snd xy) WALL)
                               && negb (anyAt gls (fst xy) (snd xy))
                               && negb (anyAt bs (fst xy) (snd xy)))
                    (innerCells c) with
    | Some (x, y) => mkPoint x y
    | None => pl
    end
  else pl.

End Generator.

(** [generateRandomLevel(difficulty)] from the [i]-th random outcome on.  The
    source calls itself again when the goals could not be placed; [attempts]
    bounds the number of such rounds, and [None] is a run that used them all.
    Beside the level, the result tells whether the repair loop ended with
    [allBoxesValid] set. *)
Fixpoint generateFrom (rnd : nat -> nat) (attempts : nat) (difficulty : Difficulty)
    (i : nat) : option (ParsedLevel * bool) :=
  match attempts with
  | O => None
  | S attempts' =>
      let c := configs difficulty in
      let (g0, i0) := Nat.iter (numWalls c) (scatterWall rnd c) (borderedGrid c, i) in
      let '(g, gls, i1) := placeGoals rnd c 100 g0 [] i0 in
      if (length gls <? cfg_boxes c)%nat then generateFrom rnd attempts' difficulty i1
      else
        let bs0 := gls in
        let pl0 := initialPlayerFrom c g bs0 (map (Z.add 1) (upto (cfg_height c - 2)))
                                     (mkPoint 2 2) in
        let '(bs1, pl1, i2) := reversePulls rnd c g (cfg_moves c * 5) 0 bs0 pl0 i1 in
        let '(bs, valid, _) := repairLoop rnd c 500 g gls pl1 bs1 false i2 in
        let pl := relocatePlayer c g gls bs pl1 in
        Some (mkParsedLevel (-1)
                (String.append "Random " (difficultyName difficulty))
                (difficultyName difficulty)
                (map string_of_list_ascii g) g pl bs gls,
              valid)
  end.

Definition generateRandomLevel (rnd : nat -> nat) (attempts : nat)
    (difficulty : Difficulty) : option ParsedLevel :=
  option_map fst (generateFrom rnd attempts difficulty O).

(** ** Component state *)

(** One entry of [moveHistory]. *)
Record Snapshot := mkSnapshot {
  snap_player : Point;
  snap_boxes : list Point;
  snap_moveCount : Z
}.

(** The puzzle part of the component state. *)
Record Puzzle := mkPuzzle {
  grid : Grid;
  player : Point;
  boxes : list Point;
  goals : list Point;
  moveCount : Z;
  moveHistory : list Snapshot
}.

(** [type SolverSearchLimit = '25' | '35' | '35+'] *)
Inductive SolverSearchLimit := Limit25 | Limit35 | Limit35Plus.

(** [type SolverSearchMode = 'fixed' | 'auto'] *)
Inductive SolverSearchMode := ModeFixed | ModeAuto.

Definition baseMaxStepsOf (l : SolverSearchLimit) : Z :=
  match l with Limit25 => 25 | _ => 35 end.

Definition modeOf (l : SolverSearchLimit) : SolverSearchMode :=
  match l with Limit35Plus => ModeAuto | _ => ModeFixed end.

(** [type SolvabilityCheckOpts]; every field is optional. *)
Record SolvabilityCheckOpts := mkOpts {
  hasUndo : option bool;
  maxSteps : option Z;
  mode : option SolverSearchMode;
  refreshSolution : option bool
}.

(** The [gameState] argument of a solvability query. *)
Record GameState := mkGameState {
  gs_grid : Grid;
  gs_player : Point;
  gs_boxes : list Point;
  gs_goals : list Point
}.

(** A query whose options have been completed with the defaults of the render
    that issued it ([opts?.hasUndo ?? moveHistory.length > 0] and so on). *)
Record Query := mkQuery {
  q_state : GameState;
  q_hasUndo : bool;
  q_mode : SolverSearchMode;
  q_maxSteps : Z;
  q_refreshSolution : bool;
  q_optimal : bool
}.

(** A suspended call of [checkSolvability]: what the continuation after the
    [await] has captured.  Its abort controller is named by the request id,
    since every call creates exactly one controller. *)
Record Request := mkRequest {
  req_id : nat;
  req_query : Query
}.

Inductive SolvabilityStatus :=
  StChecking | StSolvable | StUnsolvable | StUnknown | StError.

(** The references and state cells of the solvability orchestration. *)
Record Orchestrator := mkOrchestrator {
  solvabilityRequestIdRef : nat;
  abortControllerRef : option nat;
  abortedControllers : list nat;
  solvabilityDebounceTimerRef : option (Query * Z);
  inFlight : list Request;
  isCheckingSolvability : bool;
  solvabilityStatus : option SolvabilityStatus;
  cachedHintMessage : option string;
  cachedSolution : option (list string);
  cachedSolutionTooLong : bool;
  solverTimingsBySteps : gmap Z Z;
  lastSolverMs : option Z;
  lastSolverSteps : option Z
}.

(** The displayed plan. *)
Record SolutionView := mkSolutionView {
  solution : option (list string);
  currentSolutionStep : nat;
  showSolution : bool
}.

(** The alert modal; [alertTimers] counts the pending
    [setTimeout(() => setShowAlertModal(true), 600)] callbacks. *)
Record AlertState := mkAlertState {
  showAlertModal : bool;
  alertTitle : string;
  alertMessage : string;
  alertTimers : nat
}.

Inductive AutoSolveStatus := AutoIdle | AutoFinding | AutoPlaying.

Record AutoSolve := mkAutoSolve {
  autoSolveStatus : AutoSolveStatus;
  autoSolveMoves : option (list string);
  autoSolveIndex : nat;
  autoSolveTimerRef : bool
}.

(** The whole component.  [victoryTimers] counts the pending
    [setTimeout(() => setShowVictoryModal(true), 500)] callbacks: each one is
    one "solved" signal on its way to the surrounding application. *)
Record Game := mkGame {
  puzzle : Puzzle;
  orch : Orchestrator;
  view : SolutionView;
  alerts : AlertState;
  autoSolve : AutoSolve;
  showVictoryModal : bool;
  isLoading : bool;
  victoryTimers : nat;
  solverSearchLimit : SolverSearchLimit;
  solverOptimal : bool
}.

Definition solverBaseMaxSteps (g : Game) : Z := baseMaxStepsOf (solverSearchLimit g).
Definition solverMode (g : Game) : SolverSearchMode := modeOf (solverSearchLimit g).

Definition withPuzzle (g : Game) (p : Puzzle) : Game :=
  mkGame p (orch g) (view g) (alerts g) (autoSolve g) (showVictoryModal g)
         (isLoading g) (victoryTimers g) (solverSearchLimit g) (solverOptimal g).

Definition withOrch (g : Game) (o : Orchestrator) : Game :=
  mkGame (puzzle g) o (view g) (alerts g) (autoSolve g) (showVictoryModal g)
         (isLoading g) (victoryTimers g) (solverSearchLimit g) (solverOptimal g).

Definition withView (g : Game) (v : SolutionView) : Game :=
  mkGame (puzzle g) (orch g) v (alerts g) (autoSolve g) (showVictoryModal g)
         (isLoading g) (victoryTimers g) (solverSearchLimit g) (solverOptimal g).

Definition withAlerts (g : Game) (a : AlertState) : Game :=
  mkGame (puzzle g) (orch g) (view g) a (autoSolve g) (showVictoryModal g)
         (isLoading g) (victoryTimers g) (solverSearchLimit g) (solverOptimal g).

Definition withAutoSolve (g : Game) (a : AutoSolve) : Game :=
  mkGame (puzzle g) (orch g) (view g) (alerts g) a (showVictoryModal g)
         (isLoading g) (victoryTimers g) (solverSearchLimit g) (solverOptimal g).

Definition withVictoryTimers (g : Game) (n : nat) : Game :=
  mkGame (puzzle g) (orch g) (view g) (alerts g) (autoSolve g) (showVictoryModal g)
         (isLoading g) n (solverSearchLimit g) (solverOptimal g).

Definition withShowVictoryModal (g : Game) (b : bool) : Game :=
  mkGame (puzzle g) (orch g) (view g) (alerts g) (autoSolve g) b
         (isLoading g) (victoryTimers g) (solverSearchLimit g) (solverOptimal g).

(** ** Solvability orchestration: issuing queries *)

(** The options of a query, completed with the defaults that the
    [checkSolvability] closure of the render [render] reads. *)
Definition resolveQuery (render : Game) (gs : GameState)
    (opts : SolvabilityCheckOpts) : Query :=
  mkQuery gs
    (default (0 <? Z.of_nat (length (moveHistory (puzzle render)))) (hasUndo opts))
    (default (solverMode render) (mode opts))
    (default (solverBaseMaxSteps render) (maxSteps opts))
    (default false (refreshSolution opts))
    (solverOptimal render).

(** [if (abortControllerRef.current) abortControllerRef.current.abort(...)] *)
Definition abortCurrent (o : Orchestrator) : list nat :=
  match abortControllerRef o with
  | Some c => c :: abortedControllers o
  | None => abortedControllers o
  end.

(** [clearTimeout(solvabilityDebounceTimerRef.current)] and reset of the ref. *)
Definition clearDebounce (o : Orchestrator) : Orchestrator :=
  mkOrchestrator (solvabilityRequestIdRef o) (abortControllerRef o)
    (abortedControllers o) None (inFlight o) (isCheckingSolvability o)
    (solvabilityStatus o) (cachedHintMessage o) (cachedSolution o)
    (cachedSolutionTooLong o) (solverTimingsBySteps o) (lastSolverMs o)
    (lastSolverSteps o).

(** [scheduleSolvabilityCheck]: the pending timer is dropped, the request in
    flight is aborted, and a new timer holds the query. *)
Definition scheduleSolvabilityCheck (o : Orchestrator) (q : Query)
    (debounceMs : Z) : Orchestrator :=
  mkOrchestrator (solvabilityRequestIdRef o) (abortControllerRef o)
    (abortCurrent o) (Some (q, debounceMs)) (inFlight o)
    (isCheckingSolvability o) (solvabilityStatus o) (cachedHintMessage o)
    (cachedSolution o) (cachedSolutionTooLong o) (solverTimingsBySteps o)
    (lastSolverMs o) (lastSolverSteps o).

(** [checkSolvability] up to its [await]: a fresh request id, the previous
    controller aborted, a new controller installed, status and caches reset,
    and the call suspended on the oracle. *)
Definition checkSolvability (o : Orchestrator) (q : Query) : Orchestrator :=
  let requestId := S (solvabilityRequestIdRef o) in
  mkOrchestrator requestId (Some requestId) (abortCurrent o)
    (solvabilityDebounceTimerRef o) (inFlight o ++ [mkRequest requestId q])
    true (Some StChecking) None None false
    (solverTimingsBySteps o) (lastSolverMs o) (lastSolverSteps o).

(** ** Moves and undo *)

(** [newBoxes.every(box => goals.some(g => g.x === box.x && g.y === box.y))] *)
Definition isWin (bs gls : list Point) : bool :=
  forallb (fun box => existsb (fun g => samePos g (px box) (py box)) gls) bs.

Definition snapshotOf (p : Puzzle) : Snapshot :=
  mkSnapshot (player p) (boxes p) (moveCount p).

(** [saveState]: the snapshot of the current render is appended. *)
Definition saveState (p : Puzzle) : list Snapshot :=
  moveHistory p ++ [snapshotOf p].

(** [!opts?.skipSolvabilityCheck && !!solution &&
     currentSolutionStep < solution.length &&
     solution[currentSolutionStep] !== direction] *)
Definition shouldRefreshSolutionPath (v : SolutionView) (direction : MoveDirection)
    (skipSolvabilityCheck : bool) : bool :=
  negb skipSolvabilityCheck &&
  match solution v with
  | Some sol =>
      match sol !! currentSolutionStep v with
      | Some expected => negb (String.eqb expected (dirName direction))
      | None => false
      end
  | None => false
  end.

(** The tail of [move]: progress along the displayed plan. *)
Definition updateSolutionProgress (v : SolutionView) (direction : MoveDirection)
    (refresh : bool) : SolutionView :=
  match solution v with
  | Some sol =>
      match sol !! currentSolutionStep v with
      | Some expectedDirection =>
          if String.eqb expectedDirection (dirName direction)
          then mkSolutionView (solution v) (S (currentSolutionStep v)) (showSolution v)
          else if refresh then mkSolutionView None O true
          else v
      | None => v
      end
  | None => v
  end.

(** [move(direction, opts)]: the returned boolean and the next state. *)
Definition move (g : Game) (direction : MoveDirection)
    (skipSolvabilityCheck : bool) : bool * Game :=
  if showVictoryModal g || isLoading g then (false, g) else
  let p := puzzle g in
  let refresh := shouldRefreshSolutionPath (view g) direction skipSolvabilityCheck in
  let d := delta direction in
  let newX := px (player p) + px d in
  let newY := py (player p) + py d in
  if isWall (grid p) newX newY then (false, g) else
  let opts := mkOpts (Some true) (Some (solverBaseMaxSteps g)) (Some (solverMode g))
                     (Some refresh) in
  match findIndex (fun b => samePos b newX newY) (boxes p) with
  | Some boxIndex =>
      let boxNewX := newX + px d in
      let boxNewY := newY + py d in
      if (boxNewY <? 0) || (boxNewY >=? Z.of_nat (length (grid p)))
         || isWall (grid p) boxNewX boxNewY
         || existsb (fun b => samePos b boxNewX boxNewY) (boxes p)
      then (false, g)
      else
        let newBoxes := <[boxIndex := mkPoint boxNewX boxNewY]> (boxes p) in
        let g1 := withPuzzle g
                    (mkPuzzle (grid p) (mkPoint newX newY) newBoxes (goals p)
                              (moveCount p + 1) (saveState p)) in
        let g2 :=
          if isWin newBoxes (goals p)
          then withVictoryTimers g1 (S (victoryTimers g1))
          else if skipSolvabilityCheck then g1
          else withOrch g1
                 (scheduleSolvabilityCheck (orch g1)
                    (resolveQuery g
                       (mkGameState (grid p) (mkPoint newX newY) newBoxes (goals p))
                       opts)
                    (if refresh then 50 else 80)) in
        (true, withView g2 (updateSolutionProgress (view g) direction refresh))
  | None =>
      let g1 := withPuzzle g
                  (mkPuzzle (grid p) (mkPoint newX newY) (boxes p) (goals p)
                            (moveCount p + 1) (saveState p)) in
      let g2 :=
        if skipSolvabilityCheck then g1
        else withOrch g1
               (scheduleSolvabilityCheck (orch g1)
                  (resolveQuery g
                     (mkGameState (grid p) (mkPoint newX newY) (boxes p) (goals p))
                     opts)
                  (if refresh then 50 else 250)) in
      (true, withView g2 (updateSolutionProgress (view g) direction refresh))
  end.

(** [stopAutoSolve]'s effect on the auto-solve cells. *)
Definition autoSolveStopped : AutoSolve := mkAutoSolve AutoIdle None O false.

(** [undoMove] *)
Definition undoMove (g : Game) : Game :=
  let g1 := withAutoSolve g autoSolveStopped in
  let g2 := withOrch g1 (clearDebounce (orch g1)) in
  let p := puzzle g in
  match last (moveHistory p) with
  | None => g2
  | Some lastState =>
      let remainingHistory := Z.max 0 (Z.of_nat (length (moveHistory p)) - 1) in
      let q := resolveQuery g
                 (mkGameState (grid p) (snap_player lastState)
                              (snap_boxes lastState) (goals p))
                 (mkOpts (Some (0 <? remainingHistory)) (Some (solverBaseMaxSteps g))
                         (Some (solverMode g)) None) in
      withOrch
        (withPuzzle g2
           (mkPuzzle (grid p) (snap_player lastState) (snap_boxes lastState)
                     (goals p) (snap_moveCount lastState)
                     (removelast (moveHistory p))))
        (checkSolvability (orch g2) q)
  end.

(** ** Solvability orchestration: oracle responses *)

(** [solvable: true | false | null]; [SolvMissing] is a response object
    without the field (the last branch of [applyFinal]). *)
Inductive Solvable := SolvTrue | SolvFalse | SolvNull | SolvMissing.

(** [interface SolverMeta]; a field the oracle left out is [None]. *)
Record SolverMeta := mkSolverMeta {
  maxStepsUsed : option Z;
  elapsedMs : option Z
}.

(** [interface SolvabilityResult], the fields the client reads. *)
Record SolvabilityResult := mkResult {
  solvable : Solvable;
  res_error : option string;
  res_message : option string;
  res_hintMessage : option string;
  res_solution : option (list string);
  res_solver : option SolverMeta
}.

Definition MAX_SOLUTION_MOVES : Z := 250.

(** Truthiness of an optional string: [null], [undefined] and [''] are falsy. *)
Definition truthy (s : option string) : option string :=
  match s with
  | Some EmptyString => None
  | _ => s
  end.

(** [result.solution.length > MAX_SOLUTION_MOVES] *)
Definition tooLong (sol : list string) : bool :=
  MAX_SOLUTION_MOVES <? Z.of_nat (length sol).

Definition setCaches (o : Orchestrator) (st : option SolvabilityStatus)
    (hint : option string) (sol : option (list string)) (long : bool) : Orchestrator :=
  mkOrchestrator (solvabilityRequestIdRef o) (abortControllerRef o)
    (abortedControllers o) (solvabilityDebounceTimerRef o) (inFlight o)
    (isCheckingSolvability o) st hint sol long
    (solverTimingsBySteps o) (lastSolverMs o) (lastSolverSteps o).

(** The three lines [setSolution(null); setShowSolution(false);
    setCurrentSolutionStep(0)] guarded by [refreshSolution]. *)
Definition hidePlanIf (refresh : bool) (v : SolutionView) : SolutionView :=
  if refresh then mkSolutionView None O false else v.

(** [applyFinal(result)] of the call whose query is [q]. *)
Definition applyFinal (q : Query) (g : Game) (result : SolvabilityResult) : Game :=
  let o := orch g in
  (match solvable result with
  | SolvTrue =>
      let hint := match truthy (res_hintMessage result) with
                  | Some h => Some h
                  | None => cachedHintMessage o
                  end in
      let o' := match res_solution result with
                | Some sol =>
                    if tooLong sol
                    then setCaches o (Some StSolvable) hint None true
                    else setCaches o (Some StSolvable) hint (Some sol) false
                | None => setCaches o (Some StSolvable) hint None false
                end in
      let a := alerts g in
      let a' := mkAlertState false (alertTitle a) (alertMessage a) (alertTimers a) in
      let v := view g in
      let v' := if q_refreshSolution q
                then match res_solution result with
                     | Some sol =>
                         if tooLong sol then mkSolutionView None O false
                         else mkSolutionView (Some sol) O true
                     | None => mkSolutionView None O (showSolution v)
                     end
                else v in
      withView (withAlerts (withOrch g o') a') v'
  | SolvFalse =>
      let o' := setCaches o (Some StUnsolvable) None None false in
      let a := alerts g in
      let a' :=
        if q_hasUndo q
        then mkAlertState (showAlertModal a) "Deadlock!"
               (String.append
                  (default "This move makes the puzzle unsolvable."
                           (truthy (res_message result)))
                  " Try using Undo.")
               (S (alertTimers a))
        else mkAlertState (showAlertModal a) "Unsolvable!"
               (String.append
                  (default "This puzzle is unsolvable from the start."
                           (truthy (res_message result)))
                  " Try another level.")
               (S (alertTimers a)) in
      withView (withAlerts (withOrch g o') a')
               (hidePlanIf (q_refreshSolution q) (view g))
  | SolvNull =>
      withView (withOrch g (setCaches o (Some StUnknown) None None false))
               (hidePlanIf (q_refreshSolution q) (view g))
  | SolvMissing =>
      let st := match res_error result with
                | Some "Aborted" => solvabilityStatus o
                | _ => Some StError
                end in
      withView (withOrch g (setCaches o st None None false))
               (hidePlanIf (q_refreshSolution q) (view g))
  end)%string.

(** The [finally] block: only the latest request clears the busy flag. *)
Definition finallyClear (requestId : nat) (g : Game) : Game :=
  let o := orch g in
  if Nat.eqb requestId (solvabilityRequestIdRef o)
  then withOrch g
         (mkOrchestrator (solvabilityRequestIdRef o) (abortControllerRef o)
            (abortedControllers o) (solvabilityDebounceTimerRef o) (inFlight o)
            false (solvabilityStatus o) (cachedHintMessage o) (cachedSolution o)
            (cachedSolutionTooLong o) (solverTimingsBySteps o) (lastSolverMs o)
            (lastSolverSteps o))
  else g.

(** [controller.signal.aborted] for the controller of request [requestId]. *)
Definition signalAborted (o : Orchestrator) (requestId : nat) : bool :=
  existsb (Nat.eqb requestId) (abortedControllers o).

Section Responses.

(** [Math.round(old * 0.7 + ms * 0.3)].  The source evaluates it in binary
    floating point; nothing below depends on its value, so the smoothing
    function is left open. *)
Variable smooth : Z -> Z -> Z.

(** [recordTiming(result)] *)
Definition recordTiming (o : Orchestrator) (result : SolvabilityResult) : Orchestrator :=
  match res_solver result with
  | Some (mkSolverMeta (Some used) (Some ms)) =>
      let next := match solverTimingsBySteps o !! used with
                  | None => ms
                  | Some old => smooth old ms
                  end in
      mkOrchestrator (solvabilityRequestIdRef o) (abortControllerRef o)
        (abortedControllers o) (solvabilityDebounceTimerRef o) (inFlight o)
        (isCheckingSolvability o) (solvabilityStatus o) (cachedHintMessage o)
        (cachedSolution o) (cachedSolutionTooLong o)
        (<[used := next]> (solverTimingsBySteps o)) (Some ms) (Some used)
  | _ => o
  end.

(** [runOnce] after its [await]: [None] is the [null] of a discarded
    response. *)
Definition runOnce (g : Game) (requestId : nat) (result : SolvabilityResult)
    : option Game :=
  if signalAborted (orch g) requestId then None
  else if negb (Nat.eqb requestId (solvabilityRequestIdRef (orch g))) then None
  else Some (withOrch g (recordTiming (orch g) result)).

(** The continuation of [checkSolvability] once the oracle has answered
    request [r] with [result]. *)
Definition resume (g : Game) (r : Request) (result : SolvabilityResult) : Game :=
  let requestId := req_id r in
  match q_mode (req_query r) with
  | ModeFixed =>
      match runOnce g requestId result with
      | None => finallyClear requestId g
      | Some g' => finallyClear requestId (applyFinal (req_query r) g' result)
      end
  | ModeAuto =>
      if signalAborted (orch g) requestId then finallyClear requestId g
      else if negb (Nat.eqb requestId (solvabilityRequestIdRef (orch g)))
      then finallyClear requestId g
      else finallyClear requestId
             (applyFinal (req_query r)
                (withOrch g (recordTiming (orch g) result)) result)
  end.

(** ** The event loop *)

(** What can happen to the component, one handler at a time: a key press
    or a playback step, the buttons that issue a query, the three timers,
    and the answer of the oracle to a request in flight. *)
Inductive Event :=
| EvMove (direction : MoveDirection) (skipSolvabilityCheck : bool)
| EvUndo
| EvApplySolverSettings
| EvInitializeLevel (level : ParsedLevel)
| EvAutoSolve
| EvDebounceFires
| EvVictoryTimerFires
| EvAlertTimerFires
| EvResponse (requestId : nat) (result : SolvabilityResult).

Definition withInFlight (o : Orchestrator) (l : list Request) : Orchestrator :=
  mkOrchestrator (solvabilityRequestIdRef o) (abortControllerRef o)
    (abortedControllers o) (solvabilityDebounceTimerRef o) l
    (isCheckingSolvability o) (solvabilityStatus o) (cachedHintMessage o)
    (cachedSolution o) (cachedSolutionTooLong o) (solverTimingsBySteps o)
    (lastSolverMs o) (lastSolverSteps o).

(** [applySolverSettings] *)
Definition applySolverSettings (g : Game) : Game :=
  let g1 := withAutoSolve g autoSolveStopped in
  let g2 := withOrch g1 (clearDebounce (orch g1)) in
  let p := puzzle g in
  let q := resolveQuery g
             (mkGameState (grid p) (player p) (boxes p) (goals p))
             (mkOpts (Some (0 <? Z.of_nat (length (moveHistory p))))
                     (Some (solverBaseMaxSteps g)) (Some (solverMode g)) None) in
  withOrch g2 (checkSolvability (orch g2) q).

(** [initializeLevel(level)], the common end of [loadLevel],
    [loadRandomLevel] and [resetLevel]. *)
Definition initializeLevel (g : Game) (level : ParsedLevel) : Game :=
  let q := resolveQuery g
             (mkGameState (parsedGrid level) (initialPlayer level)
                          (initialBoxes level) (level_goals level))
             (mkOpts (Some false) (Some (solverBaseMaxSteps g))
                     (Some (solverMode g)) None) in
  mkGame
    (mkPuzzle (parsedGrid level) (initialPlayer level) (initialBoxes level)
              (level_goals level) 0 [])
    (checkSolvability (clearDebounce (orch g)) q)
    (mkSolutionView None O false)
    (mkAlertState false "Puzzle Unsolvable!"
                  "The current state cannot lead to a solution."
                  (alertTimers (alerts g)))
    autoSolveStopped false (isLoading g) (victoryTimers g)
    (solverSearchLimit g) (solverOptimal g).

(** [handleAutoSolve], without the cells of the hint modal: playback is
    stopped when it runs, started from a cached plan when there is one, and
    otherwise an auto-mode query is issued. *)
Definition handleAutoSolve (g : Game) : Game :=
  match autoSolveStatus (autoSolve g) with
  | AutoPlaying | AutoFinding => withAutoSolve g autoSolveStopped
  | AutoIdle =>
      match cachedSolution (orch g) with
      | Some (m :: ms) =>
          withAutoSolve
            (withView g (mkSolutionView (Some (m :: ms)) O true))
            (mkAutoSolve AutoPlaying (Some (m :: ms)) O
                         (autoSolveTimerRef (autoSolve g)))
      | _ =>
          if cachedSolutionTooLong (orch g) then withAutoSolve g autoSolveStopped
          else
            let p := puzzle g in
            let a := autoSolve g in
            let q := resolveQuery g
                       (mkGameState (grid p) (player p) (boxes p) (goals p))
                       (mkOpts (Some (0 <? Z.of_nat (length (moveHistory p))))
                               (Some 35) (Some ModeAuto) None) in
            withOrch
              (withAutoSolve g
                 (mkAutoSolve AutoFinding (autoSolveMoves a) (autoSolveIndex a)
                              (autoSolveTimerRef a)))
              (checkSolvability (orch g) q)
      end
  end.

Definition step (g : Game) (e : Event) : Game :=
  match e with
  | EvMove direction skip => snd (move g direction skip)
  | EvUndo => undoMove g
  | EvApplySolverSettings => applySolverSettings g
  | EvInitializeLevel level => initializeLevel g level
  | EvAutoSolve => handleAutoSolve g
  | EvDebounceFires =>
      match solvabilityDebounceTimerRef (orch g) with
      | Some (q, _) => withOrch g (checkSolvability (clearDebounce (orch g)) q)
      | None => g
      end
  | EvVictoryTimerFires =>
      match victoryTimers g with
      | S n => withShowVictoryModal (withVictoryTimers g n) true
      | O => g
      end
  | EvAlertTimerFires =>
      let a := alerts g in
      match alertTimers a with
      | S n => withAlerts g (mkAlertState true (alertTitle a) (alertMessage a) n)
      | O => g
      end
  | EvResponse requestId result =>
      match List.find (fun r => Nat.eqb (req_id r) requestId) (inFlight (orch g)) with
      | Some r =>
          let waiting := List.filter (fun r' => negb (Nat.eqb (req_id r') requestId))
                                     (inFlight (orch g)) in
          resume (withOrch g (withInFlight (orch g) waiting)) r result
      | None => g
      end
  end.

Definition run (g : Game) (es : list Event) : Game := fold_left step es g.

End Responses.

From Stdlib Require Import DecimalString.
From stdpp Require Import sorting.
Local Open Scope Z_scope.

(** * Further parts of the client and of the reference server

    The rest of [SokobanGame.tsx] (the hint modal, the solution helper, the
    playback of a plan, the level navigation, the heads-up counter, the
    content of a cell of the board and the time estimate), the transport
    layer [app/lib/api.ts], the game logic that the unit tests extract from
    the component ([app/lib/gameLogic.test.ts]), the win check of the
    reference server, and the loader of the first client ([levels.js]).

    Conventions, beside those above.
    - The texts of the hint modal are kept byte for byte as the source file
      has them.
    - An effect ([useEffect]) is a function of the state of the render it
      runs after.  React runs the body when a dependency has changed; the
      event loop below lets it run at any time, which can only add
      behaviours.
    - Disabled buttons are not modelled: a handler may run in any state.
    - [Math.log], [Math.pow] and [Math.round] work on binary floating-point
      numbers; where a function uses them, they are parameters of the
      embedding and nothing is said about their values. *)

(** [`${n}`] for an integer [n]. *)
Definition decimal (n : Z) : string := NilZero.string_of_int (Z.to_int n).

(** ** The game logic of the unit tests: [app/lib/gameLogic.test.ts] *)

(** [grid[0].length]; the tests below read it only after [newY] was found
    inside the grid, so that [grid[0]] exists. *)
Definition firstRowLength (grid : Grid) : Z :=
  match grid with
  | row :: _ => Z.of_nat (length row)
  | [] => 0
  end.

(** [canMove(player, direction, grid, boxes)] *)
Definition canMove (player : Point) (direction : MoveDirection) (grid : Grid)
    (boxes : list Point) : bool :=
  let d := delta direction in
  let newX := px player + px d in
  let newY := py player + py d in
  if (newY <? 0) || (newY >=? Z.of_nat (length grid)) || (newX <? 0)
     || (newX >=? firstRowLength grid) then false
  else if cellIs grid newX newY WALL then false
  else
    match findIndex (fun b => samePos b newX newY) boxes with
    | Some _ =>
        let boxNewX := newX + px d in
        let boxNewY := newY + py d in
        if (boxNewY <? 0) || (boxNewY >=? Z.of_nat (length grid))
           || (boxNewX <? 0) || (boxNewX >=? firstRowLength grid)
           || cellIs grid boxNewX boxNewY WALL
           || existsb (fun b => samePos b boxNewX boxNewY) boxes
        then false else true
    | None => true
    end.

(** [executeMove(state, direction)] *)
Definition executeMove (state : GameState) (direction : MoveDirection) : GameState :=
  let d := delta direction in
  let newX := px (gs_player state) + px d in
  let newY := py (gs_player state) + py d in
  let newBoxes :=
    match findIndex (fun b => samePos b newX newY) (gs_boxes state) with
    | Some boxIndex => <[boxIndex := mkPoint (newX + px d) (newY + py d)]> (gs_boxes state)
    | None => gs_boxes state
    end in
  mkGameState (gs_grid state) (mkPoint newX newY) newBoxes (gs_goals state).

(** [isWinCondition(boxes, goals)] *)
Definition isWinCondition (boxes goals : list Point) : bool :=
  forallb (fun box => existsb (fun g => samePos g (px box) (py box)) goals) boxes.

(** ** The win check of the reference server: [POST /api/validate-solution] *)

(** The body of the response. *)
Record Validation := mkValidation {
  val_solved : bool;
  val_boxesOnGoals : nat;
  val_totalGoals : nat
}.

Definition validateSolution (boxes goals : list Point) : Validation :=
  let goalsWithBoxes :=
    List.filter (fun goal => existsb (fun box => samePos box (px goal) (py goal)) boxes)
                goals in
  mkValidation (Nat.eqb (length goalsWithBoxes) (length goals) && (0 <? length goals)%nat)
               (length goalsWithBoxes) (length goals).

(** ** The transport layer: [SokobanAPI.checkSolvable] of [app/lib/api.ts] *)

(** An exception, as far as the [catch] block reads it. *)
Record Thrown := mkThrown {
  thrown_name : string;
  thrown_message : string
}.

(** What [response.json()] gives: the parsed body or an exception. *)
Inductive JsonBody :=
| JsonValue (result : SolvabilityResult)
| JsonThrows (error : Thrown).

(** What [fetch] gives: a response with its [ok] flag, its status and its
    body, or an exception (network failure, abort). *)
Inductive FetchOutcome :=
| FetchResponds (ok : bool) (status : Z) (body : JsonBody)
| FetchThrows (error : Thrown).

(** [checkSolvable(gameState, signal)] as a function of what the network
    does; [signalAborted] is [signal?.aborted] when the [catch] block runs. *)
Definition checkSolvable (signalAborted : bool) (outcome : FetchOutcome)
    : SolvabilityResult :=
  let caught (error : Thrown) :=
    if signalAborted || String.eqb (thrown_name error) "AbortError"
    then mkResult SolvNull (Some "Aborted"%string) None None None None
    else mkResult SolvNull (Some (thrown_message error)) None None None None in
  match outcome with
  | FetchResponds ok status body =>
      if negb ok
      then mkResult SolvNull (Some (String.append "HTTP " (decimal status)))
                    None None None None
      else match body with
           | JsonValue result => result
           | JsonThrows error => caught error
           end
  | FetchThrows error => caught error
  end.

(** ** The heads-up counter *)

(** [boxes.filter(b => goals.some(g => g.x === b.x && g.y === b.y)).length] *)
Definition boxesOnGoals (p : Puzzle) : nat :=
  length (List.filter (fun b => existsb (fun g => samePos g (px b) (py b)) (goals p))
                      (boxes p)).

(** ** The content of a cell of the board: [getCellContent] *)

(** What the board draws in a cell: the player, a box with its [on-goal]
    class and its number, or nothing. *)
Inductive CellContent :=
| ContentPlayer
| ContentBox (isOnGoal : bool) (number : Z)
| ContentNone.

(** [getCellContent(x, y)] *)
Definition getCellContent (p : Puzzle) (x y : Z) : CellContent :=
  if samePos (player p) x y then ContentPlayer
  else
    match findIndex (fun b => samePos b x y) (boxes p) with
    | Some boxIndex =>
        ContentBox (existsb (fun g => samePos g x y) (goals p)) (Z.of_nat boxIndex + 1)
    | None => ContentNone
    end.

(** ** The loader of the first client: [parseLevel] of [levels.js] *)

(** What the first loader returns beside the level: [player] starts as
    [null]. *)
Record LegacyParsed := mkLegacyParsed {
  legacy_grid : Grid;
  legacy_player : option Point;
  legacy_boxes : list Point;
  legacy_goals : list Point
}.

(** The [switch] on the character [char] at [(x, y)]. *)
Definition legacyCell (y : nat) (st : list ascii * LegacyParsed) (xc : nat * ascii)
    : list ascii * LegacyParsed :=
  let (gridRow, acc) := st in
  let (x, char) := xc in
  let pt := mkPoint (Z.of_nat x) (Z.of_nat y) in
  (if Ascii.eqb char "#" then (gridRow ++ [WALL], acc)
   else if Ascii.eqb char " " then (gridRow ++ [FLOOR], acc)
   else if Ascii.eqb char "." then
     (gridRow ++ [GOAL],
      mkLegacyParsed (legacy_grid acc) (legacy_player acc) (legacy_boxes acc)
                     (legacy_goals acc ++ [pt]))
   else if Ascii.eqb char "@" then
     (gridRow ++ [FLOOR],
      mkLegacyParsed (legacy_grid acc) (Some pt) (legacy_boxes acc) (legacy_goals acc))
   else if Ascii.eqb char "$" then
     (gridRow ++ [FLOOR],
      mkLegacyParsed (legacy_grid acc) (legacy_player acc) (legacy_boxes acc ++ [pt])
                     (legacy_goals acc))
   else if Ascii.eqb char "*" then
     (gridRow ++ [GOAL],
      mkLegacyParsed (legacy_grid acc) (legacy_player acc) (legacy_boxes acc ++ [pt])
                     (legacy_goals acc ++ [pt]))
   else if Ascii.eqb char "+" then
     (gridRow ++ [GOAL],
      mkLegacyParsed (legacy_grid acc) (Some pt) (legacy_boxes acc)
                     (legacy_goals acc ++ [pt]))
   else (gridRow ++ [FLOOR], acc))%char.

(** The body of the outer loop: the row [y], character by character. *)
Definition legacyRow (acc : LegacyParsed) (yr : nat * string) : LegacyParsed :=
  let (y, rowStr) := yr in
  let chars := list_ascii_of_string rowStr in
  let (gridRow, acc') :=
    fold_left (legacyCell y) (combine (seq 0 (length chars)) chars) ([], acc) in
  mkLegacyParsed (legacy_grid acc' ++ [gridRow]) (legacy_player acc') (legacy_boxes acc')
                 (legacy_goals acc').

(** [parseLevel(level)] of [levels.js] *)
Definition parseLevelLegacy (level : LevelConfig) : LegacyParsed :=
  fold_left legacyRow
            (combine (seq 0 (length (config_rows level))) (config_rows level))
            (mkLegacyParsed [] None [] []).

(** ** The whole component *)

(** The hint modal. *)
Record HintModal := mkHintModal {
  showHintModal : bool;
  hintMessage : string
}.

(** The component with the cells that [Game] leaves out: the hint modal,
    [currentLevelIndex] and [currentLevel]. *)
Record Session := mkSession {
  game : Game;
  hintModal : HintModal;
  currentLevelIndex : Z;
  currentLevel : option ParsedLevel
}.

Definition withGame (s : Session) (g : Game) : Session :=
  mkSession g (hintModal s) (currentLevelIndex s) (currentLevel s).

(** [setHintMessage(msg); setShowHintModal(true)] *)
Definition showHint (s : Session) (msg : string) : Session :=
  mkSession (game s) (mkHintModal true msg) (currentLevelIndex s) (currentLevel s).

(** The texts of the hint modal. *)
Definition MSG_ALREADY_SOLVED : string := "‚úÖ Already solved (no moves needed).".
Definition MSG_CANNOT_APPLY : string :=
  String.append "‚ùå Unable to apply a solution: the found solution exceeds " (String.append (decimal MAX_SOLUTION_MOVES) " moves.").
Definition MSG_NO_USABLE : string :=
  String.append "‚ùå No usable solution within " (String.append (decimal MAX_SOLUTION_MOVES) " moves.").
Definition MSG_DEADLOCK : string := "‚ùå No solution available from this state (deadlock detected).".
Definition MSG_INVALID_MOVE : string := "‚ùå Invalid move in solution path.".
Definition MSG_PLAYBACK_STOPPED : string := "‚ùå Auto-solve stopped: current state no longer matches the cached solution path.".
Definition MSG_WAIT : string := "‚è≥ Status en cours de calcul‚Ä¶ r√©essaie dans un instant.".
Definition MSG_UNSOLVABLE_NOW : string := "‚ùå This puzzle is unsolvable from the current state. Try using Undo or Reset.".
Definition MSG_UNSOLVABLE_START : string := "‚ùå This level is unsolvable from the start. Try another level or generate a new random map.".
Definition MSG_UNKNOWN : string := "‚ö†Ô∏è Status unknown (no solution found within the current search limit). This state may still be solvable with a longer plan, or it may be unsolvable. Try exploring more moves, Undo/Reset, or request a deeper search.".
Definition MSG_HINT_TOO_LONG : string :=
  String.append "‚ö†Ô∏è A solution exists but is longer than " (String.append (decimal MAX_SOLUTION_MOVES) " moves, so it won't be shown/applied.").
Definition MSG_NO_HINT : string := "No hint available for this state.".
Definition MSG_CANNOT_SHOW : string :=
  String.append "‚ùå Unable to show solution: the solver found a plan longer than " (String.append (decimal MAX_SOLUTION_MOVES) " moves.").
Definition MSG_STATE_SOLVED : string := "‚úÖ This state is already solved.".
Definition MSG_NO_PATH : string := "No solution path available for this state.".

(** [directionEmoji[dir] || ''] *)
Definition directionEmoji (dir : string) : string :=
  if String.eqb dir "up" then "‚¨ÜÔ∏è"
  else if String.eqb dir "down" then "‚¨áÔ∏è"
  else if String.eqb dir "left" then "‚¨ÖÔ∏è"
  else if String.eqb dir "right" then "‚û°Ô∏è"
  else "".

(** [`${directionEmoji[dir] || ''} Try moving ${dir}!`] *)
Definition tryMoving (dir : string) : string :=
  String.append (directionEmoji dir)
    (String.append " Try moving " (String.append dir "!")).

(** *** Playback of a plan *)

(** [stopAutoSolve] *)
Definition stopAutoSolve (s : Session) : Session :=
  withGame s (withAutoSolve (game s) autoSolveStopped).

(** [startAutoSolveWithMoves(moves)] *)
Definition startAutoSolveWithMoves (s : Session) (moves : option (list string))
    : Session :=
  match moves with
  | None | Some [] => stopAutoSolve (showHint s MSG_ALREADY_SOLVED)
  | Some ms =>
      let g := game s in
      withGame s
        (withAutoSolve (withView g (mkSolutionView (Some ms) O true))
           (mkAutoSolve AutoPlaying (Some ms) O (autoSolveTimerRef (autoSolve g))))
  end.

(** [handleAutoSolve] with the cells of the hint modal. *)
Definition handleAutoSolve' (s : Session) : Session :=
  let g := game s in
  match autoSolveStatus (autoSolve g) with
  | AutoPlaying | AutoFinding => stopAutoSolve s
  | AutoIdle =>
      match cachedSolution (orch g) with
      | Some (m :: ms) => startAutoSolveWithMoves s (Some (m :: ms))
      | _ =>
          if cachedSolutionTooLong (orch g)
          then stopAutoSolve (showHint s MSG_CANNOT_APPLY)
          else
            let p := puzzle g in
            let a := autoSolve g in
            let q := resolveQuery g
                       (mkGameState (grid p) (player p) (boxes p) (goals p))
                       (mkOpts (Some (0 <? Z.of_nat (length (moveHistory p))))
                               (Some 35) (Some ModeAuto) None) in
            withGame s
              (withOrch
                 (withAutoSolve g
                    (mkAutoSolve AutoFinding (autoSolveMoves a) (autoSolveIndex a)
                                 (autoSolveTimerRef a)))
                 (checkSolvability (orch g) q))
      end
  end.

(** The effect on [[autoSolveStatus, cachedSolution, cachedSolutionTooLong,
    solvabilityStatus]]: when a search was asked for and its answer is in,
    playback starts or the search is given up. *)
Definition findingEffect (s : Session) : Session :=
  let g := game s in
  match autoSolveStatus (autoSolve g) with
  | AutoFinding =>
      match cachedSolution (orch g) with
      | Some (m :: ms) => startAutoSolveWithMoves s (Some (m :: ms))
      | _ =>
          if cachedSolutionTooLong (orch g)
          then stopAutoSolve (showHint s MSG_NO_USABLE)
          else
            match solvabilityStatus (orch g) with
            | Some StUnsolvable => stopAutoSolve (showHint s MSG_DEADLOCK)
            | _ => s
            end
      end
  | _ => s
  end.

(** [['up', 'down', 'left', 'right'].includes(dir)], with the direction. *)
Definition parseDirection (dir : string) : option MoveDirection :=
  if String.eqb dir "up" then Some Up
  else if String.eqb dir "down" then Some Down
  else if String.eqb dir "left" then Some Left
  else if String.eqb dir "right" then Some Right
  else None.

Definition withAutoSolveTimer (g : Game) (pending : bool) : Game :=
  let a := autoSolve g in
  withAutoSolve g (mkAutoSolve (autoSolveStatus a) (autoSolveMoves a) (autoSolveIndex a)
                               pending).

(** The playback effect on [[autoSolveStatus, autoSolveMoves, autoSolveIndex,
    showVictoryModal]]: one move of the plan is played through [moveRef]
    (the [move] of the current render, without solvability check) and the
    timer of the next step is armed. *)
Definition autoPlayEffect (s : Session) : Session :=
  let g := game s in
  match autoSolveStatus (autoSolve g) with
  | AutoPlaying =>
      match autoSolveMoves (autoSolve g) with
      | None => s
      | Some moves =>
          if showVictoryModal g then stopAutoSolve s
          else
            match moves !! autoSolveIndex (autoSolve g) with
            | None => stopAutoSolve s
            | Some dir =>
                match parseDirection dir with
                | None => stopAutoSolve (showHint s MSG_INVALID_MOVE)
                | Some direction =>
                    let (ok, g') := move g direction true in
                    if ok then withGame s (withAutoSolveTimer g' true)
                    else stopAutoSolve (showHint s MSG_PLAYBACK_STOPPED)
                end
            end
      end
  | _ => s
  end.

(** The playback effect runs again: its cleanup drops the timer, then its
    body runs. *)
Definition rerunAutoPlayEffect (s : Session) : Session :=
  autoPlayEffect (withGame s (withAutoSolveTimer (game s) false)).

(** The timer of the playback fires: [setAutoSolveIndex(prev => prev + 1)];
    the index is a dependency of the playback effect, which runs again. *)
Definition autoPlayTimerFires (s : Session) : Session :=
  let g := game s in
  let a := autoSolve g in
  if autoSolveTimerRef a
  then rerunAutoPlayEffect
         (withGame s
            (withAutoSolve g
               (mkAutoSolve (autoSolveStatus a) (autoSolveMoves a)
                            (S (autoSolveIndex a)) (autoSolveTimerRef a))))
  else s.

(** *** Keyboard *)

(** The [keyMap] of [handleKeyDown]. *)
Definition keyMap (key : string) : option MoveDirection :=
  if String.eqb key "ArrowUp" then Some Up
  else if String.eqb key "ArrowDown" then Some Down
  else if String.eqb key "ArrowLeft" then Some Left
  else if String.eqb key "ArrowRight" then Some Right
  else if String.eqb key "w" then Some Up
  else if String.eqb key "a" then Some Left
  else if String.eqb key "s" then Some Down
  else if String.eqb key "d" then Some Right
  else None.

(** [handleKeyDown(e)]: a mapped key stops the playback and moves. *)
Definition handleKeyDown (s : Session) (key : string) : Session :=
  match keyMap key with
  | Some dir =>
      let moved := snd (move (game s) dir false) in
      match autoSolveStatus (autoSolve (game s)) with
      | AutoIdle => withGame s moved
      | _ => withGame s (withAutoSolve moved autoSolveStopped)
      end
  | None => s
  end.

(** *** Levels *)

(** [initializeLevel(level)] with [setCurrentLevel(level)]. *)
Definition initializeLevel' (s : Session) (level : ParsedLevel) : Session :=
  mkSession (initializeLevel (game s) level) (hintModal s) (currentLevelIndex s)
            (Some level).

(** [loadLevel(index)] over the official levels [PARSED_LEVELS]. *)
Definition loadLevel (PARSED_LEVELS : list ParsedLevel) (s : Session) (index : Z)
    : Session :=
  if (index <? 0) || (index >=? Z.of_nat (length PARSED_LEVELS)) then s
  else
    match PARSED_LEVELS !! Z.to_nat index with
    | Some level =>
        initializeLevel'
          (mkSession (game s) (hintModal s) index (currentLevel s)) level
    | None => s
    end.

(** [loadRandomLevel(difficulty)]; [None] when the generator does not
    return. *)
Definition loadRandomLevel (rnd : nat -> nat) (attempts : nat) (s : Session)
    (difficulty : Difficulty) : option Session :=
  match generateRandomLevel rnd attempts difficulty with
  | Some lvl =>
      Some (initializeLevel'
              (mkSession (game s) (hintModal s) (-1) (currentLevel s)) lvl)
  | None => None
  end.

(** [resetLevel] *)
Definition resetLevel (s : Session) : Session :=
  let s1 := stopAutoSolve s in
  let s2 := withGame s1 (withOrch (game s1) (clearDebounce (orch (game s1)))) in
  match currentLevel s with
  | Some level => initializeLevel' s2 level
  | None => s2
  end.

(** [currentLevelIndex < PARSED_LEVELS.length - 1 ? currentLevelIndex + 1 : 0] *)
Definition nextLevelIndex (PARSED_LEVELS : list ParsedLevel) (index : Z) : Z :=
  if index <? Z.of_nat (length PARSED_LEVELS) - 1 then index + 1 else 0.

(** The "Next Level" button of the victory modal; the timer that advances
    to the next level 1.5 s after a victory runs the same three lines.  (The
    timer runs the [loadLevel] of the render that armed it; only the solver
    settings of the query it issues can be older than the state.) *)
Definition handleNextLevel (PARSED_LEVELS : list ParsedLevel) (s : Session) : Session :=
  loadLevel PARSED_LEVELS
    (withGame s (withShowVictoryModal (game s) false))
    (nextLevelIndex PARSED_LEVELS (currentLevelIndex s)).

(** *** Hints and plans *)

(** [solvabilityStatus === 'checking' || isCheckingSolvability] *)
Definition solverBusy (o : Orchestrator) : bool :=
  match solvabilityStatus o with
  | Some StChecking => true
  | _ => isCheckingSolvability o
  end.

(** The message for an unsolvable state, by [moveHistory.length > 0]. *)
Definition unsolvableMessage (p : Puzzle) : string :=
  if (0 <? length (moveHistory p))%nat then MSG_UNSOLVABLE_NOW else MSG_UNSOLVABLE_START.

(** [handleGetHint] *)
Definition handleGetHint (s : Session) : Session :=
  let o := orch (game s) in
  if solverBusy o then showHint s MSG_WAIT
  else
    match solvabilityStatus o with
    | Some StUnsolvable => showHint s (unsolvableMessage (puzzle (game s)))
    | Some StUnknown => showHint s MSG_UNKNOWN
    | _ =>
        match truthy (cachedHintMessage o) with
        | Some h => showHint s h
        | None =>
            match cachedSolution o with
            | Some (dir :: _) => showHint s (tryMoving dir)
            | _ =>
                if cachedSolutionTooLong o then showHint s MSG_HINT_TOO_LONG
                else showHint s MSG_NO_HINT
            end
        end
    end.

(** [handleGetSolution] *)
Definition handleGetSolution (s : Session) : Session :=
  let o := orch (game s) in
  if solverBusy o then showHint s MSG_WAIT
  else
    match solvabilityStatus o with
    | Some StUnsolvable => showHint s (unsolvableMessage (puzzle (game s)))
    | Some StUnknown => showHint s MSG_UNKNOWN
    | _ =>
        match cachedSolution o with
        | Some (m :: ms) =>
            withGame s (withView (game s) (mkSolutionView (Some (m :: ms)) O true))
        | Some [] =>
            if cachedSolutionTooLong o then showHint s MSG_CANNOT_SHOW
            else showHint s MSG_STATE_SOLVED
        | None =>
            if cachedSolutionTooLong o then showHint s MSG_CANNOT_SHOW
            else showHint s MSG_NO_PATH
        end
    end.

(** [toggleSolution] *)
Definition toggleSolution (s : Session) : Session :=
  let g := game s in
  let v := view g in
  if showSolution v
  then withGame s (withView g (mkSolutionView (solution v) (currentSolutionStep v) false))
  else
    match cachedSolution (orch g) with
    | Some (m :: ms) => withGame s (withView g (mkSolutionView (Some (m :: ms)) O true))
    | _ =>
        if cachedSolutionTooLong (orch g) then showHint s MSG_CANNOT_SHOW
        else handleGetSolution s
    end.

(** *** Solver settings *)

(** [setSolverSearchLimit(e.target.value)] and [setSolverOptimal(e.target.checked)] *)
Definition setSolverSearchLimit (g : Game) (l : SolverSearchLimit) : Game :=
  mkGame (puzzle g) (orch g) (view g) (alerts g) (autoSolve g) (showVictoryModal g)
         (isLoading g) (victoryTimers g) l (solverOptimal g).

Definition setSolverOptimal (g : Game) (b : bool) : Game :=
  mkGame (puzzle g) (orch g) (view g) (alerts g) (autoSolve g) (showVictoryModal g)
         (isLoading g) (victoryTimers g) (solverSearchLimit g) b.

(** [DEFAULT_ESTIMATE_MS_BY_STEPS] *)
Definition DEFAULT_ESTIMATE_MS_BY_STEPS (steps : Z) : option Z :=
  if steps =? 25 then Some 800
  else if steps =? 35 then Some 3500
  else if steps =? 45 then Some 12000
  else if steps =? 50 then Some 20000
  else if steps =? 60 then Some 40000
  else None.

(** One timing sample: [{ steps, ms }]. *)
Record Sample := mkSample { sample_steps : Z; sample_ms : Z }.

(** The comparison of [.sort((a, b) => a.steps - b.steps)]. *)
Definition stepsLe (a b : Sample) : Prop := sample_steps a <= sample_steps b.

#[global] Instance stepsLe_dec : RelDecision stepsLe :=
  fun a b => decide (sample_steps a <= sample_steps b).

(** [Object.entries(solverTimingsBySteps).map(...).filter(...).sort(...)]:
    the samples by increasing horizon.  The keys are distinct, so the order
    in which [Object.entries] lists them does not show after the sort. *)
Definition entriesOf (timings : gmap Z Z) : list Sample :=
  merge_sort stepsLe (map (fun kv => mkSample (fst kv) (snd kv)) (map_to_list timings)).

(** The [for] loop that picks the two samples of the fit: [lower] and
    [upper] start as the first and the last entry, and the first turn that
    meets one of the three tests decides. *)
Definition bracketTurn (entries : list Sample) (targetSteps : Z) (i : nat)
    : option (Sample * Sample) :=
  let n := length entries in
  match entries !! i, entries !! S i with
  | Some ei, Some ei1 =>
      if (sample_steps ei <=? targetSteps) && (targetSteps <=? sample_steps ei1) then Some (ei, ei1)
      else
        match entries !! O, entries !! 1%nat, entries !! (n - 2)%nat, entries !! (n - 1)%nat with
        | Some e0, Some e1, Some en2, Some en1 =>
            if targetSteps <? sample_steps e0 then Some (e0, e1)
            else if targetSteps >? sample_steps en1 then Some (en2, en1)
            else None
        | _, _, _, _ => None
        end
  | _, _ => None
  end.

Fixpoint bracketLoop (entries : list Sample) (targetSteps : Z) (turns : list nat)
    (start : Sample * Sample) : Sample * Sample :=
  match turns with
  | [] => start
  | i :: turns' =>
      match bracketTurn entries targetSteps i with
      | Some found => found
      | None => bracketLoop entries targetSteps turns' start
      end
  end.

Section Estimator.

(** [Math.round(base.ms * Math.pow(targetSteps / base.steps, 4))] and
    [Math.round(c * Math.pow(targetSteps, p))] for the power law through
    [lower] and [upper]. *)
Variable scaled : Z -> Z -> Z -> Z.
Variable fitted : Sample -> Sample -> Z -> Z.

(** [estimateMsForSteps(targetSteps)] *)
Definition estimateMsForSteps (timings : gmap Z Z) (targetSteps : Z) : Z :=
  match timings !! targetSteps with
  | Some direct => direct
  | None =>
      let entries := entriesOf timings in
      match entries with
      | [] =>
          match DEFAULT_ESTIMATE_MS_BY_STEPS targetSteps with
          | Some fallback => fallback
          | None =>
              let baseSteps := 35 in
              let baseMs := default 3500 (DEFAULT_ESTIMATE_MS_BY_STEPS baseSteps) in
              scaled baseMs baseSteps targetSteps
          end
      | [base] => scaled (sample_ms base) (sample_steps base) targetSteps
      | first :: _ =>
          let n := length entries in
          let start := (first, default first (entries !! (n - 1)%nat)) in
          let (lower, upper) :=
            bracketLoop entries targetSteps (seq 0 (n - 1)) start in
          fitted lower upper targetSteps
      end
  end.

End Estimator.

(** *** The event loop of the whole component *)

Section EventLoop.

Variable smooth : Z -> Z -> Z.
Variable PARSED_LEVELS : list ParsedLevel.

(** Everything that can happen to the component: the keyboard, the
    buttons, the timers, the two effects, and the answers of the oracle.
    [ClickPlay] is the level list, and with the index [0] the effect that
    loads the first level when the component is mounted; [ClickNextLevel] is
    the button of the victory modal and the timer that advances after a
    victory. *)
Inductive UIEvent :=
| KeyDown (key : string)
| ClickUndo
| ClickReset
| ClickApplySolverSettings
| ChangeSearchLimit (limit : SolverSearchLimit)
| ChangeOptimal (optimal : bool)
| ClickGetHint
| ClickGetSolution
| ClickToggleSolution
| ClickAutoSolve
| ClickCloseHint
| ClickCloseAlert
| ClickPlay (index : Z)
| ClickRandom (rnd : nat -> nat) (attempts : nat) (difficulty : Difficulty)
| ClickNextLevel
| DebounceFires
| VictoryTimerFires
| AlertTimerFires
| AutoPlayTimerFires
| RunFindingEffect
| RunAutoPlayEffect
| Response (requestId : nat) (result : SolvabilityResult).

Definition stepUI (s : Session) (e : UIEvent) : Session :=
  match e with
  | KeyDown key => handleKeyDown s key
  | ClickUndo => withGame s (undoMove (game s))
  | ClickReset => resetLevel s
  | ClickApplySolverSettings => withGame s (applySolverSettings (game s))
  | ChangeSearchLimit limit => withGame s (setSolverSearchLimit (game s) limit)
  | ChangeOptimal optimal => withGame s (setSolverOptimal (game s) optimal)
  | ClickGetHint => handleGetHint s
  | ClickGetSolution => handleGetSolution s
  | ClickToggleSolution => toggleSolution s
  | ClickAutoSolve => handleAutoSolve' s
  | ClickCloseHint =>
      mkSession (game s) (mkHintModal false (hintMessage (hintModal s)))
                (currentLevelIndex s) (currentLevel s)
  | ClickCloseAlert =>
      let a := alerts (game s) in
      withGame s (withAlerts (game s)
                    (mkAlertState false (alertTitle a) (alertMessage a) (alertTimers a)))
  | ClickPlay index => loadLevel PARSED_LEVELS s index
  | ClickRandom rnd attempts difficulty =>
      default s (loadRandomLevel rnd attempts s difficulty)
  | ClickNextLevel => handleNextLevel PARSED_LEVELS s
  | DebounceFires => withGame s (step smooth (game s) EvDebounceFires)
  | VictoryTimerFires => withGame s (step smooth (game s) EvVictoryTimerFires)
  | AlertTimerFires => withGame s (step smooth (game s) EvAlertTimerFires)
  | AutoPlayTimerFires => autoPlayTimerFires s
  | RunFindingEffect => findingEffect s
  | RunAutoPlayEffect => rerunAutoPlayEffect s
  | Response requestId result =>
      withGame s (step smooth (game s) (EvResponse requestId result))
  end.

Definition runUI (s : Session) (es : list UIEvent) : Session := fold_left stepUI es s.

End EventLoop.

(** The component when it is mounted: the initial values of its state and
    reference cells. *)
Definition mountedGame : Game :=
  mkGame (mkPuzzle [] (mkPoint 0 0) [] [] 0 [])
         (mkOrchestrator O None [] None [] false None None None false ∅ None None)
         (mkSolutionView None O false)
         (mkAlertState false "Puzzle Unsolvable!"
                       "The current state cannot lead to a solution." O)
         (mkAutoSolve AutoIdle None O false) false false O Limit35Plus false.

Definition mounted : Session :=
  mkSession mountedGame (mkHintModal false "") 0 None.

(** * Properties of moves and undo *)

(** ** Specification vocabulary *)

(** A cell the player cannot enter: outside the grid, Wall or Void. *)
Definition impassable (gr : Grid) (x y : Z) : Prop :=
  match cellAt gr x y with
  | None => True
  | Some c => c = WALL \/ c = VOID
  end.

(** Some box stands on [(x, y)]. *)
Definition boxAt (bs : list Point) (x y : Z) : Prop := In (mkPoint x y) bs.

(** The cell the player steps onto, and the cell a pushed box would reach. *)
Definition target (g : Game) (d : MoveDirection) : Point :=
  mkPoint (px (player (puzzle g)) + px (delta d)) (py (player (puzzle g)) + py (delta d)).

Definition beyond (g : Game) (d : MoveDirection) : Point :=
  mkPoint (px (target g d) + px (delta d)) (py (target g d) + py (delta d)).

(** The win predicate of the specification. *)
Definition won (bs gls : list Point) : Prop := forall b, In b bs -> In b gls.

(** [ms] played from [g], when every move is accepted. *)
Fixpoint playAll (g : Game) (ms : list (MoveDirection * bool)) : option Game :=
  match ms with
  | [] => Some g
  | (d, skip) :: ms' =>
      if fst (move g d skip) then playAll (snd (move g d skip)) ms' else None
  end.

(** ** Auxiliary facts *)

Lemma samePos_true b x y : samePos b x y = true <-> b = mkPoint x y.
Proof.
  destruct b as [bx by_]. unfold samePos. simpl.
  rewrite andb_true_iff, !Z.eqb_eq. split.
  - intros [-> ->]. reflexivity.
  - intros H. injection H. auto.
Qed.

Lemma existsb_samePos bs x y :
  existsb (fun b => samePos b x y) bs = true <-> boxAt bs x y.
Proof.
  unfold boxAt. rewrite existsb_exists. split.
  - intros [b [Hin Hb]]. apply samePos_true in Hb. subst. exact Hin.
  - intros Hin. exists (mkPoint x y). split; [exact Hin|]. apply samePos_true. reflexivity.
Qed.

Lemma isWin_won bs gls : isWin bs gls = true <-> won bs gls.
Proof.
  unfold isWin, won. rewrite forallb_forall. split.
  - intros H b Hb. specialize (H b Hb). apply existsb_exists in H.
    destruct H as [g0 [Hg0 Hs]]. apply samePos_true in Hs. destruct b. simpl in Hs.
    subst. exact Hg0.
  - intros H b Hb. apply existsb_exists. exists b. split; [auto|].
    apply samePos_true. destruct b; reflexivity.
Qed.

Lemma isWall_impassable gr x y : isWall gr x y = true <-> impassable gr x y.
Proof.
  unfold isWall, impassable, cellAt.
  destruct (Z.ltb_spec y 0) as [Hy|Hy].
  { rewrite orb_true_r. simpl. intuition congruence. }
  rewrite orb_false_r. cbn [orb].
  destruct (Z.geb_spec y (Z.of_nat (length gr))) as [Hy'|Hy'].
  { rewrite (proj2 (lookup_ge_None gr (Z.to_nat y))) by lia.
    destruct (x <? 0); cbn [orb]; intuition congruence. }
  destruct (lookup_lt_is_Some_2 gr (Z.to_nat y)) as [row Hrow]; [lia|].
  rewrite Hrow.
  destruct (Z.ltb_spec x 0) as [Hx|Hx]; cbn [orb]; [intuition congruence|].
  destruct (Z.geb_spec x (Z.of_nat (length row))) as [Hx'|Hx'].
  { rewrite (proj2 (lookup_ge_None row (Z.to_nat x))) by lia. intuition congruence. }
  destruct (lookup_lt_is_Some_2 row (Z.to_nat x)) as [c Hc]; [lia|].
  rewrite Hc, orb_true_iff. unfold WALL, VOID.
  rewrite !Ascii.eqb_eq. intuition congruence.
Qed.

Lemma isWall_false_passable gr x y :
  isWall gr x y = false <-> ~ impassable gr x y.
Proof.
  rewrite <- isWall_impassable. destruct (isWall gr x y); split; congruence.
Qed.

Lemma findIndex_None {A} (f : A -> bool) l :
  findIndex f l = None <-> forall a, In a l -> f a = false.
Proof.
  induction l as [|a l IH]; simpl.
  - split; [intros _ a []|reflexivity].
  - destruct (f a) eqn:Hfa.
    + split; [discriminate|]. intros H. specialize (H a (or_introl eq_refl)). congruence.
    + destruct (findIndex f l); simpl.
      * split; [discriminate|]. intros H.
        assert (None = Some n :> option nat); [|discriminate].
        symmetry. apply IH. intros b Hb. apply H. right. exact Hb.
      * split; [|reflexivity]. intros _ b [<-|Hb]; [exact Hfa|].
        apply (proj1 IH eq_refl). exact Hb.
Qed.

Lemma findIndex_Some {A} (f : A -> bool) l i :
  findIndex f l = Some i ->
  exists a, l !! i = Some a /\ f a = true /\
            forall j b, (j < i)%nat -> l !! j = Some b -> f b = false.
Proof.
  revert i. induction l as [|a l IH]; simpl; intros i H; [discriminate|].
  destruct (f a) eqn:Hfa.
  - injection H as <-. exists a. repeat split; auto. intros j b Hj. lia.
  - destruct (findIndex f l) as [k|] eqn:Hk; simpl in H; [|discriminate].
    injection H as <-. destruct (IH k eq_refl) as [b [Hb [Hfb Hmin]]].
    exists b. repeat split; auto.
    intros [|j] c Hj Hc; simpl in Hc.
    + injection Hc as <-. exact Hfa.
    + apply (Hmin j c); [lia|exact Hc].
Qed.

Lemma findIndex_boxAt bs x y :
  boxAt bs x y -> exists i, findIndex (fun b => samePos b x y) bs = Some i.
Proof.
  intros Hin. destruct (findIndex (fun b => samePos b x y) bs) as [i|] eqn:Hf.
  - exists i. reflexivity.
  - rewrite findIndex_None in Hf. specialize (Hf _ Hin).
    assert (samePos (mkPoint x y) x y = true) by (apply samePos_true; reflexivity).
    congruence.
Qed.

Lemma findIndex_no_box bs x y :
  ~ boxAt bs x y -> findIndex (fun b => samePos b x y) bs = None.
Proof.
  intros Hn. apply findIndex_None. intros b Hb.
  destruct (samePos b x y) eqn:Hs; [|reflexivity].
  apply samePos_true in Hs. subst. contradiction.
Qed.

(** What an accepted move does to the puzzle, whichever branch accepted it. *)
Lemma move_accepted g d skip :
  fst (move g d skip) = true ->
  let p := puzzle g in
  let p' := puzzle (snd (move g d skip)) in
  grid p' = grid p /\ goals p' = goals p /\
  player p' = target g d /\
  moveCount p' = moveCount p + 1 /\
  moveHistory p' = moveHistory p ++ [snapshotOf p] /\
  length (boxes p') = length (boxes p).
Proof.
  unfold move, target.
  destruct (showVictoryModal g || isLoading g); [discriminate|].
  destruct (isWall _ _ _); [discriminate|].
  destruct (findIndex _ _) as [i|].
  - destruct (_ || _ || _ || _); [discriminate|]. intros _.
    cbn zeta. destruct (isWin _ _); [|destruct skip]; simpl;
      rewrite ?length_insert; auto 10.
  - intros _. cbn zeta. destruct skip; simpl; auto 10.
Qed.

(** A rejected move changes nothing at all. *)
Lemma move_rejected g d skip :
  fst (move g d skip) = false -> snd (move g d skip) = g.
Proof.
  unfold move.
  destruct (showVictoryModal g || isLoading g); [reflexivity|].
  destruct (isWall _ _ _); [reflexivity|].
  destruct (findIndex _ _) as [i|].
  - destruct (_ || _ || _ || _); [reflexivity|]. discriminate.
  - discriminate.
Qed.

(** The puzzle after [undoMove] is a function of the puzzle before it. *)
Definition undoPuzzle (p : Puzzle) : Puzzle :=
  match last (moveHistory p) with
  | None => p
  | Some s => mkPuzzle (grid p) (snap_player s) (snap_boxes s) (goals p)
                       (snap_moveCount s) (removelast (moveHistory p))
  end.

Lemma puzzle_undoMove g : puzzle (undoMove g) = undoPuzzle (puzzle g).
Proof.
  unfold undoMove, undoPuzzle. destruct (last (moveHistory (puzzle g))); reflexivity.
Qed.

Lemma undoPuzzle_after_save p p' :
  grid p' = grid p -> goals p' = goals p ->
  moveHistory p' = moveHistory p ++ [snapshotOf p] ->
  undoPuzzle p' = p.
Proof.
  intros Hg Hgl Hh. unfold undoPuzzle. rewrite Hh, last_snoc, removelast_last.
  rewrite Hg, Hgl. destruct p; reflexivity.
Qed.

Lemma undo_playAll g ms g' :
  playAll g ms = Some g' ->
  puzzle (Nat.iter (length ms) undoMove g') = puzzle g.
Proof.
  revert g. induction ms as [|[d skip] ms IH]; simpl; intros g H.
  - injection H as <-. reflexivity.
  - destruct (fst (move g d skip)) eqn:Hok; [|discriminate].
    rewrite puzzle_undoMove, (IH _ H).
    destruct (move_accepted g d skip Hok) as (Hg & Hgl & _ & _ & Hh & _).
    apply undoPuzzle_after_save; assumption.
Qed.

(** ** Example states *)

(** The corridor [#@$ .#] between two wall rows: player at (1,1), a box at
    (2,1), a free floor cell at (3,1) and a goal at (4,1). *)
Definition corridorGrid : Grid :=
  [ list_ascii_of_string "######";
    list_ascii_of_string "#   .#";
    list_ascii_of_string "######" ].

Definition emptyOrchestrator : Orchestrator :=
  mkOrchestrator O None [] None [] false None None None false ∅ None None.

Definition freshGame (p : Puzzle) : Game :=
  mkGame p emptyOrchestrator (mkSolutionView None O false)
         (mkAlertState false "Puzzle Unsolvable!"
                       "The current state cannot lead to a solution." O)
         (mkAutoSolve AutoIdle None O false) false false O Limit35Plus false.

Definition corridorGame : Game :=
  freshGame (mkPuzzle corridorGrid (mkPoint 1 1) [mkPoint 2 1] [mkPoint 4 1] 0 []).

(** The same corridor with the box against the right wall. *)
Definition stuckGame : Game :=
  freshGame (mkPuzzle corridorGrid (mkPoint 3 1) [mkPoint 4 1] [mkPoint 4 1] 0 []).

(** The corridor after its box was pushed onto a goal at (3,1) and the
    victory modal came up; the cell behind the box is free floor. *)
Definition solvedGrid : Grid :=
  [ list_ascii_of_string "######";
    list_ascii_of_string "#  . #";
    list_ascii_of_string "######" ].

Definition victoryGame : Game :=
  withShowVictoryModal
    (freshGame (mkPuzzle solvedGrid (mkPoint 2 1) [mkPoint 3 1] [mkPoint 3 1] 1
                  [mkSnapshot (mkPoint 1 1) [mkPoint 2 1] 0]))
    true.

(** A level that starts with its only box on its only goal ([#@ *#]). *)
Definition presolvedGame : Game :=
  freshGame (mkPuzzle
               [ list_ascii_of_string "#####";
                 list_ascii_of_string "#  .#";
                 list_ascii_of_string "#####" ]
               (mkPoint 1 1) [mkPoint 3 1] [mkPoint 3 1] 0 []).

(** ** Rejected moves *)

(** C1.  Whenever the cell the player would step onto is Wall, Void or outside
    the grid, or holds a box whose own destination is Wall, Void, outside the
    grid or holds a box, [move] returns [false] and the component state
    (player, boxes, move counter, history and everything else) is the one it
    started from. *)
Theorem move_blocked_is_noop (g : Game) (d : MoveDirection) (skip : bool) :
  let gr := grid (puzzle g) in
  let bs := boxes (puzzle g) in
  let t := target g d in
  let b := beyond g d in
  impassable gr (px t) (py t) \/
  (boxAt bs (px t) (py t) /\ (impassable gr (px b) (py b) \/ boxAt bs (px b) (py b))) ->
  move g d skip = (false, g).
Proof.
  intros gr bs t b H. unfold move.
  destruct (showVictoryModal g || isLoading g); [reflexivity|].
  fold gr bs. change (px (player (puzzle g)) + px (delta d)) with (px t).
  change (py (player (puzzle g)) + py (delta d)) with (py t).
  destruct (isWall gr (px t) (py t)) eqn:Hw; [reflexivity|].
  apply isWall_false_passable in Hw.
  destruct H as [H|[Hbox Hdest]]; [contradiction|].
  destruct (findIndex_boxAt _ _ _ Hbox) as [i ->].
  change (px t + px (delta d)) with (px b).
  change (py t + py (delta d)) with (py b).
  assert (Hblk : isWall gr (px b) (py b)
                 || existsb (fun b0 => samePos b0 (px b) (py b)) bs = true).
  { apply orb_true_iff. destruct Hdest as [Hi|Hb].
    - left. apply isWall_impassable. exact Hi.
    - right. apply existsb_samePos. exact Hb. }
  rewrite <- !orb_assoc, Hblk, !orb_true_r. reflexivity.
Qed.

Lemma move_blocked_is_noop_witness :
  move stuckGame Right false = (false, stuckGame) /\
  move corridorGame Up true = (false, corridorGame).
Proof.
  split.
  - apply (move_blocked_is_noop stuckGame Right false).
    right. split; [left; reflexivity|]. left. vm_compute. left. reflexivity.
  - apply (move_blocked_is_noop corridorGame Up true).
    left. vm_compute. left. reflexivity.
Defined.

(** ** Accepted pushes *)

Lemma isWall_false_rows gr x y :
  isWall gr x y = false -> 0 <= y < Z.of_nat (length gr).
Proof.
  unfold isWall. destruct (Z.ltb_spec y 0); [discriminate|].
  destruct (Z.geb_spec y (Z.of_nat (length gr))); [discriminate|]. lia.
Qed.

(** [victoryGame] is what a winning push leaves behind once its victory timer
    has fired. *)
Lemma victoryGame_reached :
  let g0 := freshGame (mkPuzzle solvedGrid (mkPoint 1 1) [mkPoint 2 1] [mkPoint 3 1] 0 []) in
  let g1 := snd (move g0 Right false) in
  fst (move g0 Right false) = true /\ victoryTimers g1 = 1%nat /\
  withShowVictoryModal (withVictoryTimers g1 0) true = victoryGame.
Proof. vm_compute. auto. Qed.

(** The claim of the specification fails while the victory modal is up: the
    player faces a box whose destination is free floor inside the grid, and
    [move] refuses the push. *)
Lemma push_refused_under_victory_modal :
  boxAt (boxes (puzzle victoryGame))
        (px (target victoryGame Right)) (py (target victoryGame Right)) /\
  cellAt (grid (puzzle victoryGame))
         (px (beyond victoryGame Right)) (py (beyond victoryGame Right)) = Some FLOOR /\
  ~ boxAt (boxes (puzzle victoryGame))
          (px (beyond victoryGame Right)) (py (beyond victoryGame Right)) /\
  move victoryGame Right false = (false, victoryGame).
Proof.
  repeat split.
  - left. reflexivity.
  - intros [H|[]]. discriminate H.
Qed.

(** C2 (amended).  When neither the victory modal nor a load blocks input, the
    cell the player steps onto is inside the grid, not Wall, not Void and
    holds a box, and the cell one step further is inside the grid, not Wall,
    not Void and holds no box, then [move] returns [true]; the first box found
    on the target cell moves one cell in the direction and every other index
    of [boxes] keeps its point; the player stands on the box's old cell; the
    snapshot of the state before the move is appended to the history; the move
    counter grows by exactly one; grid and goals are untouched. *)
Theorem push_moves_exactly_one_box (g : Game) (d : MoveDirection) (skip : bool) :
  let p := puzzle g in
  let t := target g d in
  let b := beyond g d in
  showVictoryModal g = false ->
  isLoading g = false ->
  ~ impassable (grid p) (px t) (py t) ->
  boxAt (boxes p) (px t) (py t) ->
  ~ impassable (grid p) (px b) (py b) ->
  ~ boxAt (boxes p) (px b) (py b) ->
  exists (i : nat) (g' : Game),
    move g d skip = (true, g') /\
    boxes p !! i = Some t /\
    boxes (puzzle g') !! i = Some b /\
    (forall j : nat, j <> i -> boxes (puzzle g') !! j = boxes p !! j) /\
    length (boxes (puzzle g')) = length (boxes p) /\
    player (puzzle g') = t /\
    moveHistory (puzzle g') =
      moveHistory p ++ [mkSnapshot (player p) (boxes p) (moveCount p)] /\
    moveCount (puzzle g') = moveCount p + 1 /\
    grid (puzzle g') = grid p /\
    goals (puzzle g') = goals p.
Proof.
  intros p t b Hv Hl Ht Hbox Hb Hfree.
  apply isWall_false_passable in Ht, Hb.
  destruct (findIndex_boxAt _ _ _ Hbox) as [i Hi].
  destruct (findIndex_Some _ _ _ Hi) as [a [Ha [Hsa _]]].
  apply samePos_true in Hsa.
  assert (Hat : boxes p !! i = Some t).
  { rewrite Ha, Hsa. destruct t; reflexivity. }
  exists i. eexists. split.
  - unfold move. rewrite Hv, Hl. cbn [orb].
    fold p. change (px (player p) + px (delta d)) with (px t).
    change (py (player p) + py (delta d)) with (py t).
    rewrite Ht, Hi.
    change (px t + px (delta d)) with (px b).
    change (py t + py (delta d)) with (py b).
    pose proof (isWall_false_rows _ _ _ Hb) as Hrows.
    destruct (Z.ltb_spec (py b) 0); [lia|].
    destruct (Z.geb_spec (py b) (Z.of_nat (length (grid p)))); [lia|].
    rewrite Hb. cbn [orb].
    destruct (existsb (fun b0 => samePos b0 (px b) (py b)) (boxes p)) eqn:He.
    { apply existsb_samePos in He. contradiction. }
    reflexivity.
  - assert (Hlt : (i < length (boxes p))%nat) by (eapply lookup_lt_Some; exact Ha).
    assert (Hb' : mkPoint (px b) (py b) = b) by (destruct b; reflexivity).
    cbn zeta. fold p.
    destruct (isWin _ _); [|destruct skip]; cbn;
      rewrite ?Hb', ?length_insert;
      (repeat split; auto;
       [ apply list_lookup_insert_eq; exact Hlt
       | intros j Hj; apply list_lookup_insert_ne; congruence ]).
Qed.

Lemma push_moves_exactly_one_box_witness :
  exists (i : nat) (g' : Game),
    move corridorGame Right false = (true, g') /\
    boxes (puzzle corridorGame) !! i = Some (mkPoint 2 1) /\
    boxes (puzzle g') !! i = Some (mkPoint 3 1) /\
    (forall j : nat, j <> i ->
       boxes (puzzle g') !! j = boxes (puzzle corridorGame) !! j) /\
    length (boxes (puzzle g')) = length (boxes (puzzle corridorGame)) /\
    player (puzzle g') = mkPoint 2 1 /\
    moveHistory (puzzle g') = [mkSnapshot (mkPoint 1 1) [mkPoint 2 1] 0] /\
    moveCount (puzzle g') = 1 /\
    grid (puzzle g') = corridorGrid /\
    goals (puzzle g') = [mkPoint 4 1].
Proof.
  apply (push_moves_exactly_one_box corridorGame Right false).
  - reflexivity.
  - reflexivity.
  - vm_compute. intros [H|H]; discriminate H.
  - left. reflexivity.
  - vm_compute. intros [H|H]; discriminate H.
  - intros [H|[]]. discriminate H.
Defined.

(** ** Undo *)

(** C3.  After any sequence of accepted moves, as many calls of [undoMove]
    bring back the puzzle the sequence started from: player, boxes, move
    counter (and the history, grid and goals with them).  Every [undoMove]
    leaves grid and goals as they are.  On an empty history [undoMove] leaves
    the puzzle as it is and issues no solvability query; all it does is stop
    auto-solve playback and drop a pending debounce timer. *)
Theorem undo_restores_initial_state :
  (forall (g g' : Game) (ms : list (MoveDirection * bool)),
     playAll g ms = Some g' ->
     let u := Nat.iter (length ms) undoMove g' in
     player (puzzle u) = player (puzzle g) /\
     boxes (puzzle u) = boxes (puzzle g) /\
     moveCount (puzzle u) = moveCount (puzzle g) /\
     moveHistory (puzzle u) = moveHistory (puzzle g) /\
     grid (puzzle u) = grid (puzzle g) /\
     goals (puzzle u) = goals (puzzle g)) /\
  (forall g : Game,
     grid (puzzle (undoMove g)) = grid (puzzle g) /\
     goals (puzzle (undoMove g)) = goals (puzzle g)) /\
  (forall g : Game,
     moveHistory (puzzle g) = [] ->
     undoMove g = withOrch (withAutoSolve g autoSolveStopped) (clearDebounce (orch g)) /\
     puzzle (undoMove g) = puzzle g /\
     inFlight (orch (undoMove g)) = inFlight (orch g) /\
     solvabilityRequestIdRef (orch (undoMove g)) = solvabilityRequestIdRef (orch g)).
Proof.
  split; [|split].
  - intros g g' ms H u. subst u. rewrite (undo_playAll g ms g' H). auto 10.
  - intros g. rewrite puzzle_undoMove. unfold undoPuzzle.
    destruct (last (moveHistory (puzzle g))); auto.
  - intros g H. unfold undoMove. rewrite H. cbn. auto.
Qed.

Lemma undo_restores_initial_state_witness :
  (let u := Nat.iter 3 undoMove
              (snd (move (snd (move (snd (move corridorGame Right false)) Left true))
                         Right false)) in
   player (puzzle u) = mkPoint 1 1 /\
   boxes (puzzle u) = [mkPoint 2 1] /\
   moveCount (puzzle u) = 0 /\
   moveHistory (puzzle u) = []) /\
  puzzle (undoMove corridorGame) = puzzle corridorGame.
Proof.
  destruct undo_restores_initial_state as (Hplay & _ & Hempty).
  split.
  - destruct (Hplay corridorGame
                (snd (move (snd (move (snd (move corridorGame Right false)) Left true))
                           Right false))
                [(Right, false); (Left, true); (Right, false)] eq_refl)
      as (H1 & H2 & H3 & H4 & _).
    cbv zeta. auto.
  - apply (Hempty corridorGame). reflexivity.
Defined.

(** ** The solved signal *)

(** [presolvedGame] is the level [#@ *#] as [parseLevel] loads it. *)
Lemma presolvedGame_loaded :
  let lvl := parseLevel (mkLevelConfig 1 "Solved" "Easy"
                           ["#####"; "#@ *#"; "#####"]%string) in
  puzzle presolvedGame =
    mkPuzzle (parsedGrid lvl) (initialPlayer lvl) (initialBoxes lvl) (level_goals lvl) 0 [].
Proof. vm_compute. reflexivity. Qed.

(** The claim of the specification fails on a walking step: the move is
    accepted and every box of the resulting state is on a goal, yet no
    victory timer is started. *)
Lemma walking_in_won_state_sends_no_signal :
  fst (move presolvedGame Right false) = true /\
  ~ boxAt (boxes (puzzle presolvedGame))
          (px (target presolvedGame Right)) (py (target presolvedGame Right)) /\
  won (boxes (puzzle (snd (move presolvedGame Right false))))
      (goals (puzzle (snd (move presolvedGame Right false)))) /\
  victoryTimers (snd (move presolvedGame Right false)) = victoryTimers presolvedGame /\
  showVictoryModal (snd (move presolvedGame Right false)) = false.
Proof.
  repeat split.
  - intros [H|[]]. discriminate H.
  - apply isWin_won. reflexivity.
Qed.

(** C5 (amended).  An accepted push evaluates the win predicate on the boxes
    after the push against the goals, and starts exactly one victory timer
    when every box is on a goal and none otherwise.  An accepted walking step
    does not evaluate the predicate and starts no timer, and neither does a
    rejected move.  No move shows the victory modal by itself. *)
Theorem solved_signal_once_per_winning_push (g g' : Game) (d : MoveDirection)
    (skip : bool) :
  let bs := boxes (puzzle g) in
  let t := target g d in
  (move g d skip = (true, g') -> boxAt bs (px t) (py t) ->
     (won (boxes (puzzle g')) (goals (puzzle g')) ->
        victoryTimers g' = S (victoryTimers g)) /\
     (~ won (boxes (puzzle g')) (goals (puzzle g')) ->
        victoryTimers g' = victoryTimers g)) /\
  (move g d skip = (true, g') -> ~ boxAt bs (px t) (py t) ->
     victoryTimers g' = victoryTimers g) /\
  (move g d skip = (false, g') -> victoryTimers g' = victoryTimers g) /\
  showVictoryModal (snd (move g d skip)) = showVictoryModal g.
Proof.
  intros bs t. unfold move.
  destruct (showVictoryModal g || isLoading g).
  { refine (conj _ (conj _ (conj _ _))); try discriminate; [|reflexivity].
    intros H. injection H as <-. reflexivity. }
  fold bs. change (px (player (puzzle g)) + px (delta d)) with (px t).
  change (py (player (puzzle g)) + py (delta d)) with (py t).
  destruct (isWall _ _ _).
  { refine (conj _ (conj _ (conj _ _))); try discriminate; [|reflexivity].
    intros H. injection H as <-. reflexivity. }
  destruct (findIndex (fun b => samePos b (px t) (py t)) bs) as [i|] eqn:Hi.
  - assert (Hbox : boxAt bs (px t) (py t)).
    { destruct (findIndex_Some _ _ _ Hi) as [a [Ha [Hsa _]]].
      apply samePos_true in Hsa. subst a.
      apply list_elem_of_In, list_elem_of_lookup. eauto. }
    destruct (_ || _ || _ || _).
    { refine (conj _ (conj _ (conj _ _))); try discriminate; [|reflexivity].
      intros H. injection H as <-. reflexivity. }
    cbn zeta.
    destruct (isWin _ (goals (puzzle g))) eqn:Hw.
    + refine (conj _ (conj _ (conj _ _))); try discriminate.
      * intros H _. injection H as <-. split; [reflexivity|].
        intros Hn. cbn in Hn. apply isWin_won in Hw. contradiction.
      * intros _ Hn. contradiction.
      * reflexivity.
    + assert (Hnw : ~ won (<[i:=mkPoint (px t + px (delta d)) (py t + py (delta d))]> bs)
                          (goals (puzzle g))).
      { rewrite <- isWin_won. congruence. }
      refine (conj _ (conj _ (conj _ _))); try discriminate.
      * intros H _. injection H as <-. split.
        -- intros Hwon. destruct skip; cbn in Hwon; contradiction.
        -- intros _. destruct skip; reflexivity.
      * intros _ Hn. contradiction.
      * destruct skip; reflexivity.
  - assert (Hno : ~ boxAt bs (px t) (py t)).
    { intros Hin. destruct (findIndex_boxAt _ _ _ Hin) as [k Hk]. congruence. }
    cbn zeta. refine (conj _ (conj _ (conj _ _))); try discriminate.
    + intros _ Hin. contradiction.
    + intros H _. injection H as <-. destruct skip; reflexivity.
    + destruct skip; reflexivity.
Qed.

Lemma solved_signal_once_per_winning_push_witness :
  victoryTimers (snd (move (snd (move corridorGame Right false)) Right false)) = 1%nat /\
  victoryTimers (snd (move corridorGame Right false)) = 0%nat /\
  victoryTimers (snd (move presolvedGame Right false)) = 0%nat /\
  victoryTimers (snd (move stuckGame Right false)) = 0%nat.
Proof.
  pose (g1 := snd (move corridorGame Right false)).
  refine (conj _ (conj _ (conj _ _))).
  - destruct (solved_signal_once_per_winning_push g1 (snd (move g1 Right false))
                Right false) as (Hpush & _).
    apply Hpush.
    + reflexivity.
    + left. reflexivity.
    + apply isWin_won. reflexivity.
  - destruct (solved_signal_once_per_winning_push corridorGame g1 Right false)
      as (Hpush & _).
    apply Hpush.
    + reflexivity.
    + left. reflexivity.
    + rewrite <- isWin_won. discriminate.
  - destruct (solved_signal_once_per_winning_push presolvedGame
                (snd (move presolvedGame Right false)) Right false)
      as (_ & Hwalk & _).
    apply Hwalk.
    + reflexivity.
    + intros [H|[]]. discriminate H.
  - destruct (solved_signal_once_per_winning_push stuckGame
                (snd (move stuckGame Right false)) Right false)
      as (_ & _ & Hrej & _).
    apply Hrej. reflexivity.
Defined.

(** * Properties of the solvability orchestration *)

(** ** Specification vocabulary *)

(** The call that issued the latest request id is still waiting for the
    oracle. *)
Definition latestInFlight (o : Orchestrator) : Prop :=
  exists r, In r (inFlight o) /\ req_id r = solvabilityRequestIdRef o.

(** Nothing cached is readable: no hint, no plan, no too-long flag, and the
    status says that a check is running. *)
Definition cachesEmpty (o : Orchestrator) : Prop :=
  cachedHintMessage o = None /\ cachedSolution o = None /\
  cachedSolutionTooLong o = false /\ solvabilityStatus o = Some StChecking.

(** What a response could write to: status, caches, timing samples, busy
    flag, displayed plan and alert, besides the puzzle itself. *)
Definition sameOutcome (g g' : Game) : Prop :=
  solvabilityStatus (orch g') = solvabilityStatus (orch g) /\
  cachedHintMessage (orch g') = cachedHintMessage (orch g) /\
  cachedSolution (orch g') = cachedSolution (orch g) /\
  cachedSolutionTooLong (orch g') = cachedSolutionTooLong (orch g) /\
  solverTimingsBySteps (orch g') = solverTimingsBySteps (orch g) /\
  lastSolverMs (orch g') = lastSolverMs (orch g) /\
  lastSolverSteps (orch g') = lastSolverSteps (orch g) /\
  isCheckingSolvability (orch g') = isCheckingSolvability (orch g) /\
  solvabilityRequestIdRef (orch g') = solvabilityRequestIdRef (orch g) /\
  view g' = view g /\ alerts g' = alerts g /\ puzzle g' = puzzle g /\
  autoSolve g' = autoSolve g.

(** ** Auxiliary facts *)

Lemma withOrch_orch g : withOrch g (orch g) = g.
Proof. destruct g; reflexivity. Qed.

Lemma finallyClear_stale id g :
  id <> solvabilityRequestIdRef (orch g) -> finallyClear id g = g.
Proof.
  intros H. unfold finallyClear.
  destruct (Nat.eqb_spec id (solvabilityRequestIdRef (orch g))); [contradiction|reflexivity].
Qed.

Section OrchestratorFacts.

Variable smooth : Z -> Z -> Z.

(** A response whose request id is not the latest one changes nothing. *)
Lemma resume_stale g r res :
  req_id r <> solvabilityRequestIdRef (orch g) -> resume smooth g r res = g.
Proof.
  intros H. unfold resume, runOnce.
  destruct (Nat.eqb_spec (req_id r) (solvabilityRequestIdRef (orch g))); [contradiction|].
  cbn [negb].
  destruct (q_mode (req_query r)); destruct (signalAborted _ _);
    apply finallyClear_stale; exact H.
Qed.

(** A response whose controller was aborted is not applied either; when
    its id is still the latest one, the busy flag alone is cleared. *)
Lemma resume_aborted g r res :
  signalAborted (orch g) (req_id r) = true ->
  resume smooth g r res = finallyClear (req_id r) g.
Proof.
  intros H. unfold resume, runOnce. rewrite H.
  destruct (q_mode (req_query r)); reflexivity.
Qed.

(** Otherwise the response is applied. *)
Lemma resume_applied g r res :
  req_id r = solvabilityRequestIdRef (orch g) ->
  signalAborted (orch g) (req_id r) = false ->
  resume smooth g r res =
    finallyClear (req_id r)
      (applyFinal (req_query r) (withOrch g (recordTiming smooth (orch g) res)) res).
Proof.
  intros Hid H. unfold resume, runOnce. rewrite H.
  rewrite (proj2 (Nat.eqb_eq _ _) Hid). cbn [negb].
  destruct (q_mode (req_query r)); reflexivity.
Qed.

Lemma recordTiming_frame o res :
  solvabilityRequestIdRef (recordTiming smooth o res) = solvabilityRequestIdRef o /\
  inFlight (recordTiming smooth o res) = inFlight o.
Proof.
  unfold recordTiming. destruct (res_solver res) as [[[u|] [m|]]|]; auto.
Qed.

Lemma applyFinal_frame q g res :
  solvabilityRequestIdRef (orch (applyFinal q g res)) = solvabilityRequestIdRef (orch g) /\
  inFlight (orch (applyFinal q g res)) = inFlight (orch g).
Proof.
  unfold applyFinal. destruct (solvable res); cbn; auto.
  destruct (res_solution res) as [sol|]; [destruct (tooLong sol)|]; auto.
Qed.

Lemma finallyClear_frame id g :
  solvabilityRequestIdRef (orch (finallyClear id g)) = solvabilityRequestIdRef (orch g) /\
  inFlight (orch (finallyClear id g)) = inFlight (orch g) /\
  cachedHintMessage (orch (finallyClear id g)) = cachedHintMessage (orch g) /\
  cachedSolution (orch (finallyClear id g)) = cachedSolution (orch g) /\
  cachedSolutionTooLong (orch (finallyClear id g)) = cachedSolutionTooLong (orch g) /\
  solvabilityStatus (orch (finallyClear id g)) = solvabilityStatus (orch g).
Proof.
  unfold finallyClear. destruct (Nat.eqb _ _); cbn; auto 10.
Qed.

(** A move touches the orchestrator only through the debounce timer and the
    abort of the request in flight. *)
Lemma move_orch_frame g d skip :
  let o' := orch (snd (move g d skip)) in
  solvabilityRequestIdRef o' = solvabilityRequestIdRef (orch g) /\
  inFlight o' = inFlight (orch g) /\
  cachedHintMessage o' = cachedHintMessage (orch g) /\
  cachedSolution o' = cachedSolution (orch g) /\
  cachedSolutionTooLong o' = cachedSolutionTooLong (orch g) /\
  solvabilityStatus o' = solvabilityStatus (orch g).
Proof.
  unfold move.
  destruct (showVictoryModal g || isLoading g); [cbn; auto 10|].
  destruct (isWall _ _ _); [cbn; auto 10|].
  destruct (findIndex _ _).
  - destruct (_ || _ || _ || _); [cbn; auto 10|].
    cbn zeta. destruct (isWin _ _); [|destruct skip]; cbn; auto 10.
  - cbn zeta. destruct skip; cbn; auto 10.
Qed.

Lemma checkSolvability_resets o q :
  cachesEmpty (checkSolvability o q) /\ latestInFlight (checkSolvability o q) /\
  isCheckingSolvability (checkSolvability o q) = true /\
  solvabilityRequestIdRef (checkSolvability o q) = S (solvabilityRequestIdRef o).
Proof.
  unfold cachesEmpty, latestInFlight, checkSolvability. cbn.
  repeat split; auto.
  exists (mkRequest (S (solvabilityRequestIdRef o)) q). split; [|reflexivity].
  apply in_or_app. right. left. reflexivity.
Qed.

(** The request id never decreases. *)
Lemma step_id_monotone g e :
  (solvabilityRequestIdRef (orch g) <= solvabilityRequestIdRef (orch (step smooth g e)))%nat.
Proof.
  destruct e as [d skip| | |level| | | | |id res]; cbn [step].
  - destruct (move_orch_frame g d skip) as [-> _]. lia.
  - unfold undoMove. destruct (last _); cbn; lia.
  - cbn. lia.
  - cbn. lia.
  - unfold handleAutoSolve. destruct (autoSolveStatus _); cbn; try lia.
    destruct (cachedSolution _) as [[|m ms]|]; cbn; try lia;
      destruct (cachedSolutionTooLong _); cbn; lia.
  - destruct (solvabilityDebounceTimerRef _) as [[q ms]|]; cbn; lia.
  - destruct (victoryTimers g); cbn; lia.
  - destruct (alertTimers _); cbn; lia.
  - destruct (List.find _ _) as [r|]; [|lia].
    set (gm := withOrch g _).
    assert (Hgm : solvabilityRequestIdRef (orch gm) = solvabilityRequestIdRef (orch g))
      by reflexivity.
    rewrite <- Hgm.
    destruct (Nat.eq_dec (req_id r) (solvabilityRequestIdRef (orch gm))) as [He|Hne].
    + destruct (signalAborted (orch gm) (req_id r)) eqn:Ha.
      * rewrite resume_aborted by exact Ha.
        destruct (finallyClear_frame (req_id r) gm) as [-> _]. lia.
      * rewrite resume_applied by assumption.
        destruct (finallyClear_frame (req_id r)
                    (applyFinal (req_query r)
                       (withOrch gm (recordTiming smooth (orch gm) res)) res)) as [-> _].
        destruct (applyFinal_frame (req_query r)
                    (withOrch gm (recordTiming smooth (orch gm) res)) res) as [-> _].
        unfold withOrch at 1. cbn [orch].
        destruct (recordTiming_frame (orch gm) res) as [-> _]. lia.
    + rewrite resume_stale by exact Hne. lia.
Qed.

Lemma run_id_monotone es g :
  (solvabilityRequestIdRef (orch g) <= solvabilityRequestIdRef (orch (run smooth g es)))%nat.
Proof.
  revert g. induction es as [|e es IH]; intros g; cbn; [lia|].
  etransitivity; [apply (step_id_monotone g e)|apply IH].
Qed.


(** The invariant behind C10: while the latest request is in flight,
    nothing cached is readable. *)
Definition quietWhileChecking (g : Game) : Prop :=
  latestInFlight (orch g) -> cachesEmpty (orch g).

Lemma quiet_transfer (o o' : Orchestrator) :
  solvabilityRequestIdRef o' = solvabilityRequestIdRef o ->
  (forall r, In r (inFlight o') -> In r (inFlight o)) ->
  cachedHintMessage o' = cachedHintMessage o ->
  cachedSolution o' = cachedSolution o ->
  cachedSolutionTooLong o' = cachedSolutionTooLong o ->
  solvabilityStatus o' = solvabilityStatus o ->
  (latestInFlight o -> cachesEmpty o) -> latestInFlight o' -> cachesEmpty o'.
Proof.
  intros Hid Hin Hh Hs Hl Hst Hinv [r [Hr Hrid]].
  unfold cachesEmpty. rewrite Hh, Hs, Hl, Hst. apply Hinv.
  exists r. split; [apply Hin; exact Hr|congruence].
Qed.

Lemma step_quiet g e : quietWhileChecking g -> quietWhileChecking (step smooth g e).
Proof.
  unfold quietWhileChecking. intros Hinv.
  destruct e as [d skip| | |level| | | | |id res]; cbn [step].
  - destruct (move_orch_frame g d skip) as (H1 & H2 & H3 & H4 & H5 & H6).
    apply (quiet_transfer (orch g)); auto. intros r. rewrite H2. auto.
  - unfold undoMove. destruct (last _).
    + intros _. apply checkSolvability_resets.
    + apply (quiet_transfer (orch g)); auto.
  - intros _. apply checkSolvability_resets.
  - intros _. apply checkSolvability_resets.
  - unfold handleAutoSolve. destruct (autoSolveStatus _); try exact Hinv.
    destruct (cachedSolution _) as [[|m ms]|] eqn:Hc; try exact Hinv;
      destruct (cachedSolutionTooLong _); try exact Hinv;
      intros _; apply checkSolvability_resets.
  - destruct (solvabilityDebounceTimerRef _) as [[q ms]|]; [|exact Hinv].
    intros _. apply checkSolvability_resets.
  - destruct (victoryTimers g); exact Hinv.
  - destruct (alertTimers _); exact Hinv.
  - destruct (List.find _ _) as [r|] eqn:Hfind; [|exact Hinv].
    apply find_some in Hfind. destruct Hfind as [Hrin Hrid].
    apply Nat.eqb_eq in Hrid.
    set (waiting := List.filter _ _).
    set (gm := withOrch g (withInFlight (orch g) waiting)).
    assert (Hwait : forall r', In r' waiting -> In r' (inFlight (orch g)) /\ req_id r' <> id).
    { intros r' Hr'. apply filter_In in Hr'. destruct Hr' as [Hr' Hne].
      split; [exact Hr'|]. apply negb_true_iff, Nat.eqb_neq in Hne. exact Hne. }
    assert (Hgm : latestInFlight (orch gm) -> cachesEmpty (orch gm)).
    { apply (quiet_transfer (orch g)); auto. intros r' Hr'. apply Hwait. exact Hr'. }
    destruct (Nat.eq_dec (req_id r) (solvabilityRequestIdRef (orch gm))) as [He|Hne].
    + destruct (signalAborted (orch gm) (req_id r)) eqn:Ha.
      * rewrite resume_aborted by exact Ha.
        destruct (finallyClear_frame (req_id r) gm) as (H1 & H2 & H3 & H4 & H5 & H6).
        apply (quiet_transfer (orch gm)); auto. intros r'. rewrite H2. auto.
      * rewrite resume_applied by assumption.
        intros [r' [Hr' Hid']]. exfalso.
        destruct (finallyClear_frame (req_id r)
                    (applyFinal (req_query r)
                       (withOrch gm (recordTiming smooth (orch gm) res)) res))
          as (H1 & H2 & _).
        rewrite H1 in Hid'. rewrite H2 in Hr'.
        destruct (applyFinal_frame (req_query r)
                    (withOrch gm (recordTiming smooth (orch gm) res)) res) as (H3 & H4).
        rewrite H3 in Hid'. rewrite H4 in Hr'.
        unfold withOrch in Hid', Hr'; cbn [orch] in Hid', Hr'.
        destruct (recordTiming_frame (orch gm) res) as (H5 & H6).
        rewrite H5 in Hid'. rewrite H6 in Hr'.
        destruct (Hwait r' Hr') as [_ Hneq]. congruence.
    + rewrite resume_stale by exact Hne. exact Hgm.
Qed.

Lemma run_quiet es g : quietWhileChecking g -> quietWhileChecking (run smooth g es).
Proof.
  revert g. induction es as [|e es IH]; intros g H; cbn; [exact H|].
  apply IH, step_quiet, H.
Qed.

(** ** Stale responses *)

(** C4.  Let query A be issued, let anything happen afterwards, and let a
    later query have raised the request id above A's.  Then the oracle's
    answer to A, whatever it is, changes neither the status, the cached hint
    and plan, the too-long flag, the timing samples, the busy flag, the
    displayed plan, the alert nor the puzzle.  The reason is the guard of
    the continuation: an answer whose request id is not the latest one
    leaves the state as it is, and one whose abort signal has fired can at
    most clear the busy flag of the latest request. *)
Theorem stale_response_never_applied :
  (forall (g0 : Game) (qA : Query) (es : list Event) (res : SolvabilityResult),
     let gA := withOrch g0 (checkSolvability (orch g0) qA) in
     let a := solvabilityRequestIdRef (orch gA) in
     let g := run smooth gA es in
     (a < solvabilityRequestIdRef (orch g))%nat ->
     sameOutcome g (step smooth g (EvResponse a res))) /\
  (forall (g : Game) (r : Request) (res : SolvabilityResult),
     (req_id r <> solvabilityRequestIdRef (orch g) -> resume smooth g r res = g) /\
     (signalAborted (orch g) (req_id r) = true ->
      resume smooth g r res = finallyClear (req_id r) g)).
Proof.
  split.
  - intros g0 qA es res gA a g Hlt. cbn [step].
    destruct (List.find _ _) as [r|] eqn:Hfind.
    + apply find_some in Hfind. destruct Hfind as [_ Hrid].
      apply Nat.eqb_eq in Hrid.
      rewrite resume_stale.
      * unfold sameOutcome. cbn. auto 20.
      * cbn. lia.
    + unfold sameOutcome. auto 20.
  - intros g r res. split; [apply resume_stale|apply resume_aborted].
Qed.

(** ** Caches during a check *)

(** C10.  [checkSolvability] starts by emptying the cached hint and the
    cached plan, lowering the too-long flag and setting the status to
    checking, and its request becomes the latest one in flight.  From a state
    with no request in flight, whatever happens next (moves, undo, level
    loads, timers, answers of the oracle of any kind and in any order), as
    long as the latest request is in flight the caches stay empty and the
    status stays checking. *)
Theorem caches_empty_while_checking :
  (forall (o : Orchestrator) (q : Query),
     cachesEmpty (checkSolvability o q) /\ latestInFlight (checkSolvability o q)) /\
  (forall (g0 : Game) (es : list Event),
     inFlight (orch g0) = [] ->
     latestInFlight (orch (run smooth g0 es)) ->
     cachesEmpty (orch (run smooth g0 es))).
Proof.
  split.
  - intros o q. destruct (checkSolvability_resets o q) as (H1 & H2 & _). auto.
  - intros g0 es H0. apply run_quiet. intros [r [Hr _]].
    rewrite H0 in Hr. destruct Hr.
Qed.

End OrchestratorFacts.

(** The smoothing step in exact arithmetic, rounded half up; used to run
    concrete traces. *)
Definition smoothExact (old ms : Z) : Z := (7 * old + 3 * ms + 5) / 10.

Definition corridorQuery : Query :=
  mkQuery (mkGameState corridorGrid (mkPoint 1 1) [mkPoint 2 1] [mkPoint 4 1])
          false ModeAuto 35 false false.

(** The oracle reports a plan of two moves, found with horizon 35 in 1200 ms. *)
Definition planFound : SolvabilityResult :=
  mkResult SolvTrue None None (Some "Push the box right."%string)
           (Some ["right"; "right"]%string)
           (Some (mkSolverMeta (Some 35) (Some 1200))).

(** Query A is issued on the corridor, the player pushes the box, and the
    debounce timer issues query B. *)
Definition supersededTrace : Game :=
  run smoothExact
      (withOrch corridorGame (checkSolvability (orch corridorGame) corridorQuery))
      [EvMove Right false; EvDebounceFires].

Lemma stale_response_never_applied_witness :
  In (mkRequest 1 corridorQuery) (inFlight (orch supersededTrace)) /\
  solvabilityRequestIdRef (orch supersededTrace) = 2%nat /\
  sameOutcome supersededTrace (step smoothExact supersededTrace (EvResponse 1 planFound)) /\
  cachedSolution (orch (step smoothExact supersededTrace (EvResponse 2 planFound)))
    = Some ["right"; "right"]%string.
Proof.
  split; [vm_compute; left; reflexivity|].
  split; [vm_compute; reflexivity|].
  split; [|vm_compute; reflexivity].
  apply (proj1 (stale_response_never_applied smoothExact)
               corridorGame corridorQuery [EvMove Right false; EvDebounceFires] planFound).
  vm_compute. lia.
Defined.

Lemma caches_empty_while_checking_witness :
  latestInFlight (orch supersededTrace) /\
  cachesEmpty (checkSolvability (orch corridorGame) corridorQuery) /\
  cachesEmpty
    (orch (run smoothExact corridorGame
             [EvApplySolverSettings; EvResponse 1 planFound; EvUndo;
              EvMove Right false; EvDebounceFires])).
Proof.
  split; [|split].
  - exists (mkRequest 2
              (mkQuery (mkGameState corridorGrid (mkPoint 2 1) [mkPoint 3 1] [mkPoint 4 1])
                       true ModeAuto 35 false false)).
    split; [vm_compute; right; left; reflexivity|vm_compute; reflexivity].
  - apply (proj1 (caches_empty_while_checking smoothExact)).
  - apply (proj2 (caches_empty_while_checking smoothExact) corridorGame
             [EvApplySolverSettings; EvResponse 1 planFound; EvUndo;
              EvMove Right false; EvDebounceFires]).
    + vm_compute. reflexivity.
    + exists (mkRequest 2
                (mkQuery (mkGameState corridorGrid (mkPoint 2 1) [mkPoint 3 1] [mkPoint 4 1])
                         true ModeAuto 35 false false)).
      split; [vm_compute; left; reflexivity|vm_compute; reflexivity].
Defined.

(** * Properties of the level loader *)

(** ** Specification vocabulary *)

(** [(x, y)] is a cell of a [w] by [h] grid. *)
Definition inGrid (w h : nat) (x y : Z) : Prop :=
  0 <= x < Z.of_nat w /\ 0 <= y < Z.of_nat h.

(** [g] has [h] rows of [w] cells each. *)
Definition shaped {A} (w h : nat) (g : list (list A)) : Prop :=
  length g = h /\ Forall (fun row => length row = w) g.

(** A cell of the outer ring of a [w] by [h] grid. *)
Definition onBoundary (w h : nat) (x y : Z) : Prop :=
  x = 0 \/ x = Z.of_nat w - 1 \/ y = 0 \/ y = Z.of_nat h - 1.

(** Orthogonal neighbours. *)
Definition adjacent (x y x' y' : Z) : Prop :=
  (x' = x - 1 /\ y' = y) \/ (x' = x + 1 /\ y' = y) \/
  (x' = x /\ y' = y - 1) \/ (x' = x /\ y' = y + 1).

(** A blank of the raw grid ([' '], padding included). *)
Definition blank (raw : Grid) (x y : Z) : Prop := cellAt raw x y = Some FLOOR.

(** The exterior of a level: the blanks that a path of orthogonally adjacent
    blanks connects to a blank of the outer ring. *)
Inductive exterior (raw : Grid) (w h : nat) : Z -> Z -> Prop :=
| exterior_ring x y :
    onBoundary w h x y -> blank raw x y -> exterior raw w h x y
| exterior_step x y x' y' :
    exterior raw w h x y -> adjacent x y x' y' -> blank raw x' y' ->
    exterior raw w h x' y'.

(** The player symbols of the level format. *)
Definition playerSymbol (c : ascii) : Prop := c = "@"%char \/ c = "+"%char.

(** Marked cells of the flood fill. *)
Definition marked (iv : list (list bool)) (x y : Z) : Prop := cellAt iv x y = Some true.

(** The number of cells not yet marked. *)
Fixpoint unmarkedRow (row : list bool) : nat :=
  match row with
  | [] => O
  | b :: row' => ((if b then 0 else 1) + unmarkedRow row')%nat
  end.

Definition unmarked (iv : list (list bool)) : nat :=
  fold_right Nat.add O (map unmarkedRow iv).

(** The measure that bounds the flood loop. *)
Definition floodMeasure (st : Flood) : nat :=
  (unmarked (isVoid st) + length (queue st))%nat.

(** ** Grids as lists of rows *)

Lemma lookup_map {A B} (f : A -> B) (l : list A) (i : nat) :
  map f l !! i = f <$> (l !! i).
Proof.
  revert i. induction l as [|a l IH]; intros [|i]; cbn; auto.
Qed.

Lemma cellAt_Some_inGrid {A} (w h : nat) (g : list (list A)) x y a :
  shaped w h g -> cellAt g x y = Some a -> inGrid w h x y.
Proof.
  intros [Hlen Hrows] H. unfold cellAt in H.
  destruct (Z.ltb_spec x 0); [discriminate|].
  destruct (Z.ltb_spec y 0); [discriminate|]. cbn [orb] in H.
  destruct (g !! Z.to_nat y) as [row|] eqn:Hrow; [|discriminate].
  pose proof (lookup_lt_Some _ _ _ Hrow) as Hy.
  pose proof (lookup_lt_Some _ _ _ H) as Hx.
  rewrite (Forall_lookup_1 _ _ _ _ Hrows Hrow) in Hx.
  unfold inGrid. lia.
Qed.

Lemma cellAt_inGrid_Some {A} (w h : nat) (g : list (list A)) x y :
  shaped w h g -> inGrid w h x y -> exists a, cellAt g x y = Some a.
Proof.
  intros [Hlen Hrows] [Hx Hy]. unfold cellAt.
  destruct (Z.ltb_spec x 0); [lia|]. destruct (Z.ltb_spec y 0); [lia|]. cbn [orb].
  destruct (lookup_lt_is_Some_2 g (Z.to_nat y)) as [row Hrow]; [lia|].
  rewrite Hrow. apply lookup_lt_is_Some_2.
  rewrite (Forall_lookup_1 _ _ _ _ Hrows Hrow). lia.
Qed.

Lemma shaped_setCell {A} (w h : nat) (g : list (list A)) x y v :
  shaped w h g -> shaped w h (setCell g x y v).
Proof.
  intros [Hlen Hrows]. unfold setCell. split.
  - rewrite length_alter. exact Hlen.
  - apply Forall_alter; [exact Hrows|]. intros row _ Hrow. rewrite length_insert. exact Hrow.
Qed.

Lemma cellAt_setCell_eq {A} (w h : nat) (g : list (list A)) x y v :
  shaped w h g -> inGrid w h x y -> cellAt (setCell g x y v) x y = Some v.
Proof.
  intros [Hlen Hrows] [Hx Hy]. unfold cellAt, setCell.
  destruct (Z.ltb_spec x 0); [lia|]. destruct (Z.ltb_spec y 0); [lia|]. cbn [orb].
  rewrite list_lookup_alter_eq.
  destruct (lookup_lt_is_Some_2 g (Z.to_nat y)) as [row Hrow]; [lia|].
  rewrite Hrow. cbn. apply list_lookup_insert_eq.
  rewrite (Forall_lookup_1 _ _ _ _ Hrows Hrow). lia.
Qed.

Lemma cellAt_setCell_ne {A} (g : list (list A)) x y x' y' v :
  0 <= x -> 0 <= y -> (x', y') <> (x, y) ->
  cellAt (setCell g x y v) x' y' = cellAt g x' y'.
Proof.
  intros Hx Hy Hne. unfold cellAt, setCell.
  destruct (Z.ltb_spec x' 0); [reflexivity|].
  destruct (Z.ltb_spec y' 0); [reflexivity|]. cbn [orb].
  destruct (Z.eq_dec y' y) as [->|Hyne].
  - rewrite list_lookup_alter_eq. destruct (g !! Z.to_nat y) as [row|]; [|reflexivity].
    cbn. apply list_lookup_insert_ne. intros Heq.
    apply Hne. f_equal. lia.
  - rewrite list_lookup_alter_ne by lia. reflexivity.
Qed.

Lemma unmarkedRow_insert row i :
  row !! i = Some false -> S (unmarkedRow (<[i := true]> row)) = unmarkedRow row.
Proof.
  revert i. induction row as [|b row IH]; intros [|i] H; cbn in H; try discriminate.
  - injection H as ->. reflexivity.
  - specialize (IH i H). simpl. destruct b; simpl; lia.
Qed.

Lemma unmarked_setCell iv x y :
  0 <= x -> 0 <= y -> cellAt iv x y = Some false ->
  S (unmarked (setCell iv x y true)) = unmarked iv.
Proof.
  intros Hx Hy. unfold cellAt, setCell.
  destruct (Z.ltb_spec x 0) as [Hx0|Hx0]; [lia|].
  destruct (Z.ltb_spec y 0) as [Hy0|Hy0]; [lia|]. cbn [orb].
  generalize (Z.to_nat y) as j. clear Hy Hy0.
  induction iv as [|row iv IH]; intros [|j] Hc; simpl in Hc; try discriminate.
  - unfold unmarked. simpl. pose proof (unmarkedRow_insert row _ Hc). lia.
  - specialize (IH j Hc). unfold unmarked in *. simpl.
    rewrite <- IH, <- plus_n_Sm. reflexivity.
Qed.

Lemma unmarked_replicate (w h : nat) :
  unmarked (replicate h (replicate w false)) = (h * w)%nat.
Proof.
  assert (Hrow : unmarkedRow (replicate w false) = w).
  { induction w as [|w IH]; cbn; [reflexivity|]. f_equal. exact IH. }
  unfold unmarked. induction h as [|h IH]; cbn; [reflexivity|].
  rewrite Hrow, IH. reflexivity.
Qed.

Lemma shaped_replicate {A} (w h : nat) (a : A) : shaped w h (replicate h (replicate w a)).
Proof.
  split; [apply length_replicate|].
  apply Forall_lookup. intros i row Hrow. apply lookup_replicate in Hrow.
  destruct Hrow as [-> _]. apply length_replicate.
Qed.

Lemma cellAt_replicate {A} (w h : nat) (a b : A) x y :
  cellAt (replicate h (replicate w a)) x y = Some b -> b = a.
Proof.
  unfold cellAt. destruct (_ || _); [discriminate|].
  destruct (replicate h _ !! _) as [row|] eqn:Hrow; [|discriminate].
  apply lookup_replicate in Hrow. destruct Hrow as [-> _].
  intros H. apply lookup_replicate in H. apply H.
Qed.

Lemma levelWidth_ge rows rowStr :
  In rowStr rows -> (String.length rowStr <= levelWidth rows)%nat.
Proof.
  unfold levelWidth. induction rows as [|r rows IH]; cbn; intros H; [destruct H|].
  destruct H as [->|H]; [lia|]. specialize (IH H). lia.
Qed.

Lemma shaped_rawGridOf rows :
  shaped (levelWidth rows) (length rows) (rawGridOf rows).
Proof.
  unfold rawGridOf. split.
  - apply length_map.
  - apply Forall_lookup. intros i row Hrow. rewrite lookup_map in Hrow.
    destruct (rows !! i) as [s|]; [|discriminate]. injection Hrow as <-.
    rewrite length_map, length_seq. reflexivity.
Qed.

(** ** The flood fill *)

Section FloodFacts.

Variable raw : Grid.
Variables w h : nat.
Hypothesis raw_shaped : shaped w h raw.

Local Abbreviation enq := (enqueueIfVoidSpace raw (Z.of_nat w) (Z.of_nat h)).

Lemma isBlank_blank x y : isBlank raw x y = true <-> blank raw x y.
Proof.
  unfold isBlank, blank. destruct (cellAt raw x y) as [c|]; [|split; discriminate].
  rewrite Ascii.eqb_eq. unfold FLOOR. split; congruence.
Qed.

Lemma blank_inGrid x y : blank raw x y -> inGrid w h x y.
Proof. intros H. exact (cellAt_Some_inGrid w h raw x y _ raw_shaped H). Qed.

(** [st'] comes from [st] by marking and queueing blanks taken from [S]. *)
Definition grows (S : Z -> Z -> Prop) (st st' : Flood) : Prop :=
  shaped w h (isVoid st') /\
  (forall x y, marked (isVoid st) x y -> marked (isVoid st') x y) /\
  (forall x y, marked (isVoid st') x y ->
     marked (isVoid st) x y \/ (S x y /\ blank raw x y /\ In (x, y) (queue st'))) /\
  (forall c, In c (queue st) -> In c (queue st')) /\
  (forall x y, In (x, y) (queue st') -> In (x, y) (queue st) \/ marked (isVoid st') x y) /\
  floodMeasure st' = floodMeasure st.

Ltac split_grows := unfold grows; refine (conj _ (conj _ (conj _ (conj _ (conj _ _))))).

Lemma grows_refl S st : shaped w h (isVoid st) -> grows S st st.
Proof.
  intros H. split_grows; auto.
Qed.

Lemma grows_trans S st1 st2 st3 :
  grows S st1 st2 -> grows S st2 st3 -> grows S st1 st3.
Proof.
  intros (_ & M1 & N1 & Q1 & R1 & F1) (H2 & M2 & N2 & Q2 & R2 & F2).
  split_grows; auto.
  - intros x y Hm. destruct (N2 x y Hm) as [Hm2|Hnew]; [|right; exact Hnew].
    destruct (N1 x y Hm2) as [Hm1|(HS & Hb & Hq)]; [left; exact Hm1|].
    right. auto.
  - intros x y Hq. destruct (R2 x y Hq) as [Hq2|Hm]; [|right; exact Hm].
    destruct (R1 x y Hq2) as [Hq1|Hm]; [left; exact Hq1|right; auto].
  - congruence.
Qed.

Lemma grows_weaken (S S' : Z -> Z -> Prop) st st' :
  (forall x y, S x y -> S' x y) -> grows S st st' -> grows S' st st'.
Proof.
  intros HS (H & M & N & Q & R & F). split_grows; auto.
  intros x y Hm. destruct (N x y Hm) as [Hm'|(Hs & Hb & Hq)]; [left; exact Hm'|].
  right. auto.
Qed.

(** What one call of [enqueueIfVoidSpace] does. *)
Lemma enqueue_grows st x y :
  shaped w h (isVoid st) ->
  grows (fun x' y' => x' = x /\ y' = y) st (enq st x y) /\
  (blank raw x y -> marked (isVoid (enq st x y)) x y).
Proof.
  intros Hsh. unfold enqueueIfVoidSpace.
  destruct (Z.ltb_spec x 0) as [Hx0|Hx0].
  { split; [apply grows_refl; exact Hsh|].
    intros Hb. apply blank_inGrid in Hb. destruct Hb. lia. }
  destruct (Z.geb_spec x (Z.of_nat w)) as [Hxw|Hxw].
  { split; [apply grows_refl; exact Hsh|].
    intros Hb. apply blank_inGrid in Hb. destruct Hb. lia. }
  destruct (Z.ltb_spec y 0) as [Hy0|Hy0].
  { split; [apply grows_refl; exact Hsh|].
    intros Hb. apply blank_inGrid in Hb. destruct Hb. lia. }
  destruct (Z.geb_spec y (Z.of_nat h)) as [Hyh|Hyh].
  { split; [apply grows_refl; exact Hsh|].
    intros Hb. apply blank_inGrid in Hb. destruct Hb. lia. }
  cbn [orb].
  assert (Hin : inGrid w h x y) by (unfold inGrid; lia).
  destruct (cellAt_inGrid_Some w h (isVoid st) x y Hsh Hin) as [b Hcell].
  rewrite Hcell. cbn [default from_option id].
  destruct b.
  { split; [apply grows_refl; exact Hsh|]. intros _. exact Hcell. }
  destruct (isBlank raw x y) eqn:Hblank; cbn [negb].
  2:{ split; [apply grows_refl; exact Hsh|].
      intros Hb. apply isBlank_blank in Hb. congruence. }
  apply isBlank_blank in Hblank.
  assert (Hset : marked (setCell (isVoid st) x y true) x y).
  { apply (cellAt_setCell_eq w h); assumption. }
  split; [|intros _; exact Hset].
  split_grows; cbn [isVoid queue].
  - apply shaped_setCell. exact Hsh.
  - intros x' y' Hm. unfold marked in *.
    rewrite cellAt_setCell_ne; [exact Hm|lia|lia|].
    intros Heq. injection Heq as -> ->. congruence.
  - intros x' y' Hm.
    destruct (Z.eq_dec x' x) as [->|Hxne]; [destruct (Z.eq_dec y' y) as [->|Hyne]|].
    + right. split; [auto|]. split; [exact Hblank|].
      apply in_or_app. right. left. reflexivity.
    + left. unfold marked in *. rewrite cellAt_setCell_ne in Hm; [exact Hm|lia|lia|].
      intros Heq. injection Heq as ->. contradiction.
    + left. unfold marked in *. rewrite cellAt_setCell_ne in Hm; [exact Hm|lia|lia|].
      intros Heq. injection Heq as -> ->. contradiction.
  - intros c Hc. apply in_or_app. left. exact Hc.
  - intros x' y' Hq. apply in_app_or in Hq. destruct Hq as [Hq|[Heq|[]]].
    + left. exact Hq.
    + injection Heq as <- <-. right. exact Hset.
  - unfold floodMeasure. cbn [isVoid queue]. rewrite length_app. cbn [length].
    pose proof (unmarked_setCell (isVoid st) x y Hx0 Hy0 Hcell). lia.
Qed.

Lemma enqueue_shaped st x y :
  shaped w h (isVoid st) -> shaped w h (isVoid (enq st x y)).
Proof. intros H. apply (enqueue_grows st x y H). Qed.

(** Two calls in a row, as in the bodies of the seeding loops. *)
Lemma enqueue2_grows (S : Z -> Z -> Prop) st x1 y1 x2 y2 :
  shaped w h (isVoid st) -> S x1 y1 -> S x2 y2 ->
  grows S st (enq (enq st x1 y1) x2 y2) /\
  (blank raw x1 y1 -> marked (isVoid (enq (enq st x1 y1) x2 y2)) x1 y1) /\
  (blank raw x2 y2 -> marked (isVoid (enq (enq st x1 y1) x2 y2)) x2 y2).
Proof.
  intros Hsh H1 H2.
  destruct (enqueue_grows st x1 y1 Hsh) as [G1 B1].
  destruct (enqueue_grows (enq st x1 y1) x2 y2 (enqueue_shaped _ _ _ Hsh)) as [G2 B2].
  split; [|split].
  - eapply grows_trans; eapply grows_weaken; try eassumption.
    + intros ? ? [-> ->]. exact H1.
    + intros ? ? [-> ->]. exact H2.
  - intros Hb. apply G2. apply B1. exact Hb.
  - exact B2.
Qed.

(** A loop whose body only grows the state grows it, and a cell that one
    turn marks stays marked. *)
Lemma fold_grows {I} (S : Z -> Z -> Prop) (f : Flood -> I -> Flood) (l : list I) st :
  (forall st i, shaped w h (isVoid st) -> grows S st (f st i)) ->
  shaped w h (isVoid st) -> grows S st (fold_left f l st).
Proof.
  intros Hf. revert st. induction l as [|i l IH]; intros st Hsh; cbn.
  - apply grows_refl. exact Hsh.
  - eapply grows_trans; [apply Hf; exact Hsh|].
    apply IH. apply (Hf st i Hsh).
Qed.

Lemma fold_marks {I} (S : Z -> Z -> Prop) (f : Flood -> I -> Flood) (l : list I)
    st (i : I) x y :
  (forall st i, shaped w h (isVoid st) -> grows S st (f st i)) ->
  (forall st, shaped w h (isVoid st) -> marked (isVoid (f st i)) x y) ->
  In i l -> shaped w h (isVoid st) -> marked (isVoid (fold_left f l st)) x y.
Proof.
  intros Hf Hi. revert st. induction l as [|j l IH]; intros st Hin Hsh; [destruct Hin|].
  cbn. destruct Hin as [->|Hin].
  - pose proof (Hf st i Hsh) as G.
    destruct (fold_grows S f l (f st i) Hf (proj1 G)) as (_ & M & _).
    apply M. apply Hi. exact Hsh.
  - apply IH; [exact Hin|]. apply (Hf st j Hsh).
Qed.

Lemma classic_boundary x y :
  onBoundary w h x y ->
  (y = 0 \/ y = Z.of_nat h - 1) \/ (x = 0 \/ x = Z.of_nat w - 1).
Proof. unfold onBoundary. intros [H|[H|[H|H]]]; auto. Qed.

(** ** Invariant of the flood loop *)

Record FloodInv (st : Flood) : Prop := {
  fi_shape : shaped w h (isVoid st);
  fi_sound : forall x y, marked (isVoid st) x y -> exterior raw w h x y;
  fi_queue : forall x y, In (x, y) (queue st) -> marked (isVoid st) x y;
  fi_closed : forall x y, marked (isVoid st) x y ->
      In (x, y) (queue st) \/
      forall x' y', adjacent x y x' y' -> blank raw x' y' -> marked (isVoid st) x' y';
  fi_ring : forall x y, onBoundary w h x y -> blank raw x y -> marked (isVoid st) x y
}.

Definition floodStart : Flood := mkFlood (replicate h (replicate w false)) [].

Definition floodSeeded : Flood :=
  seedLeftRight raw (Z.of_nat w) (Z.of_nat h)
    (seedTopBottom raw (Z.of_nat w) (Z.of_nat h) floodStart).

Lemma seedTopBottom_body st (x : nat) :
  shaped w h (isVoid st) ->
  let st' := enq (enq st (Z.of_nat x) 0) (Z.of_nat x) (Z.of_nat h - 1) in
  grows (onBoundary w h) st st' /\
  (blank raw (Z.of_nat x) 0 -> marked (isVoid st') (Z.of_nat x) 0) /\
  (blank raw (Z.of_nat x) (Z.of_nat h - 1) -> marked (isVoid st') (Z.of_nat x) (Z.of_nat h - 1)).
Proof.
  intros Hsh. apply enqueue2_grows; [exact Hsh| |]; unfold onBoundary; auto.
Qed.

Lemma seedLeftRight_body st (y : nat) :
  shaped w h (isVoid st) ->
  let st' := enq (enq st 0 (Z.of_nat y)) (Z.of_nat w - 1) (Z.of_nat y) in
  grows (onBoundary w h) st st' /\
  (blank raw 0 (Z.of_nat y) -> marked (isVoid st') 0 (Z.of_nat y)) /\
  (blank raw (Z.of_nat w - 1) (Z.of_nat y) -> marked (isVoid st') (Z.of_nat w - 1) (Z.of_nat y)).
Proof.
  intros Hsh. apply enqueue2_grows; [exact Hsh| |]; unfold onBoundary; auto.
Qed.


Lemma seedTopBottom_grows st :
  shaped w h (isVoid st) ->
  grows (onBoundary w h) st (seedTopBottom raw (Z.of_nat w) (Z.of_nat h) st).
Proof.
  intros Hsh. unfold seedTopBottom. apply fold_grows; [|exact Hsh].
  intros st' x Hsh'. apply (seedTopBottom_body st' x Hsh').
Qed.

Lemma seedLeftRight_grows st :
  shaped w h (isVoid st) ->
  grows (onBoundary w h) st (seedLeftRight raw (Z.of_nat w) (Z.of_nat h) st).
Proof.
  intros Hsh. unfold seedLeftRight. apply fold_grows; [|exact Hsh].
  intros st' y Hsh'. apply (seedLeftRight_body st' y Hsh').
Qed.

Lemma floodStart_shaped : shaped w h (isVoid floodStart).
Proof. apply shaped_replicate. Qed.

Lemma floodStart_unmarked x y : ~ marked (isVoid floodStart) x y.
Proof. intros H. apply cellAt_replicate in H. discriminate. Qed.

Lemma floodSeeded_grows : grows (onBoundary w h) floodStart floodSeeded.
Proof.
  unfold floodSeeded. eapply grows_trans.
  - apply seedTopBottom_grows, floodStart_shaped.
  - apply seedLeftRight_grows. apply seedTopBottom_grows, floodStart_shaped.
Qed.

(** The seeding loops mark every blank of the outer ring. *)
Lemma floodSeeded_ring x y :
  onBoundary w h x y -> blank raw x y -> marked (isVoid floodSeeded) x y.
Proof.
  intros Hb Hblank. pose proof (blank_inGrid x y Hblank) as [Hx Hy].
  pose proof (seedTopBottom_grows floodStart floodStart_shaped) as GT.
  assert (Hxin : In (Z.to_nat x) (seq 0 (Z.to_nat (Z.of_nat w)))).
  { apply in_seq. lia. }
  assert (Hyin : In (Z.to_nat y) (seq 0 (Z.to_nat (Z.of_nat h)))).
  { apply in_seq. lia. }
  assert (Top : y = 0 \/ y = Z.of_nat h - 1 ->
                marked (isVoid (seedTopBottom raw (Z.of_nat w) (Z.of_nat h) floodStart)) x y).
  { intros Hy'. unfold seedTopBottom.
    apply (fold_marks (onBoundary w h) _ _ _ (Z.to_nat x));
      [| |exact Hxin|exact floodStart_shaped].
    - intros st' i Hsh'. apply (seedTopBottom_body st' i Hsh').
    - intros st' Hsh'. destruct (seedTopBottom_body st' (Z.to_nat x) Hsh') as (_ & B1 & B2).
      cbv beta. rewrite Z2Nat.id in * by lia.
      destruct Hy' as [->| ->]; [apply B1|apply B2]; exact Hblank. }
  destruct (classic_boundary x y Hb) as [Hrow|Hcol].
  - destruct (seedLeftRight_grows _ (proj1 GT)) as (_ & M & _).
    apply M. apply Top. exact Hrow.
  - unfold floodSeeded, seedLeftRight.
    apply (fold_marks (onBoundary w h) _ _ _ (Z.to_nat y)); [| |exact Hyin|exact (proj1 GT)].
    + intros st' i Hsh'. apply (seedLeftRight_body st' i Hsh').
    + intros st' Hsh'. destruct (seedLeftRight_body st' (Z.to_nat y) Hsh') as (_ & B1 & B2).
      cbv beta. rewrite Z2Nat.id in * by lia.
      destruct Hcol as [->| ->]; [apply B1|apply B2]; exact Hblank.
Qed.

Lemma floodSeeded_inv : FloodInv floodSeeded /\ floodMeasure floodSeeded = (h * w)%nat.
Proof.
  destruct floodSeeded_grows as (Hsh & M & N & Q & R & F).
  split.
  - constructor.
    + exact Hsh.
    + intros x y Hm. destruct (N x y Hm) as [H0|(Hb & Hblank & _)].
      * destruct (floodStart_unmarked x y H0).
      * apply exterior_ring; assumption.
    + intros x y Hq. destruct (R x y Hq) as [[]|Hm]. exact Hm.
    + intros x y Hm. destruct (N x y Hm) as [H0|(_ & _ & Hq)].
      * destruct (floodStart_unmarked x y H0).
      * left. exact Hq.
    + apply floodSeeded_ring.
  - rewrite F. unfold floodMeasure, floodStart. cbn [isVoid queue length].
    rewrite unmarked_replicate. lia.
Qed.

(** One turn of the loop offers the four neighbours of the cell it takes. *)
Lemma neighbours_grow st0 x y :
  shaped w h (isVoid st0) ->
  let st' := enq (enq (enq (enq st0 (x - 1) y) (x + 1) y) x (y - 1)) x (y + 1) in
  grows (adjacent x y) st0 st' /\
  (forall x' y', adjacent x y x' y' -> blank raw x' y' -> marked (isVoid st') x' y').
Proof.
  intros Hsh st'.
  assert (A1 : adjacent x y (x - 1) y) by (unfold adjacent; auto).
  assert (A2 : adjacent x y (x + 1) y) by (unfold adjacent; auto).
  assert (A3 : adjacent x y x (y - 1)) by (unfold adjacent; auto 6).
  assert (A4 : adjacent x y x (y + 1)) by (unfold adjacent; auto 6).
  destruct (enqueue2_grows (adjacent x y) st0 _ _ _ _ Hsh A1 A2) as (G12 & B1 & B2).
  destruct (enqueue2_grows (adjacent x y) _ _ _ _ _ (proj1 G12) A3 A4) as (G34 & B3 & B4).
  fold st' in G34, B3, B4.
  split; [eapply grows_trans; eassumption|].
  destruct G34 as (_ & M & _).
  intros x' y' [[-> ->]|[[-> ->]|[[-> ->]|[-> ->]]]] Hblank; auto.
Qed.

Lemma floodStep_inv st st' :
  FloodInv st -> floodStep raw (Z.of_nat w) (Z.of_nat h) st = Some st' ->
  FloodInv st' /\ S (floodMeasure st') = floodMeasure st.
Proof.
  intros [Hsh Hsound Hqueue Hclosed Hring] Hstep. unfold floodStep in Hstep.
  destruct (queue st) as [|[x y] rest] eqn:Hq; [discriminate|].
  injection Hstep as <-.
  set (st0 := mkFlood (isVoid st) rest).
  destruct (neighbours_grow st0 x y Hsh) as [(Hsh' & M & N & Q & R & F) B].
  cbv zeta in *.
  set (st' := enqueueIfVoidSpace raw _ _ _ x (y + 1)) in *.
  assert (Hxy : marked (isVoid st) x y) by (apply Hqueue; left; reflexivity).
  split.
  - constructor.
    + exact Hsh'.
    + intros x' y' Hm. destruct (N x' y' Hm) as [H0|(Hadj & Hblank & _)].
      * apply Hsound. exact H0.
      * eapply exterior_step; [apply Hsound; exact Hxy|exact Hadj|exact Hblank].
    + intros x' y' Hin. destruct (R x' y' Hin) as [H0|Hm]; [|exact Hm].
      apply M. apply Hqueue. right. exact H0.
    + intros x' y' Hm. destruct (N x' y' Hm) as [H0|(_ & _ & Hin)]; [|left; exact Hin].
      destruct (Hclosed x' y' H0) as [[Heq|Hin]|Hcl].
      * injection Heq as <- <-. right. exact B.
      * left. apply Q. exact Hin.
      * right. intros x2 y2 Hadj Hblank. apply M. apply (Hcl x2 y2 Hadj Hblank).
    + intros x' y' Hb Hblank. apply M. apply Hring; assumption.
  - rewrite F. unfold floodMeasure. subst st0. rewrite Hq. cbn [isVoid queue length]. lia.
Qed.

(** The loop ends with an empty queue when its bound covers the measure. *)
Lemma floodLoop_inv fuel st :
  FloodInv st -> (floodMeasure st <= fuel)%nat ->
  FloodInv (floodLoop raw (Z.of_nat w) (Z.of_nat h) fuel st) /\
  queue (floodLoop raw (Z.of_nat w) (Z.of_nat h) fuel st) = [].
Proof.
  revert st. induction fuel as [|fuel IH]; intros st Hinv Hm; cbn [floodLoop].
  - split; [exact Hinv|]. unfold floodMeasure in Hm.
    destruct (queue st); [reflexivity|cbn in Hm; lia].
  - destruct (floodStep raw (Z.of_nat w) (Z.of_nat h) st) as [st'|] eqn:Hstep.
    + destruct (floodStep_inv st st' Hinv Hstep) as [Hinv' Hm'].
      apply IH; [exact Hinv'|lia].
    + split; [exact Hinv|]. unfold floodStep in Hstep.
      destruct (queue st) as [|[x y] rest]; [reflexivity|discriminate].
Qed.

(** With an empty queue the marked cells are exactly the exterior. *)
Lemma FloodInv_exterior st :
  FloodInv st -> queue st = [] ->
  forall x y, marked (isVoid st) x y <-> exterior raw w h x y.
Proof.
  intros [Hsh Hsound Hqueue Hclosed Hring] Hq x y. split; [apply Hsound|].
  induction 1 as [x y Hb Hblank|x y x' y' Hext IH Hadj Hblank].
  - apply Hring; assumption.
  - destruct (Hclosed x y IH) as [Hin|Hcl].
    + rewrite Hq in Hin. destruct Hin.
    + apply (Hcl x' y' Hadj Hblank).
Qed.

Lemma floodFill_spec :
  queue (floodFill raw w h) = [] /\
  shaped w h (isVoid (floodFill raw w h)) /\
  forall x y, marked (isVoid (floodFill raw w h)) x y <-> exterior raw w h x y.
Proof.
  destruct floodSeeded_inv as [Hinv Hm].
  destruct (floodLoop_inv (h * w) floodSeeded Hinv) as [Hinv' Hq]; [lia|].
  change (floodLoop raw (Z.of_nat w) (Z.of_nat h) (h * w) floodSeeded)
    with (floodFill raw w h) in *.
  split; [exact Hq|]. split; [apply Hinv'|].
  apply FloodInv_exterior; assumption.
Qed.

End FloodFacts.

(** ** The translation loop *)

(** The cell that the translation writes at [(x, y)]. *)
Definition outCell (raw : Grid) (void : list (list bool)) (x y : nat) : ascii :=
  let char := default FLOOR (cellAt raw (Z.of_nat x) (Z.of_nat y)) in
  if Ascii.eqb char " " && default false (cellAt void (Z.of_nat x) (Z.of_nat y))
  then VOID
  else (if Ascii.eqb char "#" then WALL
        else if Ascii.eqb char " " then FLOOR
        else if Ascii.eqb char "." then GOAL
        else if Ascii.eqb char "@" then FLOOR
        else if Ascii.eqb char "$" then FLOOR
        else if Ascii.eqb char "*" then GOAL
        else if Ascii.eqb char "+" then GOAL
        else FLOOR)%char.

(** Player, boxes and goals collected so far. *)
Definition entities (acc : Parsed) : Point * list Point * list Point :=
  (out_player acc, out_boxes acc, out_goals acc).

(** What the cell [(x, y)] adds to them. *)
Definition recordCell (raw : Grid) (e : Point * list Point * list Point)
    (xy : nat * nat) : Point * list Point * list Point :=
  let '(pl, bs, gls) := e in
  let pt := mkPoint (Z.of_nat (fst xy)) (Z.of_nat (snd xy)) in
  let char := default FLOOR (cellAt raw (Z.of_nat (fst xy)) (Z.of_nat (snd xy))) in
  (if Ascii.eqb char "." then (pl, bs, gls ++ [pt])
   else if Ascii.eqb char "@" then (pt, bs, gls)
   else if Ascii.eqb char "$" then (pl, bs ++ [pt], gls)
   else if Ascii.eqb char "*" then (pl, bs ++ [pt], gls ++ [pt])
   else if Ascii.eqb char "+" then (pt, bs, gls ++ [pt])
   else e)%char.

(** The cells of a [w] by [h] grid in reading order. *)
Definition cellsOf (w h : nat) : list (nat * nat) :=
  flat_map (fun y => map (fun x => (x, y)) (seq 0 w)) (seq 0 h).

Lemma translateCell_eq raw void y x gridRow acc :
  let r := translateCell raw void y x (gridRow, acc) in
  fst r = gridRow ++ [outCell raw void x y] /\
  out_grid (snd r) = out_grid acc /\
  entities (snd r) = recordCell raw (entities acc) (x, y).
Proof.
  unfold translateCell, outCell, recordCell, entities. cbn [fst snd].
  set (char := default FLOOR (cellAt raw (Z.of_nat x) (Z.of_nat y))).
  destruct (Ascii.eqb char " ") eqn:Hsp.
  - apply Ascii.eqb_eq in Hsp. rewrite Hsp.
    destruct (default false _); cbn; auto.
  - cbn [andb]. unfold WALL, FLOOR, GOAL.
    destruct (Ascii.eqb char "#") eqn:H1.
    { apply Ascii.eqb_eq in H1. rewrite H1. cbn. auto. }
    destruct (Ascii.eqb char "."); [cbn; auto|].
    destruct (Ascii.eqb char "@"); [cbn; auto|].
    destruct (Ascii.eqb char "$"); [cbn; auto|].
    destruct (Ascii.eqb char "*"); [cbn; auto|].
    destruct (Ascii.eqb char "+"); cbn; auto.
Qed.

Lemma translate_cells raw void y xs gridRow acc :
  let r := fold_left (fun st x => translateCell raw void y x st) xs (gridRow, acc) in
  fst r = gridRow ++ map (fun x => outCell raw void x y) xs /\
  out_grid (snd r) = out_grid acc /\
  entities (snd r) = fold_left (recordCell raw) (map (fun x => (x, y)) xs) (entities acc).
Proof.
  revert gridRow acc. induction xs as [|x xs IH]; intros gridRow acc; cbn [fold_left map].
  - rewrite app_nil_r. auto.
  - destruct (translateCell raw void y x (gridRow, acc)) as [row' acc'] eqn:Hc.
    pose proof (translateCell_eq raw void y x gridRow acc) as (H1 & H2 & H3).
    rewrite Hc in H1, H2, H3. cbn [fst snd] in H1, H2, H3.
    destruct (IH row' acc') as (I1 & I2 & I3).
    cbv zeta. rewrite I1, I2, I3, H1, H2, H3, <- app_assoc. auto.
Qed.

Lemma translateRow_eq raw void width acc y :
  out_grid (translateRow raw void width acc y) =
    out_grid acc ++ [map (fun x => outCell raw void x y) (seq 0 width)] /\
  entities (translateRow raw void width acc y) =
    fold_left (recordCell raw) (map (fun x => (x, y)) (seq 0 width)) (entities acc).
Proof.
  unfold translateRow.
  pose proof (translate_cells raw void y (seq 0 width) [] acc) as (H1 & H2 & H3).
  destruct (fold_left _ (seq 0 width) ([], acc)) as [gridRow acc'].
  cbn [fst snd] in H1, H2, H3. cbn [out_grid]. rewrite H1, H2. split; [reflexivity|].
  rewrite <- H3. reflexivity.
Qed.

Lemma translate_rows raw void width ys acc :
  let r := fold_left (translateRow raw void width) ys acc in
  out_grid r =
    out_grid acc ++ map (fun y => map (fun x => outCell raw void x y) (seq 0 width)) ys /\
  entities r =
    fold_left (recordCell raw)
              (flat_map (fun y => map (fun x => (x, y)) (seq 0 width)) ys) (entities acc).
Proof.
  revert acc. induction ys as [|y ys IH]; intros acc; cbn [fold_left map flat_map].
  - rewrite app_nil_r. auto.
  - destruct (IH (translateRow raw void width acc y)) as (I1 & I2).
    destruct (translateRow_eq raw void width acc y) as (H1 & H2).
    cbv zeta. rewrite I1, I2, H1, H2, <- app_assoc, fold_left_app. auto.
Qed.

(** The parsed level in closed form. *)
Lemma parseLevel_eq level :
  let rows := config_rows level in
  let raw := rawGridOf rows in
  let void := isVoid (floodFill raw (levelWidth rows) (length rows)) in
  let p := parseLevel level in
  parsedGrid p =
    map (fun y => map (fun x => outCell raw void x y) (seq 0 (levelWidth rows)))
        (seq 0 (length rows)) /\
  (initialPlayer p, initialBoxes p, level_goals p) =
    fold_left (recordCell raw) (cellsOf (levelWidth rows) (length rows))
              (mkPoint 0 0, [], []).
Proof.
  cbv zeta. unfold parseLevel. cbn [parsedGrid initialPlayer initialBoxes level_goals].
  pose proof (translate_rows (rawGridOf (config_rows level))
                (isVoid (floodFill (rawGridOf (config_rows level))
                                   (levelWidth (config_rows level))
                                   (length (config_rows level))))
                (levelWidth (config_rows level))
                (seq 0 (length (config_rows level)))
                (mkParsed [] (mkPoint 0 0) [] [])) as (H1 & H2).
  cbv zeta in H1, H2. split; [exact H1|exact H2].
Qed.

Lemma cellAt_table {A} (f : nat -> nat -> A) (w h : nat) x y :
  inGrid w h x y ->
  cellAt (map (fun y => map (fun x => f x y) (seq 0 w)) (seq 0 h)) x y
    = Some (f (Z.to_nat x) (Z.to_nat y)).
Proof.
  intros [Hx Hy]. unfold cellAt.
  destruct (Z.ltb_spec x 0); [lia|]. destruct (Z.ltb_spec y 0); [lia|]. cbn [orb].
  rewrite lookup_map, lookup_seq_lt by lia. cbn.
  rewrite lookup_map, lookup_seq_lt by lia. reflexivity.
Qed.

Lemma shaped_table {A} (f : nat -> nat -> A) (w h : nat) :
  shaped w h (map (fun y => map (fun x => f x y) (seq 0 w)) (seq 0 h)).
Proof.
  split.
  - rewrite length_map, length_seq. reflexivity.
  - apply Forall_lookup. intros i row Hrow. rewrite lookup_map in Hrow.
    destruct (seq 0 h !! i); [|discriminate]. injection Hrow as <-.
    rewrite length_map, length_seq. reflexivity.
Qed.

Lemma in_cellsOf (w h x y : nat) : In (x, y) (cellsOf w h) <-> (x < w)%nat /\ (y < h)%nat.
Proof.
  unfold cellsOf. rewrite in_flat_map. split.
  - intros [y' [Hy Hx]]. apply in_map_iff in Hx. destruct Hx as [x' [Heq Hx]].
    injection Heq as -> ->. apply in_seq in Hy, Hx. lia.
  - intros [Hx Hy]. exists y. split; [apply in_seq; lia|].
    apply in_map_iff. exists x. split; [reflexivity|apply in_seq; lia].
Qed.

Lemma default_false_true (o : option bool) : default false o = true <-> o = Some true.
Proof. destruct o as [[|]|]; cbn; split; congruence. Qed.

Lemma exterior_blank raw w h x y : exterior raw w h x y -> blank raw x y.
Proof. intros H. destruct H; assumption. Qed.

(** The written cell is Void exactly for a marked blank. *)
Lemma outCell_void raw void x y :
  outCell raw void x y = VOID <->
  default FLOOR (cellAt raw (Z.of_nat x) (Z.of_nat y)) = FLOOR /\
  marked void (Z.of_nat x) (Z.of_nat y).
Proof.
  unfold outCell, marked.
  set (char := default FLOOR (cellAt raw (Z.of_nat x) (Z.of_nat y))).
  rewrite <- default_false_true.
  destruct (Ascii.eqb char " ") eqn:Hsp.
  - apply Ascii.eqb_eq in Hsp. rewrite Hsp.
    destruct (default false _); cbn [andb]; unfold VOID, FLOOR; cbn.
    + split; auto.
    + split; [discriminate|]. intros [_ H]. discriminate.
  - cbn [andb]. apply Ascii.eqb_neq in Hsp. unfold VOID, WALL, FLOOR, GOAL.
    split; [|intros [H _]; contradiction].
    repeat (destruct (Ascii.eqb char _); [discriminate|]). discriminate.
Qed.

Lemma outCell_floor raw void x y :
  default FLOOR (cellAt raw (Z.of_nat x) (Z.of_nat y)) = FLOOR ->
  ~ marked void (Z.of_nat x) (Z.of_nat y) ->
  outCell raw void x y = FLOOR.
Proof.
  unfold outCell, marked. intros -> Hn. rewrite <- default_false_true in Hn.
  destruct (default false _); [congruence|]. reflexivity.
Qed.

Lemma outCell_star raw void x y :
  cellAt raw (Z.of_nat x) (Z.of_nat y) = Some "*"%char -> outCell raw void x y = GOAL.
Proof. unfold outCell. intros ->. reflexivity. Qed.

(** ** Entities *)

Definition symbolAt (raw : Grid) (p : Point) : Prop :=
  exists c, cellAt raw (px p) (py p) = Some c /\ playerSymbol c.

Definition symbolCell (raw : Grid) (xy : nat * nat) : Prop :=
  symbolAt raw (mkPoint (Z.of_nat (fst xy)) (Z.of_nat (snd xy))).

Lemma symbolCell_dec raw xy : symbolCell raw xy \/ ~ symbolCell raw xy.
Proof.
  unfold symbolCell, symbolAt, playerSymbol. cbn [px py].
  destruct (cellAt raw _ _) as [c|].
  - destruct (ascii_dec c "@") as [->|H1]; [left; eauto|].
    destruct (ascii_dec c "+") as [->|H2]; [left; eauto|].
    right. intros [c' [Hc [H|H]]]; congruence.
  - right. intros [c' [Hc _]]. discriminate.
Qed.

Lemma recordCell_step raw e xy :
  let e' := recordCell raw e xy in
  let pt := mkPoint (Z.of_nat (fst xy)) (Z.of_nat (snd xy)) in
  (forall p, In p (snd (fst e)) -> In p (snd (fst e'))) /\
  (forall p, In p (snd e) -> In p (snd e')) /\
  (cellAt raw (px pt) (py pt) = Some "*"%char -> In pt (snd (fst e')) /\ In pt (snd e')) /\
  (symbolCell raw xy -> fst (fst e') = pt) /\
  (~ symbolCell raw xy -> fst (fst e') = fst (fst e)).
Proof.
  destruct e as [[pl bs] gls]. unfold recordCell, symbolCell, symbolAt, playerSymbol.
  cbn [px py fst snd].
  destruct (cellAt raw (Z.of_nat (fst xy)) (Z.of_nat (snd xy))) as [c|];
    cbn [default from_option id].
  2:{ cbn. refine (conj _ (conj _ (conj _ (conj _ _)))); auto; try discriminate.
      intros [c [H _]]. discriminate. }
  destruct (Ascii.eqb c ".") eqn:E1.
  { apply Ascii.eqb_eq in E1. subst c. cbn [fst snd].
    refine (conj _ (conj _ (conj _ (conj _ _)))); auto; try discriminate.
    - intros p Hp. apply in_or_app. auto.
    - intros [c [H [Hc|Hc]]]; congruence. }
  destruct (Ascii.eqb c "@") eqn:E2.
  { apply Ascii.eqb_eq in E2. subst c. cbn [fst snd].
    refine (conj _ (conj _ (conj _ (conj _ _)))); auto; try discriminate.
    intros Hn. exfalso. apply Hn. eauto. }
  destruct (Ascii.eqb c "$") eqn:E3.
  { apply Ascii.eqb_eq in E3. subst c. cbn [fst snd].
    refine (conj _ (conj _ (conj _ (conj _ _)))); auto; try discriminate.
    - intros p Hp. apply in_or_app. auto.
    - intros [c [H [Hc|Hc]]]; congruence. }
  destruct (Ascii.eqb c "*") eqn:E4.
  { apply Ascii.eqb_eq in E4. subst c. cbn [fst snd].
    refine (conj _ (conj _ (conj _ (conj _ _)))); auto.
    - intros p Hp. apply in_or_app. auto.
    - intros p Hp. apply in_or_app. auto.
    - intros _. split; apply in_or_app; right; left; reflexivity.
    - intros [c [H [Hc|Hc]]]; congruence. }
  destruct (Ascii.eqb c "+") eqn:E5.
  { apply Ascii.eqb_eq in E5. subst c. cbn [fst snd].
    refine (conj _ (conj _ (conj _ (conj _ _)))); auto; try discriminate.
    - intros p Hp. apply in_or_app. auto.
    - intros Hn. exfalso. apply Hn. eauto. }
  apply Ascii.eqb_neq in E2, E4, E5.
  cbn [fst snd]. refine (conj _ (conj _ (conj _ (conj _ _)))); auto.
  - intros H. congruence.
  - intros [c' [H [Hc|Hc]]]; congruence.
Qed.

Lemma record_grows raw l e :
  (forall p, In p (snd (fst e)) -> In p (snd (fst (fold_left (recordCell raw) l e)))) /\
  (forall p, In p (snd e) -> In p (snd (fold_left (recordCell raw) l e))).
Proof.
  revert e. induction l as [|xy l IH]; intros e; cbn [fold_left]; [auto|].
  destruct (recordCell_step raw e xy) as (B & G & _).
  destruct (IH (recordCell raw e xy)) as (B' & G'). auto.
Qed.

Lemma record_star raw l e (x y : nat) :
  In (x, y) l -> cellAt raw (Z.of_nat x) (Z.of_nat y) = Some "*"%char ->
  let e' := fold_left (recordCell raw) l e in
  In (mkPoint (Z.of_nat x) (Z.of_nat y)) (snd (fst e')) /\
  In (mkPoint (Z.of_nat x) (Z.of_nat y)) (snd e').
Proof.
  revert e. induction l as [|xy l IH]; intros e Hin Hstar; [destruct Hin|].
  cbn [fold_left]. destruct Hin as [->|Hin].
  - destruct (recordCell_step raw e (x, y)) as (_ & _ & S & _).
    destruct (S Hstar) as [Sb Sg].
    destruct (record_grows raw l (recordCell raw e (x, y))) as (B & G).
    cbv zeta. auto.
  - apply IH; assumption.
Qed.

Lemma record_no_symbol raw l e :
  (forall xy, In xy l -> ~ symbolCell raw xy) ->
  fst (fst (fold_left (recordCell raw) l e)) = fst (fst e).
Proof.
  revert e. induction l as [|xy l IH]; intros e Hno; cbn [fold_left]; [reflexivity|].
  rewrite IH by (intros xy' H; apply Hno; right; exact H).
  apply recordCell_step. apply Hno. left. reflexivity.
Qed.

Lemma record_symbol raw l e :
  symbolAt raw (fst (fst e)) \/ (exists xy, In xy l /\ symbolCell raw xy) ->
  symbolAt raw (fst (fst (fold_left (recordCell raw) l e))).
Proof.
  revert e. induction l as [|xy l IH]; intros e H; cbn [fold_left].
  - destruct H as [H|[xy [[] _]]]. exact H.
  - apply IH. destruct (recordCell_step raw e xy) as (_ & _ & _ & Hs & Hn).
    destruct (symbolCell_dec raw xy) as [Hsym|Hnot].
    + left. rewrite (Hs Hsym). exact Hsym.
    + destruct H as [H|[xy' [[->|Hin] Hsym]]].
      * left. rewrite (Hn Hnot). exact H.
      * contradiction.
      * right. exists xy'. auto.
Qed.

(** ** Player symbols in the level text *)

Definition isPlayerSymbol (c : ascii) : bool := (Ascii.eqb c "@" || Ascii.eqb c "+")%char.

(** Some row of the level text holds ['@'] or ['+']. *)
Definition hasPlayer (rows : list string) : bool :=
  existsb (fun rowStr => existsb isPlayerSymbol (list_ascii_of_string rowStr)) rows.

Lemma isPlayerSymbol_spec c : isPlayerSymbol c = true <-> playerSymbol c.
Proof.
  unfold isPlayerSymbol, playerSymbol. rewrite orb_true_iff, !Ascii.eqb_eq. tauto.
Qed.

Lemma get_list_ascii s n : String.get n s = list_ascii_of_string s !! n.
Proof.
  revert n. induction s as [|c s IH]; intros [|n]; cbn; auto.
Qed.

Lemma length_list_ascii s : length (list_ascii_of_string s) = String.length s.
Proof. induction s as [|c s IH]; cbn; [reflexivity|]. f_equal. exact IH. Qed.

Lemma cellAt_rawGridOf rows (x y : nat) rowStr :
  (x < levelWidth rows)%nat -> rows !! y = Some rowStr ->
  cellAt (rawGridOf rows) (Z.of_nat x) (Z.of_nat y) = Some (charAt rowStr x).
Proof.
  intros Hx Hy. unfold cellAt, rawGridOf.
  destruct (Z.ltb_spec (Z.of_nat x) 0); [lia|].
  destruct (Z.ltb_spec (Z.of_nat y) 0); [lia|]. cbn [orb].
  rewrite !Nat2Z.id, lookup_map, Hy. cbn.
  rewrite lookup_map, lookup_seq_lt by exact Hx. reflexivity.
Qed.

Lemma hasPlayer_true rows :
  hasPlayer rows = true ->
  exists xy, In xy (cellsOf (levelWidth rows) (length rows)) /\
             symbolCell (rawGridOf rows) xy.
Proof.
  unfold hasPlayer. intros H. apply existsb_exists in H.
  destruct H as [rowStr [Hrow H]]. apply existsb_exists in H.
  destruct H as [c [Hc Hsym]]. apply isPlayerSymbol_spec in Hsym.
  apply list_elem_of_In, list_elem_of_lookup in Hrow. destruct Hrow as [y Hy].
  apply list_elem_of_In, list_elem_of_lookup in Hc. destruct Hc as [x Hx].
  assert (Hxw : (x < levelWidth rows)%nat).
  { pose proof (lookup_lt_Some _ _ _ Hx) as Hlt.
    rewrite length_list_ascii in Hlt.
    pose proof (levelWidth_ge rows rowStr) as Hge.
    assert (In rowStr rows).
    { apply list_elem_of_In, list_elem_of_lookup. eauto. }
    specialize (Hge H). lia. }
  exists (x, y). split.
  - apply in_cellsOf. split; [exact Hxw|]. eapply lookup_lt_Some. exact Hy.
  - unfold symbolCell, symbolAt. cbn [px py fst snd].
    exists c. split; [|exact Hsym].
    rewrite (cellAt_rawGridOf rows x y rowStr Hxw Hy).
    unfold charAt. rewrite get_list_ascii, Hx. reflexivity.
Qed.

Lemma hasPlayer_false rows :
  hasPlayer rows = false ->
  forall xy, In xy (cellsOf (levelWidth rows) (length rows)) ->
             ~ symbolCell (rawGridOf rows) xy.
Proof.
  intros H [x y] Hin [c [Hc Hsym]]. cbn [px py fst snd] in Hc.
  apply in_cellsOf in Hin. destruct Hin as [Hx Hy].
  destruct (lookup_lt_is_Some_2 rows y Hy) as [rowStr Hrow].
  rewrite (cellAt_rawGridOf rows x y rowStr Hx Hrow) in Hc. injection Hc as Hc.
  unfold charAt in Hc. rewrite get_list_ascii in Hc.
  destruct (list_ascii_of_string rowStr !! x) as [c'|] eqn:Hget; cbn in Hc.
  - subst c'. assert (Ht : hasPlayer rows = true); [|congruence].
    unfold hasPlayer. apply existsb_exists. exists rowStr. split.
    + apply list_elem_of_In, list_elem_of_lookup. eauto.
    + apply existsb_exists. exists c. split.
      * apply list_elem_of_In, list_elem_of_lookup. eauto.
      * apply isPlayerSymbol_spec. exact Hsym.
  - subst c. destruct Hsym as [H'|H']; discriminate H'.
Qed.

(** ** The loader's contract *)

Definition noPlayerLevel : LevelConfig :=
  mkLevelConfig 7 "No player" "Easy" ["#####"; "# $.#"; "#####"]%string.

(** The claim of the specification fails: a level text without a player
    symbol is loaded like any other, and the player is put on the default
    point [(0, 0)], here a wall. *)
Lemma level_without_player_is_loaded :
  hasPlayer (config_rows noPlayerLevel) = false /\
  parseLevel noPlayerLevel =
    mkParsedLevel 7 "No player" "Easy" ["#####"; "# $.#"; "#####"]%string
      [ list_ascii_of_string "#####";
        list_ascii_of_string "#  .#";
        list_ascii_of_string "#####" ]
      (mkPoint 0 0) [mkPoint 2 1] [mkPoint 3 1].
Proof. split; vm_compute; reflexivity. Qed.

(** C6 (amended).  [parseLevel] reports no error on any level text: its flood
    fill always runs until the queue is empty and it returns a rectangular
    grid of the level's height and width.  For a text without player symbol
    the initial player is the default point [(0, 0)]; for a text with a
    player symbol the initial player stands where the text has one. *)
Theorem parseLevel_never_fails (level : LevelConfig) :
  let rows := config_rows level in
  let raw := rawGridOf rows in
  let p := parseLevel level in
  queue (floodFill raw (levelWidth rows) (length rows)) = [] /\
  shaped (levelWidth rows) (length rows) (parsedGrid p) /\
  (hasPlayer rows = false -> initialPlayer p = mkPoint 0 0) /\
  (hasPlayer rows = true -> symbolAt raw (initialPlayer p)).
Proof.
  intros rows raw p.
  destruct (floodFill_spec raw (levelWidth rows) (length rows) (shaped_rawGridOf rows))
    as (Hq & _ & _).
  destruct (parseLevel_eq level) as (Hgrid & Hent). fold rows raw p in Hgrid, Hent.
  split; [exact Hq|]. split; [rewrite Hgrid; apply shaped_table|].
  assert (Hpl : initialPlayer p =
                fst (fst (fold_left (recordCell raw)
                                    (cellsOf (levelWidth rows) (length rows))
                                    (mkPoint 0 0, [], [])))).
  { rewrite <- Hent. reflexivity. }
  split.
  - intros Hno. rewrite Hpl. apply record_no_symbol. apply hasPlayer_false. exact Hno.
  - intros Hyes. rewrite Hpl. apply record_symbol. right. apply hasPlayer_true. exact Hyes.
Qed.

Definition testLevel : LevelConfig :=
  mkLevelConfig 1 "Test" "Easy" ["  ####"; "###@ #"; "# $* #"; "# # ##"; "#####"]%string.

Lemma parseLevel_never_fails_witness :
  initialPlayer (parseLevel noPlayerLevel) = mkPoint 0 0 /\
  symbolAt (rawGridOf (config_rows testLevel)) (initialPlayer (parseLevel testLevel)).
Proof.
  pose proof (parseLevel_never_fails noPlayerLevel) as H1.
  pose proof (parseLevel_never_fails testLevel) as H2.
  cbv zeta in H1, H2.
  destruct H1 as (_ & _ & H1 & _). destruct H2 as (_ & _ & _ & H2).
  split.
  - apply H1. vm_compute. reflexivity.
  - apply H2. vm_compute. reflexivity.
Defined.

(** C7.  In the parsed grid a cell is Void exactly when it is a blank of the
    raw (padded) grid that a path of orthogonally adjacent blanks connects to
    a blank of the outer ring.  A blank without such a path becomes Floor.  A
    box-on-goal tile ['*'] puts its point into both the boxes and the goals,
    and its cell is Goal. *)
Theorem parseLevel_void_is_exterior (level : LevelConfig) (x y : Z) :
  let rows := config_rows level in
  let raw := rawGridOf rows in
  let w := levelWidth rows in
  let h := length rows in
  let p := parseLevel level in
  (cellAt (parsedGrid p) x y = Some VOID <-> exterior raw w h x y) /\
  (blank raw x y -> ~ exterior raw w h x y -> cellAt (parsedGrid p) x y = Some FLOOR) /\
  (cellAt raw x y = Some "*"%char ->
     In (mkPoint x y) (initialBoxes p) /\ In (mkPoint x y) (level_goals p) /\
     cellAt (parsedGrid p) x y = Some GOAL).
Proof.
  intros rows raw w h p.
  pose proof (shaped_rawGridOf rows) as Hraw. fold raw w h in Hraw.
  destruct (floodFill_spec raw w h Hraw) as (_ & Hvoid & Hext).
  destruct (parseLevel_eq level) as (Hgrid & Hent). fold rows raw w h p in Hgrid, Hent.
  set (void := isVoid (floodFill raw w h)) in *.
  assert (Hcell : forall a, cellAt raw x y = Some a ->
            inGrid w h x y /\
            cellAt (parsedGrid p) x y = Some (outCell raw void (Z.to_nat x) (Z.to_nat y)) /\
            default FLOOR (cellAt raw (Z.of_nat (Z.to_nat x)) (Z.of_nat (Z.to_nat y))) = a).
  { intros a Ha. pose proof (cellAt_Some_inGrid w h raw x y a Hraw Ha) as Hin.
    split; [exact Hin|]. split.
    - rewrite Hgrid. apply (cellAt_table (fun x y => outCell raw void x y)). exact Hin.
    - destruct Hin. rewrite !Z2Nat.id by lia. rewrite Ha. reflexivity. }
  split; [|split].
  - split.
    + intros Hv.
      assert (Hin : inGrid w h x y).
      { apply (cellAt_Some_inGrid w h (parsedGrid p) x y VOID); [|exact Hv].
        rewrite Hgrid. apply shaped_table. }
      rewrite Hgrid, (cellAt_table (fun x y => outCell raw void x y)) in Hv by exact Hin.
      injection Hv as Hv. apply outCell_void in Hv. destruct Hv as [_ Hm].
      destruct Hin. rewrite !Z2Nat.id in Hm by lia. apply Hext. exact Hm.
    + intros He. pose proof (exterior_blank _ _ _ _ _ He) as Hb.
      destruct (Hcell FLOOR Hb) as (Hin & -> & Hd). f_equal.
      apply outCell_void. split; [exact Hd|].
      destruct Hin. rewrite !Z2Nat.id by lia. apply Hext. exact He.
  - intros Hb Hne. destruct (Hcell FLOOR Hb) as (Hin & -> & Hd). f_equal.
    apply outCell_floor; [exact Hd|].
    destruct Hin. rewrite !Z2Nat.id by lia. intros Hm. apply Hne, Hext. exact Hm.
  - intros Hstar. destruct (Hcell _ Hstar) as (Hin & -> & Hd).
    assert (Hxy : mkPoint x y = mkPoint (Z.of_nat (Z.to_nat x)) (Z.of_nat (Z.to_nat y))).
    { destruct Hin. rewrite !Z2Nat.id by lia. reflexivity. }
    assert (Hstar' : cellAt raw (Z.of_nat (Z.to_nat x)) (Z.of_nat (Z.to_nat y)) = Some "*"%char).
    { destruct Hin. rewrite !Z2Nat.id by lia. exact Hstar. }
    assert (Hc : In (Z.to_nat x, Z.to_nat y) (cellsOf w h)).
    { apply in_cellsOf. destruct Hin. lia. }
    destruct (record_star raw (cellsOf w h) (mkPoint 0 0, [], []) _ _ Hc Hstar') as [Hb Hg].
    rewrite <- Hent in Hb, Hg. cbn [fst snd] in Hb, Hg. rewrite <- Hxy in Hb, Hg.
    split; [exact Hb|]. split; [exact Hg|]. f_equal. apply outCell_star. exact Hstar'.
Qed.

Lemma parseLevel_void_is_exterior_witness :
  cellAt (parsedGrid (parseLevel testLevel)) 1 0 = Some VOID /\
  In (mkPoint 3 2) (initialBoxes (parseLevel testLevel)) /\
  In (mkPoint 3 2) (level_goals (parseLevel testLevel)).
Proof.
  pose proof (parseLevel_void_is_exterior testLevel 1 0) as H1.
  pose proof (parseLevel_void_is_exterior testLevel 3 2) as H2.
  cbv zeta in H1, H2.
  destruct H1 as ([_ H1] & _ & _). destruct H2 as (_ & _ & H2).
  split.
  - apply H1.
    apply exterior_step with (x := 0) (y := 0).
    + apply exterior_ring; [left; reflexivity|vm_compute; reflexivity].
    + right. left. split; reflexivity.
    + vm_compute. reflexivity.
  - destruct H2 as (Hb & Hg & _); [vm_compute; reflexivity|]. split; assumption.
Defined.

(** * Properties of the level generator *)

(** ** Specification vocabulary *)

(** Every cell of the outer ring of the [w] by [h] grid [g] is a wall. *)
Definition ringIsWall (w h : nat) (g : Grid) : Prop :=
  forall x y, inGrid w h x y -> onBoundary w h x y -> cellAt g x y = Some WALL.

(** ** Lists *)

Lemma existsb_false {A} (f : A -> bool) (l : list A) :
  existsb f l = false <-> forall a, In a l -> f a = false.
Proof.
  induction l as [|a l IH]; cbn.
  - split; [intros _ a []|reflexivity].
  - rewrite orb_false_iff, IH. split.
    + intros [Ha Hl] b [<-|Hb]; auto.
    + intros H. split; [apply H; left; reflexivity|]. intros b Hb. apply H. right. exact Hb.
Qed.

Lemma in_insert {A} (l : list A) (i : nat) (a b : A) :
  In b (<[i := a]> l) -> b = a \/ In b l.
Proof.
  revert i. induction l as [|c l IH]; intros [|i]; simpl; auto.
  - intros [<-|H]; auto.
  - intros [<-|H]; auto. destruct (IH i H); auto.
Qed.

Lemma countTrue_cons b l : countTrue (b :: l) = (if b then 1 else 0) + countTrue l.
Proof.
  unfold countTrue. rewrite filter_cons. destruct b.
  - rewrite decide_True by reflexivity. cbn [length]. lia.
  - rewrite decide_False by discriminate. lia.
Qed.

Lemma countTrue_nonneg l : 0 <= countTrue l.
Proof. unfold countTrue. lia. Qed.

Lemma in_upto n k : In k (upto n) <-> 0 <= k < n.
Proof.
  unfold upto. rewrite in_map_iff. split.
  - intros [i [<- Hi]]. apply in_seq in Hi. lia.
  - intros Hk. exists (Z.to_nat k). split; [lia|]. apply in_seq. lia.
Qed.

(** ** Grids of a tier *)

Section GeneratorFacts.

Variable rnd : nat -> nat.
Variable c : GenConfig.
Hypothesis width_big : 4 < cfg_width c.
Hypothesis height_big : 4 < cfg_height c.

Local Abbreviation GW := (Z.to_nat (cfg_width c)).
Local Abbreviation GH := (Z.to_nat (cfg_height c)).

(** The region in which walls and goals are placed. *)
Definition inner (x y : Z) : Prop :=
  2 <= x <= cfg_width c - 3 /\ 2 <= y <= cfg_height c - 3.

(** A grid that differs from the bordered rectangle inside [inner] only. *)
Definition GridInv (g : Grid) : Prop :=
  shaped GW GH g /\
  forall x y, ~ inner x y -> cellAt g x y = cellAt (borderedGrid c) x y.

Lemma randomInt_range i n : 0 < n -> 0 <= randomInt rnd i n < n.
Proof. intros Hn. unfold randomInt. apply Z.mod_pos_bound. exact Hn. Qed.

Lemma inner_draw i j :
  inner (2 + randomInt rnd i (cfg_width c - 4)) (2 + randomInt rnd j (cfg_height c - 4)).
Proof.
  pose proof (randomInt_range i (cfg_width c - 4)).
  pose proof (randomInt_range j (cfg_height c - 4)).
  unfold inner. lia.
Qed.

Lemma shaped_borderedGrid : shaped GW GH (borderedGrid c).
Proof.
  unfold borderedGrid, upto. split.
  - rewrite !length_map, length_seq. reflexivity.
  - apply Forall_lookup. intros i row Hrow. rewrite !lookup_map in Hrow.
    destruct (seq 0 GH !! i); [|discriminate]. injection Hrow as <-.
    rewrite !length_map, length_seq. reflexivity.
Qed.

Lemma cellAt_borderedGrid x y :
  inGrid GW GH x y ->
  cellAt (borderedGrid c) x y =
    Some (if (x =? 0) || (x =? cfg_width c - 1) || (y =? 0) || (y =? cfg_height c - 1)
          then WALL else FLOOR).
Proof.
  intros [Hx Hy]. unfold cellAt, borderedGrid, upto.
  destruct (Z.ltb_spec x 0); [lia|]. destruct (Z.ltb_spec y 0); [lia|]. cbn [orb].
  rewrite !lookup_map, lookup_seq_lt by lia. cbn.
  rewrite !lookup_map, lookup_seq_lt by lia. cbn.
  rewrite !Z2Nat.id by lia. reflexivity.
Qed.

Lemma GridInv_bordered : GridInv (borderedGrid c).
Proof. split; [apply shaped_borderedGrid|reflexivity]. Qed.

Lemma GridInv_setCell g x y v : GridInv g -> inner x y -> GridInv (setCell g x y v).
Proof.
  intros [Hsh Hout] Hin. split; [apply shaped_setCell; exact Hsh|].
  intros x' y' Hn. rewrite <- Hout by exact Hn.
  apply cellAt_setCell_ne; [destruct Hin; lia|destruct Hin; lia|].
  intros Heq. injection Heq as -> ->. contradiction.
Qed.

(** The ring is wall and the corner cell [(1, 1)] is free floor. *)
Lemma GridInv_ring g : GridInv g -> ringIsWall GW GH g.
Proof.
  intros [Hsh Hout] x y Hin Hb. rewrite Hout.
  - rewrite cellAt_borderedGrid by exact Hin. unfold onBoundary in Hb.
    destruct Hin as [Hx Hy]. rewrite !Z2Nat.id in Hb by lia.
    destruct (Z.eqb_spec x 0); [reflexivity|].
    destruct (Z.eqb_spec x (cfg_width c - 1)); [reflexivity|].
    destruct (Z.eqb_spec y 0); [reflexivity|].
    destruct (Z.eqb_spec y (cfg_height c - 1)); [reflexivity|]. lia.
  - unfold inner, onBoundary in *. destruct Hin. lia.
Qed.

Lemma GridInv_corner g : GridInv g -> cellAt g 1 1 = Some FLOOR.
Proof.
  intros [Hsh Hout]. rewrite Hout by (unfold inner; lia).
  rewrite cellAt_borderedGrid by (unfold inGrid; lia).
  destruct (Z.eqb_spec 1 0); [lia|].
  destruct (Z.eqb_spec 1 (cfg_width c - 1)); [lia|].
  destruct (Z.eqb_spec 1 (cfg_height c - 1)); [lia|]. reflexivity.
Qed.

(** Next to the corner of the ring a cell has at least two wall neighbours. *)
Lemma corner_has_two_walls g : GridInv g -> 1 < countWallNeighbors g 1 1.
Proof.
  intros Hg. pose proof (GridInv_ring g Hg) as Hring.
  assert (H00 : cellIs g 0 0 WALL = true).
  { unfold cellIs. rewrite Hring; [reflexivity|unfold inGrid; lia|left; reflexivity]. }
  assert (H10 : cellIs g 1 0 WALL = true).
  { unfold cellIs. rewrite Hring; [reflexivity|unfold inGrid; lia|].
    right. right. left. reflexivity. }
  unfold countWallNeighbors, neighbours8. cbn [map fst snd].
  change (1 + -1) with 0. change (1 + 0) with 1.
  rewrite !countTrue_cons, H00, H10.
  repeat match goal with |- context [if ?b then _ else _] => destruct b end;
    pose proof (countTrue_nonneg []); lia.
Qed.

(** ** Walls and goals *)

Lemma scatterWall_inv st : GridInv (fst st) -> GridInv (fst (scatterWall rnd c st)).
Proof.
  destruct st as [g i]. cbn [fst]. intros Hg. unfold scatterWall. cbn [fst].
  destruct (cellIs g _ _ FLOOR); [|exact Hg].
  apply GridInv_setCell; [exact Hg|apply inner_draw].
Qed.

Lemma scatterWalls_inv n st :
  GridInv (fst st) -> GridInv (fst (Nat.iter n (scatterWall rnd c) st)).
Proof.
  intros Hg. induction n as [|n IH]; cbn [Nat.iter nat_rect]; [exact Hg|].
  apply scatterWall_inv. exact IH.
Qed.

Lemma placeGoals_inv n g gls i :
  GridInv g -> (forall p, In p gls -> inner (px p) (py p)) ->
  (length gls <= cfg_boxes c)%nat ->
  let r := placeGoals rnd c n g gls i in
  GridInv (fst (fst r)) /\
  (forall p, In p (snd (fst r)) -> inner (px p) (py p)) /\
  (length (snd (fst r)) <= cfg_boxes c)%nat.
Proof.
  revert g gls i. induction n as [|n IH]; intros g gls i Hg Hgl Hlen; cbn [placeGoals].
  - cbn. auto.
  - destruct (Nat.ltb_spec (length gls) (cfg_boxes c)) as [Hlt|Hge]; [|cbn; auto].
    destruct (cellIs g _ _ FLOOR && negb (anyAt gls _ _)); [|apply IH; assumption].
    destruct (2 <=? _); [|apply IH; assumption].
    apply IH.
    + apply GridInv_setCell; [exact Hg|apply inner_draw].
    + intros p Hp. apply in_app_or in Hp. destruct Hp as [Hp|[<-|[]]]; [auto|].
      cbn [px py]. apply inner_draw.
    + rewrite length_app. cbn [length]. lia.
Qed.


(** ** Boxes *)

(** No box stands on the corner cell [(1, 1)]. *)
Definition offCorner (bs : list Point) : Prop :=
  forall b, In b bs -> samePos b 1 1 = false.

Lemma offCorner_inner gls :
  (forall p, In p gls -> inner (px p) (py p)) -> offCorner gls.
Proof.
  intros Hin b Hb. destruct (Hin b Hb) as [Hx _]. unfold samePos.
  destruct (Z.eqb_spec (px b) 1); [lia|reflexivity].
Qed.

Lemma offCorner_insert g bs bi x y :
  GridInv g -> offCorner bs -> countWallNeighbors g x y <= 1 ->
  offCorner (<[bi := mkPoint x y]> bs).
Proof.
  intros Hg Hbs Hc b Hb. apply in_insert in Hb. destruct Hb as [->|Hb]; [|auto].
  unfold samePos. cbn [px py].
  destruct (Z.eqb_spec x 1) as [->|]; [|reflexivity].
  destruct (Z.eqb_spec y 1) as [->|]; [|reflexivity].
  pose proof (corner_has_two_walls g Hg). lia.
Qed.

Lemma reversePulls_inv g n k bs pl i :
  GridInv g -> offCorner bs ->
  let r := reversePulls rnd c g n k bs pl i in
  offCorner (fst (fst r)) /\ length (fst (fst r)) = length bs.
Proof.
  intros Hg. revert k bs pl i.
  induction n as [|n IH]; intros k bs pl i Hbs; cbn [reversePulls]; [cbn; auto|].
  destruct (k <? cfg_moves c)%nat; [|cbn; auto].
  destruct (bs !! _) as [box|]; [|cbn; auto].
  destruct (dirs !! _) as [dir|]; [|cbn; auto].
  cbv zeta.
  match goal with |- context [if ?b then _ else _] => destruct b eqn:Hcond end.
  - apply IH. exact Hbs.
  - repeat (apply orb_false_iff in Hcond; destruct Hcond as [Hcond ?]).
    match goal with
    | Hw : (1 <? countWallNeighbors g ?x ?y) = false |- _ =>
        apply Z.ltb_ge in Hw;
        destruct (IH (S k) (<[Z.to_nat (randomInt rnd i (Z.of_nat (length bs))) := mkPoint x y]> bs)
                     (mkPoint (px box + px dir) (py box + py dir)) (S (S i))) as [I1 I2];
        [apply (offCorner_insert g); assumption|]
    end.
    split; [exact I1|]. rewrite I2. apply length_insert.
Qed.

Lemma validSpot_walls g gls bs bi pl x y :
  validSpot g gls bs bi pl x y = true ->
  countWallNeighbors g x y <= 1 /\ anyAt gls x y = false.
Proof.
  unfold validSpot. rewrite !andb_true_iff, !negb_true_iff.
  intros [[[[_ Hg] _] Hw] _]. split; [apply Z.leb_le; exact Hw|exact Hg].
Qed.

Lemma randomSpot_valid n g gls bs bi pl i x y i' :
  randomSpot rnd c n g gls bs bi pl i = (Some (x, y), i') ->
  validSpot g gls bs bi pl x y = true.
Proof.
  revert i. induction n as [|n IH]; intros i; cbn [randomSpot]; [discriminate|].
  match goal with |- context [if ?b then _ else _] => destruct b eqn:Hv end.
  - intros Heq. injection Heq as <- <- _. exact Hv.
  - apply IH.
Qed.

(** One box of the repair pass: the boxes stay off the corner and keep their
    number. *)
Lemma repairBox_inv g gls pl bs flag i bi :
  GridInv g -> offCorner bs ->
  let r := repairBox rnd c g gls pl (bs, flag, i) bi in
  offCorner (fst (fst r)) /\ length (fst (fst r)) = length bs.
Proof.
  intros Hg Hbs. unfold repairBox.
  destruct (bs !! bi) as [box|] eqn:Hbox; [|cbn; auto].
  destruct (anyAt gls (px box) (py box) || (1 <? countWallNeighbors g (px box) (py box))).
  - destruct (randomSpot rnd c 50 g gls bs bi pl i) as [[[rx ry]|] i'] eqn:Hr.
    + apply randomSpot_valid, validSpot_walls in Hr. cbn [fst snd].
      split; [apply (offCorner_insert g); tauto|apply length_insert].
    + destruct (List.find _ _) as [[x y]|] eqn:Hf; cbn [fst snd].
      * apply find_some in Hf. destruct Hf as [_ Hf]. cbn [fst snd] in Hf.
        apply validSpot_walls in Hf.
        split; [apply (offCorner_insert g); tauto|apply length_insert].
      * split; [exact Hbs|reflexivity].
  - cbn [fst snd]. split; [exact Hbs|reflexivity].
Qed.

Lemma repairPass_inv g gls pl l bs flag i :
  GridInv g -> offCorner bs ->
  let r := fold_left (repairBox rnd c g gls pl) l (bs, flag, i) in
  offCorner (fst (fst r)) /\ length (fst (fst r)) = length bs.
Proof.
  intros Hg. revert bs flag i.
  induction l as [|bi l IH]; intros bs flag i Hbs; cbn [fold_left].
  - cbn. split; [exact Hbs|reflexivity].
  - destruct (repairBox rnd c g gls pl (bs, flag, i) bi) as [[bs1 flag1] i1] eqn:Hstep.
    pose proof (repairBox_inv g gls pl bs flag i bi Hg Hbs) as (S1 & S2).
    rewrite Hstep in S1, S2. cbn [fst snd] in S1, S2.
    destruct (IH bs1 flag1 i1 S1) as (I1 & I2).
    cbv zeta. split; [exact I1|congruence].
Qed.

Lemma repairLoop_inv n g gls pl bs flag i :
  GridInv g -> offCorner bs ->
  let r := repairLoop rnd c n g gls pl bs flag i in
  offCorner (fst (fst r)) /\ length (fst (fst r)) = length bs.
Proof.
  intros Hg. revert bs flag i.
  induction n as [|n IH]; intros bs flag i Hbs; cbn [repairLoop].
  - cbn. split; [exact Hbs|reflexivity].
  - destruct flag.
    + cbn. split; [exact Hbs|reflexivity].
    + destruct (fold_left _ _ (bs, true, i)) as [[bs1 flag1] i1] eqn:Hpass.
      pose proof (repairPass_inv g gls pl (seq 0 (length bs)) bs true i Hg Hbs)
        as (P1 & P2).
      rewrite Hpass in P1, P2. cbn [fst snd] in P1, P2.
      destruct (IH bs1 flag1 i1 P1) as (I1 & I2).
      cbv zeta. split; [exact I1|congruence].
Qed.

(** ** The player *)

Lemma corner_in_innerCells : In (1, 1) (innerCells c).
Proof.
  unfold innerCells. apply in_flat_map. exists 1. split.
  - apply in_map_iff. exists 0. split; [reflexivity|]. apply in_upto. lia.
  - apply in_map_iff. exists 1. split; [reflexivity|].
    apply in_map_iff. exists 0. split; [reflexivity|]. apply in_upto. lia.
Qed.

Lemma relocatePlayer_off_goal g gls bs pl :
  GridInv g -> (forall p, In p gls -> inner (px p) (py p)) -> offCorner bs ->
  let pl' := relocatePlayer c g gls bs pl in
  anyAt gls (px pl') (py pl') = false.
Proof.
  intros Hg Hgls Hbs. unfold relocatePlayer.
  destruct (anyAt gls (px pl) (py pl)) eqn:Hon; [|exact Hon].
  destruct (List.find _ _) as [[x y]|] eqn:Hf.
  - apply find_some in Hf. destruct Hf as [_ Hf]. cbn [fst snd] in Hf.
    rewrite !andb_true_iff, !negb_true_iff in Hf. cbn [px py]. tauto.
  - exfalso. pose proof (find_none _ _ Hf (1, 1) corner_in_innerCells) as Hc.
    cbn [fst snd] in Hc.
    assert (Hw : cellIs g 1 1 WALL = false).
    { unfold cellIs. rewrite (GridInv_corner g Hg). reflexivity. }
    assert (Hgl : anyAt gls 1 1 = false).
    { apply existsb_false. apply offCorner_inner. exact Hgls. }
    assert (Hb : anyAt bs 1 1 = false).
    { apply existsb_false. exact Hbs. }
    rewrite Hw, Hgl, Hb in Hc. discriminate.
Qed.

End GeneratorFacts.

(** ** Generated levels *)

Lemma configs_big d : 4 < cfg_width (configs d) /\ 4 < cfg_height (configs d).
Proof. destruct d; cbn; lia. Qed.

Lemma generateFrom_properties rnd attempts d i lvl valid :
  generateFrom rnd attempts d i = Some (lvl, valid) ->
  let c := configs d in
  let w := Z.to_nat (cfg_width c) in
  let h := Z.to_nat (cfg_height c) in
  length (initialBoxes lvl) = cfg_boxes c /\
  anyAt (level_goals lvl) (px (initialPlayer lvl)) (py (initialPlayer lvl)) = false /\
  shaped w h (parsedGrid lvl) /\
  ringIsWall w h (parsedGrid lvl).
Proof.
  destruct (configs_big d) as [Hw Hh].
  revert i. induction attempts as [|attempts IH]; intros i; cbn [generateFrom]; [discriminate|].
  destruct (Nat.iter _ _ _) as [g0 i0] eqn:Hwalls.
  destruct (placeGoals rnd (configs d) 100 g0 [] i0) as [[g gls] i1] eqn:Hgoals.
  assert (Hg0 : GridInv (configs d) g0).
  { pose proof (scatterWalls_inv rnd (configs d) Hw Hh (numWalls (configs d))
                  (borderedGrid (configs d), i)
                  (GridInv_bordered (configs d))) as Hinv.
    rewrite Hwalls in Hinv. exact Hinv. }
  pose proof (placeGoals_inv rnd (configs d) Hw Hh 100 g0 [] i0 Hg0) as Hpg.
  rewrite Hgoals in Hpg. cbn [fst snd] in Hpg.
  destruct Hpg as (Hg & Hgls & Hlen); [intros p []|cbn; lia|].
  destruct (Nat.ltb_spec (length gls) (cfg_boxes (configs d))) as [Hlt|Hge]; [apply IH|].
  destruct (reversePulls _ _ _ _ _ _ _ _) as [[bs1 pl1] i2] eqn:Hpulls.
  destruct (repairLoop _ _ _ _ _ _ _ _ _) as [[bs valid'] i3] eqn:Hrepair.
  intros Heq. injection Heq as <- <-.
  cbn [initialBoxes level_goals initialPlayer parsedGrid].
  pose proof (reversePulls_inv rnd (configs d) Hw Hh g
                (cfg_moves (configs d) * 5) 0 gls
                (initialPlayerFrom (configs d) g gls
                   (map (Z.add 1) (upto (cfg_height (configs d) - 2))) (mkPoint 2 2))
                i1 Hg (offCorner_inner (configs d) gls Hgls)) as Hrp.
  rewrite Hpulls in Hrp. cbn [fst snd] in Hrp. destruct Hrp as (Hbs1 & Hlen1).
  pose proof (repairLoop_inv rnd (configs d) Hw Hh 500 g gls pl1 bs1 false i2 Hg Hbs1)
    as Hrl.
  rewrite Hrepair in Hrl. cbn [fst snd] in Hrl. destruct Hrl as (Hbs & Hlen2).
  split; [lia|]. split.
  { apply (relocatePlayer_off_goal (configs d) Hw Hh); assumption. }
  split; [apply Hg|]. apply (GridInv_ring (configs d) Hw Hh). exact Hg.
Qed.

(** The outcomes that leave the single box of an easy level on its goal: four
    walls in a row under the goal, then anything. *)
Definition rndStuck (i : nat) : nat := nth i [0; 1; 1; 1; 2; 1; 3; 1; 0; 1; 1; 0]%nat O.

(** Outcomes for which the generator succeeds. *)
Definition rndFair (i : nat) : nat := nth i [0; 0; 0; 0; 0; 0; 0; 0; 0; 0; 2; 1]%nat O.

(** C8.  A level of [generateRandomLevel] can start with a box on a goal,
    which the specification and the test "should not place boxes on goals
    initially" rule out.  For the outcomes [rndStuck] the easy level has its
    only box on its goal: every cell that is neither wall nor goal has two
    walls or more among its eight neighbours, so no pass of the repair loop
    finds a cell for the box, and after 500 passes the level is returned as
    it is. *)
Lemma generated_box_left_on_goal :
  generateRandomLevel rndStuck 1 Easy =
    Some (mkParsedLevel (-1) "Random Easy" "Easy"
            ["########"; "#      #"; "#  .   #"; "# #### #"; "#      #"; "#      #";
             "########"]%string
            [ list_ascii_of_string "########";
              list_ascii_of_string "#      #";
              list_ascii_of_string "#  .   #";
              list_ascii_of_string "# #### #";
              list_ascii_of_string "#      #";
              list_ascii_of_string "#      #";
              list_ascii_of_string "########" ]
            (mkPoint 1 1) [mkPoint 3 2] [mkPoint 3 2]).
Proof. vm_compute. reflexivity. Qed.

(** The level made from the outcomes [rndFair]. *)
Definition fairLevel : ParsedLevel :=
  mkParsedLevel (-1) "Random Easy" "Easy"
    ["########"; "#      #"; "# #    #"; "#   .  #"; "#      #"; "#      #";
     "########"]%string
    [ list_ascii_of_string "########";
      list_ascii_of_string "#      #";
      list_ascii_of_string "# #    #";
      list_ascii_of_string "#   .  #";
      list_ascii_of_string "#      #";
      list_ascii_of_string "#      #";
      list_ascii_of_string "########" ]
    (mkPoint 1 1) [mkPoint 2 3] [mkPoint 4 3].

(** X21.  Whenever [generateRandomLevel] returns a level, for every tier and
    every sequence of random outcomes: the level has as many boxes as the
    tier asks for, the player does not start on a goal, the grid has the
    tier's dimensions and every cell of its outer ring is Wall. *)
Theorem generated_level_shape (rnd : nat -> nat) (attempts : nat)
    (d : Difficulty) (lvl : ParsedLevel) :
  generateRandomLevel rnd attempts d = Some lvl ->
  let c := configs d in
  let w := Z.to_nat (cfg_width c) in
  let h := Z.to_nat (cfg_height c) in
  length (initialBoxes lvl) = cfg_boxes c /\
  anyAt (level_goals lvl) (px (initialPlayer lvl)) (py (initialPlayer lvl)) = false /\
  shaped w h (parsedGrid lvl) /\
  ringIsWall w h (parsedGrid lvl).
Proof.
  unfold generateRandomLevel. intros Hgen.
  destruct (generateFrom rnd attempts d O) as [[lvl' valid]|] eqn:Hfrom; [|discriminate].
  cbn in Hgen. injection Hgen as ->.
  exact (generateFrom_properties rnd attempts d O lvl valid Hfrom).
Qed.

Lemma generated_level_shape_witness :
  generateRandomLevel rndFair 1 Easy = Some fairLevel /\
  length (initialBoxes fairLevel) = 1%nat /\
  anyAt (level_goals fairLevel) 1 1 = false /\
  shaped 8 7 (parsedGrid fairLevel) /\
  ringIsWall 8 7 (parsedGrid fairLevel).
Proof.
  assert (Hgen : generateRandomLevel rndFair 1 Easy = Some fairLevel)
    by (vm_compute; reflexivity).
  pose proof (generated_level_shape rndFair 1 Easy fairLevel Hgen) as Hp.
  cbv zeta in Hp. destruct Hp as (H1 & H2 & H3 & H4).
  split; [exact Hgen|]. split; [exact H1|]. split; [exact H2|]. split; [exact H3|exact H4].
Defined.

(** * Further properties of the level loader *)

(** ** The entities of a level text in closed form *)

(** The point of a cell, and the raw character the translation loop reads
    there. *)
Definition cellPoint (xy : nat * nat) : Point :=
  mkPoint (Z.of_nat (fst xy)) (Z.of_nat (snd xy)).

Definition rawChar (raw : Grid) (xy : nat * nat) : ascii :=
  default FLOOR (cellAt raw (Z.of_nat (fst xy)) (Z.of_nat (snd xy))).

(** The symbols that put a box, and those that put a goal. *)
Definition isBoxSymbol (c : ascii) : bool := (Ascii.eqb c "$" || Ascii.eqb c "*")%char.

Definition isGoalSymbol (c : ascii) : bool :=
  (Ascii.eqb c "." || Ascii.eqb c "*" || Ascii.eqb c "+")%char.

Lemma recordCell_closed raw pl bs gls xy :
  recordCell raw (pl, bs, gls) xy =
    (if isPlayerSymbol (rawChar raw xy) then cellPoint xy else pl,
     bs ++ (if isBoxSymbol (rawChar raw xy) then [cellPoint xy] else []),
     gls ++ (if isGoalSymbol (rawChar raw xy) then [cellPoint xy] else [])).
Proof.
  unfold recordCell, rawChar, cellPoint, isPlayerSymbol, isBoxSymbol, isGoalSymbol.
  generalize (default FLOOR (cellAt raw (Z.of_nat (fst xy)) (Z.of_nat (snd xy)))).
  intros ch.
  destruct (Ascii.eqb ch ".") eqn:E1.
  { apply Ascii.eqb_eq in E1. subst ch. cbn. rewrite app_nil_r. reflexivity. }
  destruct (Ascii.eqb ch "@") eqn:E2.
  { apply Ascii.eqb_eq in E2. subst ch. cbn. rewrite !app_nil_r. reflexivity. }
  destruct (Ascii.eqb ch "$") eqn:E3.
  { apply Ascii.eqb_eq in E3. subst ch. cbn. rewrite app_nil_r. reflexivity. }
  destruct (Ascii.eqb ch "*") eqn:E4.
  { apply Ascii.eqb_eq in E4. subst ch. cbn. reflexivity. }
  destruct (Ascii.eqb ch "+") eqn:E5.
  { apply Ascii.eqb_eq in E5. subst ch. cbn. rewrite app_nil_r. reflexivity. }
  cbn. rewrite !app_nil_r. reflexivity.
Qed.

(** After the translation of the cells [l]: the player is the last player
    symbol among them, the boxes and the goals are the box symbols and the
    goal symbols in reading order. *)
Lemma record_closed raw l pl bs gls :
  fold_left (recordCell raw) l (pl, bs, gls) =
    (default pl (last (map cellPoint
                           (List.filter (fun xy => isPlayerSymbol (rawChar raw xy)) l))),
     bs ++ map cellPoint (List.filter (fun xy => isBoxSymbol (rawChar raw xy)) l),
     gls ++ map cellPoint (List.filter (fun xy => isGoalSymbol (rawChar raw xy)) l)).
Proof.
  revert pl bs gls. induction l as [|xy l IH]; intros pl bs gls; cbn [fold_left List.filter map].
  - cbn. rewrite !app_nil_r. reflexivity.
  - rewrite recordCell_closed, IH.
    destruct (isPlayerSymbol (rawChar raw xy)); destruct (isBoxSymbol (rawChar raw xy));
      destruct (isGoalSymbol (rawChar raw xy)); cbn [map];
      rewrite <- ?app_assoc, ?app_nil_r; cbn [app]; f_equal; try reflexivity;
      f_equal;
      destruct (map cellPoint (List.filter _ l)) as [|q ql] eqn:Hq; try reflexivity;
      cbn [last]; rewrite ?last_cons; destruct (last ql); reflexivity.
Qed.

Lemma cellPoint_inj xy xy' : cellPoint xy = cellPoint xy' -> xy = xy'.
Proof.
  destruct xy as [x y], xy' as [x' y']. unfold cellPoint. cbn [fst snd].
  intros H. injection H as Hx Hy. f_equal; lia.
Qed.

Lemma NoDup_map_inj {A B} (f : A -> B) (l : list A) :
  (forall a b, f a = f b -> a = b) -> NoDup l -> NoDup (map f l).
Proof.
  intros Hinj. induction 1 as [|a l Hnin Hnd IH]; cbn [map]; constructor; [|exact IH].
  intros Hin. apply list_elem_of_In, in_map_iff in Hin. destruct Hin as [b [Heq Hb]].
  apply Hinj in Heq. subst b. apply Hnin, list_elem_of_In. exact Hb.
Qed.

Lemma NoDup_bool_filter {A} (f : A -> bool) (l : list A) :
  NoDup l -> NoDup (List.filter f l).
Proof.
  induction 1 as [|a l Hnin Hnd IH]; cbn [List.filter]; [constructor|].
  destruct (f a); [|exact IH]. constructor; [|exact IH].
  intros Hin. apply Hnin. apply list_elem_of_In in Hin. apply List.filter_In in Hin.
  apply list_elem_of_In. apply Hin.
Qed.

Lemma NoDup_cellsOf w h : NoDup (cellsOf w h).
Proof.
  unfold cellsOf. generalize 0%nat at 2 as s.
  induction h as [|h IH]; intros s; cbn [seq flat_map]; [constructor|].
  apply NoDup_app. split; [|split].
  - apply NoDup_map_inj; [|apply NoDup_seq].
    intros a b H. injection H as ->. reflexivity.
  - intros [x y] Hin Hin'. apply list_elem_of_In in Hin, Hin'.
    apply in_map_iff in Hin. destruct Hin as [x' [Heq _]]. injection Heq as -> ->.
    apply in_flat_map in Hin'. destruct Hin' as [y' [Hy' Hx']].
    apply in_map_iff in Hx'. destruct Hx' as [x'' [Heq _]]. injection Heq as _ ->.
    apply in_seq in Hy'. lia.
  - apply IH.
Qed.

Lemma NoDup_cells_filter (f : nat * nat -> bool) w h :
  NoDup (map cellPoint (List.filter f (cellsOf w h))).
Proof.
  apply NoDup_map_inj.
  - intros a b. apply cellPoint_inj.
  - apply NoDup_bool_filter, NoDup_cellsOf.
Qed.

Lemma in_cells_filter (f : nat * nat -> bool) w h x y :
  In (mkPoint x y) (map cellPoint (List.filter f (cellsOf w h))) <->
  inGrid w h x y /\ f (Z.to_nat x, Z.to_nat y) = true.
Proof.
  rewrite in_map_iff. split.
  - intros [[cx cy] [Heq Hin]]. apply List.filter_In in Hin. destruct Hin as [Hin Hf].
    apply in_cellsOf in Hin. unfold cellPoint in Heq. cbn [fst snd] in Heq.
    injection Heq as <- <-. rewrite !Nat2Z.id. unfold inGrid. split; [lia|exact Hf].
  - intros [[Hx Hy] Hf]. exists (Z.to_nat x, Z.to_nat y). split.
    + unfold cellPoint. cbn [fst snd]. rewrite !Z2Nat.id by lia. reflexivity.
    + apply List.filter_In. split; [|exact Hf]. apply in_cellsOf. lia.
Qed.

(** The raw character of a cell of the grid. *)
Lemma rawChar_cellAt raw w h x y :
  shaped w h raw -> inGrid w h x y ->
  cellAt raw x y = Some (rawChar raw (Z.to_nat x, Z.to_nat y)).
Proof.
  intros Hsh Hin. destruct (cellAt_inGrid_Some w h raw x y Hsh Hin) as [a Ha].
  unfold rawChar. cbn [fst snd]. destruct Hin. rewrite !Z2Nat.id by lia.
  rewrite Ha. reflexivity.
Qed.

(** The entities of a parsed level. *)
Lemma parseLevel_entities_closed level :
  let rows := config_rows level in
  let raw := rawGridOf rows in
  let cells := cellsOf (levelWidth rows) (length rows) in
  let p := parseLevel level in
  initialPlayer p =
    default (mkPoint 0 0)
      (last (map cellPoint (List.filter (fun xy => isPlayerSymbol (rawChar raw xy)) cells))) /\
  initialBoxes p = map cellPoint (List.filter (fun xy => isBoxSymbol (rawChar raw xy)) cells) /\
  level_goals p = map cellPoint (List.filter (fun xy => isGoalSymbol (rawChar raw xy)) cells).
Proof.
  intros rows raw cells p.
  destruct (parseLevel_eq level) as (_ & Hent). fold rows raw p in Hent.
  fold cells in Hent. rewrite record_closed in Hent. cbn [app] in Hent.
  injection Hent as H1 H2 H3. auto.
Qed.

(** ** The cells of the parsed grid *)

Lemma parsed_cell level x y :
  let rows := config_rows level in
  let raw := rawGridOf rows in
  let w := levelWidth rows in
  let h := length rows in
  inGrid w h x y ->
  cellAt (parsedGrid (parseLevel level)) x y =
    Some (outCell raw (isVoid (floodFill raw w h)) (Z.to_nat x) (Z.to_nat y)).
Proof.
  intros rows raw w h Hin.
  destruct (parseLevel_eq level) as (Hgrid & _). fold rows raw w h in Hgrid.
  rewrite Hgrid.
  apply (cellAt_table (fun x y => outCell raw (isVoid (floodFill raw w h)) x y)).
  exact Hin.
Qed.

Lemma parsed_inGrid level x y c :
  cellAt (parsedGrid (parseLevel level)) x y = Some c ->
  inGrid (levelWidth (config_rows level)) (length (config_rows level)) x y.
Proof.
  intros H. eapply cellAt_Some_inGrid; [|exact H].
  destruct (parseLevel_eq level) as (Hgrid & _). rewrite Hgrid. apply shaped_table.
Qed.

(** What the translation writes, by the raw character. *)
Lemma outCell_cases raw void x y :
  let ch := rawChar raw (x, y) in
  let c := outCell raw void x y in
  (c = WALL \/ c = VOID \/ c = FLOOR \/ c = GOAL) /\
  (c = WALL <-> ch = "#"%char) /\
  (c = GOAL <-> isGoalSymbol ch = true) /\
  (c = VOID -> ch = " "%char).
Proof.
  unfold outCell, rawChar, isGoalSymbol. cbn [fst snd].
  generalize (default FLOOR (cellAt raw (Z.of_nat x) (Z.of_nat y))).
  generalize (default false (cellAt void (Z.of_nat x) (Z.of_nat y))).
  intros v ch. unfold WALL, VOID, FLOOR, GOAL.
  destruct (Ascii.eqb ch " ") eqn:E0.
  { apply Ascii.eqb_eq in E0. subst ch.
    destruct v; cbn; intuition congruence. }
  cbn [andb]. apply Ascii.eqb_neq in E0.
  destruct (Ascii.eqb ch "#") eqn:E1.
  { apply Ascii.eqb_eq in E1. subst ch. cbn. intuition congruence. }
  destruct (Ascii.eqb ch ".") eqn:E2.
  { apply Ascii.eqb_eq in E2. subst ch. cbn. intuition congruence. }
  destruct (Ascii.eqb ch "@") eqn:E3.
  { apply Ascii.eqb_eq in E3. subst ch. cbn. intuition congruence. }
  destruct (Ascii.eqb ch "$") eqn:E4.
  { apply Ascii.eqb_eq in E4. subst ch. cbn. intuition congruence. }
  destruct (Ascii.eqb ch "*") eqn:E5.
  { apply Ascii.eqb_eq in E5. subst ch. cbn. intuition congruence. }
  destruct (Ascii.eqb ch "+") eqn:E6.
  { apply Ascii.eqb_eq in E6. subst ch. cbn. intuition congruence. }
  apply Ascii.eqb_neq in E1. cbn. intuition congruence.
Qed.

(** ** Reading order *)

(** [l] is ordered by [R]: every element is related to all the later ones. *)
Fixpoint ordered {A} (R : A -> A -> Prop) (l : list A) : Prop :=
  match l with
  | [] => True
  | a :: l' => (forall b, In b l' -> R a b) /\ ordered R l'
  end.

Lemma ordered_app {A} (R : A -> A -> Prop) l1 l2 :
  ordered R l1 -> ordered R l2 -> (forall a b, In a l1 -> In b l2 -> R a b) ->
  ordered R (l1 ++ l2).
Proof.
  induction l1 as [|a l1 IH]; cbn [app ordered]; intros H1 H2 H12; [exact H2|].
  destruct H1 as [Ha H1]. split.
  - intros b Hb. apply in_app_or in Hb. destruct Hb as [Hb|Hb]; [auto|].
    apply H12; [left; reflexivity|exact Hb].
  - apply IH; auto. intros a' b Ha' Hb. apply H12; [right; exact Ha'|exact Hb].
Qed.

Lemma ordered_filter {A} (R : A -> A -> Prop) (f : A -> bool) l :
  ordered R l -> ordered R (List.filter f l).
Proof.
  induction l as [|a l IH]; cbn [List.filter ordered]; [auto|].
  intros [Ha Hl]. destruct (f a); [|auto]. cbn [ordered]. split; [|auto].
  intros b Hb. apply List.filter_In in Hb. apply Ha, Hb.
Qed.

Lemma ordered_last {A} (R : A -> A -> Prop) l m :
  ordered R l -> last l = Some m -> forall a, In a l -> a = m \/ R a m.
Proof.
  intros Hord Hlast. apply last_Some in Hlast. destruct Hlast as [l' ->].
  induction l' as [|b l' IH]; cbn [app] in *.
  - intros a [<-|[]]. left. reflexivity.
  - destruct Hord as [Hb Hord]. intros a [<-|Ha].
    + right. apply Hb. apply in_or_app. right. left. reflexivity.
    + apply IH; assumption.
Qed.

(** The order in which the translation loop visits the cells. *)
Definition readsBefore (a b : nat * nat) : Prop :=
  (snd a < snd b)%nat \/ (snd a = snd b /\ (fst a < fst b)%nat).

Lemma ordered_row (y s w : nat) : ordered readsBefore (map (fun x => (x, y)) (seq s w)).
Proof.
  revert s. induction w as [|w IH]; intros s; cbn [seq map ordered]; [exact I|].
  split; [|apply IH]. intros b Hb. apply in_map_iff in Hb. destruct Hb as [x [<- Hx]].
  apply in_seq in Hx. right. cbn. lia.
Qed.

Lemma ordered_cellsOf w h : ordered readsBefore (cellsOf w h).
Proof.
  unfold cellsOf. generalize 0%nat at 2 as s.
  induction h as [|h IH]; intros s; cbn [seq flat_map]; [exact I|].
  apply ordered_app; [apply ordered_row|apply IH|].
  intros a b Ha Hb. apply in_map_iff in Ha. destruct Ha as [x [<- _]].
  apply in_flat_map in Hb. destruct Hb as [y' [Hy' Hb]].
  apply in_map_iff in Hb. destruct Hb as [x' [<- _]].
  apply in_seq in Hy'. left. cbn. lia.
Qed.

(** ** Tiles and entities of a parsed level *)

(** X1.  The parsed grid is made of the four tiles Wall, Void, Floor and Goal.
    A cell is Wall exactly where the level text has ['#'], and it is Goal
    exactly where the loader has recorded a goal. *)
Theorem parseLevel_tiles (level : LevelConfig) (x y : Z) (c : ascii) :
  cellAt (parsedGrid (parseLevel level)) x y = Some c ->
  (c = WALL \/ c = VOID \/ c = FLOOR \/ c = GOAL) /\
  (c = WALL <-> cellAt (rawGridOf (config_rows level)) x y = Some "#"%char) /\
  (c = GOAL <-> In (mkPoint x y) (level_goals (parseLevel level))).
Proof.
  intros Hc. pose proof (parsed_inGrid level x y c Hc) as Hin.
  pose proof (parsed_cell level x y Hin) as Hcell. cbv zeta in Hcell.
  rewrite Hcell in Hc. injection Hc as <-.
  set (rows := config_rows level) in *. set (raw := rawGridOf rows) in *.
  pose proof (rawChar_cellAt raw _ _ x y (shaped_rawGridOf rows) Hin) as Hraw.
  destruct (outCell_cases raw (isVoid (floodFill raw (levelWidth rows) (length rows)))
              (Z.to_nat x) (Z.to_nat y)) as (H1 & H2 & H3 & _).
  split; [exact H1|]. split.
  - rewrite H2, Hraw. split; [intros ->; reflexivity|intros H; injection H; auto].
  - rewrite H3. destruct (parseLevel_entities_closed level) as (_ & _ & ->).
    fold rows raw. rewrite in_cells_filter. tauto.
Qed.

Lemma parseLevel_tiles_witness :
  cellAt (parsedGrid (parseLevel testLevel)) 3 2 = Some GOAL /\
  In (mkPoint 3 2) (level_goals (parseLevel testLevel)).
Proof.
  assert (H : cellAt (parsedGrid (parseLevel testLevel)) 3 2 = Some GOAL)
    by (vm_compute; reflexivity).
  split; [exact H|].
  destruct (parseLevel_tiles testLevel 3 2 GOAL H) as (_ & _ & Hg).
  apply Hg. reflexivity.
Defined.

Lemma rawChar_iff level x y ch :
  let rows := config_rows level in
  let raw := rawGridOf rows in
  cellAt raw x y = Some ch <->
  inGrid (levelWidth rows) (length rows) x y /\ rawChar raw (Z.to_nat x, Z.to_nat y) = ch.
Proof.
  intros rows raw. pose proof (shaped_rawGridOf rows) as Hsh. fold raw in Hsh. split.
  - intros H. pose proof (cellAt_Some_inGrid _ _ raw x y ch Hsh H) as Hin.
    split; [exact Hin|]. rewrite (rawChar_cellAt raw _ _ x y Hsh Hin) in H.
    injection H; auto.
  - intros [Hin <-]. apply (rawChar_cellAt raw _ _ x y Hsh Hin).
Qed.

Lemma parsed_box_iff level x y :
  let raw := rawGridOf (config_rows level) in
  In (mkPoint x y) (initialBoxes (parseLevel level)) <->
  cellAt raw x y = Some "$"%char \/ cellAt raw x y = Some "*"%char.
Proof.
  intros raw. destruct (parseLevel_entities_closed level) as (_ & -> & _). fold raw.
  pose proof (rawChar_iff level x y) as Hchar. cbv zeta in Hchar. fold raw in Hchar.
  rewrite in_cells_filter, !Hchar. unfold isBoxSymbol.
  rewrite orb_true_iff, !Ascii.eqb_eq. tauto.
Qed.

Lemma parsed_goal_iff level x y :
  let raw := rawGridOf (config_rows level) in
  In (mkPoint x y) (level_goals (parseLevel level)) <->
  cellAt raw x y = Some "."%char \/ cellAt raw x y = Some "*"%char \/
  cellAt raw x y = Some "+"%char.
Proof.
  intros raw. destruct (parseLevel_entities_closed level) as (_ & _ & ->). fold raw.
  pose proof (rawChar_iff level x y) as Hchar. cbv zeta in Hchar. fold raw in Hchar.
  rewrite in_cells_filter, !Hchar. unfold isGoalSymbol.
  rewrite !orb_true_iff, !Ascii.eqb_eq. tauto.
Qed.

(** A cell whose raw character is neither ['#'] nor [' '] is passable in the
    parsed grid. *)
Lemma parsed_passable level x y ch :
  cellAt (rawGridOf (config_rows level)) x y = Some ch ->
  ch <> "#"%char -> ch <> " "%char ->
  isWall (parsedGrid (parseLevel level)) x y = false.
Proof.
  intros Hraw Hw Hs.
  pose proof (rawChar_iff level x y ch) as Hchar. cbv zeta in Hchar.
  apply Hchar in Hraw. destruct Hraw as [Hgrid Hch].
  apply isWall_false_passable. unfold impassable.
  pose proof (parsed_cell level x y Hgrid) as Hcell. cbv zeta in Hcell. rewrite Hcell.
  set (rows := config_rows level) in *. set (raw := rawGridOf rows) in *.
  destruct (outCell_cases raw (isVoid (floodFill raw (levelWidth rows) (length rows)))
              (Z.to_nat x) (Z.to_nat y)) as (_ & H2 & _ & H4).
  intros [H|H]; [apply H2 in H|apply H4 in H]; congruence.
Qed.

Lemma parsed_boxes_NoDup level : NoDup (initialBoxes (parseLevel level)).
Proof.
  destruct (parseLevel_entities_closed level) as (_ & -> & _). apply NoDup_cells_filter.
Qed.

Lemma parsed_goals_NoDup level : NoDup (level_goals (parseLevel level)).
Proof.
  destruct (parseLevel_entities_closed level) as (_ & _ & ->). apply NoDup_cells_filter.
Qed.

(** X2.  The boxes of a parsed level are the cells where the text has ['$'] or
    ['*'], its goals the cells where it has ['.'], ['*'] or ['+']; no cell is
    listed twice, and no box starts on a Wall or Void cell. *)
Theorem parseLevel_entities (level : LevelConfig) (x y : Z) :
  let raw := rawGridOf (config_rows level) in
  let p := parseLevel level in
  (In (mkPoint x y) (initialBoxes p) <->
     cellAt raw x y = Some "$"%char \/ cellAt raw x y = Some "*"%char) /\
  (In (mkPoint x y) (level_goals p) <->
     cellAt raw x y = Some "."%char \/ cellAt raw x y = Some "*"%char \/
     cellAt raw x y = Some "+"%char) /\
  NoDup (initialBoxes p) /\ NoDup (level_goals p) /\
  (In (mkPoint x y) (initialBoxes p) -> isWall (parsedGrid p) x y = false).
Proof.
  intros raw p.
  split; [apply parsed_box_iff|]. split; [apply parsed_goal_iff|].
  split; [apply parsed_boxes_NoDup|]. split; [apply parsed_goals_NoDup|].
  intros Hin. apply parsed_box_iff in Hin.
  destruct Hin as [H|H]; apply (parsed_passable level x y _ H); discriminate.
Qed.

(** X3.  When the level text has several player symbols, the last one in
    reading order (row by row, left to right) gives the initial player: every
    player symbol of the text is at the initial player's cell or before it. *)
Theorem parseLevel_player_is_last_symbol (level : LevelConfig) (x y : Z) :
  let raw := rawGridOf (config_rows level) in
  let pl := initialPlayer (parseLevel level) in
  symbolAt raw (mkPoint x y) ->
  symbolAt raw pl /\ (y < py pl \/ (y = py pl /\ x <= px pl)).
Proof.
  intros raw pl [c [Hc Hsym]]. cbn [px py] in Hc.
  set (rows := config_rows level) in *.
  pose proof (shaped_rawGridOf rows) as Hsh. fold raw in Hsh.
  pose proof (cellAt_Some_inGrid _ _ raw x y c Hsh Hc) as Hin.
  destruct (parseLevel_entities_closed level) as (Hpl & _ & _).
  fold rows raw pl in Hpl.
  set (f := fun xy => isPlayerSymbol (rawChar raw xy)) in *.
  set (cells := cellsOf (levelWidth rows) (length rows)) in *.
  assert (Hxy : In (Z.to_nat x, Z.to_nat y) (List.filter f cells)).
  { apply List.filter_In. split; [apply in_cellsOf; destruct Hin; lia|].
    unfold f. rewrite (rawChar_cellAt raw _ _ x y Hsh Hin) in Hc. injection Hc as ->.
    apply isPlayerSymbol_spec. exact Hsym. }
  destruct (last (List.filter f cells)) as [m|] eqn:Hlast.
  2:{ apply last_None in Hlast. rewrite Hlast in Hxy. destruct Hxy. }
  assert (Hm : In m (List.filter f cells)).
  { apply list_elem_of_In. eapply last_Some_elem_of. exact Hlast. }
  assert (Hplm : pl = cellPoint m).
  { rewrite Hpl.
    apply last_Some in Hlast. destruct Hlast as [l' Hl']. rewrite Hl', map_app. cbn [map].
    rewrite last_snoc. reflexivity. }
  apply List.filter_In in Hm. destruct Hm as [Hmc Hmf].
  destruct m as [mx my]. unfold cells in Hmc. apply in_cellsOf in Hmc. split.
  - rewrite Hplm. exists (rawChar raw (mx, my)).
    split; [|apply isPlayerSymbol_spec; exact Hmf].
    unfold cellPoint. cbn [px py fst snd].
    rewrite (rawChar_cellAt raw _ _ _ _ Hsh) by (unfold inGrid; lia).
    rewrite !Nat2Z.id. reflexivity.
  - destruct (ordered_last readsBefore (List.filter f cells) (mx, my)
                (ordered_filter _ f cells (ordered_cellsOf _ _)) Hlast _ Hxy) as [Heq|Hbefore].
    + rewrite Hplm, <- Heq. unfold cellPoint. cbn [px py fst snd]. destruct Hin. lia.
    + rewrite Hplm. unfold cellPoint, readsBefore in *. cbn [px py fst snd] in *.
      destruct Hin. lia.
Qed.

(** A level text with two player symbols: the one on the lower row wins. *)
Definition twoPlayersLevel : LevelConfig :=
  mkLevelConfig 9 "Two players" "Easy" ["#####"; "#@ .#"; "# $@#"; "#####"]%string.

Lemma parseLevel_player_is_last_symbol_witness :
  initialPlayer (parseLevel twoPlayersLevel) = mkPoint 3 2 /\
  symbolAt (rawGridOf (config_rows twoPlayersLevel)) (initialPlayer (parseLevel twoPlayersLevel)) /\
  (1 < py (initialPlayer (parseLevel twoPlayersLevel)) \/
   (1 = py (initialPlayer (parseLevel twoPlayersLevel)) /\
    1 <= px (initialPlayer (parseLevel twoPlayersLevel)))).
Proof.
  split; [vm_compute; reflexivity|].
  apply (parseLevel_player_is_last_symbol twoPlayersLevel 1 1).
  exists "@"%char. split; [vm_compute; reflexivity|left; reflexivity].
Defined.

(** ** Ragged level texts *)

(** A row completed with blanks up to [width] characters. *)
Definition padRow (width : nat) (rowStr : string) : string :=
  String.append rowStr
    (string_of_list_ascii (List.repeat " "%char (width - String.length rowStr))).

Lemma length_string_append s1 s2 :
  String.length (String.append s1 s2) = (String.length s1 + String.length s2)%nat.
Proof. induction s1 as [|c s1 IH]; simpl; [reflexivity|]. f_equal. exact IH. Qed.

Lemma length_blanks k : String.length (string_of_list_ascii (List.repeat " "%char k)) = k.
Proof. induction k as [|k IH]; simpl; [reflexivity|]. f_equal. exact IH. Qed.

Lemma charAt_blanks k x : charAt (string_of_list_ascii (List.repeat " "%char k)) x = FLOOR.
Proof.
  unfold charAt. revert x. induction k as [|k IH]; intros x; cbn; [reflexivity|].
  destruct x as [|x]; [reflexivity|apply IH].
Qed.

Lemma charAt_append_blanks rowStr k x :
  charAt (String.append rowStr (string_of_list_ascii (List.repeat " "%char k))) x
    = charAt rowStr x.
Proof.
  revert x. induction rowStr as [|c rowStr IH]; intros x.
  - change (String.append EmptyString ?s) with s. rewrite charAt_blanks.
    destruct x; reflexivity.
  - destruct x as [|x]; [reflexivity|]. unfold charAt in *. simpl. apply IH.
Qed.

Lemma levelWidth_constant rows w :
  rows <> [] -> (forall r, In r rows -> String.length r = w) -> levelWidth rows = w.
Proof.
  unfold levelWidth. induction rows as [|r rows IH]; intros Hne Hall; [contradiction|].
  cbn [map fold_right]. rewrite (Hall r (or_introl eq_refl)).
  destruct rows as [|r' rows]; [cbn; lia|].
  rewrite IH; [lia|discriminate|]. intros r0 Hr0. apply Hall. right. exact Hr0.
Qed.

Lemma levelWidth_padded rows :
  levelWidth (map (padRow (levelWidth rows)) rows) = levelWidth rows.
Proof.
  destruct rows as [|r0 rows0] eqn:Hrows; [reflexivity|]. rewrite <- Hrows.
  apply levelWidth_constant.
  - rewrite Hrows. discriminate.
  - intros r Hr. apply in_map_iff in Hr. destruct Hr as [r' [<- Hr']].
    unfold padRow. rewrite length_string_append, length_blanks.
    pose proof (levelWidth_ge rows r' Hr'). lia.
Qed.

Lemma rawGridOf_padded rows :
  rawGridOf (map (padRow (levelWidth rows)) rows) = rawGridOf rows.
Proof.
  unfold rawGridOf. rewrite levelWidth_padded, map_map.
  apply map_ext. intros r. apply map_ext. intros x. apply charAt_append_blanks.
Qed.

(** X4.  A ragged level text is read as if every row were completed with
    blanks up to the longest row: the padded text gives the same grid, player,
    boxes and goals. *)
Theorem parseLevel_ignores_padding (level : LevelConfig) :
  let rows := config_rows level in
  let padded := mkLevelConfig (config_id level) (config_name level)
                  (config_difficulty level) (map (padRow (levelWidth rows)) rows) in
  parsedGrid (parseLevel padded) = parsedGrid (parseLevel level) /\
  initialPlayer (parseLevel padded) = initialPlayer (parseLevel level) /\
  initialBoxes (parseLevel padded) = initialBoxes (parseLevel level) /\
  level_goals (parseLevel padded) = level_goals (parseLevel level).
Proof.
  cbv zeta. unfold parseLevel. cbn [config_rows parsedGrid initialPlayer initialBoxes level_goals].
  rewrite rawGridOf_padded, levelWidth_padded, length_map. auto.
Qed.

(** ** Well-formed starting positions *)

(** A position the engine can play from: the boxes stand on distinct cells,
    and neither the player nor a box stands on a cell that [isWall] rejects
    or where another piece already is. *)
Definition wellFormed (gr : Grid) (pl : Point) (bs : list Point) : Prop :=
  NoDup bs /\ isWall gr (px pl) (py pl) = false /\ ~ In pl bs /\
  forall b, In b bs -> isWall gr (px b) (py b) = false.

Lemma parsed_player_symbol level :
  hasPlayer (config_rows level) = true ->
  symbolAt (rawGridOf (config_rows level)) (initialPlayer (parseLevel level)).
Proof.
  intros Hyes. destruct (parseLevel_eq level) as (_ & Hent).
  assert (Hpl : initialPlayer (parseLevel level) =
                fst (fst (fold_left (recordCell (rawGridOf (config_rows level)))
                            (cellsOf (levelWidth (config_rows level))
                                     (length (config_rows level)))
                            (mkPoint 0 0, [], [])))).
  { rewrite <- Hent. reflexivity. }
  rewrite Hpl. apply record_symbol. right. apply hasPlayer_true. exact Hyes.
Qed.

Lemma parsed_wellFormed level :
  hasPlayer (config_rows level) = true ->
  wellFormed (parsedGrid (parseLevel level)) (initialPlayer (parseLevel level))
             (initialBoxes (parseLevel level)).
Proof.
  intros Hyes. set (p := parseLevel level).
  pose proof (parsed_player_symbol level Hyes) as [ch [Hch Hsym]].
  fold p in Hch. split; [apply parsed_boxes_NoDup|]. split; [|split].
  - apply (parsed_passable level _ _ ch Hch); destruct Hsym; subst ch; discriminate.
  - intros Hin. destruct (initialPlayer p) as [x y] eqn:Hp. cbn [px py] in Hch.
    apply parsed_box_iff in Hin. destruct Hsym; subst ch; destruct Hin; congruence.
  - intros [x y] Hin. cbn [px py]. pose proof Hin as Hin'. apply parsed_box_iff in Hin'.
    destruct Hin' as [H|H]; apply (parsed_passable level x y _ H); discriminate.
Qed.

(** X5.  A level text with a player symbol is loaded into a well-formed
    position: the player stands on a passable cell that holds no box, the
    boxes stand on passable cells, and no two boxes share a cell. *)
Theorem parseLevel_well_formed (level : LevelConfig) :
  hasPlayer (config_rows level) = true ->
  let p := parseLevel level in
  wellFormed (parsedGrid p) (initialPlayer p) (initialBoxes p).
Proof. intros Hyes p. apply parsed_wellFormed. exact Hyes. Qed.

Lemma parseLevel_well_formed_witness :
  wellFormed (parsedGrid (parseLevel testLevel)) (initialPlayer (parseLevel testLevel))
             (initialBoxes (parseLevel testLevel)).
Proof.
  apply (parseLevel_well_formed testLevel). vm_compute. reflexivity.
Defined.

(** * Further properties of the level generator *)

(** ** Lists of points *)

Lemma anyAt_false ps x y : anyAt ps x y = false <-> ~ In (mkPoint x y) ps.
Proof.
  unfold anyAt. rewrite existsb_false. split.
  - intros H Hin. specialize (H _ Hin).
    rewrite (proj2 (samePos_true (mkPoint x y) x y) eq_refl) in H. discriminate.
  - intros H p Hp. destruct (samePos p x y) eqn:Hs; [|reflexivity].
    apply samePos_true in Hs. subst p. contradiction.
Qed.

Lemma in_combine_seq {A} (l : list A) (s j : nat) (a : A) :
  In (j, a) (combine (seq s (length l)) l) <-> (s <= j)%nat /\ l !! (j - s)%nat = Some a.
Proof.
  revert s. induction l as [|b l IH]; intros s; cbn [length seq combine].
  - split; [intros []|intros [_ H]; discriminate].
  - cbn [In]. rewrite IH. split.
    + intros [Heq|[Hle Hl]].
      * injection Heq as <- <-. split; [lia|]. rewrite Nat.sub_diag. reflexivity.
      * split; [lia|]. replace (j - s)%nat with (S (j - S s)) by lia. exact Hl.
    + intros [Hle Hl]. destruct (Nat.eq_dec j s) as [->|Hne].
      * left. rewrite Nat.sub_diag in Hl. injection Hl as ->. reflexivity.
      * right. split; [lia|]. replace (j - s)%nat with (S (j - S s)) in Hl by lia. exact Hl.
Qed.

(** [otherBoxAt bs i x y] fails exactly when no box of another index stands
    on [(x, y)]. *)
Lemma otherBoxAt_false bs i x y :
  otherBoxAt bs i x y = false <->
  forall j b, bs !! j = Some b -> j <> i -> b <> mkPoint x y.
Proof.
  unfold otherBoxAt. rewrite existsb_false. split.
  - intros H j b Hj Hne Heq. specialize (H (j, b)). cbn [fst snd] in H.
    rewrite (proj2 (Nat.eqb_neq j i) Hne) in H. cbn [negb andb] in H.
    rewrite (proj2 (samePos_true b x y) Heq) in H.
    assert (true = false); [|discriminate]. apply H.
    apply in_combine_seq. split; [lia|]. rewrite Nat.sub_0_r. exact Hj.
  - intros H [j b] Hin. cbn [fst snd]. apply in_combine_seq in Hin.
    destruct Hin as [_ Hj]. rewrite Nat.sub_0_r in Hj.
    destruct (Nat.eqb_spec j i) as [->|Hne]; [reflexivity|]. cbn [negb andb].
    destruct (samePos b x y) eqn:Hs; [|reflexivity].
    apply samePos_true in Hs. exfalso. exact (H j b Hj Hne Hs).
Qed.

Lemma NoDup_insert_point (bs : list Point) (i : nat) (p : Point) :
  NoDup bs -> (forall j b, bs !! j = Some b -> j <> i -> b <> p) ->
  NoDup (<[i := p]> bs).
Proof.
  intros Hnd Hp. apply NoDup_alt. intros j k q Hj Hk.
  destruct (Nat.eq_dec j i) as [->|Hji]; destruct (Nat.eq_dec k i) as [->|Hki].
  - reflexivity.
  - exfalso. rewrite list_lookup_insert_ne in Hk by auto.
    pose proof (lookup_lt_Some _ _ _ Hj) as Hlt. rewrite length_insert in Hlt.
    rewrite list_lookup_insert_eq in Hj by exact Hlt. injection Hj as <-.
    exact (Hp k p Hk Hki eq_refl).
  - exfalso. rewrite list_lookup_insert_ne in Hj by auto.
    pose proof (lookup_lt_Some _ _ _ Hk) as Hlt. rewrite length_insert in Hlt.
    rewrite list_lookup_insert_eq in Hk by exact Hlt. injection Hk as <-.
    exact (Hp j p Hj Hji eq_refl).
  - rewrite list_lookup_insert_ne in Hj, Hk by auto.
    exact (proj1 (NoDup_alt bs) Hnd j k q Hj Hk).
Qed.

Lemma in_insert_inv {A} (l : list A) (i : nat) (a b : A) :
  In b (<[i := a]> l) -> b = a \/ exists j, j <> i /\ l !! j = Some b.
Proof.
  intros Hin. apply list_elem_of_In, list_elem_of_lookup in Hin. destruct Hin as [j Hj].
  destruct (Nat.eq_dec j i) as [->|Hne].
  - left. pose proof (lookup_lt_Some _ _ _ Hj) as Hlt. rewrite length_insert in Hlt.
    rewrite list_lookup_insert_eq in Hj by exact Hlt. injection Hj; auto.
  - right. exists j. rewrite list_lookup_insert_ne in Hj by auto. auto.
Qed.

(** ** Layout of a tier *)

Section GeneratorLayout.

Variable rnd : nat -> nat.
Variable c : GenConfig.
Hypothesis width_big : 4 < cfg_width c.
Hypothesis height_big : 4 < cfg_height c.

Local Abbreviation GW := (Z.to_nat (cfg_width c)).
Local Abbreviation GH := (Z.to_nat (cfg_height c)).

(** A cell strictly inside the outer ring. *)
Definition insideRing (p : Point) : Prop :=
  0 < px p < cfg_width c - 1 /\ 0 < py p < cfg_height c - 1.

(** The grid holds Wall and Floor tiles only. *)
Definition wallsAndFloor (g : Grid) : Prop :=
  forall x y ch, cellAt g x y = Some ch -> ch = WALL \/ ch = FLOOR.

(** The goals are the Goal tiles of the grid, each listed once, and the other
    tiles are Wall or Floor. *)
Definition GoalInv (g : Grid) (gls : list Point) : Prop :=
  GridInv c g /\ NoDup gls /\
  (forall x y, In (mkPoint x y) gls <-> cellAt g x y = Some GOAL) /\
  (forall x y ch, cellAt g x y = Some ch -> ch = WALL \/ ch = FLOOR \/ ch = GOAL).

(** Boxes and player during the pulls and the repair: the boxes stand on
    distinct cells inside the ring that are not walls, and the player stands
    inside the ring on a cell that is neither a wall nor under a box. *)
Definition BoxInv (g : Grid) (bs : list Point) (pl : Point) : Prop :=
  NoDup bs /\
  (forall b, In b bs -> insideRing b /\ cellIs g (px b) (py b) WALL = false) /\
  insideRing pl /\ cellIs g (px pl) (py pl) WALL = false /\ ~ In pl bs.

Lemma inner_inGrid x y : inner c x y -> inGrid GW GH x y.
Proof. unfold inner, inGrid. lia. Qed.

Lemma inner_insideRing x y : inner c x y -> insideRing (mkPoint x y).
Proof. unfold inner, insideRing. cbn [px py]. lia. Qed.

Lemma cellAt_setCell_cases {A} (g : list (list A)) x y (v : A) x' y' :
  shaped GW GH g -> inGrid GW GH x y ->
  cellAt (setCell g x y v) x' y' =
    if Z.eqb x' x && Z.eqb y' y then Some v else cellAt g x' y'.
Proof.
  intros Hsh Hin.
  destruct (Z.eqb_spec x' x) as [->|Hx]; [destruct (Z.eqb_spec y' y) as [->|Hy]|]; cbn [andb].
  - apply (cellAt_setCell_eq GW GH); assumption.
  - apply cellAt_setCell_ne; [destruct Hin; lia|destruct Hin; lia|congruence].
  - apply cellAt_setCell_ne; [destruct Hin; lia|destruct Hin; lia|congruence].
Qed.

Lemma wallsAndFloor_bordered : wallsAndFloor (borderedGrid c).
Proof.
  intros x y ch H.
  pose proof (cellAt_Some_inGrid GW GH _ x y ch (shaped_borderedGrid c) H) as Hin.
  rewrite (cellAt_borderedGrid c width_big height_big x y Hin) in H. injection H as <-.
  destruct (_ || _ || _ || _); auto.
Qed.

Lemma scatterWalls_plain n st :
  GridInv c (fst st) -> wallsAndFloor (fst st) ->
  wallsAndFloor (fst (Nat.iter n (scatterWall rnd c) st)).
Proof.
  intros Hg Hp. induction n as [|n IH]; [exact Hp|].
  change (Nat.iter (S n) (scatterWall rnd c) st)
    with (scatterWall rnd c (Nat.iter n (scatterWall rnd c) st)).
  pose proof (scatterWalls_inv rnd c width_big height_big n st Hg) as Hgn.
  destruct (Nat.iter n (scatterWall rnd c) st) as [g i]. cbn [fst] in *.
  unfold scatterWall. cbv beta iota zeta.
  match goal with |- context [if ?b then _ else _] => destruct b end; cbn [fst]; [|exact IH].
  intros x y ch. rewrite cellAt_setCell_cases;
    [|apply Hgn|apply inner_inGrid, (inner_draw rnd c width_big height_big)].
  destruct (_ && _); [|apply IH]. intros H. injection H as <-. left. reflexivity.
Qed.

Lemma GoalInv_start g : GridInv c g -> wallsAndFloor g -> GoalInv g [].
Proof.
  intros Hg Hp. split; [exact Hg|]. split; [constructor|]. split.
  - intros x y. split; [intros []|]. intros H. destruct (Hp x y _ H); discriminate.
  - intros x y ch H. destruct (Hp x y ch H); auto.
Qed.

Lemma cellIs_true g x y ch : cellIs g x y ch = true <-> cellAt g x y = Some ch.
Proof.
  unfold cellIs. destruct (cellAt g x y) as [c'|].
  - rewrite Ascii.eqb_eq. split; [intros ->; reflexivity|intros H; injection H; auto].
  - split; discriminate.
Qed.

Lemma placeGoals_layout n g gls i :
  GoalInv g gls ->
  let r := placeGoals rnd c n g gls i in
  GoalInv (fst (fst r)) (snd (fst r)).
Proof.
  revert g gls i. induction n as [|n IH]; intros g gls i Hinv; cbn [placeGoals].
  - exact Hinv.
  - destruct (length gls <? cfg_boxes c)%nat; [|exact Hinv].
    match goal with |- context [if ?b && _ then _ else _] => destruct b eqn:Hfloor end;
      cbn [andb]; [|apply IH; exact Hinv].
    match goal with |- context [if negb ?b then _ else _] => destruct b eqn:Hany end;
      cbn [negb]; [apply IH; exact Hinv|].
    destruct (2 <=? _); [|apply IH; exact Hinv].
    apply IH. clear IH.
    set (x := 2 + randomInt rnd i (cfg_width c - 4)) in *.
    set (y := 2 + randomInt rnd (S i) (cfg_height c - 4)) in *.
    assert (Hin : inner c x y) by apply (inner_draw rnd c width_big height_big).
    destruct Hinv as (Hg & Hnd & Hgoal & Hplain).
    apply anyAt_false in Hany.
    assert (Hcell : forall x' y', cellAt (setCell g x y GOAL) x' y' =
              if Z.eqb x' x && Z.eqb y' y then Some GOAL else cellAt g x' y').
    { intros x' y'. apply cellAt_setCell_cases; [apply Hg|apply inner_inGrid; exact Hin]. }
    split; [apply (GridInv_setCell c); assumption|]. split; [|split].
    + apply NoDup_app. split; [exact Hnd|]. split; [|apply NoDup_singleton].
      intros p Hp Hp'. apply list_elem_of_In in Hp, Hp'. destruct Hp' as [<-|[]]. contradiction.
    + intros x' y'. rewrite Hcell, in_app_iff, Hgoal. cbn [In].
      destruct (Z.eqb_spec x' x) as [->|Hx]; [destruct (Z.eqb_spec y' y) as [->|Hy]|];
        cbn [andb]; split; auto.
      * intros [H|[H|[]]]; [exact H|]. injection H as ->. contradiction.
      * intros [H|[H|[]]]; [exact H|]. injection H as ->. contradiction.
    + intros x' y' ch. rewrite Hcell. destruct (_ && _); [|apply Hplain].
      intros H. injection H as <-. auto.
Qed.

(** ** The first cell of the player *)

Lemma upto_pos n : 0 < n -> exists l, upto n = 0 :: l.
Proof.
  intros Hn. unfold upto. destruct (Z.to_nat n) as [|k] eqn:Hk; [lia|].
  cbn [seq map]. eauto.
Qed.

Lemma initialPlayer_corner g gls :
  GoalInv g gls ->
  initialPlayerFrom c g gls (map (Z.add 1) (upto (cfg_height c - 2))) (mkPoint 2 2)
    = mkPoint 1 1.
Proof.
  intros (Hg & _ & Hgoal & _).
  destruct (upto_pos (cfg_height c - 2)) as [ys ->]; [lia|].
  destruct (upto_pos (cfg_width c - 2)) as [xs Hxs]; [lia|].
  cbn [map initialPlayerFrom]. rewrite Hxs. cbn [map List.find].
  change (1 + 0) with 1.
  assert (Hw : cellIs g 1 1 WALL = false).
  { unfold cellIs. rewrite (GridInv_corner c width_big height_big g Hg). reflexivity. }
  assert (Hb : anyAt gls 1 1 = false).
  { apply anyAt_false. rewrite Hgoal, (GridInv_corner c width_big height_big g Hg).
    discriminate. }
  rewrite Hw, Hb. reflexivity.
Qed.

(** ** Pulls and repairs *)

Lemma pull_guard g bs bi nbx nby plx ply :
  (nbx <=? 0) || (nbx >=? cfg_width c - 1) || (nby <=? 0) || (nby >=? cfg_height c - 1)
  || cellIs g nbx nby WALL || otherBoxAt bs bi nbx nby
  || (plx <=? 0) || (plx >=? cfg_width c - 1) || (ply <=? 0) || (ply >=? cfg_height c - 1)
  || cellIs g plx ply WALL || anyAt bs plx ply
  || (1 <? countWallNeighbors g nbx nby) = false ->
  insideRing (mkPoint nbx nby) /\ cellIs g nbx nby WALL = false /\
  otherBoxAt bs bi nbx nby = false /\
  insideRing (mkPoint plx ply) /\ cellIs g plx ply WALL = false /\
  anyAt bs plx ply = false.
Proof.
  rewrite !orb_false_iff. unfold insideRing. cbn [px py].
  intros [[[[[[[[[[[[H1 H2] H3] H4] H5] H6] H7] H8] H9] H10] H11] H12] _].
  apply Z.leb_gt in H1, H3, H7, H9.
  rewrite Z.geb_leb in H2, H4, H8, H10. apply Z.leb_gt in H2, H4, H8, H10.
  repeat split; auto; lia.
Qed.

Lemma dirs_unit di dir :
  dirs !! di = Some dir -> (px dir <> 0 \/ py dir <> 0).
Proof.
  unfold dirs. do 4 (destruct di as [|di]; [intros H; injection H as <-; cbn; lia|]).
  discriminate.
Qed.

Lemma BoxInv_move_box g bs pl bi box x y :
  BoxInv g bs pl -> bs !! bi = Some box ->
  insideRing (mkPoint x y) -> cellIs g x y WALL = false ->
  otherBoxAt bs bi x y = false -> pl <> mkPoint x y ->
  BoxInv g (<[bi := mkPoint x y]> bs) pl.
Proof.
  intros (Hnd & Hbs & Hpl & Hplw & Hplb) Hbox Hin Hw Hother Hne.
  pose proof (proj1 (otherBoxAt_false bs bi x y) Hother) as Ho.
  split; [apply NoDup_insert_point; assumption|]. split; [|split; [exact Hpl|split; [exact Hplw|]]].
  - intros b Hb. apply in_insert in Hb. destruct Hb as [->|Hb]; [|auto].
    cbn [px py]. auto.
  - intros Hb. apply in_insert in Hb. destruct Hb as [Hb|Hb]; [contradiction|contradiction].
Qed.

Lemma reversePulls_sound g n k bs pl i :
  BoxInv g bs pl ->
  let r := reversePulls rnd c g n k bs pl i in
  BoxInv g (fst (fst r)) (snd (fst r)).
Proof.
  revert k bs pl i.
  induction n as [|n IH]; intros k bs pl i Hinv; cbn [reversePulls]; [exact Hinv|].
  destruct (k <? cfg_moves c)%nat; [|exact Hinv].
  destruct (bs !! _) as [box|] eqn:Hbox; [|exact Hinv].
  destruct (dirs !! _) as [dir|] eqn:Hdir; [|exact Hinv].
  cbv zeta.
  match goal with |- context [if ?b then _ else _] => destruct b eqn:Hcond end.
  - apply IH. exact Hinv.
  - apply IH. clear IH. apply pull_guard in Hcond.
    destruct Hcond as (Hnb & Hnbw & Hother & Hp & Hpw & Hpb).
    set (bi := Z.to_nat (randomInt rnd i (Z.of_nat (length bs)))) in *.
    apply anyAt_false in Hpb.
    pose proof (dirs_unit _ _ Hdir) as Hunit.
    destruct Hinv as (Hnd & Hbs & Hpl & Hplw & Hplb).
    pose proof (proj1 (otherBoxAt_false bs bi _ _) Hother) as Ho.
    split; [apply NoDup_insert_point; assumption|].
    split; [|split; [exact Hp|split; [exact Hpw|]]].
    + intros b Hb. apply in_insert in Hb. destruct Hb as [->|Hb]; [|auto].
      cbn [px py]. auto.
    + intros Hb. apply in_insert in Hb. destruct Hb as [Hb|Hb]; [|contradiction].
      injection Hb as Hx Hy. lia.
Qed.

Lemma validSpot_facts g gls bs bi pl x y :
  validSpot g gls bs bi pl x y = true ->
  cellIs g x y WALL = false /\ otherBoxAt bs bi x y = false /\ pl <> mkPoint x y.
Proof.
  unfold validSpot. rewrite !andb_true_iff, !negb_true_iff.
  intros [[[[Hw _] Ho] _] Hp]. split; [exact Hw|]. split; [exact Ho|].
  intros ->. rewrite (proj2 (samePos_true (mkPoint x y) x y) eq_refl) in Hp. discriminate.
Qed.

Lemma randomSpot_inside n g gls bs bi pl i x y i' :
  randomSpot rnd c n g gls bs bi pl i = (Some (x, y), i') ->
  insideRing (mkPoint x y).
Proof.
  revert i. induction n as [|n IH]; intros i; cbn [randomSpot]; [discriminate|].
  destruct (validSpot _ _ _ _ _ _ _); [|apply IH].
  intros Heq. injection Heq as <- <- _. unfold insideRing. cbn [px py].
  pose proof (randomInt_range rnd i (cfg_width c - 2) ltac:(lia)).
  pose proof (randomInt_range rnd (S i) (cfg_height c - 2) ltac:(lia)). lia.
Qed.

Lemma in_innerCells x y :
  In (x, y) (innerCells c) -> insideRing (mkPoint x y).
Proof.
  unfold innerCells. intros H. apply in_flat_map in H. destruct H as [y' [Hy' Hx']].
  apply in_map_iff in Hx'. destruct Hx' as [x' [Heq Hx']]. injection Heq as -> ->.
  apply in_map_iff in Hy'. destruct Hy' as [y0 [<- Hy0]].
  apply in_map_iff in Hx'. destruct Hx' as [x0 [<- Hx0]].
  apply in_upto in Hy0, Hx0. unfold insideRing. cbn [px py]. lia.
Qed.

Lemma repairBox_sound g gls pl bs flag i bi :
  BoxInv g bs pl ->
  BoxInv g (fst (fst (repairBox rnd c g gls pl (bs, flag, i) bi))) pl.
Proof.
  intros Hinv. unfold repairBox.
  destruct (bs !! bi) as [box|] eqn:Hbox; [|exact Hinv].
  destruct (_ || _); [|exact Hinv].
  destruct (randomSpot rnd c 50 g gls bs bi pl i) as [[[rx ry]|] i'] eqn:Hr.
  - pose proof (randomSpot_inside _ _ _ _ _ _ _ _ _ _ Hr) as Hin.
    apply randomSpot_valid, validSpot_facts in Hr. destruct Hr as (Hw & Ho & Hp).
    cbn [fst]. apply (BoxInv_move_box g bs pl bi box); assumption.
  - destruct (List.find _ _) as [[x y]|] eqn:Hf; cbn [fst]; [|exact Hinv].
    apply find_some in Hf. destruct Hf as [Hin Hf]. cbn [fst snd] in Hf.
    apply in_innerCells in Hin. apply validSpot_facts in Hf. destruct Hf as (Hw & Ho & Hp).
    apply (BoxInv_move_box g bs pl bi box); assumption.
Qed.

Lemma repairPass_sound g gls pl l bs flag i :
  BoxInv g bs pl ->
  BoxInv g (fst (fst (fold_left (repairBox rnd c g gls pl) l (bs, flag, i)))) pl.
Proof.
  revert bs flag i. induction l as [|bi l IH]; intros bs flag i Hinv; cbn [fold_left].
  - exact Hinv.
  - pose proof (repairBox_sound g gls pl bs flag i bi Hinv) as Hstep.
    destruct (repairBox rnd c g gls pl (bs, flag, i) bi) as [[bs1 flag1] i1].
    apply IH. exact Hstep.
Qed.

Lemma repairLoop_sound n g gls pl bs flag i :
  BoxInv g bs pl ->
  BoxInv g (fst (fst (repairLoop rnd c n g gls pl bs flag i))) pl.
Proof.
  revert bs flag i. induction n as [|n IH]; intros bs flag i Hinv; cbn [repairLoop].
  - exact Hinv.
  - destruct flag; [exact Hinv|].
    pose proof (repairPass_sound g gls pl (seq 0 (length bs)) bs true i Hinv) as Hpass.
    destruct (fold_left _ _ (bs, true, i)) as [[bs1 flag1] i1].
    apply IH. exact Hpass.
Qed.

Lemma relocatePlayer_sound g gls bs pl :
  BoxInv g bs pl -> BoxInv g bs (relocatePlayer c g gls bs pl).
Proof.
  intros Hinv. unfold relocatePlayer.
  destruct (anyAt gls _ _); [|exact Hinv].
  destruct (List.find _ _) as [[x y]|] eqn:Hf; [|exact Hinv].
  apply find_some in Hf. destruct Hf as [Hin Hf]. cbn [fst snd] in Hf.
  rewrite !andb_true_iff, !negb_true_iff in Hf. destruct Hf as [[Hw _] Hb].
  apply anyAt_false in Hb. apply in_innerCells in Hin.
  destruct Hinv as (Hnd & Hbs & _). split; [exact Hnd|]. split; [exact Hbs|].
  split; [exact Hin|]. split; [exact Hw|exact Hb].
Qed.

Lemma BoxInv_start g gls :
  GoalInv g gls -> (forall p, In p gls -> inner c (px p) (py p)) ->
  BoxInv g gls (mkPoint 1 1).
Proof.
  intros (Hg & Hnd & Hgoal & _) Hin. split; [exact Hnd|]. split; [|split; [|split]].
  - intros b Hb. split; [destruct b; apply inner_insideRing, (Hin _ Hb)|].
    destruct b as [bx by_]. cbn [px py]. apply Hgoal in Hb.
    unfold cellIs. rewrite Hb. reflexivity.
  - unfold insideRing. cbn [px py]. lia.
  - cbn [px py]. unfold cellIs. rewrite (GridInv_corner c width_big height_big g Hg).
    reflexivity.
  - rewrite Hgoal, (GridInv_corner c width_big height_big g Hg). discriminate.
Qed.

(** ** Draws that never place a goal *)

(** Every wall draw and every goal draw picks the column 2 and the row 2. *)
Definition alwaysSameCell : Prop :=
  forall i, randomInt rnd i (cfg_width c - 4) = 0 /\ randomInt rnd i (cfg_height c - 4) = 0.

Lemma scatterWalls_blocked n st :
  alwaysSameCell -> GridInv c (fst st) -> (0 < n)%nat ->
  cellIs (fst (Nat.iter n (scatterWall rnd c) st)) 2 2 FLOOR = false.
Proof.
  intros Hsame Hg Hn. destruct n as [|n]; [lia|]. clear Hn.
  induction n as [|n IH].
  - cbn [Nat.iter nat_rect]. destruct st as [g i]. cbn [fst] in *. unfold scatterWall.
    destruct (Hsame i) as [-> _]. destruct (Hsame (S i)) as [_ ->]. change (2 + 0) with 2.
    cbn [fst]. destruct (cellIs g 2 2 FLOOR) eqn:Hc; [|exact Hc].
    unfold cellIs. rewrite (cellAt_setCell_eq GW GH); [reflexivity|apply Hg|].
    unfold inGrid. lia.
  - change (Nat.iter (S (S n)) (scatterWall rnd c) st)
      with (scatterWall rnd c (Nat.iter (S n) (scatterWall rnd c) st)).
    destruct (Nat.iter (S n) (scatterWall rnd c) st) as [g i]. cbn [fst] in *.
    unfold scatterWall. destruct (Hsame i) as [-> _]. destruct (Hsame (S i)) as [_ ->].
    change (2 + 0) with 2. rewrite IH. exact IH.
Qed.

Lemma placeGoals_blocked n g gls i :
  alwaysSameCell -> cellIs g 2 2 FLOOR = false ->
  fst (placeGoals rnd c n g gls i) = (g, gls).
Proof.
  intros Hsame Hc. revert i. induction n as [|n IH]; intros i; cbn [placeGoals]; [reflexivity|].
  destruct (length gls <? cfg_boxes c)%nat; [|reflexivity].
  destruct (Hsame i) as [-> _]. destruct (Hsame (S i)) as [_ ->]. change (2 + 0) with 2.
  rewrite Hc. cbn [andb]. apply IH.
Qed.

End GeneratorLayout.

(** ** Generated levels *)

(** What holds for every level that [generateFrom] returns. *)
Lemma generateFrom_layout rnd attempts d i lvl valid :
  generateFrom rnd attempts d i = Some (lvl, valid) ->
  let c := configs d in
  GoalInv c (parsedGrid lvl) (level_goals lvl) /\
  (forall p, In p (level_goals lvl) -> inner c (px p) (py p)) /\
  length (level_goals lvl) = cfg_boxes c /\
  BoxInv c (parsedGrid lvl) (initialBoxes lvl) (initialPlayer lvl).
Proof.
  destruct (configs_big d) as [Hw Hh].
  revert i. induction attempts as [|attempts IH]; intros i; cbn [generateFrom]; [discriminate|].
  destruct (Nat.iter _ _ _) as [g0 i0] eqn:Hwalls.
  destruct (placeGoals rnd (configs d) 100 g0 [] i0) as [[g gls] i1] eqn:Hgoals.
  assert (Hg0 : GridInv (configs d) g0).
  { pose proof (scatterWalls_inv rnd (configs d) Hw Hh (numWalls (configs d))
                  (borderedGrid (configs d), i)
                  (GridInv_bordered (configs d))) as Hinv.
    rewrite Hwalls in Hinv. exact Hinv. }
  assert (Hp0 : wallsAndFloor g0).
  { pose proof (scatterWalls_plain rnd (configs d) Hw Hh (numWalls (configs d))
                  (borderedGrid (configs d), i)
                  (GridInv_bordered (configs d))
                  (wallsAndFloor_bordered (configs d) Hw Hh)) as Hinv.
    rewrite Hwalls in Hinv. exact Hinv. }
  pose proof (placeGoals_inv rnd (configs d) Hw Hh 100 g0 [] i0 Hg0) as Hpg.
  rewrite Hgoals in Hpg. cbn [fst snd] in Hpg.
  destruct Hpg as (Hg & Hgls & Hlen); [intros p []|cbn; lia|].
  pose proof (placeGoals_layout rnd (configs d) Hw Hh 100 g0 [] i0
                (GoalInv_start (configs d) g0 Hg0 Hp0)) as Hlay.
  rewrite Hgoals in Hlay. cbn [fst snd] in Hlay.
  destruct (Nat.ltb_spec (length gls) (cfg_boxes (configs d))) as [Hlt|Hge]; [apply IH|].
  rewrite (initialPlayer_corner (configs d) Hw Hh g gls Hlay).
  destruct (reversePulls _ _ _ _ _ _ _ _) as [[bs1 pl1] i2] eqn:Hpulls.
  destruct (repairLoop _ _ _ _ _ _ _ _ _) as [[bs valid'] i3] eqn:Hrepair.
  intros Heq. injection Heq as <- <-.
  cbn [initialBoxes level_goals initialPlayer parsedGrid].
  split; [exact Hlay|]. split; [exact Hgls|]. split; [lia|].
  pose proof (reversePulls_sound rnd (configs d) g (cfg_moves (configs d) * 5) 0 gls
                (mkPoint 1 1) i1 (BoxInv_start (configs d) Hw Hh g gls Hlay Hgls)) as Hrp.
  rewrite Hpulls in Hrp. cbn [fst snd] in Hrp.
  pose proof (repairLoop_sound rnd (configs d) Hw Hh 500 g gls pl1 bs1 false i2 Hrp) as Hrl.
  rewrite Hrepair in Hrl. cbn [fst] in Hrl.
  apply relocatePlayer_sound. exact Hrl.
Qed.

Lemma generateRandomLevel_from rnd attempts d lvl :
  generateRandomLevel rnd attempts d = Some lvl ->
  exists valid, generateFrom rnd attempts d O = Some (lvl, valid).
Proof.
  unfold generateRandomLevel.
  destruct (generateFrom rnd attempts d O) as [[lvl' valid]|]; [|discriminate].
  intros H. injection H as <-. eauto.
Qed.

(** A cell that [cellIs] does not find to be a wall, in a grid of Wall, Floor
    and Goal tiles, is a cell that [isWall] lets through. *)
Lemma passable_tile c g gls (p : Point) :
  GoalInv c g gls -> 4 < cfg_width c -> 4 < cfg_height c ->
  insideRing c p -> cellIs g (px p) (py p) WALL = false ->
  isWall g (px p) (py p) = false.
Proof.
  intros (Hg & _ & _ & Hplain) Hw Hh [Hx Hy] Hc.
  apply isWall_false_passable. unfold impassable.
  destruct (cellAt_inGrid_Some _ _ g (px p) (py p) (proj1 Hg)) as [ch Hch];
    [unfold inGrid; lia|].
  rewrite Hch. unfold cellIs in Hc. rewrite Hch in Hc. apply Ascii.eqb_neq in Hc.
  intros [H|H]; [contradiction|]. subst ch.
  destruct (Hplain _ _ _ Hch) as [H|[H|H]]; discriminate.
Qed.

(** X6.  Every generated level has as many goals as its tier has boxes. The
    goals lie on distinct cells, at least two cells away from the border of
    the grid, and they are exactly the Goal tiles of the grid, whose other
    tiles are Wall or Floor. *)
Theorem generated_goals_are_goal_tiles (rnd : nat -> nat) (attempts : nat)
    (d : Difficulty) (lvl : ParsedLevel) :
  generateRandomLevel rnd attempts d = Some lvl ->
  let c := configs d in
  length (level_goals lvl) = cfg_boxes c /\
  NoDup (level_goals lvl) /\
  (forall p, In p (level_goals lvl) ->
     2 <= px p <= cfg_width c - 3 /\ 2 <= py p <= cfg_height c - 3) /\
  (forall x y, In (mkPoint x y) (level_goals lvl) <->
     cellAt (parsedGrid lvl) x y = Some GOAL) /\
  (forall x y ch, cellAt (parsedGrid lvl) x y = Some ch ->
     ch = WALL \/ ch = FLOOR \/ ch = GOAL).
Proof.
  intros Hgen c. apply generateRandomLevel_from in Hgen. destruct Hgen as [valid Hgen].
  destruct (generateFrom_layout rnd attempts d O lvl valid Hgen)
    as ((_ & Hnd & Hgoal & Hplain) & Hin & Hlen & _).
  split; [exact Hlen|]. split; [exact Hnd|]. split; [exact Hin|].
  split; [exact Hgoal|exact Hplain].
Qed.

Lemma generated_goals_are_goal_tiles_witness :
  level_goals fairLevel = [mkPoint 4 3] /\
  cellAt (parsedGrid fairLevel) 4 3 = Some GOAL.
Proof.
  assert (Hgen : generateRandomLevel rndFair 1 Easy = Some fairLevel)
    by (vm_compute; reflexivity).
  pose proof (generated_goals_are_goal_tiles rndFair 1 Easy fairLevel Hgen) as Hp.
  cbv zeta in Hp. destruct Hp as (_ & _ & _ & Hg & _).
  split; [reflexivity|]. apply Hg. left. reflexivity.
Defined.

Lemma generated_wellFormed rnd attempts d lvl :
  generateRandomLevel rnd attempts d = Some lvl ->
  wellFormed (parsedGrid lvl) (initialPlayer lvl) (initialBoxes lvl) /\
  insideRing (configs d) (initialPlayer lvl) /\
  (forall b, In b (initialBoxes lvl) -> insideRing (configs d) b).
Proof.
  intros Hgen. apply generateRandomLevel_from in Hgen. destruct Hgen as [valid Hgen].
  destruct (configs_big d) as [Hw Hh].
  destruct (generateFrom_layout rnd attempts d O lvl valid Hgen)
    as (Hlay & _ & _ & (Hnd & Hbs & Hpl & Hplw & Hplb)).
  split; [|split; [exact Hpl|intros b Hb; apply (Hbs b Hb)]].
  split; [exact Hnd|]. split; [|split; [exact Hplb|]].
  - apply (passable_tile (configs d) _ _ _ Hlay Hw Hh Hpl Hplw).
  - intros b Hb. destruct (Hbs b Hb) as [Hin Hbw].
    apply (passable_tile (configs d) _ _ _ Hlay Hw Hh Hin Hbw).
Qed.

(** X7.  Every generated level is a well-formed starting position: the boxes
    stand on distinct passable cells inside the outer ring, and the player
    stands inside the ring on a passable cell that holds no box. *)
Theorem generated_level_well_formed (rnd : nat -> nat) (attempts : nat)
    (d : Difficulty) (lvl : ParsedLevel) :
  generateRandomLevel rnd attempts d = Some lvl ->
  let c := configs d in
  wellFormed (parsedGrid lvl) (initialPlayer lvl) (initialBoxes lvl) /\
  insideRing c (initialPlayer lvl) /\
  (forall b, In b (initialBoxes lvl) -> insideRing c b).
Proof. intros Hgen c. apply (generated_wellFormed rnd attempts d lvl Hgen). Qed.

Lemma generated_level_well_formed_witness :
  wellFormed (parsedGrid fairLevel) (initialPlayer fairLevel) (initialBoxes fairLevel).
Proof.
  assert (Hgen : generateRandomLevel rndFair 1 Easy = Some fairLevel)
    by (vm_compute; reflexivity).
  apply (generated_level_well_formed rndFair 1 Easy fairLevel Hgen).
Defined.

(** X8.  The generator can restart without end. When every wall draw and every
    goal draw picks the same cell, the first wall lands on it, no goal can be
    placed in any of the hundred attempts, and [generateRandomLevel] calls
    itself again: no number of rounds yields a level. *)
Theorem generator_can_restart_forever (rnd : nat -> nat) (d : Difficulty) :
  alwaysSameCell rnd (configs d) ->
  forall attempts, generateRandomLevel rnd attempts d = None.
Proof.
  intros Hsame attempts. unfold generateRandomLevel.
  assert (H : forall i, generateFrom rnd attempts d i = None); [|rewrite H; reflexivity].
  destruct (configs_big d) as [Hw Hh].
  induction attempts as [|attempts IH]; intros i; cbn [generateFrom]; [reflexivity|].
  pose proof (scatterWalls_blocked rnd (configs d) Hw Hh (numWalls (configs d))
                (borderedGrid (configs d), i) Hsame (GridInv_bordered (configs d))) as Hblk.
  destruct (Nat.iter _ _ _) as [g0 i0]. cbn [fst] in Hblk.
  pose proof (placeGoals_blocked rnd (configs d) 100 g0 [] i0 Hsame) as Hpg.
  destruct (placeGoals rnd (configs d) 100 g0 [] i0) as [[g gls] i1].
  cbn [fst] in Hpg. rewrite Hblk in Hpg by (destruct d; vm_compute; lia).
  specialize (Hpg eq_refl). injection Hpg as -> ->.
  assert (Hlt : (length (@nil Point) <? cfg_boxes (configs d))%nat = true)
    by (destruct d; reflexivity).
  rewrite Hlt. apply IH.
Qed.

Lemma generator_can_restart_forever_witness :
  generateRandomLevel (fun _ => O) 1000 Hard = None.
Proof.
  apply (generator_can_restart_forever (fun _ => O) Hard).
  intros i. split; reflexivity.
Defined.

(** ** What the repair loop leaves behind *)

(** The cells of [innerCells] are the cells strictly inside the outer ring. *)
Lemma innerCells_spec c x y :
  In (x, y) (innerCells c) <->
  0 < x < cfg_width c - 1 /\ 0 < y < cfg_height c - 1.
Proof.
  unfold innerCells. rewrite in_flat_map. split.
  - intros [y' [Hy' Hx']].
    apply in_map_iff in Hx'. destruct Hx' as [x' [Heq Hx']]. injection Heq as -> ->.
    apply in_map_iff in Hy'. destruct Hy' as [y0 [<- Hy0]].
    apply in_map_iff in Hx'. destruct Hx' as [x0 [<- Hx0]].
    apply in_upto in Hy0, Hx0. lia.
  - intros [Hx Hy]. exists y. split.
    + apply in_map_iff. exists (y - 1). split; [lia|]. apply in_upto. lia.
    + apply in_map_iff. exists x. split; [reflexivity|].
      apply in_map_iff. exists (x - 1). split; [lia|]. apply in_upto. lia.
Qed.

Section Repair.

Variable rnd : nat -> nat.
Variable c : GenConfig.
Variable g : Grid.
Variable gls : list Point.

(** The test of the repair pass: the box is on a goal, or more than one of
    its eight neighbours is a wall. *)
Definition misplaced (b : Point) : bool :=
  anyAt gls (px b) (py b) || (1 <? countWallNeighbors g (px b) (py b)).

(** No cell inside the ring can receive the box of index [bi]. *)
Definition noSpot (bs : list Point) (pl : Point) (bi : nat) : Prop :=
  forall xy, In xy (innerCells c) -> validSpot g gls bs bi pl (fst xy) (snd xy) = false.

(** The box of index [bi] is well placed, or it has no cell to go to. *)
Definition settled (bs : list Point) (pl : Point) (bi : nat) : Prop :=
  forall b, bs !! bi = Some b -> misplaced b = true -> noSpot bs pl bi.

(** A cell that can receive a box is a cell that the test accepts. *)
Lemma validSpot_placed bs bi pl x y :
  validSpot g gls bs bi pl x y = true -> misplaced (mkPoint x y) = false.
Proof.
  intros Hv. apply validSpot_walls in Hv. destruct Hv as [Hw Hg].
  unfold misplaced. cbn [px py]. rewrite Hg. cbn [orb]. apply Z.ltb_ge. exact Hw.
Qed.

(** Moving a misplaced box frees no cell for the other boxes: the cell it
    leaves is on a goal or has too many walls around it. *)
Lemma noSpot_move bs pl bi bj box p :
  bs !! bj = Some box -> misplaced box = true -> bj <> bi ->
  noSpot bs pl bi -> noSpot (<[bj := p]> bs) pl bi.
Proof.
  intros Hbox Hbad Hne Hno [x y] Hin. specialize (Hno (x, y) Hin). cbn [fst snd] in *.
  destruct (validSpot g gls (<[bj := p]> bs) bi pl x y) eqn:Hv; [exfalso|reflexivity].
  pose proof (validSpot_placed _ _ _ _ _ Hv) as Hok.
  unfold validSpot in Hv, Hno.
  rewrite !andb_true_iff, !negb_true_iff in Hv.
  destruct Hv as [[[[Hw Hg] Ho] Hc] Hp].
  rewrite Hw, Hg, Hc, Hp in Hno. cbn [negb andb] in Hno.
  rewrite !andb_true_r in Hno. apply negb_false_iff in Hno.
  assert (Hfree : otherBoxAt bs bi x y = false); [|congruence].
  apply otherBoxAt_false. intros j b Hj Hji Hb. subst b.
  destruct (Nat.eq_dec j bj) as [->|Hjj].
  - assert (box = mkPoint x y) by congruence. subst box. congruence.
  - apply (proj1 (otherBoxAt_false _ _ _ _) Ho j (mkPoint x y));
      [rewrite list_lookup_insert_ne by auto; exact Hj|exact Hji|reflexivity].
Qed.

Variable pl : Point.

(** One box of the repair pass settles that box and keeps the others
    settled. *)
Lemma repairBox_settled (P : nat -> Prop) bs flag i bi :
  (forall bj, P bj -> settled bs pl bj) ->
  let r := repairBox rnd c g gls pl (bs, flag, i) bi in
  length (fst (fst r)) = length bs /\
  forall bj, P bj \/ bj = bi -> settled (fst (fst r)) pl bj.
Proof.
  intros HP.
  assert (Hmoved : forall x y box, bs !! bi = Some box -> misplaced box = true ->
            validSpot g gls bs bi pl x y = true ->
            forall bj, P bj \/ bj = bi -> settled (<[bi := mkPoint x y]> bs) pl bj).
  { intros x y box Hbox Hbad Hv bj Hbj b Hb Hm.
    destruct (Nat.eq_dec bj bi) as [->|Hne].
    - pose proof (lookup_lt_Some _ _ _ Hb) as Hlt. rewrite length_insert in Hlt.
      rewrite list_lookup_insert_eq in Hb by exact Hlt. injection Hb as <-.
      rewrite (validSpot_placed _ _ _ _ _ Hv) in Hm. discriminate.
    - rewrite list_lookup_insert_ne in Hb by auto.
      destruct Hbj as [Hbj|Hbj]; [|contradiction].
      apply (noSpot_move bs pl bj bi box); auto.
      exact (HP bj Hbj b Hb Hm). }
  unfold repairBox.
  destruct (bs !! bi) as [box|] eqn:Hbox.
  - fold (misplaced box). destruct (misplaced box) eqn:Hbad.
    + destruct (randomSpot rnd c 50 g gls bs bi pl i) as [[[rx ry]|] i'] eqn:Hr.
      * apply randomSpot_valid in Hr. cbn [fst snd].
        split; [apply length_insert|]. apply (Hmoved rx ry box); auto.
      * destruct (List.find _ _) as [[x y]|] eqn:Hf; cbn [fst snd].
        -- apply find_some in Hf. destruct Hf as [_ Hf]. cbn [fst snd] in Hf.
           split; [apply length_insert|]. apply (Hmoved x y box); auto.
        -- split; [reflexivity|]. intros bj [Hbj| ->]; [auto|].
           intros b Hb _ xy Hin. exact (find_none _ _ Hf xy Hin).
    + cbn [fst snd]. split; [reflexivity|]. intros bj [Hbj| ->]; [auto|].
      intros b Hb Hm. congruence.
  - cbn [fst snd]. split; [reflexivity|]. intros bj [Hbj| ->]; [auto|].
    intros b Hb. congruence.
Qed.

(** A pass over the indices [l] settles every box of [l]. *)
Lemma repairPass_settled (P : nat -> Prop) l bs flag i :
  (forall bj, P bj -> settled bs pl bj) ->
  let r := fold_left (repairBox rnd c g gls pl) l (bs, flag, i) in
  length (fst (fst r)) = length bs /\
  forall bj, P bj \/ In bj l -> settled (fst (fst r)) pl bj.
Proof.
  revert P bs flag i. induction l as [|bi l IH]; intros P bs flag i HP; cbn [fold_left].
  - cbn. split; [reflexivity|]. intros bj [Hbj|[]]. auto.
  - pose proof (repairBox_settled P bs flag i bi HP) as [S1 S2].
    destruct (repairBox rnd c g gls pl (bs, flag, i) bi) as [[bs1 flag1] i1].
    cbn [fst snd] in S1, S2.
    destruct (IH (fun bj => P bj \/ bj = bi) bs1 flag1 i1 S2) as [I1 I2].
    cbv zeta. split; [congruence|].
    intros bj [Hbj|[<-|Hbj]]; apply I2; auto.
Qed.

(** The first pass of the repair loop settles every box, and the later
    passes keep them settled: the boxes that are still misplaced have no
    cell to go to. *)
Lemma repairLoop_settled n bs flag i :
  (forall bi, settled bs pl bi) \/ (flag = false /\ (0 < n)%nat) ->
  forall bi, settled (fst (fst (repairLoop rnd c n g gls pl bs flag i))) pl bi.
Proof.
  revert bs flag i. induction n as [|n IH]; intros bs flag i H; cbn [repairLoop].
  - destruct H as [H|[_ H]]; [exact H|lia].
  - destruct flag.
    + destruct H as [H|[H _]]; [exact H|discriminate].
    + pose proof (repairPass_settled (fun _ => False) (seq 0 (length bs)) bs true i)
        as [P1 P2]; [intros bj []|].
      destruct (fold_left _ _ (bs, true, i)) as [[bs1 flag1] i1].
      cbn [fst snd] in P1, P2. apply IH. left. intros bi.
      destruct (lt_dec bi (length bs)) as [Hlt|Hge].
      * apply P2. right. apply in_seq. lia.
      * intros b Hb. apply lookup_lt_Some in Hb. lia.
Qed.

(** The player leaves its cell only when that cell is a goal, which no box
    could have taken. *)
Lemma relocatePlayer_settled bs bi :
  settled bs pl bi -> settled bs (relocatePlayer c g gls bs pl) bi.
Proof.
  intros Hs. unfold relocatePlayer.
  destruct (anyAt gls (px pl) (py pl)) eqn:Hon; [|exact Hs].
  destruct (List.find _ _) as [[x' y']|]; [|exact Hs].
  intros b Hb Hm [x y] Hin. specialize (Hs b Hb Hm (x, y) Hin). cbn [fst snd] in *.
  destruct (validSpot g gls bs bi (mkPoint x' y') x y) eqn:Hv; [exfalso|reflexivity].
  unfold validSpot in Hv, Hs.
  rewrite !andb_true_iff, !negb_true_iff in Hv.
  destruct Hv as [[[[Hw Hg] Ho] Hc] _].
  rewrite Hw, Hg, Ho, Hc in Hs. cbn [negb andb] in Hs.
  apply negb_false_iff, samePos_true in Hs. subst pl. cbn [px py] in Hon. congruence.
Qed.

End Repair.

(** The boxes of every level that [generateFrom] returns are settled. *)
Lemma generateFrom_settled rnd attempts d i lvl valid :
  generateFrom rnd attempts d i = Some (lvl, valid) ->
  forall bi, settled (configs d) (parsedGrid lvl) (level_goals lvl)
                     (initialBoxes lvl) (initialPlayer lvl) bi.
Proof.
  revert i. induction attempts as [|attempts IH]; intros i; cbn [generateFrom]; [discriminate|].
  destruct (Nat.iter _ _ _) as [g0 i0].
  destruct (placeGoals rnd (configs d) 100 g0 [] i0) as [[g gls] i1].
  destruct (length gls <? cfg_boxes (configs d))%nat; [apply IH|].
  destruct (reversePulls _ _ _ _ _ _ _ _) as [[bs1 pl1] i2].
  pose proof (repairLoop_settled rnd (configs d) g gls pl1 500 bs1 false i2) as Hrl.
  destruct (repairLoop _ _ _ _ _ _ _ _ _) as [[bs valid'] i3].
  intros Heq. injection Heq as <- <-.
  cbn [initialBoxes level_goals initialPlayer parsedGrid]. cbn [fst snd] in Hrl.
  intros bi. apply relocatePlayer_settled. apply Hrl. right. split; [reflexivity|lia].
Qed.

(** The level made from the outcomes [rndStuck]. *)
Definition stuckLevel : ParsedLevel :=
  mkParsedLevel (-1) "Random Easy" "Easy"
    ["########"; "#      #"; "#  .   #"; "# #### #"; "#      #"; "#      #";
     "########"]%string
    [ list_ascii_of_string "########";
      list_ascii_of_string "#      #";
      list_ascii_of_string "#  .   #";
      list_ascii_of_string "# #### #";
      list_ascii_of_string "#      #";
      list_ascii_of_string "#      #";
      list_ascii_of_string "########" ]
    (mkPoint 1 1) [mkPoint 3 2] [mkPoint 3 2].

(** X22.  The repair loop leaves a box misplaced only when there is no cell
    for it.  In every level that [generateRandomLevel] returns, a box that
    stands on a goal, or that has more than one wall among its eight
    neighbours, has no admissible cell: every cell inside the outer ring is
    a wall, a goal, the cell of another box or of the player, or has more
    than one wall among its eight neighbours. *)
Theorem misplaced_box_has_no_spot (rnd : nat -> nat) (attempts : nat)
    (d : Difficulty) (lvl : ParsedLevel) (bi : nat) (b : Point) :
  generateRandomLevel rnd attempts d = Some lvl ->
  initialBoxes lvl !! bi = Some b ->
  anyAt (level_goals lvl) (px b) (py b) = true \/
  1 < countWallNeighbors (parsedGrid lvl) (px b) (py b) ->
  forall x y,
    0 < x < cfg_width (configs d) - 1 -> 0 < y < cfg_height (configs d) - 1 ->
    validSpot (parsedGrid lvl) (level_goals lvl) (initialBoxes lvl) bi
              (initialPlayer lvl) x y = false.
Proof.
  intros Hgen Hb Hbad x y Hx Hy.
  apply generateRandomLevel_from in Hgen. destruct Hgen as [valid Hgen].
  apply (generateFrom_settled rnd attempts d O lvl valid Hgen bi b Hb) with (xy := (x, y)).
  - unfold misplaced. apply orb_true_iff.
    destruct Hbad as [H|H]; [left; exact H|right; apply Z.ltb_lt; exact H].
  - apply innerCells_spec. split; assumption.
Qed.

Lemma misplaced_box_has_no_spot_witness :
  generateRandomLevel rndStuck 1 Easy = Some stuckLevel /\
  initialBoxes stuckLevel !! 0%nat = Some (mkPoint 3 2) /\
  anyAt (level_goals stuckLevel) 3 2 = true /\
  forall x y, 0 < x < 7 -> 0 < y < 6 ->
    validSpot (parsedGrid stuckLevel) (level_goals stuckLevel) (initialBoxes stuckLevel)
              0 (initialPlayer stuckLevel) x y = false.
Proof.
  assert (Hgen : generateRandomLevel rndStuck 1 Easy = Some stuckLevel)
    by (vm_compute; reflexivity).
  split; [exact Hgen|]. split; [reflexivity|]. split; [reflexivity|].
  apply (misplaced_box_has_no_spot rndStuck 1 Easy stuckLevel 0 (mkPoint 3 2) Hgen
           eq_refl (or_introl eq_refl)).
Defined.

(** * Further properties of the puzzle engine *)

(** ** The rules of a move *)

(** What [move] does to the puzzle when it accepts the move, as a function of
    the puzzle alone: the player walks onto a free passable cell, or pushes
    the first box found there onto a free passable cell. *)
Definition movePuzzle (p : Puzzle) (d : MoveDirection) : option Puzzle :=
  let tx := px (player p) + px (delta d) in
  let ty := py (player p) + py (delta d) in
  if isWall (grid p) tx ty then None
  else
    match findIndex (fun b => samePos b tx ty) (boxes p) with
    | None =>
        Some (mkPuzzle (grid p) (mkPoint tx ty) (boxes p) (goals p)
                       (moveCount p + 1) (saveState p))
    | Some i =>
        let bx := tx + px (delta d) in
        let by_ := ty + py (delta d) in
        if isWall (grid p) bx by_ || existsb (fun b => samePos b bx by_) (boxes p)
        then None
        else Some (mkPuzzle (grid p) (mkPoint tx ty) (<[i := mkPoint bx by_]> (boxes p))
                            (goals p) (moveCount p + 1) (saveState p))
    end.

Lemma isWall_rows gr x y :
  (y <? 0) || (y >=? Z.of_nat (length gr)) || isWall gr x y = isWall gr x y.
Proof.
  unfold isWall. destruct ((y <? 0) || (y >=? Z.of_nat (length gr))); reflexivity.
Qed.

(** [move] follows these rules whenever the victory modal is down and no
    load is in progress, and it changes nothing otherwise. *)
Lemma move_movePuzzle g d skip :
  let blocked := showVictoryModal g || isLoading g in
  fst (move g d skip) =
    negb blocked && match movePuzzle (puzzle g) d with Some _ => true | None => false end /\
  puzzle (snd (move g d skip)) =
    (if blocked then puzzle g else default (puzzle g) (movePuzzle (puzzle g) d)).
Proof.
  cbv zeta. unfold move, movePuzzle.
  destruct (showVictoryModal g || isLoading g); [split; reflexivity|]. cbn [negb andb].
  destruct (isWall _ _ _); [split; reflexivity|].
  destruct (findIndex _ _) as [i|].
  - rewrite isWall_rows.
    destruct (_ || _); [split; reflexivity|].
    cbn zeta. destruct (isWin _ _); [|destruct skip]; split; reflexivity.
  - cbn zeta. destruct skip; split; reflexivity.
Qed.

Lemma move_puzzle_cases g d skip :
  puzzle (snd (move g d skip)) = puzzle g \/
  movePuzzle (puzzle g) d = Some (puzzle (snd (move g d skip))).
Proof.
  destruct (move_movePuzzle g d skip) as [_ ->].
  destruct (_ || _); [left; reflexivity|].
  destruct (movePuzzle (puzzle g) d); [right|left]; reflexivity.
Qed.

(** ** Invariants of the puzzle *)

(** The move counter equals the number of snapshots, the [k]-th snapshot was
    taken when the counter was [k], and every snapshot holds as many boxes
    as the board. *)
Definition counted (p : Puzzle) : Prop :=
  moveCount p = Z.of_nat (length (moveHistory p)) /\
  forall k s, moveHistory p !! k = Some s ->
    snap_moveCount s = Z.of_nat k /\ length (snap_boxes s) = length (boxes p).

(** The position and every position of the history are well formed. *)
Definition soundPuzzle (p : Puzzle) : Prop :=
  wellFormed (grid p) (player p) (boxes p) /\
  forall s, In s (moveHistory p) -> wellFormed (grid p) (snap_player s) (snap_boxes s).

(** The frame of the puzzle: grid, goals and number of boxes. *)
Definition sameBoard (p p' : Puzzle) : Prop :=
  grid p' = grid p /\ goals p' = goals p /\ length (boxes p') = length (boxes p).

(** The position a level starts from. *)
Definition initialPuzzle (level : ParsedLevel) : Puzzle :=
  mkPuzzle (parsedGrid level) (initialPlayer level) (initialBoxes level)
           (level_goals level) 0 [].

Lemma delta_unit d : px (delta d) <> 0 \/ py (delta d) <> 0.
Proof. destruct d; cbn; lia. Qed.

Lemma counted_save p pl bs :
  counted p -> length bs = length (boxes p) ->
  counted (mkPuzzle (grid p) pl bs (goals p) (moveCount p + 1) (saveState p)).
Proof.
  intros [Hc Hk] Hlen. unfold counted, saveState. cbn [moveCount moveHistory boxes]. split.
  - rewrite length_app. cbn [length]. lia.
  - intros k s Hs. apply lookup_app_Some in Hs. destruct Hs as [Hs|[Hge Hs]].
    + destruct (Hk k s Hs). split; [assumption|congruence].
    + apply list_lookup_singleton_Some in Hs. destruct Hs as [Hk0 <-].
      unfold snapshotOf. cbn [snap_moveCount snap_boxes]. split; [lia|congruence].
Qed.

Lemma counted_movePuzzle p d p' : counted p -> movePuzzle p d = Some p' -> counted p'.
Proof.
  intros Hc. unfold movePuzzle. destruct (isWall _ _ _); [discriminate|].
  destruct (findIndex _ _) as [i|].
  - destruct (_ || _); [discriminate|]. intros H. injection H as <-.
    apply counted_save; [exact Hc|apply length_insert].
  - intros H. injection H as <-. apply counted_save; [exact Hc|reflexivity].
Qed.

Lemma counted_undo p : counted p -> counted (undoPuzzle p).
Proof.
  intros [Hc Hk]. unfold undoPuzzle.
  destruct (last (moveHistory p)) as [s|] eqn:Hlast; [|split; assumption].
  apply last_Some in Hlast. destruct Hlast as [l' Hl].
  unfold counted. cbn [moveCount moveHistory boxes]. rewrite Hl, removelast_last.
  assert (Hs : moveHistory p !! length l' = Some s).
  { rewrite Hl. apply list_lookup_middle. reflexivity. }
  split; [apply (Hk _ _ Hs)|].
  intros k s' Hs'.
  assert (Hs2 : moveHistory p !! k = Some s').
  { rewrite Hl. apply lookup_app_l_Some. exact Hs'. }
  destruct (Hk _ _ Hs), (Hk _ _ Hs2). split; [assumption|congruence].
Qed.

Lemma counted_initial level : counted (initialPuzzle level).
Proof. split; [reflexivity|]. intros k s H. discriminate. Qed.

Lemma wellFormed_walk gr pl bs x y :
  wellFormed gr pl bs -> isWall gr x y = false ->
  findIndex (fun b => samePos b x y) bs = None ->
  wellFormed gr (mkPoint x y) bs.
Proof.
  intros (Hnd & _ & _ & Hbs) Hw Hf. split; [exact Hnd|]. split; [exact Hw|].
  split; [|exact Hbs]. intros Hin.
  rewrite findIndex_None in Hf. specialize (Hf _ Hin).
  rewrite (proj2 (samePos_true (mkPoint x y) x y) eq_refl) in Hf. discriminate.
Qed.

Lemma wellFormed_push gr pl bs i x y bx by_ :
  wellFormed gr pl bs -> isWall gr x y = false ->
  findIndex (fun b => samePos b x y) bs = Some i ->
  isWall gr bx by_ = false -> existsb (fun b => samePos b bx by_) bs = false ->
  mkPoint bx by_ <> mkPoint x y ->
  wellFormed gr (mkPoint x y) (<[i := mkPoint bx by_]> bs).
Proof.
  intros (Hnd & _ & _ & Hbs) Hw Hf Hbw Hfree Hne.
  apply findIndex_Some in Hf. destruct Hf as [b [Hb [Hbt _]]].
  apply samePos_true in Hbt. subst b.
  pose proof (proj1 (anyAt_false bs bx by_) Hfree) as Hnot.
  split; [|split; [exact Hw|split]].
  - apply NoDup_insert_point; [exact Hnd|]. intros j b Hj _ ->.
    apply Hnot. apply list_elem_of_In, list_elem_of_lookup. eauto.
  - intros Hin. apply in_insert_inv in Hin. destruct Hin as [Heq|[j [Hji Hj]]].
    + apply Hne. symmetry. exact Heq.
    + apply Hji. exact (proj1 (NoDup_alt bs) Hnd j i _ Hj Hb).
  - intros b Hin. apply in_insert in Hin. destruct Hin as [->|Hin]; [exact Hbw|auto].
Qed.

Lemma soundPuzzle_movePuzzle p d p' :
  soundPuzzle p -> movePuzzle p d = Some p' -> soundPuzzle p'.
Proof.
  intros [Hwf Hhist]. unfold movePuzzle. cbv zeta.
  destruct (isWall _ _ _) eqn:Hw; [discriminate|].
  destruct (findIndex _ _) as [i|] eqn:Hf.
  - match goal with |- context [isWall ?g ?x ?y || _] =>
      destruct (isWall g x y) eqn:Hbw; [discriminate|] end.
    cbn [orb].
    destruct (existsb _ _) eqn:Hfree; [discriminate|].
    intros H. injection H as <-. unfold soundPuzzle, saveState.
    cbn [grid player boxes moveHistory]. split.
    + apply (wellFormed_push (grid p) (player p)); try assumption.
      intros Heq. injection Heq as Hx Hy. destruct (delta_unit d); lia.
    + intros s Hs. apply in_app_or in Hs.
      destruct Hs as [Hs|[<-|[]]]; [apply Hhist; exact Hs|].
      unfold snapshotOf. cbn [snap_player snap_boxes]. exact Hwf.
  - intros H. injection H as <-. unfold soundPuzzle, saveState.
    cbn [grid player boxes moveHistory]. split.
    + apply (wellFormed_walk (grid p) (player p)); assumption.
    + intros s Hs. apply in_app_or in Hs.
      destruct Hs as [Hs|[<-|[]]]; [apply Hhist; exact Hs|].
      unfold snapshotOf. cbn [snap_player snap_boxes]. exact Hwf.
Qed.

Lemma soundPuzzle_undo p : soundPuzzle p -> soundPuzzle (undoPuzzle p).
Proof.
  intros [Hwf Hhist]. unfold undoPuzzle.
  destruct (last (moveHistory p)) as [s|] eqn:Hlast; [|split; assumption].
  pose proof Hlast as Hin. apply last_Some_elem_of, list_elem_of_In in Hin.
  apply last_Some in Hlast. destruct Hlast as [l' Hl].
  unfold soundPuzzle. cbn [grid player boxes moveHistory]. rewrite Hl, removelast_last.
  split; [apply Hhist; exact Hin|].
  intros s' Hs'. apply Hhist. rewrite Hl. apply in_or_app. left. exact Hs'.
Qed.

Lemma sameBoard_movePuzzle p d p' : movePuzzle p d = Some p' -> sameBoard p p'.
Proof.
  unfold movePuzzle, sameBoard. destruct (isWall _ _ _); [discriminate|].
  destruct (findIndex _ _) as [i|].
  - destruct (_ || _); [discriminate|]. intros H. injection H as <-.
    cbn. rewrite length_insert. auto.
  - intros H. injection H as <-. cbn. auto.
Qed.

Lemma sameBoard_undo p : counted p -> sameBoard p (undoPuzzle p).
Proof.
  intros [_ Hk]. unfold undoPuzzle, sameBoard.
  destruct (last (moveHistory p)) as [s|] eqn:Hlast; [|auto].
  apply last_Some_elem_of, list_elem_of_lookup in Hlast. destruct Hlast as [k Hs].
  cbn. destruct (Hk k s Hs). auto.
Qed.

Lemma sameBoard_trans p1 p2 p3 : sameBoard p1 p2 -> sameBoard p2 p3 -> sameBoard p1 p3.
Proof. unfold sameBoard. intros (A & B & C) (D & E & F). repeat split; congruence. Qed.

(** ** The puzzle along the event loop *)

(** Before a level is loaded the grid is empty: every cell is a wall and no
    move is accepted. *)
Lemma movePuzzle_mounted d : movePuzzle (puzzle mountedGame) d = None.
Proof. destruct d; reflexivity. Qed.

Section PuzzleTraces.

Variable smooth : Z -> Z -> Z.
Variable PARSED_LEVELS : list ParsedLevel.

Lemma finallyClear_puzzle id g : puzzle (finallyClear id g) = puzzle g.
Proof. unfold finallyClear. destruct (Nat.eqb _ _); reflexivity. Qed.

Lemma applyFinal_puzzle q g res : puzzle (applyFinal q g res) = puzzle g.
Proof. unfold applyFinal. destruct (solvable res); reflexivity. Qed.

Lemma resume_puzzle g r res : puzzle (resume smooth g r res) = puzzle g.
Proof.
  unfold resume, runOnce.
  destruct (q_mode _); destruct (signalAborted _ _); cbn [negb];
    try destruct (Nat.eqb _ _); cbn [negb];
    rewrite ?finallyClear_puzzle, ?applyFinal_puzzle; reflexivity.
Qed.

(** What an event can do to the puzzle: nothing, a move by the rules, an
    undo, or the start of a level. *)
Inductive puzzleChange (s s' : Session) : Prop :=
| pc_same :
    currentLevel s' = currentLevel s -> currentLevelIndex s' = currentLevelIndex s ->
    puzzle (game s') = puzzle (game s) -> puzzleChange s s'
| pc_move d :
    currentLevel s' = currentLevel s -> currentLevelIndex s' = currentLevelIndex s ->
    movePuzzle (puzzle (game s)) d = Some (puzzle (game s')) -> puzzleChange s s'
| pc_undo :
    currentLevel s' = currentLevel s -> currentLevelIndex s' = currentLevelIndex s ->
    puzzle (game s') = undoPuzzle (puzzle (game s)) -> puzzleChange s s'
| pc_reset level :
    currentLevel s = Some level -> currentLevel s' = Some level ->
    currentLevelIndex s' = currentLevelIndex s ->
    puzzle (game s') = initialPuzzle level -> puzzleChange s s'
| pc_official level :
    0 <= currentLevelIndex s' ->
    PARSED_LEVELS !! Z.to_nat (currentLevelIndex s') = Some level ->
    currentLevel s' = Some level ->
    puzzle (game s') = initialPuzzle level -> puzzleChange s s'
| pc_random level rnd attempts d :
    generateRandomLevel rnd attempts d = Some level ->
    currentLevelIndex s' = -1 -> currentLevel s' = Some level ->
    puzzle (game s') = initialPuzzle level -> puzzleChange s s'.

Lemma puzzleChange_move s g' d skip :
  g' = snd (move (game s) d skip) ->
  forall s', currentLevel s' = currentLevel s -> currentLevelIndex s' = currentLevelIndex s ->
    puzzle (game s') = puzzle g' -> puzzleChange s s'.
Proof.
  intros -> s' H1 H2 H3. destruct (move_puzzle_cases (game s) d skip) as [H|H].
  - apply pc_same; congruence.
  - apply (pc_move s s' d); congruence.
Qed.

Lemma loadLevel_change s0 s index :
  currentLevel s0 = currentLevel s -> currentLevelIndex s0 = currentLevelIndex s ->
  puzzle (game s0) = puzzle (game s) ->
  puzzleChange s (loadLevel PARSED_LEVELS s0 index).
Proof.
  intros H1 H2 H3. unfold loadLevel.
  destruct (Z.ltb_spec index 0); cbn [orb]; [apply pc_same; assumption|].
  destruct (index >=? _); [apply pc_same; assumption|].
  destruct (PARSED_LEVELS !! Z.to_nat index) as [level|] eqn:Hl; [|apply pc_same; assumption].
  apply (pc_official s _ level); cbn; auto.
Qed.

Lemma autoPlayEffect_change s0 s :
  currentLevel s0 = currentLevel s -> currentLevelIndex s0 = currentLevelIndex s ->
  puzzle (game s0) = puzzle (game s) ->
  puzzleChange s (autoPlayEffect s0).
Proof.
  intros H1 H2 H3. unfold autoPlayEffect.
  destruct (autoSolveStatus _); try (apply pc_same; assumption).
  destruct (autoSolveMoves _) as [moves|]; [|apply pc_same; assumption].
  destruct (showVictoryModal _); [apply pc_same; assumption|].
  destruct (moves !! _) as [dir|]; [|apply pc_same; assumption].
  destruct (parseDirection dir) as [d|]; [|apply pc_same; assumption].
  destruct (move (game s0) d true) as [ok g'] eqn:Hm.
  destruct ok; [|apply pc_same; assumption].
  destruct (move_puzzle_cases (game s0) d true) as [H|H]; rewrite Hm in H; cbn [snd] in H.
  - apply pc_same; cbn; congruence.
  - apply (pc_move s _ d); cbn; [assumption|assumption|]. rewrite <- H3. exact H.
Qed.

Lemma stepUI_change s e : puzzleChange s (stepUI smooth PARSED_LEVELS s e).
Proof.
  destruct e; cbn [stepUI].
  - (* KeyDown *)
    unfold handleKeyDown. destruct (keyMap key) as [d|]; [|apply pc_same; reflexivity].
    apply (puzzleChange_move s _ d false eq_refl); destruct (autoSolveStatus _); reflexivity.
  - apply pc_undo; [reflexivity|reflexivity|]. cbn. apply puzzle_undoMove.
  - (* ClickReset *)
    unfold resetLevel. destruct (currentLevel s) as [level|] eqn:Hl.
    + apply (pc_reset s _ level); [exact Hl|reflexivity|reflexivity|reflexivity].
    + apply pc_same; cbn; auto.
  - apply pc_same; reflexivity.
  - apply pc_same; reflexivity.
  - apply pc_same; reflexivity.
  - (* ClickGetHint *)
    apply pc_same; unfold handleGetHint;
      repeat match goal with |- context [match ?x with _ => _ end] => destruct x end;
      reflexivity.
  - apply pc_same; unfold handleGetSolution;
      repeat match goal with |- context [match ?x with _ => _ end] => destruct x end;
      reflexivity.
  - apply pc_same; unfold toggleSolution, handleGetSolution;
      repeat match goal with |- context [match ?x with _ => _ end] => destruct x end;
      reflexivity.
  - apply pc_same; unfold handleAutoSolve', startAutoSolveWithMoves;
      repeat match goal with |- context [match ?x with _ => _ end] => destruct x end;
      reflexivity.
  - apply pc_same; reflexivity.
  - apply pc_same; reflexivity.
  - apply loadLevel_change; reflexivity.
  - (* ClickRandom *)
    unfold loadRandomLevel.
    destruct (generateRandomLevel rnd attempts difficulty) as [lvl|] eqn:Hgen; cbn.
    + apply (pc_random s _ lvl rnd attempts difficulty Hgen); reflexivity.
    + apply pc_same; reflexivity.
  - apply loadLevel_change; reflexivity.
  - apply pc_same; try reflexivity. cbn.
    destruct (solvabilityDebounceTimerRef _) as [[q t]|]; reflexivity.
  - apply pc_same; try reflexivity. cbn. destruct (victoryTimers _); reflexivity.
  - apply pc_same; try reflexivity. cbn. destruct (alertTimers _); reflexivity.
  - (* AutoPlayTimerFires *)
    unfold autoPlayTimerFires. destruct (autoSolveTimerRef _); [|apply pc_same; reflexivity].
    apply autoPlayEffect_change; reflexivity.
  - apply pc_same; unfold findingEffect, startAutoSolveWithMoves;
      repeat match goal with |- context [match ?x with _ => _ end] => destruct x end;
      reflexivity.
  - apply autoPlayEffect_change; reflexivity.
  - (* Response *)
    apply pc_same; try reflexivity. cbn.
    destruct (List.find _ _) as [r|]; [|reflexivity].
    rewrite resume_puzzle. reflexivity.
Qed.

(** The level on display is an official level at its index, or a generated
    level with the index [-1]. *)
Definition levelOrigin (s : Session) (level : ParsedLevel) : Prop :=
  (0 <= currentLevelIndex s /\
   PARSED_LEVELS !! Z.to_nat (currentLevelIndex s) = Some level) \/
  (currentLevelIndex s = -1 /\
   exists rnd attempts d, generateRandomLevel rnd attempts d = Some level).

Definition wellFormedLevel (level : ParsedLevel) : Prop :=
  wellFormed (parsedGrid level) (initialPlayer level) (initialBoxes level).

(** The invariant of the session. *)
Definition SessionInv (s : Session) : Prop :=
  counted (puzzle (game s)) /\
  match currentLevel s with
  | None => puzzle (game s) = puzzle mountedGame
  | Some level =>
      levelOrigin s level /\ sameBoard (initialPuzzle level) (puzzle (game s)) /\
      (wellFormedLevel level -> soundPuzzle (puzzle (game s)))
  end.

Lemma soundPuzzle_initial level : wellFormedLevel level -> soundPuzzle (initialPuzzle level).
Proof. intros H. split; [exact H|]. intros s []. Qed.

Lemma SessionInv_initial s' level :
  currentLevel s' = Some level -> puzzle (game s') = initialPuzzle level ->
  levelOrigin s' level -> SessionInv s'.
Proof.
  intros Hl Hp Ho. unfold SessionInv. rewrite Hl, Hp.
  split; [apply counted_initial|]. split; [exact Ho|].
  split; [repeat split|apply soundPuzzle_initial].
Qed.

Lemma stepUI_inv s e : SessionInv s -> SessionInv (stepUI smooth PARSED_LEVELS s e).
Proof.
  intros [Hc Hl]. destruct (stepUI_change s e) as [H1 H2 H3|d H1 H2 H3|H1 H2 H3
      |level H0 H1 H2 H3|level Hi Hlv H1 H3|level rnd attempts d Hgen Hi H1 H3].
  - unfold SessionInv, levelOrigin. rewrite H1, H2, H3. split; assumption.
  - unfold SessionInv, levelOrigin. rewrite H1, H2.
    split; [apply (counted_movePuzzle (puzzle (game s)) d); assumption|].
    destruct (currentLevel s) as [level|].
    + destruct Hl as (Ho & Hb & Hs). split; [exact Ho|]. split.
      * eapply sameBoard_trans;
          [exact Hb|apply (sameBoard_movePuzzle (puzzle (game s)) d); exact H3].
      * intros Hw. apply (soundPuzzle_movePuzzle (puzzle (game s)) d); auto.
    + exfalso. rewrite Hl, movePuzzle_mounted in H3. discriminate.
  - unfold SessionInv, levelOrigin. rewrite H1, H2, H3.
    split; [apply counted_undo; exact Hc|].
    destruct (currentLevel s) as [level|].
    + destruct Hl as (Ho & Hb & Hs). split; [exact Ho|]. split.
      * eapply sameBoard_trans; [exact Hb|apply sameBoard_undo; exact Hc].
      * intros Hw. apply soundPuzzle_undo; auto.
    + rewrite Hl. reflexivity.
  - apply (SessionInv_initial _ level H1 H3). rewrite H0 in Hl.
    destruct Hl as (Ho & _). unfold levelOrigin in *. rewrite H2. exact Ho.
  - apply (SessionInv_initial _ level H1 H3). left. auto.
  - apply (SessionInv_initial _ level H1 H3). right. eauto.
Qed.

Lemma runUI_inv es s : SessionInv s -> SessionInv (runUI smooth PARSED_LEVELS s es).
Proof.
  revert s. induction es as [|e es IH]; intros s H; cbn; [exact H|].
  apply IH, stepUI_inv, H.
Qed.

Lemma SessionInv_mounted : SessionInv mounted.
Proof. split; [split; [reflexivity|intros k s H; discriminate]|reflexivity]. Qed.

End PuzzleTraces.


(** The session of the examples: one official level, the level [testLevel]
    of the loader. *)
Definition exampleLevels : list ParsedLevel := [parseLevel testLevel].

(** The level is loaded, the player steps right and down, runs into a wall,
    steps up again, and the last step is undone. *)
Definition exampleEvents : list UIEvent :=
  [ClickPlay 0; KeyDown "ArrowRight"; KeyDown "s"; KeyDown "s"; KeyDown "w"; ClickUndo].

(** ** The move counter *)

(** X9.  In every run of the component from its mount, whatever the events,
    the move counter equals the number of moves that can be undone; the [k]-th
    snapshot of the history was taken when the counter was [k], and it holds
    as many boxes as the board. *)
Theorem move_counter_counts_undoable_moves (smooth : Z -> Z -> Z)
    (PARSED_LEVELS : list ParsedLevel) (es : list UIEvent) :
  let p := puzzle (game (runUI smooth PARSED_LEVELS mounted es)) in
  moveCount p = Z.of_nat (length (moveHistory p)) /\
  forall k snap, moveHistory p !! k = Some snap ->
    snap_moveCount snap = Z.of_nat k /\ length (snap_boxes snap) = length (boxes p).
Proof.
  intros p. destruct (runUI_inv smooth PARSED_LEVELS es mounted (SessionInv_mounted PARSED_LEVELS)) as [H _].
  exact H.
Qed.

(** ** The board and the current level *)

(** X10.  In every run of the component from its mount, the grid and the goals
    on display are those of the current level and the board holds as many
    boxes as the level; the current level is the official level at
    [currentLevelIndex], or a generated level with the index [-1]; and
    [resetLevel] puts back the position the level starts from. *)
Theorem board_is_current_level (smooth : Z -> Z -> Z)
    (PARSED_LEVELS : list ParsedLevel) (es : list UIEvent) (level : ParsedLevel) :
  let s := runUI smooth PARSED_LEVELS mounted es in
  currentLevel s = Some level ->
  grid (puzzle (game s)) = parsedGrid level /\
  goals (puzzle (game s)) = level_goals level /\
  length (boxes (puzzle (game s))) = length (initialBoxes level) /\
  levelOrigin PARSED_LEVELS s level /\
  puzzle (game (resetLevel s)) = initialPuzzle level.
Proof.
  intros s Hl.
  destruct (runUI_inv smooth PARSED_LEVELS es mounted (SessionInv_mounted PARSED_LEVELS)) as [_ H].
  fold s in H. rewrite Hl in H. destruct H as (Ho & (Hg & Hgl & Hb) & _).
  split; [exact Hg|]. split; [exact Hgl|]. split; [exact Hb|]. split; [exact Ho|].
  unfold resetLevel. rewrite Hl. reflexivity.
Qed.

Lemma board_is_current_level_witness :
  currentLevel (runUI smoothExact exampleLevels mounted exampleEvents)
    = Some (parseLevel testLevel) /\
  player (puzzle (game (runUI smoothExact exampleLevels mounted exampleEvents)))
    = mkPoint 4 2 /\
  grid (puzzle (game (runUI smoothExact exampleLevels mounted exampleEvents)))
    = parsedGrid (parseLevel testLevel).
Proof.
  assert (H : currentLevel (runUI smoothExact exampleLevels mounted exampleEvents)
              = Some (parseLevel testLevel)) by (vm_compute; reflexivity).
  split; [exact H|]. split; [vm_compute; reflexivity|].
  apply (board_is_current_level smoothExact exampleLevels exampleEvents
           (parseLevel testLevel) H).
Defined.

(** ** Well-formed positions *)

(** X11.  When the official levels start from well-formed positions, every
    position the component reaches is well formed, and so is every position of
    the undo history: the boxes stand on distinct cells, and neither the
    player nor a box stands on a cell that [isWall] rejects (Wall, Void or
    outside the grid) or on another piece. Generated levels need no
    assumption. *)
Theorem positions_stay_well_formed (smooth : Z -> Z -> Z)
    (PARSED_LEVELS : list ParsedLevel) (es : list UIEvent) :
  (forall level, In level PARSED_LEVELS -> wellFormedLevel level) ->
  let s := runUI smooth PARSED_LEVELS mounted es in
  currentLevel s <> None ->
  wellFormed (grid (puzzle (game s))) (player (puzzle (game s))) (boxes (puzzle (game s))) /\
  forall snap, In snap (moveHistory (puzzle (game s))) ->
    wellFormed (grid (puzzle (game s))) (snap_player snap) (snap_boxes snap).
Proof.
  intros Hlevels s Hl.
  destruct (runUI_inv smooth PARSED_LEVELS es mounted (SessionInv_mounted PARSED_LEVELS)) as [_ H].
  fold s in H. destruct (currentLevel s) as [level|]; [|contradiction].
  destruct H as (Ho & _ & Hs). apply Hs. destruct Ho as [[_ Hin]|[_ (rnd & n & d & Hgen)]].
  - apply Hlevels. apply list_elem_of_In, list_elem_of_lookup. eauto.
  - apply (generated_wellFormed rnd n d level Hgen).
Qed.

Lemma positions_stay_well_formed_witness :
  wellFormed (parsedGrid (parseLevel testLevel)) (mkPoint 4 2) [mkPoint 2 2; mkPoint 3 2].
Proof.
  pose proof (positions_stay_well_formed smoothExact exampleLevels exampleEvents) as H.
  cbv zeta in H.
  assert (Hl : forall level, In level exampleLevels -> wellFormedLevel level).
  { intros level [<-|[]]. apply parsed_wellFormed. vm_compute. reflexivity. }
  assert (Hc : currentLevel (runUI smoothExact exampleLevels mounted exampleEvents) <> None)
    by (vm_compute; discriminate).
  destruct (H Hl Hc) as [Hw _].
  assert (Hp : puzzle (game (runUI smoothExact exampleLevels mounted exampleEvents)) =
               mkPuzzle (parsedGrid (parseLevel testLevel)) (mkPoint 4 2)
                        [mkPoint 2 2; mkPoint 3 2] [mkPoint 3 2] 2
                        [mkSnapshot (mkPoint 3 1) [mkPoint 2 2; mkPoint 3 2] 0;
                         mkSnapshot (mkPoint 4 1) [mkPoint 2 2; mkPoint 3 2] 1])
    by (vm_compute; reflexivity).
  rewrite Hp in Hw. exact Hw.
Defined.

(** * The game logic of the unit tests, the win checks and the transport *)

(** ** [canMove] and [executeMove] against the component *)

(** Every row is as long as the first one. *)
Definition rectangular (gr : Grid) : Prop :=
  Forall (fun row => Z.of_nat (length row) = firstRowLength gr) gr.

(** No cell is Void. *)
Definition voidFree (gr : Grid) : Prop :=
  Forall (Forall (fun c => c <> VOID)) gr.

Lemma isWall_rectangular gr x y :
  rectangular gr -> voidFree gr ->
  isWall gr x y =
    (y <? 0) || (y >=? Z.of_nat (length gr)) || (x <? 0) || (x >=? firstRowLength gr)
    || cellIs gr x y WALL.
Proof.
  intros Hr Hv. unfold isWall, cellIs, cellAt.
  destruct (Z.ltb_spec y 0) as [Hy|Hy]; [reflexivity|].
  destruct (Z.geb_spec y (Z.of_nat (length gr))) as [Hy'|Hy']; [reflexivity|].
  cbn [orb].
  destruct (lookup_lt_is_Some_2 gr (Z.to_nat y)) as [row Hrow]; [lia|].
  rewrite Hrow.
  assert (Hin : row ∈ gr) by (eapply list_elem_of_lookup_2; exact Hrow).
  unfold rectangular in Hr. rewrite Forall_forall in Hr. rewrite <- (Hr row Hin).
  destruct (Z.ltb_spec x 0) as [Hx|Hx]; [reflexivity|].
  destruct (Z.geb_spec x (Z.of_nat (length row))) as [Hx'|Hx']; [reflexivity|].
  cbn [orb].
  destruct (lookup_lt_is_Some_2 row (Z.to_nat x)) as [c Hc]; [lia|].
  rewrite Hc.
  assert (Hcin : c ∈ row) by (eapply list_elem_of_lookup_2; exact Hc).
  unfold voidFree in Hv. rewrite Forall_forall in Hv.
  pose proof (Hv row Hin) as Hrowv. rewrite Forall_forall in Hrowv.
  pose proof (Hrowv c Hcin) as Hne.
  destruct (Ascii.eqb c VOID) eqn:E; [apply Ascii.eqb_eq in E; contradiction|].
  apply orb_false_r.
Qed.

Lemma canMove_movePuzzle p d :
  rectangular (grid p) -> voidFree (grid p) ->
  canMove (player p) d (grid p) (boxes p) =
    match movePuzzle p d with Some _ => true | None => false end.
Proof.
  intros Hr Hv. unfold canMove, movePuzzle. cbv zeta.
  rewrite !(isWall_rectangular _ _ _ Hr Hv).
  destruct (_ || _ || _ || _); [reflexivity|]. cbn [orb].
  destruct (cellIs _ _ _ _); [reflexivity|].
  destruct (findIndex _ _); [|reflexivity].
  destruct (_ || _ || _ || _ || _ || _); reflexivity.
Qed.

Lemma executeMove_movePuzzle p d p' :
  movePuzzle p d = Some p' ->
  let st := executeMove (mkGameState (grid p) (player p) (boxes p) (goals p)) d in
  grid p' = gs_grid st /\ player p' = gs_player st /\ boxes p' = gs_boxes st /\
  goals p' = gs_goals st.
Proof.
  unfold movePuzzle, executeMove. cbn [gs_grid gs_player gs_boxes gs_goals].
  destruct (isWall _ _ _); [discriminate|].
  destruct (findIndex _ _).
  - destruct (_ || _); [discriminate|]. intros H. injection H as <-. cbn. auto.
  - intros H. injection H as <-. cbn. auto.
Qed.

(** ** The win checks *)

(** The boxes that stand on a goal, and the goals that carry a box. *)
Definition boxesHome (bs gls : list Point) : list Point :=
  List.filter (fun b => existsb (fun g => samePos g (px b) (py b)) gls) bs.

Definition goalsCovered (bs gls : list Point) : list Point :=
  List.filter (fun goal => existsb (fun box => samePos box (px goal) (py goal)) bs) gls.

Lemma existsb_at ps (q : Point) :
  existsb (fun p => samePos p (px q) (py q)) ps = true <-> In q ps.
Proof.
  rewrite existsb_samePos. unfold boxAt. destruct q; reflexivity.
Qed.

Lemma in_boxesHome bs gls q : In q (boxesHome bs gls) <-> In q bs /\ In q gls.
Proof. unfold boxesHome. rewrite filter_In, existsb_at. reflexivity. Qed.

Lemma in_goalsCovered bs gls q : In q (goalsCovered bs gls) <-> In q bs /\ In q gls.
Proof. unfold goalsCovered. rewrite filter_In, existsb_at. tauto. Qed.

(** With distinct boxes and distinct goals, as many boxes stand on a goal as
    goals carry a box. *)
Lemma home_covered bs gls :
  NoDup bs -> NoDup gls -> length (boxesHome bs gls) = length (goalsCovered bs gls).
Proof.
  intros Hb Hg. apply Permutation_length. apply NoDup_Permutation.
  - apply NoDup_bool_filter. exact Hb.
  - apply NoDup_bool_filter. exact Hg.
  - intros q. rewrite !list_elem_of_In, in_boxesHome, in_goalsCovered. reflexivity.
Qed.

Lemma filter_all {A} (f : A -> bool) (l : list A) :
  length (List.filter f l) = length l <-> forallb f l = true.
Proof.
  induction l as [|a l IH]; cbn; [tauto|].
  pose proof (List.filter_length_le f l) as Hle.
  destruct (f a); cbn [length andb].
  - rewrite <- IH. split; lia.
  - split; [lia|discriminate].
Qed.

(** ** Transport failures *)

(** Everything but a response with [ok] set and a body that parses. *)
Definition failed (outcome : FetchOutcome) : Prop :=
  match outcome with
  | FetchResponds true _ (JsonValue _) => False
  | _ => True
  end.

Lemma checkSolvable_failed aborted outcome :
  failed outcome ->
  let result := checkSolvable aborted outcome in
  solvable result = SolvNull /\ res_solution result = None /\
  res_hintMessage result = None /\ res_solver result = None /\
  res_error result <> None.
Proof.
  unfold checkSolvable.
  destruct outcome as [[|] status [result|error]|error]; cbn; intros H;
    try contradiction;
    repeat match goal with |- context [if ?b then _ else _] => destruct b end;
    cbn; repeat split; discriminate.
Qed.

(** ** Examples *)

(** The board of the unit test that pushes a box. *)
Definition mockGame : Game :=
  withPuzzle mountedGame
    (mkPuzzle [["#"; "#"; "#"; "#"; "#"]; ["#"; " "; " "; " "; "#"]; ["#"; "#"; "#"; "#"; "#"]]%char
              (mkPoint 1 1) [mkPoint 2 1] [] 0 []).

(** A request in flight that is the latest one, in fixed mode. *)
Definition waitingGame : Game :=
  step smoothExact (initializeLevel mountedGame (parseLevel testLevel)) EvApplySolverSettings.

(** ** [canMove] and [executeMove] are the rules of the component *)

(** X12.  On a rectangular grid without Void cells, when the victory modal is
    down and no load is in progress, [move] accepts a move exactly when
    [canMove] of the unit tests accepts it, and the position it reaches is the
    one [executeMove] computes. *)
Theorem canMove_agrees_with_move (g : Game) (d : MoveDirection) (skip : bool) :
  showVictoryModal g = false -> isLoading g = false ->
  rectangular (grid (puzzle g)) -> voidFree (grid (puzzle g)) ->
  let p := puzzle g in
  fst (move g d skip) = canMove (player p) d (grid p) (boxes p) /\
  (canMove (player p) d (grid p) (boxes p) = true ->
   let st := executeMove (mkGameState (grid p) (player p) (boxes p) (goals p)) d in
   let p' := puzzle (snd (move g d skip)) in
   grid p' = gs_grid st /\ player p' = gs_player st /\ boxes p' = gs_boxes st /\
   goals p' = gs_goals st).
Proof.
  intros Hv Hl Hr Hvf p.
  destruct (move_movePuzzle g d skip) as [Hok Hp]. rewrite Hv, Hl in Hok, Hp.
  cbn [orb negb andb] in Hok, Hp. fold p in Hok, Hp.
  rewrite (canMove_movePuzzle p d Hr Hvf). split; [exact Hok|].
  intros Hcan. cbv zeta. rewrite Hp.
  destruct (movePuzzle p d) as [p'|] eqn:Hm; [|discriminate].
  apply (executeMove_movePuzzle p d p' Hm).
Qed.

Lemma canMove_agrees_with_move_witness :
  fst (move mockGame Right false) = true /\
  boxes (puzzle (snd (move mockGame Right false))) = [mkPoint 3 1].
Proof.
  assert (Hr : rectangular (grid (puzzle mockGame)))
    by (repeat constructor).
  assert (Hv : voidFree (grid (puzzle mockGame)))
    by (repeat first [discriminate | constructor]).
  destruct (canMove_agrees_with_move mockGame Right false eq_refl eq_refl Hr Hv)
    as [Hok Hst].
  split; [rewrite Hok; reflexivity|].
  destruct (Hst eq_refl) as (_ & _ & Hb & _). rewrite Hb. reflexivity.
Defined.

(** ** The win checks agree on well-formed positions *)

(** X13.  When the boxes stand on distinct cells, the goals are distinct cells
    and there are as many boxes as goals, at least one, the three win checks
    agree: the component ([isWin]), the unit tests ([isWinCondition]) and the
    reference server; the server counts as many covered goals as the heads-up
    display counts boxes on goals, and the position is won exactly when that
    count is the number of goals. *)
Theorem win_checks_agree (p : Puzzle) :
  NoDup (boxes p) -> NoDup (goals p) ->
  length (boxes p) = length (goals p) -> boxes p <> [] ->
  let v := validateSolution (boxes p) (goals p) in
  isWinCondition (boxes p) (goals p) = isWin (boxes p) (goals p) /\
  val_solved v = isWin (boxes p) (goals p) /\
  val_boxesOnGoals v = boxesOnGoals p /\
  val_totalGoals v = length (goals p) /\
  (isWin (boxes p) (goals p) = true <-> boxesOnGoals p = length (goals p)).
Proof.
  intros Hb Hg Hlen Hne v.
  assert (Hcount : boxesOnGoals p = length (goalsCovered (boxes p) (goals p))).
  { apply (home_covered _ _ Hb Hg). }
  assert (Hwin : isWin (boxes p) (goals p) = true <-> boxesOnGoals p = length (goals p)).
  { unfold isWin. rewrite <- filter_all. unfold boxesOnGoals. rewrite Hlen. reflexivity. }
  split; [reflexivity|]. split; [|split; [symmetry; exact Hcount|split; [reflexivity|exact Hwin]]].
  unfold v, validateSolution. cbn [val_solved].
  fold (goalsCovered (boxes p) (goals p)). rewrite <- Hcount.
  assert (Hpos : (0 <? length (goals p))%nat = true).
  { apply Nat.ltb_lt. rewrite <- Hlen. destruct (boxes p); [congruence|cbn; lia]. }
  rewrite Hpos, andb_true_r.
  destruct (isWin (boxes p) (goals p)) eqn:E.
  - apply Nat.eqb_eq, Hwin. reflexivity.
  - apply Nat.eqb_neq. intros H. apply Hwin in H. discriminate.
Qed.

Lemma win_checks_agree_witness :
  let p := mkPuzzle [] (mkPoint 0 0) [mkPoint 1 1; mkPoint 2 2] [mkPoint 2 2; mkPoint 1 1] 0 [] in
  val_solved (validateSolution (boxes p) (goals p)) = true /\ boxesOnGoals p = 2%nat.
Proof.
  intros p.
  assert (Hb : NoDup (boxes p)).
  { apply NoDup_cons. split; [intros H; apply list_elem_of_In in H; cbn in H;
      destruct H as [H|[]]; discriminate|]. apply NoDup_singleton. }
  assert (Hg : NoDup (goals p)).
  { apply NoDup_cons. split; [intros H; apply list_elem_of_In in H; cbn in H;
      destruct H as [H|[]]; discriminate|]. apply NoDup_singleton. }
  assert (Hne : boxes p <> []) by discriminate.
  destruct (win_checks_agree p Hb Hg eq_refl Hne) as (_ & Hs & Hc & _ & _).
  split; [rewrite Hs; reflexivity|rewrite <- Hc; reflexivity].
Defined.

(** ** A transport failure is shown as "unknown" *)

(** X14.  When the request fails in transport (an HTTP error status, a body
    that does not parse, a network failure or an abort), [checkSolvable]
    answers with [solvable: null]; when the component applies that answer (the
    request is the latest one and its signal is not aborted), the status
    becomes ['unknown'], never ['error'], the caches are emptied, the busy
    flag is cleared, no alert is raised and no timing is recorded. *)
Theorem transport_failure_shows_unknown (smooth : Z -> Z -> Z) (g : Game) (r : Request)
    (aborted : bool) (outcome : FetchOutcome) :
  failed outcome ->
  signalAborted (orch g) (req_id r) = false ->
  req_id r = solvabilityRequestIdRef (orch g) ->
  let g' := resume smooth g r (checkSolvable aborted outcome) in
  solvabilityStatus (orch g') = Some StUnknown /\
  cachedSolution (orch g') = None /\
  cachedHintMessage (orch g') = None /\
  cachedSolutionTooLong (orch g') = false /\
  isCheckingSolvability (orch g') = false /\
  alerts g' = alerts g /\
  solverTimingsBySteps (orch g') = solverTimingsBySteps (orch g) /\
  puzzle g' = puzzle g.
Proof.
  intros Hf Hab Hid g'.
  destruct (checkSolvable_failed aborted outcome Hf) as (Hs & _ & _ & Hsolver & _).
  subst g'. unfold resume, runOnce. rewrite Hab, Hid, Nat.eqb_refl. cbn [negb].
  unfold recordTiming. rewrite Hsolver.
  assert (H : forall g0, orch g0 = orch g -> alerts g0 = alerts g -> puzzle g0 = puzzle g ->
    let g1 := finallyClear (solvabilityRequestIdRef (orch g))
                (applyFinal (req_query r) g0 (checkSolvable aborted outcome)) in
    solvabilityStatus (orch g1) = Some StUnknown /\
    cachedSolution (orch g1) = None /\
    cachedHintMessage (orch g1) = None /\
    cachedSolutionTooLong (orch g1) = false /\
    isCheckingSolvability (orch g1) = false /\
    alerts g1 = alerts g /\
    solverTimingsBySteps (orch g1) = solverTimingsBySteps (orch g) /\
    puzzle g1 = puzzle g).
  { intros g0 Ho Ha Hp. cbv zeta. unfold applyFinal. rewrite Hs.
    unfold finallyClear. cbn. rewrite Ho, Nat.eqb_refl. cbn.
    repeat split; assumption. }
  destruct (q_mode (req_query r)); apply H; destruct g; reflexivity.
Qed.

Lemma transport_failure_shows_unknown_witness :
  solvabilityStatus
    (orch (resume smoothExact waitingGame (mkRequest 2 corridorQuery)
             (checkSolvable false (FetchResponds false 503 (JsonThrows (mkThrown "x" "y"))))))
    = Some StUnknown.
Proof.
  apply (transport_failure_shows_unknown smoothExact waitingGame (mkRequest 2 corridorQuery)
           false (FetchResponds false 503 (JsonThrows (mkThrown "x" "y"))) I eq_refl eq_refl).
Defined.

(** * Plans, playback, level navigation and the time estimate *)

(** ** The length of the plans *)

(** A plan of at most [MAX_SOLUTION_MOVES] moves, or no plan. *)
Definition short (plan : option (list string)) : Prop :=
  match plan with
  | Some ms => Z.of_nat (length ms) <= MAX_SOLUTION_MOVES
  | None => True
  end.

(** The three cells that hold a plan: the cache, the displayed plan and the
    plan of the playback. *)
Definition plansShort (g : Game) : Prop :=
  short (cachedSolution (orch g)) /\ short (solution (view g)) /\
  short (autoSolveMoves (autoSolve g)).

Ltac plans :=
  repeat split; cbn;
  repeat match goal with E : cachedSolution _ = _ |- _ => rewrite E end;
  try exact I; try assumption.

Lemma updateSolutionProgress_short v d r :
  short (solution v) -> short (solution (updateSolutionProgress v d r)).
Proof.
  intros H. unfold updateSolutionProgress.
  destruct (solution v) as [sol|] eqn:E; [|rewrite E; exact H].
  destruct (sol !! _); [|rewrite E; exact H].
  destruct (String.eqb _ _); [exact H|].
  destruct r; [exact I|rewrite E; exact H].
Qed.

Lemma move_cells g d skip :
  autoSolve (snd (move g d skip)) = autoSolve g /\
  showVictoryModal (snd (move g d skip)) = showVictoryModal g /\
  isLoading (snd (move g d skip)) = isLoading g /\
  (view (snd (move g d skip)) = view g \/
   exists r, view (snd (move g d skip)) = updateSolutionProgress (view g) d r).
Proof.
  unfold move.
  destruct (showVictoryModal g || isLoading g); [cbn; auto|].
  destruct (isWall _ _ _); [cbn; auto|].
  destruct (findIndex _ _).
  - destruct (_ || _ || _ || _); [cbn; auto|].
    cbn zeta. destruct (isWin _ _); [|destruct skip]; cbn; eauto 10.
  - cbn zeta. destruct skip; cbn; eauto 10.
Qed.

Lemma move_plans g d skip : plansShort g -> plansShort (snd (move g d skip)).
Proof.
  intros (Hc & Hv & Ha). unfold plansShort.
  destruct (move_orch_frame g d skip) as (_ & _ & _ & -> & _).
  destruct (move_cells g d skip) as (-> & _ & _ & [->|[r ->]]);
    auto using updateSolutionProgress_short.
Qed.

Lemma tooLong_short sol : tooLong sol = false -> short (Some sol).
Proof. unfold tooLong, short. intros H. apply Z.ltb_ge in H. exact H. Qed.

Lemma applyFinal_plans q g res : plansShort g -> plansShort (applyFinal q g res).
Proof.
  intros (Hc & Hv & Ha). unfold plansShort, applyFinal, hidePlanIf.
  destruct (solvable res); cbn.
  - destruct (res_solution res) as [sol|].
    + destruct (tooLong sol) eqn:E; cbn; destruct (q_refreshSolution q); cbn;
        repeat split; auto; exact (tooLong_short sol E).
    + destruct (q_refreshSolution q); cbn; auto.
  - destruct (q_refreshSolution q); cbn; auto.
  - destruct (q_refreshSolution q); cbn; auto.
  - destruct (q_refreshSolution q); cbn; auto.
Qed.

Lemma finallyClear_plans id g : plansShort g -> plansShort (finallyClear id g).
Proof. unfold finallyClear. destruct (Nat.eqb _ _); auto. Qed.

Lemma recordTiming_plans smooth g res :
  plansShort g -> plansShort (withOrch g (recordTiming smooth (orch g) res)).
Proof.
  unfold recordTiming. destruct (res_solver res) as [[[u|] [m|]]|]; auto;
    rewrite withOrch_orch; auto.
Qed.

Lemma resume_plans smooth g r res : plansShort g -> plansShort (resume smooth g r res).
Proof.
  intros H. unfold resume, runOnce.
  destruct (q_mode _); destruct (signalAborted _ _); cbn [negb];
    try destruct (Nat.eqb _ _); cbn [negb];
    auto using finallyClear_plans, applyFinal_plans, recordTiming_plans.
Qed.

Lemma step_plans smooth g e : plansShort g -> plansShort (step smooth g e).
Proof.
  intros H. pose proof H as (Hc & Hv & Ha).
  destruct e as [d skip| | |level| | | | |id res]; cbn [step].
  - apply move_plans, H.
  - unfold undoMove. destruct (last _); plans.
  - plans.
  - plans.
  - unfold handleAutoSolve. destruct (autoSolveStatus _); try (plans; fail).
    destruct (cachedSolution _) as [[|m ms]|] eqn:E;
      try (destruct (cachedSolutionTooLong _); plans; fail).
    plans.
  - destruct (solvabilityDebounceTimerRef _) as [[q t]|]; [plans|exact H].
  - destruct (victoryTimers g); [exact H|plans].
  - destruct (alertTimers _); [exact H|plans].
  - destruct (List.find _ _) as [r|]; [|exact H].
    apply resume_plans. plans.
Qed.

Lemma startAutoSolveWithMoves_plans s moves :
  plansShort (game s) -> short moves -> plansShort (game (startAutoSolveWithMoves s moves)).
Proof.
  intros (Hc & Hv & Ha) Hm. unfold startAutoSolveWithMoves.
  destruct moves as [[|m ms]|]; plans.
Qed.

Lemma handleGetSolution_plans s :
  plansShort (game s) -> plansShort (game (handleGetSolution s)).
Proof.
  intros H. pose proof H as (Hc & Hv & Ha). unfold handleGetSolution.
  destruct (solverBusy _); [exact H|].
  destruct (solvabilityStatus _) as [[| | | |]|];
    try exact H;
    (destruct (cachedSolution _) as [[|m ms]|] eqn:E;
     [destruct (cachedSolutionTooLong _); exact H
     |plans
     |destruct (cachedSolutionTooLong _); exact H]).
Qed.

Lemma handleGetHint_game s : game (handleGetHint s) = game s.
Proof.
  unfold handleGetHint.
  repeat match goal with |- context [match ?x with _ => _ end] => destruct x end;
    reflexivity.
Qed.

Lemma autoPlayEffect_plans s : plansShort (game s) -> plansShort (game (autoPlayEffect s)).
Proof.
  intros H. pose proof H as (Hc & Hv & Ha). unfold autoPlayEffect.
  destruct (autoSolveStatus _); try exact H.
  destruct (autoSolveMoves _) as [moves|] eqn:Em; [|exact H].
  destruct (showVictoryModal _); [plans|].
  destruct (moves !! _) as [dir|]; [|plans].
  destruct (parseDirection dir) as [d|]; [|plans].
  destruct (move (game s) d true) as [ok g'] eqn:Hm.
  pose proof (move_plans (game s) d true H) as H'. rewrite Hm in H'. cbn [snd] in H'.
  destruct ok; [|plans].
  destruct H' as (Hc' & Hv' & Ha'). plans.
Qed.

Section SessionTraces.

Variable smooth : Z -> Z -> Z.
Variable PARSED_LEVELS : list ParsedLevel.

Lemma loadLevel_plans s index :
  plansShort (game s) -> plansShort (game (loadLevel PARSED_LEVELS s index)).
Proof.
  intros H. unfold loadLevel. destruct (_ || _); [exact H|].
  destruct (PARSED_LEVELS !! _); [|exact H]. plans.
Qed.

Lemma stepUI_plans s e :
  plansShort (game s) -> plansShort (game (stepUI smooth PARSED_LEVELS s e)).
Proof.
  intros H. pose proof H as (Hc & Hv & Ha). destruct e; cbn [stepUI].
  - (* KeyDown *)
    unfold handleKeyDown. destruct (keyMap key) as [d|]; [|exact H].
    pose proof (move_plans (game s) d false H) as (Hc' & Hv' & Ha').
    destruct (autoSolveStatus _); plans.
  - apply (step_plans smooth (game s) EvUndo H).
  - unfold resetLevel. destruct (currentLevel s); plans.
  - apply (step_plans smooth (game s) EvApplySolverSettings H).
  - exact H.
  - exact H.
  - rewrite handleGetHint_game. exact H.
  - apply handleGetSolution_plans, H.
  - (* ClickToggleSolution *)
    unfold toggleSolution. destruct (showSolution _); [plans|].
    destruct (cachedSolution _) as [[|m ms]|] eqn:E;
      try (destruct (cachedSolutionTooLong _); [exact H|apply handleGetSolution_plans, H]).
    plans.
  - (* ClickAutoSolve *)
    unfold handleAutoSolve'. destruct (autoSolveStatus _); try (plans; fail).
    destruct (cachedSolution _) as [[|m ms]|] eqn:E;
      try (destruct (cachedSolutionTooLong _); plans; fail).
    apply startAutoSolveWithMoves_plans; [exact H|exact Hc].
  - exact H.
  - plans.
  - apply loadLevel_plans, H.
  - unfold loadRandomLevel. destruct (generateRandomLevel _ _ _); [|exact H].
    plans.
  - apply loadLevel_plans. plans.
  - apply (step_plans smooth (game s) EvDebounceFires H).
  - apply (step_plans smooth (game s) EvVictoryTimerFires H).
  - apply (step_plans smooth (game s) EvAlertTimerFires H).
  - (* AutoPlayTimerFires *)
    unfold autoPlayTimerFires. destruct (autoSolveTimerRef _); [|exact H].
    apply autoPlayEffect_plans. plans.
  - (* RunFindingEffect *)
    unfold findingEffect. destruct (autoSolveStatus _); try exact H.
    destruct (cachedSolution _) as [[|m ms]|] eqn:E;
      try (destruct (cachedSolutionTooLong _); [plans|];
           destruct (solvabilityStatus _) as [[| | | |]|];
           try exact H; plans; fail).
    apply startAutoSolveWithMoves_plans; [exact H|exact Hc].
  - apply autoPlayEffect_plans. plans.
  - apply (step_plans smooth (game s) (EvResponse requestId result) H).
Qed.

Lemma runUI_plans es s :
  plansShort (game s) -> plansShort (game (runUI smooth PARSED_LEVELS s es)).
Proof.
  revert s. induction es as [|e es IH]; intros s H; cbn; [exact H|].
  apply IH, stepUI_plans, H.
Qed.

End SessionTraces.
(** ** Playback *)

Lemma parseDirection_dirName dir d : parseDirection dir = Some d -> dirName d = dir.
Proof.
  unfold parseDirection.
  destruct (String.eqb_spec dir "up") as [->|_]; [intros [= <-]; reflexivity|].
  destruct (String.eqb_spec dir "down") as [->|_]; [intros [= <-]; reflexivity|].
  destruct (String.eqb_spec dir "left") as [->|_]; [intros [= <-]; reflexivity|].
  destruct (String.eqb_spec dir "right") as [->|_]; [intros [= <-]; reflexivity|].
  discriminate.
Qed.

(** Two renders in which a move meets the same position. *)
Definition samePosition (g1 g2 : Game) : Prop :=
  puzzle g1 = puzzle g2 /\ showVictoryModal g1 = showVictoryModal g2 /\
  isLoading g1 = isLoading g2.

Lemma move_samePosition g1 g2 d skip1 skip2 :
  samePosition g1 g2 ->
  fst (move g1 d skip1) = fst (move g2 d skip2) /\
  samePosition (snd (move g1 d skip1)) (snd (move g2 d skip2)).
Proof.
  intros (Hp & Hv & Hl).
  destruct (move_movePuzzle g1 d skip1) as [Hok1 Hp1].
  destruct (move_movePuzzle g2 d skip2) as [Hok2 Hp2].
  destruct (move_cells g1 d skip1) as (_ & Hv1 & Hl1 & _).
  destruct (move_cells g2 d skip2) as (_ & Hv2 & Hl2 & _).
  unfold samePosition. rewrite Hok1, Hok2, Hp1, Hp2, Hv1, Hv2, Hl1, Hl2, Hp, Hv, Hl.
  auto.
Qed.

(** A move of the playback leaves the orchestrator alone. *)
Lemma move_skip_orch g d : orch (snd (move g d true)) = orch g.
Proof.
  unfold move.
  destruct (showVictoryModal g || isLoading g); [reflexivity|].
  destruct (isWall _ _ _); [reflexivity|].
  destruct (findIndex _ _).
  - destruct (_ || _ || _ || _); [reflexivity|].
    cbn zeta. destruct (isWin _ _); reflexivity.
  - reflexivity.
Qed.

Lemma playAll_snoc g ms d skip :
  playAll g (ms ++ [(d, skip)]) =
    match playAll g ms with
    | Some g' => if fst (move g' d skip) then Some (snd (move g' d skip)) else None
    | None => None
    end.
Proof.
  revert g. induction ms as [|[d0 skip0] ms IH]; intros g; cbn [playAll app].
  - destruct (fst (move g d skip)); reflexivity.
  - destruct (fst (move g d0 skip0)); [apply IH|reflexivity].
Qed.

(** The moves of a plan as the playback plays them. *)
Definition skipping (ds : list MoveDirection) : list (MoveDirection * bool) :=
  map (fun d => (d, true)) ds.

(** The playback of [plan], started in [s0], has played the move of index
    [k] and waits for its timer. *)
Definition played (s0 : Session) (plan : list string) (k : nat) (s : Session) : Prop :=
  autoSolveStatus (autoSolve (game s)) = AutoPlaying ->
  autoSolveMoves (autoSolve (game s)) = Some plan /\
  autoSolveIndex (autoSolve (game s)) = k /\
  autoSolveTimerRef (autoSolve (game s)) = true /\
  orch (game s) = orch (game s0) /\
  exists ds g',
    map dirName ds = take (S k) plan /\ length ds = S k /\
    playAll (game s0) (skipping ds) = Some g' /\ samePosition (game s) g'.

Lemma autoPlayEffect_played s0 s plan k ds g' :
  autoSolveMoves (autoSolve (game s)) = Some plan ->
  autoSolveIndex (autoSolve (game s)) = k ->
  orch (game s) = orch (game s0) ->
  map dirName ds = take k plan -> length ds = k ->
  playAll (game s0) (skipping ds) = Some g' -> samePosition (game s) g' ->
  played s0 plan k (autoPlayEffect s).
Proof.
  intros Hm Hi Ho Hds Hlen Hplay Hpos. unfold played, autoPlayEffect.
  destruct (autoSolveStatus (autoSolve (game s))) eqn:Hst;
    [intros H; congruence|intros H; congruence|].
  rewrite Hm, Hi.
  destruct (showVictoryModal (game s)); [discriminate|].
  destruct (plan !! k) as [dir|] eqn:Hdir; [|discriminate].
  destruct (parseDirection dir) as [d|] eqn:Hd; [|discriminate].
  destruct (move (game s) d true) as [ok g1] eqn:Hmove.
  destruct ok; [|discriminate]. intros _.
  destruct (move_cells (game s) d true) as (Ha & _).
  pose proof (move_skip_orch (game s) d) as Ho1.
  destruct (move_samePosition (game s) g' d true true Hpos) as [Hok Hpos1].
  rewrite Hmove in Ha, Ho1, Hok, Hpos1. cbn [fst snd] in Ha, Ho1, Hok, Hpos1.
  cbn. rewrite ?Ha, ?Hst, ?Hm, ?Hi, ?Ho1. repeat split; auto.
  exists (ds ++ [d]), (snd (move g' d true)). repeat split.
  - rewrite map_app, Hds. cbn [map]. rewrite (parseDirection_dirName dir d Hd).
    symmetry. apply take_S_r. exact Hdir.
  - rewrite length_app. cbn [length]. lia.
  - unfold skipping. rewrite map_app. cbn [map]. rewrite playAll_snoc.
    unfold skipping in Hplay. rewrite Hplay, <- Hok. reflexivity.
  - apply Hpos1.
  - apply Hpos1.
  - apply Hpos1.
Qed.

Lemma autoPlayEffect_idle s :
  autoSolveStatus (autoSolve (game s)) <> AutoPlaying ->
  autoSolveStatus (autoSolve (game (autoPlayEffect s))) <> AutoPlaying.
Proof.
  intros H. unfold autoPlayEffect.
  destruct (autoSolveStatus (autoSolve (game s))) eqn:E; rewrite ?E; congruence.
Qed.

Lemma autoPlayTimerFires_played s0 plan k s :
  played s0 plan k s -> played s0 plan (S k) (autoPlayTimerFires s).
Proof.
  intros Hp. unfold autoPlayTimerFires, rerunAutoPlayEffect.
  destruct (autoSolveStatus (autoSolve (game s))) eqn:Hst.
  1,2: intros H; exfalso; revert H;
       destruct (autoSolveTimerRef _); [apply autoPlayEffect_idle; cbn|]; congruence.
  destruct (Hp Hst) as (Hm & Hi & Ht & Ho & ds & g' & Hds & Hlen & Hplay & Hpos).
  rewrite Ht.
  apply (autoPlayEffect_played s0 _ plan (S k) ds g'); cbn; auto.
Qed.

(** The events of a playback: the button, the first run of the playback
    effect, and [k] firings of its timer. *)
Definition playbackEvents (k : nat) : list UIEvent :=
  [ClickAutoSolve; RunAutoPlayEffect] ++ repeat AutoPlayTimerFires k.

Lemma playback_played smooth L s plan k :
  autoSolveStatus (autoSolve (game s)) = AutoIdle ->
  cachedSolution (orch (game s)) = Some plan ->
  played s plan k (runUI smooth L s (playbackEvents k)).
Proof.
  intros Hidle Hc. unfold playbackEvents, runUI. rewrite fold_left_app.
  induction k as [|k IH].
  - cbn [repeat fold_left stepUI]. unfold handleAutoSolve', rerunAutoPlayEffect.
    rewrite Hidle, Hc.
    destruct plan as [|m ms].
    + intros H; exfalso; revert H.
      destruct (cachedSolutionTooLong _); apply autoPlayEffect_idle; cbn; congruence.
    + apply (autoPlayEffect_played s _ (m :: ms) O [] (game s)); cbn; auto.
      repeat split.
  - replace (repeat AutoPlayTimerFires (S k))
      with (repeat AutoPlayTimerFires k ++ [AutoPlayTimerFires])
      by (symmetry; apply (repeat_cons k AutoPlayTimerFires)).
    rewrite fold_left_app. cbn [fold_left stepUI].
    apply autoPlayTimerFires_played, IH.
Qed.
(** ** Level navigation *)

(** [currentLevelIndex] is [-1] or the index of an official level (or [0]
    when there is no level at all). *)
Definition indexInRange (L : list ParsedLevel) (s : Session) : Prop :=
  -1 <= currentLevelIndex s < Z.max 1 (Z.of_nat (length L)).

Lemma stepUI_index smooth L s e :
  indexInRange L s -> indexInRange L (stepUI smooth L s e).
Proof.
  unfold indexInRange. intros H.
  destruct (stepUI_change smooth L s e) as [_ H2 _|d _ H2 _|_ H2 _
      |level _ _ H2 _|level Hi Hlv _ _|level rnd attempts d _ Hi _ _];
    rewrite ?H2; try exact H.
  - apply lookup_lt_Some in Hlv. lia.
  - rewrite Hi. lia.
Qed.

Lemma runUI_index smooth L es s :
  indexInRange L s -> indexInRange L (runUI smooth L s es).
Proof.
  revert s. induction es as [|e es IH]; intros s H; cbn; [exact H|].
  apply IH, stepUI_index, H.
Qed.

(** ** The time estimate *)

Lemma stepsLe_total : Total stepsLe.
Proof. intros a b. unfold stepsLe. lia. Qed.

Lemma stepsLe_trans : Transitive stepsLe.
Proof. intros a b c. unfold stepsLe. lia. Qed.

Lemma entriesOf_sorted timings : StronglySorted stepsLe (entriesOf timings).
Proof.
  unfold entriesOf. apply StronglySorted_merge_sort; [exact stepsLe_trans|exact stepsLe_total].
Qed.

Lemma entriesOf_In timings e :
  In e (entriesOf timings) <-> timings !! sample_steps e = Some (sample_ms e).
Proof.
  unfold entriesOf. rewrite <- list_elem_of_In, merge_sort_Permutation, list_elem_of_In, in_map_iff.
  split.
  - intros [[k v] [<- Hin]]. cbn. apply elem_of_map_to_list, list_elem_of_In. exact Hin.
  - intros H. exists (sample_steps e, sample_ms e). split; [destruct e; reflexivity|].
    apply list_elem_of_In, elem_of_map_to_list. exact H.
Qed.

Lemma map_fmap {A B} (f : A -> B) (l : list A) : map f l = f <$> l.
Proof. induction l as [|a l IH]; cbn; [reflexivity|]. rewrite IH. reflexivity. Qed.

Lemma entriesOf_keys timings : NoDup (map sample_steps (entriesOf timings)).
Proof.
  unfold entriesOf. rewrite map_fmap, merge_sort_Permutation, <- map_fmap, map_map.
  cbn. rewrite map_fmap. apply NoDup_fst_map_to_list.
Qed.

Lemma entriesOf_length timings : length (entriesOf timings) = size timings.
Proof.
  unfold entriesOf. rewrite merge_sort_Permutation, length_map. apply length_map_to_list.
Qed.

(** In a list sorted by horizon without repeated horizon, the horizons grow
    with the index. *)
Lemma sorted_strict l i j a b :
  StronglySorted stepsLe l -> NoDup (map sample_steps l) -> (i < j)%nat ->
  l !! i = Some a -> l !! j = Some b -> sample_steps a < sample_steps b.
Proof.
  intros Hs. revert i j. induction Hs as [|x l Hs IH Hx]; intros i j Hn Hij Ha Hb.
  - discriminate.
  - cbn [map] in Hn. apply NoDup_cons in Hn. destruct Hn as [Hnx Hn].
    destruct j as [|j]; [lia|]. cbn in Hb. destruct i as [|i]; cbn in Ha.
    + injection Ha as ->.
      assert (Hbin : b ∈ l) by (eapply list_elem_of_lookup_2; exact Hb).
      rewrite Forall_forall in Hx. pose proof (Hx b Hbin) as Hle. unfold stepsLe in Hle.
      assert (sample_steps a <> sample_steps b); [|lia].
      intros Heq. apply Hnx. rewrite Heq. apply list_elem_of_In, in_map, list_elem_of_In, Hbin.
    + apply (IH i j); [exact Hn|lia|exact Ha|exact Hb].
Qed.

Lemma sorted_le l i j a b :
  StronglySorted stepsLe l -> NoDup (map sample_steps l) -> (i <= j)%nat ->
  l !! i = Some a -> l !! j = Some b -> sample_steps a <= sample_steps b.
Proof.
  intros Hs Hn Hij Ha Hb. destruct (decide (i = j)) as [->|Hne].
  - rewrite Ha in Hb. injection Hb as ->. lia.
  - pose proof (sorted_strict l i j a b Hs Hn ltac:(lia) Ha Hb). lia.
Qed.

Lemma bracketTurn_found l t i ei ei1 :
  l !! i = Some ei -> l !! S i = Some ei1 ->
  sample_steps ei <= t <= sample_steps ei1 ->
  bracketTurn l t i = Some (ei, ei1).
Proof.
  intros Hi Hi1 [H1 H2]. unfold bracketTurn. rewrite Hi, Hi1.
  rewrite (proj2 (Z.leb_le _ _) H1), (proj2 (Z.leb_le _ _) H2). reflexivity.
Qed.

Lemma bracketTurn_next l t i ei ei1 e0 en1 :
  l !! i = Some ei -> l !! S i = Some ei1 ->
  l !! O = Some e0 -> l !! (length l - 1)%nat = Some en1 ->
  sample_steps ei <= t -> sample_steps ei1 < t ->
  sample_steps e0 <= t <= sample_steps en1 ->
  bracketTurn l t i = None.
Proof.
  intros Hi Hi1 H0 Hn H1 H2 [H3 H4]. unfold bracketTurn. rewrite Hi, Hi1, H0, Hn.
  rewrite (proj2 (Z.leb_le _ _) H1), (proj2 (Z.leb_gt _ _) H2). cbn [andb].
  destruct (l !! 1%nat); [|reflexivity]. destruct (l !! (length l - 2)%nat); [|reflexivity].
  rewrite (proj2 (Z.ltb_ge _ _) H3), Z.gtb_ltb, (proj2 (Z.ltb_ge _ _) H4). reflexivity.
Qed.

(** When the target lies between the smallest and the largest horizon, the
    loop stops at the first pair of neighbours that enclose it. *)
Lemma bracketLoop_inside l t start e0 en1 :
  l !! O = Some e0 -> l !! (length l - 1)%nat = Some en1 ->
  sample_steps e0 <= t <= sample_steps en1 ->
  forall m i ei,
    (i + S m = length l - 1)%nat -> l !! i = Some ei -> sample_steps ei <= t ->
    exists j lower upper,
      l !! j = Some lower /\ l !! S j = Some upper /\
      sample_steps lower <= t <= sample_steps upper /\
      bracketLoop l t (seq i (S m)) start = (lower, upper).
Proof.
  intros H0 Hn Ht. induction m as [|m IH]; intros i ei Him Hi Hle.
  - assert (Hi1 : l !! S i = Some en1) by (rewrite <- Hn; f_equal; lia).
    exists i, ei, en1. repeat split; auto; try lia.
    cbn [seq bracketLoop]. rewrite (bracketTurn_found l t i ei en1); auto. lia.
  - destruct (lookup_lt_is_Some_2 l (S i)) as [ei1 Hi1]; [lia|].
    destruct (Z.le_gt_cases t (sample_steps ei1)) as [Hin|Hout].
    + exists i, ei, ei1. repeat split; auto.
      cbn [seq bracketLoop]. rewrite (bracketTurn_found l t i ei ei1); auto.
    + destruct (IH (S i) ei1) as (j & lower & upper & Hj & Hj1 & Hb & Hloop);
        [lia|exact Hi1|lia|].
      exists j, lower, upper. repeat split; auto; try lia.
      change (seq i (S (S m))) with (i :: seq (S i) (S m)). cbn [bracketLoop].
      rewrite (bracketTurn_next l t i ei ei1 e0 en1); auto.
Qed.

Lemma bracketLoop_below l t start e0 e1 m :
  l !! O = Some e0 -> l !! 1%nat = Some e1 -> (S m = length l - 1)%nat ->
  t < sample_steps e0 ->
  bracketLoop l t (seq 0 (S m)) start = (e0, e1).
Proof.
  intros H0 H1 Hm Ht. cbn [seq bracketLoop]. unfold bracketTurn. rewrite H0, H1.
  rewrite (proj2 (Z.leb_gt _ _) Ht). cbn [andb].
  destruct (lookup_lt_is_Some_2 l (length l - 2)) as [en2 ->]; [lia|].
  destruct (lookup_lt_is_Some_2 l (length l - 1)) as [en1 ->]; [lia|].
  rewrite (proj2 (Z.ltb_lt _ _) Ht). reflexivity.
Qed.

Lemma bracketLoop_above l t start e0 e1 en2 en1 m :
  l !! O = Some e0 -> l !! 1%nat = Some e1 ->
  l !! (length l - 2)%nat = Some en2 -> l !! (length l - 1)%nat = Some en1 ->
  (S m = length l - 1)%nat ->
  sample_steps e0 <= sample_steps en1 -> sample_steps e1 <= sample_steps en1 ->
  sample_steps en1 < t ->
  bracketLoop l t (seq 0 (S m)) start = (en2, en1).
Proof.
  intros H0 H1 Hn2 Hn1 Hm Hle0 Hle1 Ht. cbn [seq bracketLoop]. unfold bracketTurn.
  rewrite H0, H1, Hn2, Hn1.
  assert (Hb : (sample_steps e0 <=? t) && (t <=? sample_steps e1) = false).
  { apply andb_false_iff. right. apply Z.leb_gt. lia. }
  rewrite Hb. rewrite (proj2 (Z.ltb_ge _ _) (ltac:(lia) : sample_steps e0 <= t)).
  rewrite Z.gtb_ltb, (proj2 (Z.ltb_lt _ _) Ht). reflexivity.
Qed.

(** The two samples of the fit, for a horizon that was never timed and at
    least two samples. *)
Lemma bracket_spec timings t :
  timings !! t = None -> (2 <= size timings)%nat ->
  let l := entriesOf timings in
  exists first rest j lower upper,
    l = first :: rest /\ l !! j = Some lower /\ l !! S j = Some upper /\
    bracketLoop l t (seq 0 (length l - 1))
                (first, default first (l !! (length l - 1)%nat)) = (lower, upper) /\
    (sample_steps lower < t < sample_steps upper \/
     (j = O /\ t < sample_steps lower) \/
     (S j = (length l - 1)%nat /\ sample_steps upper < t)).
Proof.
  intros Hnone Hsize l.
  pose proof (entriesOf_sorted timings) as Hs. pose proof (entriesOf_keys timings) as Hk.
  pose proof (entriesOf_length timings) as Hlen. fold l in Hs, Hk, Hlen.
  assert (Hkey : forall e, In e l -> sample_steps e <> t).
  { intros e He Heq. apply entriesOf_In in He. rewrite Heq in He. congruence. }
  destruct (lookup_lt_is_Some_2 l O) as [e0 H0]; [lia|].
  destruct (lookup_lt_is_Some_2 l 1) as [e1 H1]; [lia|].
  destruct (lookup_lt_is_Some_2 l (length l - 2)) as [en2 Hn2]; [lia|].
  destruct (lookup_lt_is_Some_2 l (length l - 1)) as [en1 Hn1]; [lia|].
  destruct l as [|first rest] eqn:El; [discriminate|]. rewrite <- El in *.
  assert (first = e0) as -> by (rewrite El in H0; cbn in H0; congruence).
  exists e0, rest.
  destruct (length l - 1)%nat as [|m] eqn:Em; [lia|]. rewrite <- Em in Hn1.
  pose proof (sorted_le l 0 (length l - 1) e0 en1 Hs Hk ltac:(lia) H0 Hn1) as Hle0.
  pose proof (sorted_le l 1 (length l - 1) e1 en1 Hs Hk ltac:(lia) H1 Hn1) as Hle1.
  destruct (Z.lt_ge_cases t (sample_steps e0)) as [Hlow|Hlow].
  - exists O, e0, e1. split; [exact El|]. repeat split; auto.
    apply (bracketLoop_below l t _ e0 e1 m); auto; lia.
  - destruct (Z.lt_ge_cases (sample_steps en1) t) as [Hhigh|Hhigh].
    + exists (length l - 2)%nat, en2, en1. split; [exact El|]. split; [exact Hn2|].
      split; [rewrite <- Hn1; f_equal; lia|]. split.
      * apply (bracketLoop_above l t _ e0 e1 en2 en1 m); auto; lia.
      * right. right. split; [lia|exact Hhigh].
    + destruct (bracketLoop_inside l t (e0, default e0 (l !! S m)) e0 en1
                  H0 Hn1 (conj Hlow Hhigh) m O e0 ltac:(lia) H0 Hlow)
        as (j & lower & upper & Hj & Hj1 & Hb & Hloop).
      exists j, lower, upper. split; [exact El|]. repeat split; auto.
      left.
      assert (sample_steps lower <> t).
      { apply Hkey, list_elem_of_In. eapply list_elem_of_lookup_2. exact Hj. }
      assert (sample_steps upper <> t).
      { apply Hkey, list_elem_of_In. eapply list_elem_of_lookup_2. exact Hj1. }
      lia.
Qed.
(** ** Examples *)

(** Two official levels. *)
Definition twoLevels : list ParsedLevel := [parseLevel testLevel; parseLevel twoPlayersLevel].

(** The oracle answers the first request with a plan of two moves. *)
Definition planOfTwo : SolvabilityResult :=
  mkResult SolvTrue None None None (Some ["right"; "down"]%string) None.

(** The level of the examples is loaded and its plan is cached. *)
Definition planCached : Session :=
  runUI smoothExact exampleLevels mounted [ClickPlay 0; Response 1 planOfTwo].

(** Two timing samples. *)
Definition exampleTimings : gmap Z Z := <[25 := 800]> (<[45 := 12000]> ∅).

(** Stand-ins for the two floating-point formulas in the examples: the
    quartic scaling and the fit through two samples, in exact integer
    arithmetic (the fit as the chord through the samples). *)
Definition exampleScaled (baseMs baseSteps targetSteps : Z) : Z :=
  baseMs * targetSteps ^ 4 / baseSteps ^ 4.

Definition exampleFitted (lower upper : Sample) (targetSteps : Z) : Z :=
  sample_ms lower +
  (sample_ms upper - sample_ms lower) * (targetSteps - sample_steps lower)
  / (sample_steps upper - sample_steps lower).

(** ** No plan is longer than the cap *)

(** X15.  In every run of the component from its mount, whatever the oracle
    answers, the cached plan, the displayed plan and the plan of the playback
    have at most [MAX_SOLUTION_MOVES] moves. *)
Theorem plans_never_exceed_cap (smooth : Z -> Z -> Z) (PARSED_LEVELS : list ParsedLevel)
    (es : list UIEvent) :
  let g := game (runUI smooth PARSED_LEVELS mounted es) in
  (forall plan, cachedSolution (orch g) = Some plan ->
     Z.of_nat (length plan) <= MAX_SOLUTION_MOVES) /\
  (forall plan, solution (view g) = Some plan ->
     Z.of_nat (length plan) <= MAX_SOLUTION_MOVES) /\
  (forall plan, autoSolveMoves (autoSolve g) = Some plan ->
     Z.of_nat (length plan) <= MAX_SOLUTION_MOVES).
Proof.
  intros g.
  assert (H : plansShort g).
  { apply runUI_plans. repeat split. }
  destruct H as (Hc & Hv & Ha).
  repeat split; intros plan Hp; [rewrite Hp in Hc; exact Hc|rewrite Hp in Hv; exact Hv
                                |rewrite Hp in Ha; exact Ha].
Qed.

(** ** The next level *)

(** X16.  In every run of the component from its mount, when there is at least
    one official level, [currentLevelIndex] is [-1] or the index of an
    official level, and "Next Level" (the button, or the timer after a
    victory) loads the official level that follows it, the first one after the
    last one and after a generated level, and takes the victory modal down. *)
Theorem next_level_cycles (smooth : Z -> Z -> Z) (PARSED_LEVELS : list ParsedLevel)
    (es : list UIEvent) :
  PARSED_LEVELS <> [] ->
  let s := runUI smooth PARSED_LEVELS mounted es in
  let s' := stepUI smooth PARSED_LEVELS s ClickNextLevel in
  let n := Z.of_nat (length PARSED_LEVELS) in
  -1 <= currentLevelIndex s < n /\
  currentLevelIndex s' = (currentLevelIndex s + 1) mod n /\
  exists level,
    PARSED_LEVELS !! Z.to_nat (currentLevelIndex s') = Some level /\
    currentLevel s' = Some level /\
    puzzle (game s') = initialPuzzle level /\
    showVictoryModal (game s') = false.
Proof.
  intros Hne s s' n.
  assert (Hn : 1 <= n).
  { unfold n. destruct PARSED_LEVELS; [congruence|cbn [length]; lia]. }
  assert (Hr : indexInRange PARSED_LEVELS s).
  { apply runUI_index. unfold indexInRange. cbn. lia. }
  unfold indexInRange in Hr. fold n in Hr.
  split; [lia|].
  subst s'. cbn [stepUI]. unfold handleNextLevel, loadLevel, nextLevelIndex. fold n.
  set (next := if currentLevelIndex s <? n - 1 then currentLevelIndex s + 1 else 0).
  assert (Hnext : 0 <= next < n /\ next = (currentLevelIndex s + 1) mod n).
  { unfold next. destruct (Z.ltb_spec (currentLevelIndex s) (n - 1)).
    - rewrite Z.mod_small; lia.
    - replace (currentLevelIndex s + 1) with n by lia. rewrite Z_mod_same_full. lia. }
  destruct Hnext as [Hrange Hmod].
  destruct (Z.ltb_spec next 0); [lia|].
  destruct (Z.geb_spec next n); [lia|]. cbn [orb].
  destruct (lookup_lt_is_Some_2 PARSED_LEVELS (Z.to_nat next)) as [level Hl]; [lia|].
  rewrite Hl. cbn. split; [exact Hmod|]. exists level. auto.
Qed.

Lemma next_level_cycles_witness :
  currentLevelIndex
    (stepUI smoothExact twoLevels (runUI smoothExact twoLevels mounted [ClickPlay 0])
            ClickNextLevel) = 1.
Proof.
  assert (Hne : twoLevels <> []) by discriminate.
  destruct (next_level_cycles smoothExact twoLevels [ClickPlay 0] Hne) as (_ & Hi & _).
  rewrite Hi. vm_compute. reflexivity.
Defined.

(** ** Playback replays the plan *)

(** X17.  When "Auto-solve" is pressed with a plan in the cache and the
    playback is still running after [k] firings of its timer, it has played
    the first [k + 1] moves of the plan, each one accepted by [move], in
    order, from the position the button was pressed in; and it has left the
    orchestrator as it was: the playback sends no query and aborts none. *)
Theorem playback_replays_plan (smooth : Z -> Z -> Z) (PARSED_LEVELS : list ParsedLevel)
    (s : Session) (plan : list string) (k : nat) :
  autoSolveStatus (autoSolve (game s)) = AutoIdle ->
  cachedSolution (orch (game s)) = Some plan ->
  let s' := runUI smooth PARSED_LEVELS s (playbackEvents k) in
  autoSolveStatus (autoSolve (game s')) = AutoPlaying ->
  exists ds g',
    map dirName ds = take (S k) plan /\ length ds = S k /\
    playAll (game s) (map (fun d => (d, true)) ds) = Some g' /\
    puzzle (game s') = puzzle g' /\
    orch (game s') = orch (game s).
Proof.
  intros Hidle Hc s' Hplaying.
  destruct (playback_played smooth PARSED_LEVELS s plan k Hidle Hc Hplaying)
    as (_ & _ & _ & Ho & ds & g' & Hds & Hlen & Hplay & Hp & _).
  exists ds, g'. auto.
Qed.

Lemma playback_replays_plan_witness :
  player (puzzle (game (runUI smoothExact exampleLevels planCached (playbackEvents 1))))
    = mkPoint 4 2 /\
  orch (game (runUI smoothExact exampleLevels planCached (playbackEvents 1)))
    = orch (game planCached).
Proof.
  assert (H1 : autoSolveStatus (autoSolve (game planCached)) = AutoIdle)
    by (vm_compute; reflexivity).
  assert (H2 : cachedSolution (orch (game planCached)) = Some ["right"; "down"]%string)
    by (vm_compute; reflexivity).
  assert (H3 : autoSolveStatus
                 (autoSolve (game (runUI smoothExact exampleLevels planCached (playbackEvents 1))))
               = AutoPlaying)
    by (vm_compute; reflexivity).
  destruct (playback_replays_plan smoothExact exampleLevels planCached _ 1%nat H1 H2 H3)
    as (ds & g' & _ & _ & _ & _ & Ho).
  split; [vm_compute; reflexivity|exact Ho].
Defined.

(** ** The samples of the time estimate *)

(** X18.  For a horizon that was never timed, with at least two timing
    samples, the estimate is the fit through two recorded samples that are
    neighbours (no sample lies between them): the two that enclose the horizon
    when it lies between recorded horizons, the two smallest ones when it lies
    below all of them and the two largest ones when it lies above. *)
Theorem estimate_fits_nearest_samples (scaled : Z -> Z -> Z -> Z)
    (fitted : Sample -> Sample -> Z -> Z) (timings : gmap Z Z) (targetSteps : Z) :
  timings !! targetSteps = None -> (2 <= size timings)%nat ->
  exists lower upper,
    timings !! sample_steps lower = Some (sample_ms lower) /\
    timings !! sample_steps upper = Some (sample_ms upper) /\
    sample_steps lower < sample_steps upper /\
    (forall k, is_Some (timings !! k) -> k <= sample_steps lower \/ sample_steps upper <= k) /\
    estimateMsForSteps scaled fitted timings targetSteps = fitted lower upper targetSteps /\
    (sample_steps lower < targetSteps < sample_steps upper \/
     (targetSteps < sample_steps lower /\
      forall k, is_Some (timings !! k) -> sample_steps lower <= k) \/
     (sample_steps upper < targetSteps /\
      forall k, is_Some (timings !! k) -> k <= sample_steps upper)).
Proof.
  intros Hnone Hsize.
  destruct (bracket_spec timings targetSteps Hnone Hsize)
    as (first & rest & j & lower & upper & El & Hj & Hj1 & Hloop & Hpos).
  pose proof (entriesOf_sorted timings) as Hs. pose proof (entriesOf_keys timings) as Hk.
  pose proof (entriesOf_length timings) as Hlen.
  assert (Hin : forall e i, entriesOf timings !! i = Some e ->
                  timings !! sample_steps e = Some (sample_ms e)).
  { intros e i He. apply entriesOf_In, list_elem_of_In. eapply list_elem_of_lookup_2. exact He. }
  assert (Hat : forall k, is_Some (timings !! k) ->
                  exists i e, entriesOf timings !! i = Some e /\ sample_steps e = k).
  { intros k [v Hv].
    assert (He : mkSample k v ∈ entriesOf timings) by (apply list_elem_of_In, entriesOf_In; exact Hv).
    apply list_elem_of_lookup_1 in He. destruct He as [i He]. exists i, (mkSample k v). auto. }
  exists lower, upper.
  split; [apply (Hin _ _ Hj)|]. split; [apply (Hin _ _ Hj1)|].
  split; [apply (sorted_strict _ j (S j) lower upper Hs Hk); auto|].
  split; [|split].
  - intros k Hkey. destruct (Hat k Hkey) as (i & e & He & <-).
    destruct (le_lt_dec i j) as [Hij|Hij].
    + left. apply (sorted_le _ i j e lower Hs Hk Hij He Hj).
    + right. apply (sorted_le _ (S j) i upper e Hs Hk Hij Hj1 He).
  - unfold estimateMsForSteps. rewrite Hnone. cbv zeta.
    destruct rest as [|second rest]; [rewrite El in Hlen; cbn in Hlen; lia|].
    rewrite El in Hloop |- *. cbv beta iota. rewrite Hloop. reflexivity.
  - destruct Hpos as [H|[[-> H]|[Hlast H]]]; [left; exact H|right; left|right; right].
    + split; [exact H|]. intros k Hkey. destruct (Hat k Hkey) as (i & e & He & <-).
      apply (sorted_le _ O i lower e Hs Hk ltac:(lia) Hj He).
    + split; [exact H|]. intros k Hkey. destruct (Hat k Hkey) as (i & e & He & <-).
      apply lookup_lt_Some in He as Hlt.
      apply (sorted_le _ i (S j) e upper Hs Hk ltac:(lia) He Hj1).
Qed.

Lemma estimate_fits_nearest_samples_witness :
  exists lower upper,
    sample_steps lower < 35 < sample_steps upper /\
    estimateMsForSteps exampleScaled exampleFitted exampleTimings 35
      = exampleFitted lower upper 35.
Proof.
  assert (H1 : exampleTimings !! 35 = None) by (vm_compute; reflexivity).
  assert (H2 : (2 <= size exampleTimings)%nat) by (vm_compute; lia).
  destruct (estimate_fits_nearest_samples exampleScaled exampleFitted exampleTimings 35 H1 H2)
    as (lower & upper & _ & _ & _ & _ & Hest & Hpos).
  exists lower, upper. split; [|exact Hest].
  destruct Hpos as [H|[[H Hmin]|[H Hmax]]]; [exact H|exfalso|exfalso].
  - assert (Hk : is_Some (exampleTimings !! 25)) by (exists 800; vm_compute; reflexivity).
    apply Hmin in Hk. lia.
  - assert (Hk : is_Some (exampleTimings !! 45)) by (exists 12000; vm_compute; reflexivity).
    apply Hmax in Hk. lia.
Defined.

(** * The board on display and the first loader *)

(** ** The cells of the board *)

Lemma findIndex_unique bs i b :
  NoDup bs -> bs !! i = Some b ->
  findIndex (fun b' => samePos b' (px b) (py b)) bs = Some i.
Proof.
  intros Hnd Hi.
  destruct (findIndex (fun b' => samePos b' (px b) (py b)) bs) as [j|] eqn:Hf.
  - destruct (findIndex_Some _ _ _ Hf) as (b' & Hj & Hs & _).
    apply samePos_true in Hs. assert (b' = b) as -> by (destruct b; exact Hs).
    f_equal. apply (NoDup_lookup bs j i b Hnd Hj Hi).
  - exfalso. rewrite findIndex_None in Hf.
    assert (Hin : In b bs) by (apply list_elem_of_In; eapply list_elem_of_lookup_2; exact Hi).
    specialize (Hf b Hin).
    assert (samePos b (px b) (py b) = true) by (apply samePos_true; destruct b; reflexivity).
    congruence.
Qed.

(** ** The first loader in closed form *)

(** The tile that the [switch] of the first loader writes. *)
Definition legacyTile (ch : ascii) : ascii :=
  (if Ascii.eqb ch "#" then WALL
   else if Ascii.eqb ch " " then FLOOR
   else if Ascii.eqb ch "." then GOAL
   else if Ascii.eqb ch "@" then FLOOR
   else if Ascii.eqb ch "$" then FLOOR
   else if Ascii.eqb ch "*" then GOAL
   else if Ascii.eqb ch "+" then GOAL
   else FLOOR)%char.

(** The points of the row [y] whose character meets [f], in reading
    order. *)
Definition rowPoints (f : ascii -> bool) (y : nat) (rowStr : string) : list Point :=
  map (fun x => cellPoint (x, y))
      (List.filter (fun x => f (charAt rowStr x)) (seq 0 (String.length rowStr))).

(** The same for the rows [rows], numbered from [s]. *)
Definition collect (f : ascii -> bool) (s : nat) (rows : list string) : list Point :=
  flat_map (fun yr => rowPoints f (fst yr) (snd yr)) (combine (seq s (length rows)) rows).

(** The player after some player symbols were read. *)
Definition lastOr (pl : option Point) (l : list Point) : option Point :=
  match last l with
  | Some p => Some p
  | None => pl
  end.

Lemma lastOr_app pl l1 l2 : lastOr (lastOr pl l1) l2 = lastOr pl (l1 ++ l2).
Proof.
  unfold lastOr. destruct l2 as [|q l2] using rev_ind.
  - rewrite app_nil_r. cbn. destruct (last l1); reflexivity.
  - rewrite app_assoc, !last_snoc. reflexivity.
Qed.

Lemma legacyCell_eq y gridRow acc x ch :
  let r := legacyCell y (gridRow, acc) (x, ch) in
  fst r = gridRow ++ [legacyTile ch] /\
  legacy_grid (snd r) = legacy_grid acc /\
  legacy_player (snd r) =
    lastOr (legacy_player acc) (if isPlayerSymbol ch then [cellPoint (x, y)] else []) /\
  legacy_boxes (snd r) =
    legacy_boxes acc ++ (if isBoxSymbol ch then [cellPoint (x, y)] else []) /\
  legacy_goals (snd r) =
    legacy_goals acc ++ (if isGoalSymbol ch then [cellPoint (x, y)] else []).
Proof.
  unfold legacyCell, legacyTile, isPlayerSymbol, isBoxSymbol, isGoalSymbol, lastOr, cellPoint.
  cbn [fst snd].
  destruct (Ascii.eqb ch "#") eqn:E0.
  { apply Ascii.eqb_eq in E0. subst ch. cbn. rewrite !app_nil_r. auto. }
  destruct (Ascii.eqb ch " ") eqn:E1.
  { apply Ascii.eqb_eq in E1. subst ch. cbn. rewrite !app_nil_r. auto. }
  destruct (Ascii.eqb ch ".") eqn:E2.
  { apply Ascii.eqb_eq in E2. subst ch. cbn. rewrite !app_nil_r. auto. }
  destruct (Ascii.eqb ch "@") eqn:E3.
  { apply Ascii.eqb_eq in E3. subst ch. cbn. rewrite !app_nil_r. auto. }
  destruct (Ascii.eqb ch "$") eqn:E4.
  { apply Ascii.eqb_eq in E4. subst ch. cbn. rewrite !app_nil_r. auto. }
  destruct (Ascii.eqb ch "*") eqn:E5.
  { apply Ascii.eqb_eq in E5. subst ch. cbn. auto. }
  destruct (Ascii.eqb ch "+") eqn:E6.
  { apply Ascii.eqb_eq in E6. subst ch. cbn. rewrite !app_nil_r. auto. }
  cbn. rewrite !app_nil_r. auto.
Qed.

(** The points that the characters [xcs] of the row [y] add for [f]. *)
Definition cellsPoints (f : ascii -> bool) (y : nat) (xcs : list (nat * ascii)) : list Point :=
  map (fun xc => cellPoint (fst xc, y)) (List.filter (fun xc => f (snd xc)) xcs).

Lemma cellsPoints_cons f y x ch xcs :
  cellsPoints f y ((x, ch) :: xcs) =
    (if f ch then [cellPoint (x, y)] else []) ++ cellsPoints f y xcs.
Proof. unfold cellsPoints. cbn. destruct (f ch); reflexivity. Qed.

Lemma legacy_cells y xcs gridRow acc :
  let r := fold_left (legacyCell y) xcs (gridRow, acc) in
  fst r = gridRow ++ map (fun xc => legacyTile (snd xc)) xcs /\
  legacy_grid (snd r) = legacy_grid acc /\
  legacy_player (snd r) = lastOr (legacy_player acc) (cellsPoints isPlayerSymbol y xcs) /\
  legacy_boxes (snd r) = legacy_boxes acc ++ cellsPoints isBoxSymbol y xcs /\
  legacy_goals (snd r) = legacy_goals acc ++ cellsPoints isGoalSymbol y xcs.
Proof.
  revert gridRow acc. induction xcs as [|[x ch] xcs IH]; intros gridRow acc; cbn [fold_left map].
  - cbn. rewrite !app_nil_r. unfold lastOr. cbn. auto.
  - destruct (legacyCell y (gridRow, acc) (x, ch)) as [row' acc'] eqn:Hc.
    pose proof (legacyCell_eq y gridRow acc x ch) as (H1 & H2 & H3 & H4 & H5).
    rewrite Hc in H1, H2, H3, H4, H5. cbn [fst snd] in H1, H2, H3, H4, H5.
    destruct (IH row' acc') as (I1 & I2 & I3 & I4 & I5).
    cbv zeta. rewrite I1, I2, I3, I4, I5, H1, H2, H3, H4, H5, !cellsPoints_cons.
    rewrite <- !app_assoc, lastOr_app. auto.
Qed.

Lemma combine_seq_from (chars : list ascii) (s : nat) :
  combine (seq s (length chars)) chars =
    map (fun x => (x, default FLOOR (chars !! (x - s)%nat))) (seq s (length chars)).
Proof.
  revert s. induction chars as [|c chars IH]; intros s; [reflexivity|].
  cbn [length seq combine map]. rewrite Nat.sub_diag. cbn. f_equal.
  rewrite IH. apply map_ext_in. intros x Hx. apply in_seq in Hx.
  replace (x - s)%nat with (S (x - S s)) by lia. reflexivity.
Qed.

Lemma combine_seq_chars (chars : list ascii) :
  combine (seq 0 (length chars)) chars =
    map (fun x => (x, default FLOOR (chars !! x))) (seq 0 (length chars)).
Proof.
  rewrite combine_seq_from. apply map_ext. intros x. rewrite Nat.sub_0_r. reflexivity.
Qed.

Lemma cellsPoints_row f y rowStr :
  let chars := list_ascii_of_string rowStr in
  cellsPoints f y (combine (seq 0 (length chars)) chars) = rowPoints f y rowStr.
Proof.
  cbv zeta. unfold cellsPoints, rowPoints. rewrite combine_seq_chars.
  rewrite List.filter_map_swap, map_map. cbn [fst snd].
  rewrite length_list_ascii. f_equal. apply List.filter_ext. intros x.
  unfold charAt. rewrite get_list_ascii. reflexivity.
Qed.

Lemma legacyRow_eq acc y rowStr :
  let r := legacyRow acc (y, rowStr) in
  legacy_grid r = legacy_grid acc ++ [map legacyTile (list_ascii_of_string rowStr)] /\
  legacy_player r = lastOr (legacy_player acc) (rowPoints isPlayerSymbol y rowStr) /\
  legacy_boxes r = legacy_boxes acc ++ rowPoints isBoxSymbol y rowStr /\
  legacy_goals r = legacy_goals acc ++ rowPoints isGoalSymbol y rowStr.
Proof.
  unfold legacyRow. cbv zeta.
  pose proof (legacy_cells y
                (combine (seq 0 (length (list_ascii_of_string rowStr)))
                         (list_ascii_of_string rowStr)) [] acc) as (H1 & H2 & H3 & H4 & H5).
  destruct (fold_left _ _ ([], acc)) as [gridRow acc'].
  cbn [fst snd] in H1, H2, H3, H4, H5. cbn [legacy_grid legacy_player legacy_boxes legacy_goals].
  rewrite !cellsPoints_row in *. rewrite H1, H2, H3, H4, H5. cbn [app].
  repeat split; try reflexivity.
  f_equal. f_equal. rewrite combine_seq_chars, map_map. cbn [snd].
  apply list_eq. intros i. rewrite !lookup_map.
  destruct (lt_dec i (length (list_ascii_of_string rowStr))) as [Hi|Hi].
  - rewrite lookup_seq_lt by exact Hi. cbn.
    destruct (lookup_lt_is_Some_2 (list_ascii_of_string rowStr) i Hi) as [c ->]. reflexivity.
  - rewrite lookup_seq_ge by lia. cbn.
    rewrite (proj2 (lookup_ge_None _ _)) by lia. reflexivity.
Qed.

Lemma legacy_rows rows s acc :
  let r := fold_left legacyRow (combine (seq s (length rows)) rows) acc in
  legacy_grid r =
    legacy_grid acc ++ map (fun rowStr => map legacyTile (list_ascii_of_string rowStr)) rows /\
  legacy_player r = lastOr (legacy_player acc) (collect isPlayerSymbol s rows) /\
  legacy_boxes r = legacy_boxes acc ++ collect isBoxSymbol s rows /\
  legacy_goals r = legacy_goals acc ++ collect isGoalSymbol s rows.
Proof.
  revert s acc. induction rows as [|rowStr rows IH]; intros s acc.
  - cbn. rewrite !app_nil_r. unfold lastOr. cbn. auto.
  - cbn [length seq combine fold_left].
    destruct (IH (S s) (legacyRow acc (s, rowStr))) as (I1 & I2 & I3 & I4).
    destruct (legacyRow_eq acc s rowStr) as (H1 & H2 & H3 & H4).
    cbv zeta. rewrite I1, I2, I3, I4, H1, H2, H3, H4.
    unfold collect. cbn [length seq combine flat_map map fst snd].
    rewrite <- !app_assoc, lastOr_app. auto.
Qed.

(** ** The new loader over the same points *)

Lemma filter_none {A} (f : A -> bool) (l : list A) :
  (forall a, In a l -> f a = false) -> List.filter f l = [].
Proof.
  induction l as [|a l IH]; intros H; cbn; [reflexivity|].
  rewrite (H a (or_introl eq_refl)). apply IH. intros b Hb. apply H. right. exact Hb.
Qed.

(** A padded row holds the points of the row itself. *)
Lemma padded_row_points f rows y rowStr :
  f FLOOR = false -> rows !! y = Some rowStr ->
  map cellPoint
      (List.filter (fun xy => f (rawChar (rawGridOf rows) xy))
                   (map (fun x => (x, y)) (seq 0 (levelWidth rows))))
    = rowPoints f y rowStr.
Proof.
  intros Hf Hy. unfold rowPoints.
  rewrite List.filter_map_swap, map_map.
  assert (Hlen : (String.length rowStr <= levelWidth rows)%nat).
  { apply levelWidth_ge. apply list_elem_of_In. eapply list_elem_of_lookup_2. exact Hy. }
  replace (levelWidth rows)
    with (String.length rowStr + (levelWidth rows - String.length rowStr))%nat by lia.
  rewrite seq_app, List.filter_app, map_app.
  rewrite (filter_none _ (seq (0 + String.length rowStr) _)).
  - cbn [map]. rewrite app_nil_r. f_equal. apply List.filter_ext_in.
    intros x Hx. apply in_seq in Hx. unfold rawChar. cbn [fst snd].
    rewrite (cellAt_rawGridOf rows x y rowStr) by (try exact Hy; lia). reflexivity.
  - intros x Hx. apply in_seq in Hx. unfold rawChar. cbn [fst snd].
    rewrite (cellAt_rawGridOf rows x y rowStr) by (try exact Hy; lia). cbn.
    unfold charAt. rewrite get_list_ascii.
    rewrite (proj2 (lookup_ge_None _ _)) by (rewrite length_list_ascii; lia).
    exact Hf.
Qed.

Lemma flat_map_filter_map {A B} (f : A -> bool) (g : A -> B) {C} (h : C -> list A) l :
  map g (List.filter f (flat_map h l)) = flat_map (fun c => map g (List.filter f (h c))) l.
Proof.
  induction l as [|c l IH]; cbn [flat_map]; [reflexivity|].
  rewrite List.filter_app, map_app, IH. reflexivity.
Qed.

Lemma collect_rows f s rest :
  forall (g : nat -> list Point),
  (forall i rowStr, rest !! i = Some rowStr -> g (s + i)%nat = rowPoints f (s + i) rowStr) ->
  flat_map g (seq s (length rest)) = collect f s rest.
Proof.
  revert s. induction rest as [|rowStr rest IH]; intros s g Hg; [reflexivity|].
  unfold collect. cbn [length seq combine flat_map fst snd]. f_equal.
  - rewrite <- (Nat.add_0_r s) at 1 2. apply Hg. reflexivity.
  - apply (IH (S s)). intros i r Hr.
    replace (S s + i)%nat with (s + S i)%nat by lia. apply Hg. exact Hr.
Qed.

Lemma loader_points f rows :
  f FLOOR = false ->
  map cellPoint
      (List.filter (fun xy => f (rawChar (rawGridOf rows) xy))
                   (cellsOf (levelWidth rows) (length rows)))
    = collect f 0 rows.
Proof.
  intros Hf. unfold cellsOf. rewrite flat_map_filter_map.
  apply collect_rows. intros i rowStr Hi. cbn [Nat.add].
  apply padded_row_points; assumption.
Qed.

Lemma outCell_legacy raw void x y :
  let ch := rawChar raw (x, y) in
  let c := outCell raw void x y in
  c = legacyTile ch \/ (legacyTile ch = FLOOR /\ ch = FLOOR /\ c = VOID).
Proof.
  unfold outCell, rawChar, legacyTile. cbn [fst snd].
  generalize (default FLOOR (cellAt raw (Z.of_nat x) (Z.of_nat y))).
  generalize (default false (cellAt void (Z.of_nat x) (Z.of_nat y))).
  intros v ch. unfold WALL, VOID, FLOOR, GOAL.
  destruct (Ascii.eqb ch " ") eqn:E0.
  - apply Ascii.eqb_eq in E0. subst ch. destruct v; cbn; auto.
  - cbn [andb]. destruct (Ascii.eqb ch "#"); auto.
Qed.
Lemma legacy_closed level :
  let rows := config_rows level in
  let old := parseLevelLegacy level in
  legacy_grid old = map (fun rowStr => map legacyTile (list_ascii_of_string rowStr)) rows /\
  legacy_player old = last (collect isPlayerSymbol 0 rows) /\
  legacy_boxes old = collect isBoxSymbol 0 rows /\
  legacy_goals old = collect isGoalSymbol 0 rows.
Proof.
  cbv zeta. unfold parseLevelLegacy.
  destruct (legacy_rows (config_rows level) 0 (mkLegacyParsed [] None [] []))
    as (H1 & H2 & H3 & H4).
  cbv zeta in H1, H2, H3, H4. rewrite H1, H2, H3, H4. cbn [legacy_grid legacy_player
    legacy_boxes legacy_goals app]. repeat split; try reflexivity.
  unfold lastOr. destruct (last _); reflexivity.
Qed.

Lemma legacy_cell level x y c :
  cellAt (legacy_grid (parseLevelLegacy level)) x y = Some c ->
  exists rowStr ch,
    config_rows level !! Z.to_nat y = Some rowStr /\
    list_ascii_of_string rowStr !! Z.to_nat x = Some ch /\
    0 <= x /\ 0 <= y /\ c = legacyTile ch.
Proof.
  destruct (legacy_closed level) as (-> & _). unfold cellAt.
  destruct (Z.ltb_spec x 0); [discriminate|]. destruct (Z.ltb_spec y 0); [discriminate|].
  cbn [orb]. rewrite lookup_map.
  destruct (config_rows level !! Z.to_nat y) as [rowStr|] eqn:Hrow; [|discriminate]. cbn.
  rewrite lookup_map.
  destruct (list_ascii_of_string rowStr !! Z.to_nat x) as [ch|] eqn:Hch; [|discriminate]. cbn.
  intros [= <-]. exists rowStr, ch. auto.
Qed.

(** ** Every piece is drawn *)

(** X19.  When the official levels start from well-formed positions, in every
    position the component reaches the board draws the player in the player's
    cell and every box in its own cell, with its own number (its index plus
    one) and with the [on-goal] class exactly when a goal lies there: no piece
    hides another one. *)
Theorem board_draws_every_piece (smooth : Z -> Z -> Z) (PARSED_LEVELS : list ParsedLevel)
    (es : list UIEvent) :
  (forall level, In level PARSED_LEVELS -> wellFormedLevel level) ->
  let s := runUI smooth PARSED_LEVELS mounted es in
  let p := puzzle (game s) in
  currentLevel s <> None ->
  getCellContent p (px (player p)) (py (player p)) = ContentPlayer /\
  forall i b, boxes p !! i = Some b ->
    getCellContent p (px b) (py b) =
      ContentBox (existsb (fun g => samePos g (px b) (py b)) (goals p)) (Z.of_nat i + 1).
Proof.
  intros Hlevels s p Hl.
  destruct (runUI_inv smooth PARSED_LEVELS es mounted (SessionInv_mounted PARSED_LEVELS))
    as [_ H].
  fold s in H. destruct (currentLevel s) as [level|]; [|contradiction].
  destruct H as (Ho & _ & Hs).
  assert (Hw : wellFormedLevel level).
  { destruct Ho as [[_ Hin]|[_ (rnd & n & d & Hgen)]].
    - apply Hlevels. apply list_elem_of_In, list_elem_of_lookup. eauto.
    - apply (generated_wellFormed rnd n d level Hgen). }
  destruct (Hs Hw) as [(Hnd & _ & Hpl & _) _]. fold p in Hnd, Hpl.
  unfold getCellContent. split.
  - assert (E : samePos (player p) (px (player p)) (py (player p)) = true)
      by (apply samePos_true; destruct (player p); reflexivity).
    rewrite E. reflexivity.
  - intros i b Hb.
    destruct (samePos (player p) (px b) (py b)) eqn:E.
    + exfalso. apply Hpl. apply samePos_true in E.
      assert (player p = b) as -> by (destruct b; exact E).
      apply list_elem_of_In. eapply list_elem_of_lookup_2. exact Hb.
    + rewrite (findIndex_unique (boxes p) i b Hnd Hb). reflexivity.
Qed.

Lemma board_draws_every_piece_witness :
  getCellContent (puzzle (game (runUI smoothExact exampleLevels mounted exampleEvents))) 3 2
    = ContentBox true 2.
Proof.
  assert (Hl : forall level, In level exampleLevels -> wellFormedLevel level).
  { intros level [<-|[]]. apply parsed_wellFormed. vm_compute. reflexivity. }
  assert (Hc : currentLevel (runUI smoothExact exampleLevels mounted exampleEvents) <> None)
    by (vm_compute; discriminate).
  destruct (board_draws_every_piece smoothExact exampleLevels exampleEvents Hl Hc)
    as [_ Hbox].
  assert (Hb : boxes (puzzle (game (runUI smoothExact exampleLevels mounted exampleEvents)))
                 !! 1%nat = Some (mkPoint 3 2)) by (vm_compute; reflexivity).
  specialize (Hbox 1%nat (mkPoint 3 2) Hb). cbn [px py] in Hbox. rewrite Hbox.
  vm_compute. reflexivity.
Defined.

(** ** The loader and the first loader *)

(** X20.  On every level text the loader of [levels.ts] finds the boxes and
    the goals that the first loader ([levels.js]) finds, in the same order,
    and the same player ([{x: 0, y: 0}] where the first loader leaves [null]).
    A cell of the first grid keeps its tile, unless it is a Floor cell that
    the new loader marks Void; the cells that the new loader adds to short
    rows are Floor or Void. *)
Theorem loader_agrees_with_first_loader (level : LevelConfig) :
  let new := parseLevel level in
  let old := parseLevelLegacy level in
  initialBoxes new = legacy_boxes old /\
  level_goals new = legacy_goals old /\
  initialPlayer new = default (mkPoint 0 0) (legacy_player old) /\
  (forall x y c, cellAt (legacy_grid old) x y = Some c ->
     cellAt (parsedGrid new) x y = Some c \/
     (c = FLOOR /\ cellAt (parsedGrid new) x y = Some VOID)) /\
  (forall x y c, cellAt (parsedGrid new) x y = Some c ->
     cellAt (legacy_grid old) x y = None -> c = FLOOR \/ c = VOID).
Proof.
  intros new old.
  destruct (parseLevel_entities_closed level) as (Hp & Hb & Hg). cbv zeta in Hp, Hb, Hg.
  rewrite (loader_points isPlayerSymbol) in Hp by reflexivity.
  rewrite (loader_points isBoxSymbol) in Hb by reflexivity.
  rewrite (loader_points isGoalSymbol) in Hg by reflexivity.
  destruct (legacy_closed level) as (Hgrid & Hlp & Hlb & Hlg). cbv zeta in Hgrid, Hlp, Hlb, Hlg.
  fold new in Hp, Hb, Hg. fold old in Hgrid, Hlp, Hlb, Hlg.
  split; [congruence|]. split; [congruence|]. split; [congruence|].
  assert (Hraw : forall x y rowStr, inGrid (levelWidth (config_rows level))
                   (length (config_rows level)) x y ->
                 config_rows level !! Z.to_nat y = Some rowStr ->
                 rawChar (rawGridOf (config_rows level)) (Z.to_nat x, Z.to_nat y)
                   = default FLOOR (list_ascii_of_string rowStr !! Z.to_nat x)).
  { intros x y rowStr [Hx Hy] Hrow. unfold rawChar. cbn [fst snd].
    rewrite (cellAt_rawGridOf _ _ _ rowStr) by (try exact Hrow; lia). cbn.
    unfold charAt. rewrite get_list_ascii. reflexivity. }
  split.
  - intros x y c Hc. destruct (legacy_cell level x y c Hc) as (rowStr & ch & Hrow & Hch & Hx & Hy & ->).
    assert (Hin : inGrid (levelWidth (config_rows level)) (length (config_rows level)) x y).
    { apply lookup_lt_Some in Hrow as Hy'. apply lookup_lt_Some in Hch as Hx'.
      rewrite length_list_ascii in Hx'.
      assert ((String.length rowStr <= levelWidth (config_rows level))%nat).
      { apply levelWidth_ge. apply list_elem_of_In. eapply list_elem_of_lookup_2. exact Hrow. }
      unfold inGrid. lia. }
    unfold new. rewrite (parsed_cell level x y Hin).
    pose proof (outCell_legacy (rawGridOf (config_rows level))
                  (isVoid (floodFill (rawGridOf (config_rows level))
                                     (levelWidth (config_rows level))
                                     (length (config_rows level))))
                  (Z.to_nat x) (Z.to_nat y)) as Hout.
    cbv zeta in Hout. rewrite (Hraw x y rowStr Hin Hrow), Hch in Hout. cbn [default] in Hout.
    destruct Hout as [->|(Ht & _ & ->)]; [left; reflexivity|right].
    split; [exact Ht|reflexivity].
  - intros x y c Hc Hnone.
    pose proof (parsed_inGrid level x y c Hc) as Hin.
    unfold new in Hc. rewrite (parsed_cell level x y Hin) in Hc. injection Hc as <-.
    destruct (lookup_lt_is_Some_2 (config_rows level) (Z.to_nat y)) as [rowStr Hrow];
      [destruct Hin; lia|].
    assert (Hpad : list_ascii_of_string rowStr !! Z.to_nat x = None).
    { rewrite Hgrid in Hnone. unfold cellAt in Hnone.
      destruct Hin as [Hx Hy].
      destruct (Z.ltb_spec x 0); [lia|]. destruct (Z.ltb_spec y 0); [lia|].
      cbn [orb] in Hnone. rewrite lookup_map, Hrow in Hnone. cbn in Hnone.
      rewrite lookup_map in Hnone.
      destruct (list_ascii_of_string rowStr !! Z.to_nat x); [discriminate|reflexivity]. }
    pose proof (outCell_legacy (rawGridOf (config_rows level))
                  (isVoid (floodFill (rawGridOf (config_rows level))
                                     (levelWidth (config_rows level))
                                     (length (config_rows level))))
                  (Z.to_nat x) (Z.to_nat y)) as Hout.
    cbv zeta in Hout. rewrite (Hraw x y rowStr Hin Hrow), Hpad in Hout. cbn [default] in Hout.
    destruct Hout as [->|(_ & _ & ->)]; [left; reflexivity|right; reflexivity].
Qed.
